(** * Spatik core: persistent vector, chronology, markup, worlds, wave merge

    A shallow embedding of the TypeScript sources
    [src/core/immutable.ts], [src/core/model.ts] and the binary serializer,
    together with the properties the specification states about them.

    Conventions of the embedding.
    - JavaScript numbers that the code uses as indices, lengths, keys and
      rates are integers of [Z]; the 32-bit operators [>>], [<<] and [&]
      are written out with their wrap-around ([int32]).
    - [undefined] (and an array hole, which reads as [undefined]) is [None]
      of an option type.
    - A JavaScript exception is [Err e] of the [result] monad. *)

From Stdlib Require Import ZArith Lia Bool.
From stdpp Require Import base numbers option list strings pretty gmap.

Local Open Scope Z_scope.

(** ** Results of fallible code *)

Inductive error : Type :=
| TypeError        (* a property of [undefined] or [null] is read, or a missing method is called *)
| ShapeError       (* an array is used at a level its TypeScript type rules out *)
| OutOfFuel        (* the bounded model of a loop ran out of steps *)
| UnknownRef       (* World._mustFindNearest: Unknown reference *)
| LockedWrite      (* Model._writeSlot: cannot write property in locked world *)
| CommitConflict   (* World.commit: Model failed serializability check *)
| CommitLocked     (* World.commit: parent world is locked and have more than 1 children *)
| DeletedData      (* ChronEntry.data: entry is deleted *)
| UnknownObject    (* coderOf / Indexer: unknown object prototype *)
| UnknownTag       (* OBJECT.predecode: unknown tag *)
| Malformed.       (* varint.decode: invalid varint encoding, or a read past the buffer *)

Inductive result (A : Type) : Type :=
| Ok (a : A)
| Err (e : error).
Arguments Ok {A} a.
Arguments Err {A} e.

#[export] Instance result_ret : MRet result := λ A a, Ok a.
#[export] Instance result_bind : MBind result :=
  λ A B f m, match m with Ok a => f a | Err e => Err e end.
#[export] Instance result_fmap : FMap result :=
  λ A B f m, match m with Ok a => Ok (f a) | Err e => Err e end.

Definition is_ok {A} (r : result A) : bool :=
  match r with Ok _ => true | Err _ => false end.

(** Left-to-right loop over a list that stops at the first exception. *)
Fixpoint foldM {A B} (f : B → A → result B) (b : B) (l : list A) : result B :=
  match l with
  | [] => Ok b
  | a :: l' => b' ← f b a; foldM f b' l'
  end.

(** ** JavaScript arithmetic on 32-bit integers *)

(** ToInt32 on an integral number. *)
Definition int32 (z : Z) : Z := (z + 2 ^ 31) `mod` 2 ^ 32 - 2 ^ 31.

(** [a >> b], [a << b] (the shift count is taken modulo 32) and [a & b]. *)
Definition js_shr (a b : Z) : Z := Z.shiftr (int32 a) (b `mod` 32).
Definition js_shl (a b : Z) : Z := int32 (Z.shiftl (int32 a) (b `mod` 32)).
Definition js_and (a b : Z) : Z := Z.land (int32 a) (int32 b).

(** ** JavaScript arrays

    An array is the list of its cells; [None] is a hole or a stored
    [undefined].  Reading outside the array yields [undefined]; writing
    outside extends the array with holes. *)

Definition array_get {A} (l : list (option A)) (k : Z) : option A :=
  if (0 <=? k) then mjoin (l !! Z.to_nat k) else None.

Definition array_set {A} (l : list (option A)) (k : Z) (v : option A) : list (option A) :=
  let n := Z.to_nat k in
  if (n <? length l)%nat then <[n := v]> l
  else l ++ replicate (n - length l) None ++ [v].

(** ** immutable.ts: Vector *)

Module Vector.

(** [type VectorNode<T> = T[] | VectorNode<T>[]] *)
Inductive VectorNode (T : Type) : Type :=
| Leaf (items : list (option T))
| Inner (children : list (option (VectorNode T))).
Arguments Leaf {T} items.
Arguments Inner {T} children.

Record Vector (T : Type) : Type := mkVector {
  root : VectorNode T;
  shift : Z;
  length : Z;
}.
Arguments mkVector {T} root shift length.
Arguments root {T} v.
Arguments shift {T} v.
Arguments length {T} v.

Definition nodeBits : Z := 5.
Definition nodeSize : Z := js_shl 1 nodeBits.
Definition nodeBitmask : Z := nodeSize - 1.

Section vector.
Context {T : Type}.

(** [Vector.empty = new Vector([], 0, 0)] *)
Definition empty : Vector T := mkVector (Leaf []) 0 0.

(** The [while (shift)] loop of [get], followed by the final read.  The
    descent is by recursion on the node: each round of the loop replaces
    [node] by one of its cells.  A node that is not of the kind the round
    needs is a [ShapeError]; reading a cell of [undefined] is a
    [TypeError]. *)
Fixpoint get_loop (node : VectorNode T) (index sh : Z) {struct node} : result (option T) :=
  match node with
  | Leaf items =>
      if sh =? 0 then Ok (array_get items (js_and index nodeBitmask))
      else Err ShapeError
  | Inner children =>
      if sh =? 0 then Err ShapeError
      else
        (fix pick (cs : list (option (VectorNode T))) (k : nat) {struct cs} :=
           match cs with
           | [] => Err TypeError
           | c :: cs' =>
               match k with
               | O => match c with
                      | Some child => get_loop child index (sh - nodeBits)
                      | None => Err TypeError
                      end
               | S k' => pick cs' k'
               end
           end) children (Z.to_nat (js_and (js_shr index sh) nodeBitmask))
  end.

Definition get (v : Vector T) (index : Z) : result (option T) :=
  if negb ((0 <=? index) && (index <? length v)) then Ok None
  else get_loop (root v) index (shift v).

(** Number of rounds of [while (shift > 0) { ...; shift -= nodeBits }]. *)
Definition rounds (sh : Z) : nat := Z.to_nat ((sh + (nodeBits - 1)) `div` nodeBits).

(** The empty array [[]] that [set] puts where a cell is missing: it is
    used as an inner node when more rounds follow and as a leaf otherwise. *)
Definition fresh_node (n : nat) : VectorNode T :=
  match n with O => Leaf [] | S _ => Inner [] end.

(** The copying descent of [set]: [n] rounds of the [while (shift > 0)]
    loop, then the write [node[index & nodeBitmask] = value]. *)
Fixpoint set_loop (n : nat) (node : VectorNode T) (index sh : Z) (value : option T)
  : result (VectorNode T) :=
  match n with
  | O =>
      match node with
      | Leaf items => Ok (Leaf (array_set items (js_and index nodeBitmask) value))
      | Inner _ => Err ShapeError
      end
  | S n' =>
      match node with
      | Inner children =>
          let nindex := js_and (js_shr index sh) nodeBitmask in
          let child := match array_get children nindex with
                       | Some c => c
                       | None => fresh_node n'
                       end in
          child' ← set_loop n' child index (sh - nodeBits) value;
          Ok (Inner (array_set children nindex (Some child')))
      | Leaf _ => Err ShapeError
      end
  end.

(** The right spine that [set] builds when the trie grows by one level:
    [n] times [node.push([]); node = node[node.length-1]], then
    [node[0] = value]. *)
Fixpoint spine (n : nat) (value : option T) : VectorNode T :=
  match n with
  | O => Leaf [value]
  | S n' => Inner [Some (spine n' value)]
  end.

(** Lines 74-104 of [set]: the part after the guard [index > this.length]. *)
Definition set_within (v : Vector T) (index : Z) (value : option T) : result (Vector T) :=
  if (index <? length v) || (length v <? js_shl nodeSize (shift v)) then
    root' ← set_loop (rounds (shift v)) (root v) index (shift v) value;
    Ok (mkVector root' (shift v) (if index <? length v then length v else index + 1))
  else
    let sh := shift v + nodeBits in
    (* for (var i = 2; i < (shift / nodeBits + 1); i++) *)
    let pushes := Z.to_nat ((sh + (nodeBits - 1)) `div` nodeBits - 1) in
    Ok (mkVector (Inner [Some (root v); Some (spine pushes value)]) sh (length v + 1)).

(** [set]: beyond the end, the vector is first filled with [undefined].
    The source does this by calling [set] itself with [i = vector.length],
    where the guard is false; see [set_unfold]. *)
Definition set (v : Vector T) (index : Z) (value : option T) : result (Vector T) :=
  if index >? length v then
    filled ← foldM (λ vector i, set_within vector i None) v
                   (seqZ (length v) (index - length v));
    set_within filled index value
  else set_within v index value.

Definition append (v : Vector T) (element : option T) : result (Vector T) :=
  set v (length v) element.

Definition last (v : Vector T) : result (option T) := get v (length v - 1).

(** *** The iterator

    [stack] holds pairs of an inner node's cells and the position reached
    in it, the top of the stack first. *)
Definition frame : Type := list (option (VectorNode T)) * Z.

(** [let step = stack.pop(); while (step[1] === nodeSize - 1) step = stack.pop();]
    Popping the empty stack yields [undefined], whose [step[1]] throws. *)
Fixpoint pop_full (stack : list frame) : result (frame * list frame) :=
  match stack with
  | [] => Err TypeError
  | step :: stack' =>
      if step.2 =? nodeSize - 1 then pop_full stack' else Ok (step, stack')
  end.

(** [for (let shift = stack.length * nodeBits; shift < this.shift; shift += nodeBits)
      { stack.push([node, 0]); node = node[0] }], [n] rounds. *)
Fixpoint descend (n : nat) (stack : list frame) (node : option (VectorNode T))
  : result (list frame * option (VectorNode T)) :=
  match n with
  | O => Ok (stack, node)
  | S n' =>
      match node with
      | Some (Inner children) => descend n' ((children, 0) :: stack) (array_get children 0)
      | Some (Leaf _) => Err ShapeError
      | None => Err TypeError
      end
  end.

Definition descend_rounds (sh : Z) (stack : list frame) : nat :=
  Z.to_nat ((sh - Z.of_nat (List.length stack) * nodeBits + (nodeBits - 1)) `div` nodeBits).

(** One round of [while (i < this.length - 1)]; [n] is the number of rounds
    that remain, [this.length - 1 - i]. *)
Fixpoint iterate_loop (n : nat) (sh : Z) (stack : list frame)
    (node : option (VectorNode T)) (i : Z) : result (list (option T)) :=
  match n with
  | O => Ok []
  | S n' =>
      '(stack1, node1) ←
        (if (i >? 0) && (js_and i nodeBitmask =? nodeSize - 1) then
           '(step, rest) ← pop_full stack;
           let step' := (step.1, step.2 + 1) in
           Ok (step' :: rest, array_get step'.1 step'.2)
         else Ok (stack, node));
      '(stack2, node2) ← descend (descend_rounds sh stack1) stack1 node1;
      let i' := i + 1 in
      match node2 with
      | Some (Leaf items) =>
          rest ← iterate_loop n' sh stack2 node2 i';
          Ok (array_get items (js_and i' nodeBitmask) :: rest)
      | Some (Inner _) => Err ShapeError
      | None => Err TypeError
      end
  end.

(** The elements the iterator yields, in order. *)
Definition iterate (v : Vector T) : result (list (option T)) :=
  iterate_loop (Z.to_nat (length v)) (shift v) [] (Some (root v)) (-1).

End vector.
End Vector.

(** ** immutable.ts: ChronEntry, ChronCursor, ChronRange, Chron *)

Module Chron.

(** [atom: T | typeof ChronEntry.deleted] *)
Inductive ChronAtom (T : Type) : Type :=
| Deleted
| Live (a : T).
Arguments Deleted {T}.
Arguments Live {T} a.

Record ChronEntry (T : Type) : Type := mkEntry {
  index : Z;
  key : Z;
  atom : ChronAtom T;
  former : option Z;
  latter : option Z;
}.
Arguments mkEntry {T} index key atom former latter.
Arguments index {T} _.
Arguments key {T} _.
Arguments atom {T} _.
Arguments former {T} _.
Arguments latter {T} _.

(** [anchor: ChronEntry<T> | number] *)
Inductive Anchor (T : Type) : Type :=
| AnchorEntry (e : ChronEntry T)
| AnchorKey (k : Z).
Arguments AnchorEntry {T} e.
Arguments AnchorKey {T} k.

Record ChronCursor (T : Type) : Type := mkCursor {
  anchor : Anchor T;
  offset : Z;
}.
Arguments mkCursor {T} anchor offset.
Arguments anchor {T} _.
Arguments offset {T} _.

Record ChronRange (T : Type) : Type := mkRange {
  head : ChronCursor T;
  tail : ChronCursor T;
}.
Arguments mkRange {T} head tail.
Arguments head {T} _.
Arguments tail {T} _.

Record Chron (T : Type) : Type := mkChron {
  log : Vector.Vector (ChronEntry T);
  last : Z;
}.
Arguments mkChron {T} log last.
Arguments log {T} _.
Arguments last {T} _.

Section chron.
Context {T : Type}.
Implicit Types (e : ChronEntry T) (c : Chron T) (cursor : ChronCursor T).

Definition deleted e : bool :=
  match atom e with Deleted => true | Live _ => false end.

(** [get data()] throws on a deleted entry. *)
Definition entry_data e : result T :=
  match atom e with Deleted => Err DeletedData | Live a => Ok a end.

(** [ChronEntry.isSame].  The first test, [this === _], is covered by the
    comparison of the fields. *)
Definition entry_isSame e (other : Anchor T) : bool :=
  match other with
  | AnchorKey k => key e =? k
  | AnchorEntry e' => (key e' =? key e) && (index e' =? index e)
  end.

Definition entry_head e : ChronCursor T := mkCursor (AnchorEntry e) (-1).
Definition entry_tail e : ChronCursor T := mkCursor (AnchorEntry e) 1.

(** [ChronCursor.isSame] *)
Definition cursor_isSame (this other : ChronCursor T) : bool :=
  if negb (offset other =? offset this) then false
  else match anchor this with
       | AnchorKey k =>
           match anchor other with
           | AnchorKey k' => k' =? k
           | AnchorEntry e' => entry_isSame e' (AnchorKey k)
           end
       | AnchorEntry e => entry_isSame e (anchor other)
       end.

(** [ChronRange.collapsed] and [ChronRange.tail] *)
Definition collapsed (r : ChronRange T) : bool := cursor_isSame (head r) (tail r).
Definition range_tail (r : ChronRange T) : ChronRange T := mkRange (tail r) (tail r).

(** [Chron.root] and [Chron.empty] *)
Definition root : ChronEntry T := mkEntry 0 0 Deleted None None.
Definition empty : result (Chron T) :=
  l ← Vector.append Vector.empty (Some root); Ok (mkChron l 0).

(** [this.log.get(i)] where [i] may be [undefined]: the range test of [get]
    fails on [undefined], so the result is [undefined]. *)
Definition log_get c (i : option Z) : result (option (ChronEntry T)) :=
  match i with
  | Some i => Vector.get (log c) i
  | None => Ok None
  end.

(** [get head()] and [get tail()]: [this.log.get(...).tail] *)
Definition chron_head c : result (ChronCursor T) :=
  r ← Vector.get (log c) 0;
  match r with Some e => Ok (entry_tail e) | None => Err TypeError end.

Definition chron_tail c : result (ChronCursor T) :=
  r ← Vector.get (log c) (last c);
  match r with Some e => Ok (entry_tail e) | None => Err TypeError end.

(** The chron itself, used as a [ChronRange]. *)
Definition self_range c : result (ChronRange T) :=
  h ← chron_head c; t ← chron_tail c; Ok (mkRange h t).

(** The second branch of [anchorOf], for an anchor that is an entry. *)
Definition anchorOf_entry c e : result (option (ChronEntry T)) :=
  a ← Vector.get (log c) (index e);
  match a with
  | None => Ok None
  | Some a => Ok (if entry_isSame a (AnchorEntry e) then Some a else None)
  end.

(** Two entries read from one log are the same object when they were read
    at the same position, which is their [index]. *)
Definition same_object (a : ChronEntry T) (b : option (ChronEntry T)) : bool :=
  match b with
  | Some b => index a =? index b
  | None => false
  end.

(** [for (let _ = head; _ && _ != tail; _ = this.log.get(_.latter)) yield _]:
    the entries the loop yields, with at most [fuel] rounds. *)
Fixpoint range_loop (fuel : nat) c (cur tl : option (ChronEntry T))
  : result (list (ChronEntry T)) :=
  match cur with
  | None => Ok []
  | Some e =>
      if same_object e tl then Ok []
      else match fuel with
           | O => Err OutOfFuel
           | S fuel' =>
               next ← log_get c (latter e);
               rest ← range_loop fuel' c next tl;
               Ok (e :: rest)
           end
  end.

(** Rounds that suffice when the links of the log form no cycle. *)
Definition walk_fuel c : nat := S (Z.to_nat (Vector.length (log c))).

(** [nextTo] for a cursor whose anchor is resolved by [resolve]. *)
Definition nextTo_by (resolve : ChronCursor T → result (option (ChronEntry T)))
    c cursor : result (option (ChronEntry T)) :=
  a ← resolve cursor;
  match a with
  | None => Ok None
  | Some a => if offset cursor <? 0 then Ok (Some a) else log_get c (latter a)
  end.

Definition range_by (resolve : ChronCursor T → result (option (ChronEntry T)))
    c (r : ChronRange T) : result (list (ChronEntry T)) :=
  h ← nextTo_by resolve c (head r);
  t ← nextTo_by resolve c (tail r);
  range_loop (walk_fuel c) c h t.

(** [this.range(this)], which [find] walks when it is called by
    [anchorOf]: both cursors of the chron are anchored at entries. *)
Definition resolve_entry c cursor : result (option (ChronEntry T)) :=
  match anchor cursor with
  | AnchorEntry e => anchorOf_entry c e
  | AnchorKey _ => Err TypeError
  end.

Definition full_range c : result (list (ChronEntry T)) :=
  r ← self_range c; range_by (resolve_entry c) c r.

(** [anchorOf] *)
Definition anchorOf c cursor : result (option (ChronEntry T)) :=
  match anchor cursor with
  | AnchorKey k =>
      entries ← full_range c;
      Ok (List.find (λ entry, key entry =? k) entries)
  | AnchorEntry e => anchorOf_entry c e
  end.

Definition nextTo c cursor : result (option (ChronEntry T)) :=
  nextTo_by (anchorOf c) c cursor.

(** [range], the entries of the generator. *)
Definition range c (r : ChronRange T) : result (list (ChronEntry T)) :=
  range_by (anchorOf c) c r.

(** [chron[Symbol.iterator]()] *)
Definition iterate c : result (list (ChronEntry T)) :=
  r ← self_range c; range c r.

(** [find(test, range?)] *)
Definition find c (test : ChronEntry T → bool) (r : option (ChronRange T))
  : result (option (ChronEntry T)) :=
  r' ← match r with Some r => Ok r | None => self_range c end;
  entries ← range c r';
  Ok (List.find test entries).

(** [data(range?)]: the atoms of the entries that are not deleted. *)
Definition live_atoms (entries : list (ChronEntry T)) : list T :=
  omap (λ e, match atom e with Live a => Some a | Deleted => None end) entries.

Definition data c (r : option (ChronRange T)) : result (list T) :=
  r' ← match r with Some r => Ok r | None => self_range c end;
  entries ← range c r';
  Ok (live_atoms entries).

(** [while (_ && _.latter != index) _ = this.log.get(_.latter)] *)
Fixpoint prevTo_loop (fuel : nat) c (index : Z) (cur : option (ChronEntry T))
  : result (option (ChronEntry T)) :=
  match cur with
  | None => Ok None
  | Some e =>
      if bool_decide (latter e = Some index) then Ok (Some e)
      else match fuel with
           | O => Err OutOfFuel
           | S fuel' =>
               next ← log_get c (latter e);
               prevTo_loop fuel' c index next
           end
  end.

Definition prevTo c cursor : result (option (ChronEntry T)) :=
  a ← anchorOf c cursor;
  match a with
  | None => Ok None
  | Some a =>
      if offset cursor >? 0 then Ok (Some a)
      else
        first ← log_get c (former a);
        prevTo_loop (walk_fuel c) c (index a) first
  end.

(** The truth value of [_.latter]. *)
Definition truthy (n : option Z) : bool :=
  match n with Some n => negb (n =? 0) | None => false end.

(** [insert(cursor, atom, key)]; [key] defaults to [this.randomKey], a
    number the caller cannot predict, so it is an argument here. *)
Definition insert c cursor (a : T) (k : Z) : result (Chron T) :=
  p ← prevTo c cursor;
  match p with
  | None => Ok c
  | Some p =>
      let idx := Vector.length (log c) in
      log1 ← Vector.set (log c) (index p)
                (Some (mkEntry (index p) (key p) (atom p) (former p) (Some idx)));
      log2 ← Vector.set log1 idx
                (Some (mkEntry idx k (Live a) (Some (index p)) (latter p)));
      Ok (mkChron log2 (if truthy (latter p) then last c else idx))
  end.

(** [delete(element)] *)
Definition delete c (element : ChronEntry T) : result (Chron T) :=
  r ← Vector.get (log c) (index element);
  match r with
  | None => Err TypeError
  | Some e =>
      if negb (entry_isSame e (AnchorEntry element)) || deleted e then Ok c
      else
        log' ← Vector.set (log c) (index e)
                  (Some (mkEntry (index e) (key e) Deleted (former e) (latter e)));
        Ok (mkChron log' (last c))
  end.

(** [get recent()] *)
Definition recent c : result (option (ChronEntry T)) := Vector.last (log c).

End chron.
End Chron.

(** ** immutable.ts: ChronMarker, ChronMarkup *)

Module Markup.

Record ChronMarker (M T : Type) : Type := mkMarker {
  data : M;
  range : option (Chron.ChronRange T);      (* [undefined]: the marker was removed *)
}.
Arguments mkMarker {M T} data range.
Arguments data {M T} _.
Arguments range {M T} _.

Record ChronMarkup (M T : Type) : Type := mkMarkup {
  markers : Vector.Vector (ChronMarker M T);
}.
Arguments mkMarkup {M T} markers.
Arguments markers {M T} _.

(** What [entries] does that its caller can see: the callbacks of the
    [ChronMarkerSet] and the entries it yields, in order. *)
Inductive event (M T : Type) : Type :=
| EvAdd (marker : M) (cursor : Chron.ChronCursor T)
| EvDelete (marker : M) (cursor : Chron.ChronCursor T)
| EvYield (entry : Chron.ChronEntry T)
| EvCovered (marker : M) (range : Chron.ChronRange T).
Arguments EvAdd {M T} marker cursor.
Arguments EvDelete {M T} marker cursor.
Arguments EvYield {M T} entry.
Arguments EvCovered {M T} marker range.

(** The optional members of a [ChronMarkerSet]; [add] and [delete] are
    the events above. *)
Record ChronMarkerSet (M T : Type) : Type := mkMarkerSet {
  filter : option (M → Chron.ChronRange T → bool);
  covered : bool;
}.
Arguments mkMarkerSet {M T} filter covered.
Arguments filter {M T} _.
Arguments covered {M T} _.

Section markup.
(** Marker data are objects, which [==] compares by identity. *)
Context {M T : Type} `{EqDecision M}.
Implicit Types (mk : ChronMarkup M T) (m : ChronMarker M T).

Definition empty : ChronMarkup M T := mkMarkup Vector.empty.

(** [for (let marker of this.markers) if (!marker.range) garbage++] *)
Fixpoint count_garbage (cells : list (option (ChronMarker M T))) : result Z :=
  match cells with
  | [] => Ok 0
  | None :: _ => Err TypeError
  | Some m :: cells' =>
      g ← count_garbage cells';
      Ok (match range m with None => g + 1 | Some _ => g end)
  end.

(** Lines 420-429 of [mark]: [n] rounds of the loop over [i], then the
    [append]. *)
Fixpoint mark_slot (n : nat) (i : Z) (ms : Vector.Vector (ChronMarker M T))
    (d : M) (r : option (Chron.ChronRange T)) : result (Vector.Vector (ChronMarker M T)) :=
  match n with
  | O => Vector.append ms (Some (mkMarker d r))
  | S n' =>
      entry ← Vector.get ms i;
      match entry with
      | None => Err TypeError
      | Some entry =>
          if decide (data entry = d) then Vector.set ms i (Some (mkMarker d r))
          else mark_slot n' (i + 1) ms d r
      end
  end.

(** [mark]; [fuel] bounds the depth of the calls of [mark] by itself. *)
Fixpoint mark_fuel (fuel : nat) mk (d : M) (r : option (Chron.ChronRange T))
  : result (ChronMarkup M T) :=
  match fuel with
  | O => Err OutOfFuel
  | S fuel' =>
      cells ← Vector.iterate (markers mk);
      garbage ← count_garbage cells;
      if garbage >? 16 then
        copy ← foldM (λ copy cell,
                  match cell with
                  | None => Err TypeError
                  | Some m =>
                      match range m with
                      | Some mr => mark_fuel fuel' copy (data m) (Some mr)
                      | None => Ok copy
                      end
                  end) empty cells;
        mark_fuel fuel' copy d r
      else
        ms ← mark_slot (Z.to_nat (Vector.length (markers mk))) 0 (markers mk) d r;
        Ok (mkMarkup ms)
  end.

(** The copy that [mark] rebuilds has no removed marker, so the calls on
    it do not call [mark] again: depth 2 is enough (see [mark_fuel_enough]). *)
Definition mark mk (d : M) (r : option (Chron.ChronRange T)) : result (ChronMarkup M T) :=
  mark_fuel 2 mk d r.

(** [for (let _ of this.markers) if (_.data == data) return _.range] *)
Fixpoint rangeOf_loop (cells : list (option (ChronMarker M T))) (d : M)
  : result (option (Chron.ChronRange T)) :=
  match cells with
  | [] => Ok None
  | None :: _ => Err TypeError
  | Some m :: cells' => if decide (data m = d) then Ok (range m) else rangeOf_loop cells' d
  end.

Definition rangeOf mk (d : M) : result (option (Chron.ChronRange T)) :=
  cells ← Vector.iterate (markers mk); rangeOf_loop cells d.

Definition unmark mk (d : M) : result (ChronMarkup M T) := mark mk d None.

(** [*[Symbol.iterator]()]: the markers that have a range.  A marker
    object is identified by its position in the vector. *)
Fixpoint live_loop (pos : nat) (cells : list (option (ChronMarker M T)))
  : result (list (nat * ChronMarker M T)) :=
  match cells with
  | [] => Ok []
  | None :: _ => Err TypeError
  | Some m :: cells' =>
      rest ← live_loop (S pos) cells';
      Ok (match range m with Some _ => (pos, m) :: rest | None => rest end)
  end.

Definition live mk : result (list (nat * ChronMarker M T)) :=
  cells ← Vector.iterate (markers mk); live_loop 0 cells.

(** *** [entries] *)

Definition bucket : Type := list (nat * ChronMarker M T).

Record buckets : Type := mkBuckets {
  heads : gmap Z bucket;
  tails : gmap Z bucket;
}.

(** [chron.anchorOf(cursor)?.index || -1] *)
Definition bucket_key (chron : Chron.Chron T) (cursor : Chron.ChronCursor T) : result Z :=
  a ← Chron.anchorOf chron cursor;
  Ok (match a with
      | Some e => if Chron.index e =? 0 then -1 else Chron.index e
      | None => -1
      end).

(** [map.has(key) ? map.get(key).push(marker) : map.set(key, [marker])] *)
Definition bucket_push (map : gmap Z bucket) (k : Z) (pm : nat * ChronMarker M T)
  : gmap Z bucket :=
  match map !! k with
  | Some b => <[k := b ++ [pm]]> map
  | None => <[k := [pm]]> map
  end.

Definition push (chron : Chron.Chron T) (bs : buckets)
    (cursor : Chron.ChronCursor T) (pm : nat * ChronMarker M T) : result buckets :=
  k ← bucket_key chron cursor;
  Ok (if Chron.offset cursor <? 0
      then mkBuckets (bucket_push (heads bs) k pm) (tails bs)
      else mkBuckets (heads bs) (bucket_push (tails bs) k pm)).

Definition fill (chron : Chron.Chron T) (set : ChronMarkerSet M T)
    (bs : buckets) (pm : nat * ChronMarker M T) : result buckets :=
  match range pm.2 with
  | None => Err TypeError
  | Some r =>
      if match filter set with Some f => negb (f (data pm.2) r) | None => false end
      then Ok bs
      else bs1 ← push chron bs (Chron.head r) pm; push chron bs1 (Chron.tail r) pm
  end.

(** The state of the enumeration: the set [markers] of open markers, in
    the order they were added, and the events so far. *)
Record sweep : Type := mkSweep {
  active : list nat;
  trace : list (event M T);
}.

Definition trigger (silent : bool) (s : sweep) (pm : nat * ChronMarker M T) : result sweep :=
  match range pm.2 with
  | None => Err TypeError
  | Some r =>
      if bool_decide (pm.1 ∈ active s) then
        Ok (mkSweep (List.filter (λ p, negb (bool_decide (p = pm.1))) (active s))
                    (if silent then trace s
                     else trace s ++ [EvDelete (data pm.2) (Chron.tail r)]))
      else
        Ok (mkSweep (active s ++ [pm.1])
                    (if silent then trace s
                     else trace s ++ [EvAdd (data pm.2) (Chron.head r)]))
  end.

(** [heads.get(key)?.forEach(_ => trigger(_, silent))] *)
Definition fire_heads (bs : buckets) (k : Z) (silent : bool) (s : sweep) : result sweep :=
  match heads bs !! k with
  | Some b => foldM (trigger silent) s b
  | None => Ok s
  end.

(** [tails.get(key)?.reverse()?.forEach(_ => trigger(_, silent))];
    [reverse] reverses the array of the bucket in place. *)
Definition fire_tails (bs : buckets) (k : Z) (silent : bool) (s : sweep)
  : result (buckets * sweep) :=
  match tails bs !! k with
  | Some b =>
      s' ← foldM (trigger silent) s (reverse b);
      Ok (mkBuckets (heads bs) (<[k := reverse b]> (tails bs)), s')
  | None => Ok (bs, s)
  end.

(** One entry of the walk before the queried range. *)
Definition sweep_silent (st : buckets * sweep) (entry : Chron.ChronEntry T)
  : result (buckets * sweep) :=
  s1 ← fire_heads st.1 (Chron.index entry) true st.2;
  fire_tails st.1 (Chron.index entry) true s1.

(** One entry of the queried range. *)
Definition sweep_entry (st : buckets * sweep) (entry : Chron.ChronEntry T)
  : result (buckets * sweep) :=
  s1 ← fire_heads st.1 (Chron.index entry) false st.2;
  let s2 := mkSweep (active s1) (trace s1 ++ [EvYield entry]) in
  fire_tails st.1 (Chron.index entry) false s2.

Definition covered_events (cells : list (nat * ChronMarker M T))
    (before now : list nat) : list (event M T) :=
  omap (λ p, if bool_decide (p ∈ now)
             then pm ← List.find (λ pm, bool_decide (pm.1 = p)) cells;
                  r ← range pm.2; Some (EvCovered (data pm.2) r)
             else None) before.

Definition entries mk (chron : Chron.Chron T) (set : ChronMarkerSet M T)
    (rng : option (Chron.ChronRange T)) : result (list (event M T)) :=
  cells ← live mk;
  bs ← foldM (fill chron set) (mkBuckets ∅ ∅) cells;
  (* const suppressHead = range && range.head != chron.head: the getter
     [chron.head] makes a new cursor, which no other object is *)
  suppressHead ← match rng with
                 | None => Ok false
                 | Some _ => _ ← Chron.chron_head chron; Ok true
                 end;
  s1 ← fire_heads bs (-1) suppressHead (mkSweep [] []);
  '(bs1, s2) ← fire_tails bs (-1) suppressHead s1;
  '(bs2, s3) ← match rng with
               | None => Ok (bs1, s2)
               | Some r =>
                   h ← Chron.chron_head chron;
                   before ← Chron.range chron (Chron.mkRange h (Chron.head r));
                   foldM sweep_silent (bs1, s2) before
               end;
  let rangeMayBeCoveredBy := active s3 in
  walk ← match rng with
         | Some r => Chron.range chron r
         | None => Chron.iterate chron
         end;
  '(bs3, s4) ← foldM sweep_entry (bs2, s3) walk;
  Ok (if covered set
      then trace s4 ++ covered_events cells rangeMayBeCoveredBy (active s4)
      else trace s4).

End markup.
End Markup.

(** ** model.ts: worlds and models *)

Module World.

(** The values of slots: the token [none], [undefined], numbers, plain
    [Ref] objects and [Model] objects.  A [Model] object is the model
    with this id that a world holds in its [_models]. *)
Inductive value : Type :=
| VNone
| VUndefined
| VNumber (n : Z)
| VRef (id : string)
| VModel (world : nat) (id : string).

#[export] Instance value_eq_dec : EqDecision value.
Proof. solve_decision. Defined.

(** The part of a model class that the worlds use. *)
Record ModelConstructor : Type := mkConstructor {
  modelName : string;
  slotCount : nat;
}.

Record Model : Type := mkModel {
  constructor : ModelConstructor;
  reads : list value;
  writes : list value;
}.

Record CacheEntry : Type := mkCacheEntry {
  entry_model : value;
  entry_slots : list value;
}.

(** [LookupCache._cache], a [Map] in insertion order. *)
Definition LookupCache : Type := list (string * CacheEntry).

(** A [World]; the key stream, which only [create] uses, is left out. *)
Record World : Type := mkWorld {
  parent : option nat;
  models : list (string * Model);
  children : list nat;
  locked : bool;
  lookupCache : option LookupCache;
}.

(** The worlds that exist; a [World] object is its position. *)
Abbreviation Heap := (list World).

(** *** Effects: the heap is kept when an exception is thrown *)

Definition Eff (A : Type) : Type := Heap → result A * Heap.

#[export] Instance eff_ret : MRet Eff := λ A a h, (Ok a, h).
#[export] Instance eff_bind : MBind Eff :=
  λ A B f m h, match m h with
               | (Ok a, h') => f a h'
               | (Err e, h') => (Err e, h')
               end.

Definition throw {A} (e : error) : Eff A := λ h, (Err e, h).
Definition get_heap : Eff Heap := λ h, (Ok h, h).
Definition modify (f : Heap → Heap) : Eff unit := λ h, (Ok tt, f h).

(** *** [Map] and arrays *)

Section maps.
Context {V : Type}.

Fixpoint map_get (m : list (string * V)) (k : string) : option V :=
  match m with
  | [] => None
  | (k', v) :: m' => if String.eqb k' k then Some v else map_get m' k
  end.

(** [Map.set]: an existing key keeps its place. *)
Fixpoint map_set (m : list (string * V)) (k : string) (v : V) : list (string * V) :=
  match m with
  | [] => [(k, v)]
  | (k', v') :: m' => if String.eqb k' k then (k, v) :: m' else (k', v') :: map_set m' k v
  end.

End maps.

(** [a[i]]: a place outside the array reads as [undefined]. *)
Definition slot_get (a : list value) (i : Z) : value :=
  if 0 <=? i then default VUndefined (a !! Z.to_nat i) else VUndefined.

(** [a[i] = v] for [0 <= i]: a place outside extends the array. *)
Definition slot_set (a : list value) (i : nat) (v : value) : list value :=
  if (i <? List.length a)%nat then <[i := v]> a
  else a ++ replicate (i - List.length a) VUndefined ++ [v].

(** *** Ref *)

(** [_ instanceof Ref] *)
Definition is_ref (v : value) : bool :=
  match v with VRef _ | VModel _ _ => true | _ => false end.

(** [Ref.id] of a [Ref]. *)
Definition ref_id (v : value) : string :=
  match v with VRef id | VModel _ id => id | _ => EmptyString end.


(** [_ === none] *)
Definition is_none (v : value) : bool :=
  match v with VNone => true | _ => false end.

(** [Model._downcast] *)
Definition downcast (v : value) : value :=
  if is_ref v then VRef (ref_id v) else v.

(** [a != b] for two values of which none is a plain [Ref]: two objects
    are equal when they are the same object, [undefined] equals itself,
    numbers are compared, and a number equals no object (the object
    converts to a string that is no number). *)
Definition loose_neq (a b : value) : bool :=
  match a, b with
  | VNone, VNone => false
  | VUndefined, VUndefined => false
  | VNumber n, VNumber m => negb (n =? m)
  | VModel w i, VModel w' i' => negb ((w =? w')%nat && String.eqb i i')
  | _, _ => true
  end.

Section world.

(** [s == n] for a string and a number, which converts the string to a
    number. *)
Variable string_equals_number : string → Z → bool.

(** [Ref.equal]: [this._id == Ref.id(other)], where [Ref.id] of what is
    no [Ref] is the value itself.  The token [none] converts to the
    string of a plain object. *)
Definition ref_equal (this other : value) : bool :=
  match other with
  | VRef id | VModel _ id => String.eqb (ref_id this) id
  | VNumber n => string_equals_number (ref_id this) n
  | VUndefined => false
  | VNone => String.eqb (ref_id this) "[object Object]"
  end.

Definition world_of (w : nat) : Eff World :=
  λ h, match h !! w with Some x => (Ok x, h) | None => (Err TypeError, h) end.

Definition update_world (w : nat) (f : World → World) : Eff unit :=
  modify (alter f w).

(** [new constructor(id, world)] *)
Definition new_model (c : ModelConstructor) : Model :=
  mkModel c (replicate (slotCount c) VNone) (replicate (slotCount c) VNone).

(** [this._models.set(id, model)] *)
Definition with_model (id : string) (m : Model) (x : World) : World :=
  mkWorld (parent x) (map_set (models x) id m) (children x) (locked x) (lookupCache x).

(** [World._add] *)
Definition add (w : nat) (id : string) (c : ModelConstructor) : Eff value :=
  _ ← update_world w (with_model id (new_model c));
  mret (VModel w id).

(** [World._findOwn] *)
Definition findOwn (w : nat) (id : string) : Eff (option Model) :=
  x ← world_of w; mret (map_get (models x) id).

(** [LookupCache.getBinding] and [LookupCache.getSlot] *)
Definition getBinding (cache : LookupCache) (id : string) : option value :=
  entry_model <$> map_get cache id.

Definition getSlot_cached (cache : LookupCache) (id : string) (i : Z) : value :=
  match map_get cache id with
  | Some entry => slot_get (entry_slots entry) i
  | None => VUndefined
  end.

(** [World._findNearest]: the loop over the worlds up the parents, with
    at most [fuel] rounds. *)
Fixpoint findNearest_loop (fuel : nat) (world : option nat) (id : string)
  : Eff (option value) :=
  match world with
  | None => mret None
  | Some w =>
      match fuel with
      | O => throw OutOfFuel
      | S fuel' =>
          x ← world_of w;
          match map_get (models x) id with
          | Some _ => mret (Some (VModel w id))
          | None =>
              match locked x, lookupCache x with
              | true, Some cache => mret (getBinding cache id)
              | _, _ => findNearest_loop fuel' (parent x) id
              end
          end
      end
  end.

(** Rounds that suffice when no world is its own ancestor. *)
Definition findNearest (w : nat) (id : string) : Eff (option value) :=
  h ← get_heap; findNearest_loop (S (List.length h)) (Some w) id.

Definition mustFindNearest (w : nat) (id : string) : Eff value :=
  found ← findNearest w id;
  match found with
  | Some m => mret m
  | None => throw UnknownRef
  end.

(** [Model.constructorOf] of a [Model] object. *)
Definition constructorOf (m : value) : Eff ModelConstructor :=
  match m with
  | VModel w id =>
      own ← findOwn w id;
      match own with
      | Some model => mret (constructor model)
      | None => throw TypeError
      end
  | _ => throw TypeError
  end.

(** [World.bind] of a [Ref] with this id; a [Ref] is an object, so that
    the test [!ref] fails. *)
Definition bind (w : nat) (id : string) : Eff value :=
  found ← mustFindNearest w id;
  match found with
  | VModel w' _ =>
      if (w' =? w)%nat then mret found
      else c ← constructorOf found; add w id c
  | _ => throw TypeError
  end.

(** [Model._upcast] of a model of the world [w]. *)
Definition upcast (w : nat) (v : value) : Eff value :=
  if is_ref v then bind w (ref_id v) else mret v.

(** The model [this], which is the model with this id of its world. *)
Definition this_model (w : nat) (id : string) : Eff Model :=
  own ← findOwn w id;
  match own with
  | Some m => mret m
  | None => throw TypeError
  end.

(** An assignment to a cell of [_reads] or [_writes] of the model, which
    is an object of the heap. *)
Definition set_model (w : nat) (id : string) (m : Model) : Eff unit :=
  update_world w (with_model id m).

(** [Model.getOwnSlot] *)
Definition getOwnSlot (w : nat) (id : string) (index : Z) : Eff value :=
  m ← this_model w id;
  if index >=? Z.of_nat (List.length (reads m)) then mret VNone
  else if negb (is_none (slot_get (writes m) index)) then upcast w (slot_get (writes m) index)
  else if negb (is_none (slot_get (reads m) index)) then upcast w (slot_get (reads m) index)
  else mret VNone.

(** [World._getOwnSlot] *)
Definition world_getOwnSlot (w : nat) (id : string) (index : Z) : Eff value :=
  own ← findOwn w id;
  match own with
  | None => mret VNone
  | Some _ => getOwnSlot w id index
  end.

(** [World._getSlot], with at most [fuel] rounds. *)
Fixpoint getSlot_loop (fuel : nat) (world : option nat) (id : string) (index : Z)
  : Eff value :=
  match world with
  | None => mret VUndefined
  | Some w =>
      match fuel with
      | O => throw OutOfFuel
      | S fuel' =>
          own ← world_getOwnSlot w id index;
          if negb (is_none own) then mret own
          else
            x ← world_of w;
            match locked x, lookupCache x with
            | true, Some cache => mret (getSlot_cached cache id index)
            | _, _ => getSlot_loop fuel' (parent x) id index
            end
      end
  end.

Definition getSlot (w : nat) (id : string) (index : Z) : Eff value :=
  h ← get_heap; getSlot_loop (S (List.length h)) (Some w) id index.

(** [Model._getParentSlot] *)
Definition getParentSlot (w : nat) (id : string) (index : Z) : Eff value :=
  x ← world_of w;
  match parent x with
  | Some p => getSlot p id index
  | None => mret VUndefined
  end.

(** [Model._readSlot].  A negative [index] does not get past
    [getOwnSlot], which reads [undefined] there. *)
Definition readSlot (w : nat) (id : string) (index : Z) : Eff value :=
  m ← this_model w id;
  if index >=? Z.of_nat (List.length (reads m)) then mret VUndefined
  else
    own ← getOwnSlot w id index;
    if negb (is_none own) then mret own
    else
      v ← getParentSlot w id index;
      m' ← this_model w id;
      _ ← set_model w id (mkModel (constructor m')
                            (slot_set (reads m') (Z.to_nat index) (downcast v)) (writes m'));
      upcast w v.

(** [Model._writeSlot].  With a negative [index] the assignment would
    set a property of the array that is no element; the slots that
    [defineSlot] makes have no such index. *)
Definition writeSlot (w : nat) (id : string) (index : Z) (v : value) : Eff value :=
  m ← this_model w id;
  if index >=? Z.of_nat (List.length (reads m)) then mret VUndefined
  else
    x ← world_of w;
    if locked x then throw LockedWrite
    else if index <? 0 then throw ShapeError
    else
      _ ← set_model w id (mkModel (constructor m) (reads m)
                            (slot_set (writes m) (Z.to_nat index) (downcast v)));
      upcast w v.


(** The loop of [Model.committable] over the slots [idxs]; [p] is the
    parent world, which has a model with this id. *)
Fixpoint committable_loop (w p : nat) (id : string) (idxs : list nat) : Eff bool :=
  match idxs with
  | [] => mret true
  | i :: rest =>
      m ← this_model w id;
      let r := slot_get (reads m) (Z.of_nat i) in
      if is_none r then committable_loop w p id rest
      else
        my ← upcast w r;
        other ← getOwnSlot p id (Z.of_nat i);
        if is_ref my && negb (ref_equal my other) then mret false
        else if loose_neq my other then mret false
        else committable_loop w p id rest
  end.

(** [Model.committable] *)
Definition committable (w : nat) (id : string) : Eff bool :=
  x ← world_of w;
  match parent x with
  | None => mret true
  | Some p =>
      pown ← findOwn p id;
      match pown with
      | None => mret true
      | Some _ =>
          m ← this_model w id;
          committable_loop w p id (seq 0 (List.length (reads m)))
      end
  end.

(** The two loops of [Model.commit]. *)
Fixpoint commit_writes (w p : nat) (id : string) (idxs : list nat) : Eff unit :=
  match idxs with
  | [] => mret tt
  | i :: rest =>
      m ← this_model w id;
      let v := slot_get (writes m) (Z.of_nat i) in
      if is_none v then commit_writes w p id rest
      else
        update ← upcast w v;
        pm ← this_model p id;
        _ ← set_model p id (mkModel (constructor pm) (reads pm)
                              (slot_set (writes pm) i (downcast update)));
        m' ← this_model w id;
        _ ← set_model w id (mkModel (constructor m') (reads m')
                              (slot_set (writes m') i VNone));
        commit_writes w p id rest
  end.

Fixpoint commit_reads (w p : nat) (id : string) (idxs : list nat) : Eff unit :=
  match idxs with
  | [] => mret tt
  | i :: rest =>
      pm ← this_model p id;
      if negb (is_none (slot_get (reads pm) (Z.of_nat i))) then commit_reads w p id rest
      else
        m ← this_model w id;
        update ← upcast w (slot_get (reads m) (Z.of_nat i));
        pm' ← this_model p id;
        _ ← set_model p id (mkModel (constructor pm')
                              (slot_set (reads pm') i (downcast update)) (writes pm'));
        m' ← this_model w id;
        _ ← set_model w id (mkModel (constructor m')
                              (slot_set (reads m') i VNone) (writes m'));
        commit_reads w p id rest
  end.

(** [Model.commit] *)
Definition commit_model (w : nat) (id : string) : Eff unit :=
  x ← world_of w;
  match parent x with
  | None => mret tt
  | Some p =>
      pown ← findOwn p id;
      _ ← match pown with
          | Some _ => mret tt
          | None => c ← constructorOf (VModel w id); _ ← add p id c; mret tt
          end;
      m ← this_model w id;
      _ ← commit_writes w p id (seq 0 (List.length (writes m)));
      m' ← this_model w id;
      commit_reads w p id (seq 0 (List.length (reads m')))
  end.

(** [for (let model of this._models.values())]: the models are visited
    by position, the ones that are added during the loop too; [k] is the
    position and [fuel] bounds the rounds. *)
Fixpoint check_models (fuel : nat) (w k : nat) : Eff unit :=
  match fuel with
  | O => throw OutOfFuel
  | S fuel' =>
      x ← world_of w;
      match models x !! k with
      | None => mret tt
      | Some (id, _) =>
          ok ← committable w id;
          if (ok : bool) then check_models fuel' w (S k) else throw CommitConflict
      end
  end.

Fixpoint commit_models (fuel : nat) (w k : nat) : Eff unit :=
  match fuel with
  | O => throw OutOfFuel
  | S fuel' =>
      x ← world_of w;
      match models x !! k with
      | None => mret tt
      | Some (id, _) => _ ← commit_model w id; commit_models fuel' w (S k)
      end
  end.

(** No world holds more models than there are in all worlds. *)
Definition models_fuel (h : Heap) : nat :=
  S (foldr (λ x n, (List.length (models x) + n)%nat) O h).

(** [World.commit] *)
Definition commit (w : nat) : Eff unit :=
  x ← world_of w;
  match parent x with
  | None => mret tt
  | Some p =>
      px ← world_of p;
      if locked px && (1 <? List.length (children px))%nat then throw CommitLocked
      else
        h ← get_heap;
        _ ← check_models (models_fuel h) w 0;
        h' ← get_heap;
        commit_models (models_fuel h') w 0
  end.

(** [Set.add] *)
Definition set_add (l : list nat) (w : nat) : list nat :=
  if bool_decide (w ∈ l) then l else l ++ [w].

(** [new World(parent)] *)
Definition new_world (p : option nat) : Eff nat :=
  h ← get_heap;
  let w := List.length h in
  _ ← modify (λ h, h ++ [mkWorld p [] [] false None]);
  _ ← match p with
      | Some p' => update_world p' (λ x, mkWorld (parent x) (models x)
                                           (set_add (children x) w) (locked x) (lookupCache x))
      | None => mret tt
      end;
  mret w.

(** [World.detach] *)
Definition detach (w : nat) : Eff unit :=
  x ← world_of w;
  match parent x with
  | None => mret tt
  | Some p =>
      _ ← update_world p (λ y, mkWorld (parent y) (models y)
                                 (List.filter (λ c, negb (c =? w)%nat) (children y))
                                 (locked y) (lookupCache y));
      update_world w (λ y, mkWorld None (models y) (children y) (locked y) (lookupCache y))
  end.

(** [set parent(parent)] *)
Definition set_parent (w p : nat) : Eff unit :=
  _ ← detach w;
  _ ← update_world w (λ y, mkWorld (Some p) (models y) (children y) (locked y)
                             (lookupCache y));
  update_world p (λ y, mkWorld (parent y) (models y) (set_add (children y) w)
                         (locked y) (lookupCache y)).

(** [Model.getOwnSlots] *)
Fixpoint overlay (slots ws : list value) (i : nat) : list value :=
  match ws with
  | [] => slots
  | v :: ws' => overlay (if is_none v then slots else slot_set slots i v) ws' (S i)
  end.

Definition getOwnSlots (m : Model) : list value := overlay (reads m) (writes m) 0.

(** The loop of [LookupCache.put] over the slots of a model that the
    cache has. *)
Fixpoint put_slots (w : nat) (id : string) (slots : list value) (idxs : list nat)
  : Eff (list value) :=
  match idxs with
  | [] => mret slots
  | i :: rest =>
      v ← getOwnSlot w id (Z.of_nat i);
      put_slots w id (if is_none v then slots else slot_set slots i v) rest
  end.

(** [LookupCache.put] of the model with this id of the world [w]. *)
Definition put (cache : LookupCache) (w : nat) (id : string) : Eff LookupCache :=
  m ← this_model w id;
  match map_get cache id with
  | None => mret (map_set cache id (mkCacheEntry (VModel w id) (getOwnSlots m)))
  | Some entry =>
      slots ← put_slots w id (entry_slots entry) (seq 0 (List.length (reads m)));
      mret (map_set cache id (mkCacheEntry (VModel w id) slots))
  end.

(** [world._models.forEach(p => cache.put(p))] *)
Fixpoint put_models (fuel : nat) (cache : LookupCache) (w k : nat) : Eff LookupCache :=
  match fuel with
  | O => throw OutOfFuel
  | S fuel' =>
      x ← world_of w;
      match models x !! k with
      | None => mret cache
      | Some (id, _) => cache' ← put cache w id; put_models fuel' cache' w (S k)
      end
  end.

(** The first loop of [_requestLookupCache]: the worlds without a cache
    above this one, and the world with a cache that ends them. *)
Fixpoint cache_path (fuel : nat) (world : option nat) (path : list nat)
  : Eff (list nat * option nat) :=
  match world with
  | None => mret (path, None)
  | Some w =>
      match fuel with
      | O => throw OutOfFuel
      | S fuel' =>
          x ← world_of w;
          match lookupCache x with
          | Some _ => mret (path, Some w)
          | None => cache_path fuel' (parent x) (path ++ [w])
          end
      end
  end.

(** [while (path.length > 0) { const world = path.pop(); ... }]: the
    worlds of [path] from its end. *)
Fixpoint fill_cache (cache : LookupCache) (popped : list nat) : Eff LookupCache :=
  match popped with
  | [] => mret cache
  | w :: rest =>
      h ← get_heap;
      cache' ← put_models (models_fuel h) cache w 0;
      fill_cache cache' rest
  end.

Definition lookupCacheFactor : nat := 64.

Definition set_cache (w : nat) (c : option LookupCache) : Eff unit :=
  update_world w (λ y, mkWorld (parent y) (models y) (children y) (locked y) c).

(** [World._requestLookupCache] *)
Definition requestLookupCache (w : nat) : Eff unit :=
  x ← world_of w;
  if negb (locked x) then mret tt
  else
    h ← get_heap;
    '(path, top) ← cache_path (S (List.length h)) (parent x) [];
    if (List.length path <? lookupCacheFactor)%nat then mret tt
    else
      '(cache, path') ←
        match top with
        | Some t =>
            y ← world_of t;
            _ ← set_cache t None;
            mret (default [] (lookupCache y), path ++ [t])
        | None => mret ([], path)
        end;
      cache' ← fill_cache cache (rev path');
      set_cache w (Some cache').

(** The loop of [World.lock], with at most [fuel] rounds. *)
Fixpoint lock_loop (fuel : nat) (world : option nat) : Eff unit :=
  match world with
  | None => mret tt
  | Some w =>
      match fuel with
      | O => throw OutOfFuel
      | S fuel' =>
          x ← world_of w;
          if locked x then mret tt
          else
            _ ← update_world w (λ y, mkWorld (parent y) (models y) (children y) true
                                       (lookupCache y));
            lock_loop fuel' (parent x)
      end
  end.

(** [World.lock] *)
Definition lock (w : nat) : Eff unit :=
  h ← get_heap;
  _ ← lock_loop (S (List.length h)) (Some w);
  requestLookupCache w.

(** [World.unlock]: [queue] is the array, its end first. *)
Fixpoint unlock_loop (fuel : nat) (queue : list nat) : Eff unit :=
  match queue with
  | [] => mret tt
  | w :: rest =>
      match fuel with
      | O => throw OutOfFuel
      | S fuel' =>
          x ← world_of w;
          if negb (locked x) then unlock_loop fuel' rest
          else
            _ ← update_world w (λ y, mkWorld (parent y) (models y) (children y) false None);
            unlock_loop fuel' (rev (children x) ++ rest)
      end
  end.

Definition unlock (w : nat) : Eff unit :=
  x ← world_of w;
  if negb (locked x) then mret tt
  else h ← get_heap; unlock_loop (S (2 * List.length h)) [w].

End world.

End World.

(** ** model.ts: Stream *)

Module Stream.

(** A stream of values of [T] ([None] is [undefined]) with subscribers
    of [F].  What a caller can see of [push] and [subscribe] are the
    calls of the subscribers, in order; the subscribers do not use the
    stream while they run. *)
Record Stream (F T : Type) : Type := mkStream {
  subscribers : list F;
  current : option T;
}.
Arguments mkStream {F T} subscribers current.
Arguments subscribers {F T} _.
Arguments current {F T} _.

Section stream.
Context {F T : Type}.

(** [new Stream()] *)
Definition empty : Stream F T := mkStream [] None.

(** [push]: the calls [this._subscribers[i](next)]. *)
Definition push (s : Stream F T) (next : option T) : Stream F T * list (F * option T) :=
  (mkStream (subscribers s) next, (λ f, (f, next)) <$> subscribers s).

(** [subscribe]: the call [wrapper(this._current)], if there is one. *)
Definition subscribe (s : Stream F T) (fn : F) : Stream F T * list (F * option T) :=
  (mkStream (subscribers s ++ [fn]) (current s),
   match current s with
   | Some v => [(fn, Some v)]
   | None => []
   end).

(** Pushes one after the other. *)
Definition push_all (s : Stream F T) (nexts : list (option T)) : Stream F T :=
  foldl (λ s next, (push s next).1) s nexts.

End stream.
End Stream.

(** ** model.ts: App, WaveMergeState, WaveApp *)

Module WaveApp.
Import World.

(** The character [:]. *)
Definition colon : Ascii.ascii := Ascii.ascii_of_nat 58.

(** [s.split(':')] *)
Fixpoint split_colon (s : string) : list string :=
  match s with
  | EmptyString => [EmptyString]
  | String c s' =>
      match split_colon s' with
      | [] => [String c EmptyString]
      | word :: rest =>
          if Ascii.eqb c colon then EmptyString :: word :: rest
          else String c word :: rest
      end
  end.

Record WaveMergeState : Type := mkState {
  tag : list string;
  rate : Z;
}.

(** [WaveMergeState._parseTag]; the rate of a call is an integer or
    [undefined]. *)
Definition parseTag (id tagString : string) (r : option Z) : list string :=
  (λ t, if String.eqb t "id" then id
        else if String.eqb t "rate" then
               match r with Some n => pretty n | None => "*" end
        else t) <$> split_colon tagString.

(** [WaveMergeState._canMerge]; [undefined <= n] is false. *)
Definition canMerge (st : WaveMergeState) (t : list string) (r : option Z) : bool :=
  if match r with Some n => n <=? rate st | None => false end then false
  else if negb (List.length t =? List.length (tag st))%nat then false
  else forallb (λ ts, negb (negb (String.eqb ts.1 "*") && negb (String.eqb ts.1 ts.2)))
               (zip t (tag st)).

(** [WaveMergeState.merge] *)
Definition merge (st : WaveMergeState) (id tagString : string) (r : option Z)
  : WaveMergeState * bool :=
  let t := parseTag id tagString r in
  if negb (canMerge st t r) then (mkState t 1, false)
  else (mkState t (rate st + 1), true).

(** A subscriber of the stream of mutations: [watch] subscribes a filter
    that calls [fn] for a world in which the model is modified. *)
Inductive subscriber : Type :=
| Watcher (ref : string) (fn : nat).

Record WaveApp : Type := mkApp {
  worlds : list nat;
  redo : list nat;
  mutations : Stream.Stream subscriber nat;
  waveMergeState : WaveMergeState;
}.

(** [new WaveApp(world)] *)
Definition new_app (world : nat) : WaveApp :=
  mkApp [world] [] Stream.empty (mkState ["*"] 0).

(** [get _world()] *)
Definition top (app : WaveApp) : Eff nat :=
  match list.last (worlds app) with
  | Some w => mret w
  | None => throw TypeError
  end.

(** [App._cleanRedoBuffer] *)
Fixpoint detach_all (ws : list nat) : Eff unit :=
  match ws with
  | [] => mret tt
  | w :: rest => _ ← detach w; detach_all rest
  end.

Definition cleanRedoBuffer (app : WaveApp) : Eff WaveApp :=
  _ ← detach_all (redo app);
  mret (mkApp (worlds app) [] (mutations app) (waveMergeState app)).

(** [App.advance] *)
Definition advance (app : WaveApp) : Eff WaveApp :=
  app1 ← cleanRedoBuffer app;
  w ← top app1;
  _ ← lock w;
  n ← new_world (Some w);
  mret (mkApp (worlds app1 ++ [n]) (redo app1) (mutations app1) (waveMergeState app1)).

(** [WaveApp._advanceWaveMerge] *)
Definition advanceWaveMerge (app : WaveApp) (id tagString : string) (r : option Z)
  : Eff WaveApp :=
  let '(st, merged) := merge (waveMergeState app) id tagString r in
  let app1 := mkApp (worlds app) (redo app) (mutations app) st in
  if merged then cleanRedoBuffer app1 else advance app1.

(** [Model.isModified] *)
Definition isModified (m : Model) : bool :=
  existsb (λ v, negb (is_none v)) (writes m).

(** The filter of [WaveApp.watch], called with a world: the functions
    that it calls. *)
Definition filter_calls (ref : string) (fn : nat) (world : nat) : Eff (list nat) :=
  own ← findOwn world ref;
  match own with
  | Some m => if isModified m then mret [fn] else mret []
  | None => mret []
  end.

(** [WaveApp.watch]: [this._mutations.subscribe(filter)], and the
    functions that are called meanwhile. *)
Definition watch (app : WaveApp) (ref : string) (fn : nat) : Eff (WaveApp * list nat) :=
  let '(s, calls) := Stream.subscribe (mutations app) (Watcher ref fn) in
  called ← match calls with
           | (Watcher ref' fn', Some world) :: _ => filter_calls ref' fn' world
           | _ => mret []
           end;
  mret (mkApp (worlds app) (redo app) s (waveMergeState app), called).

End WaveApp.

(** ** The binary serializer: values, registry, Indexer *)

Module Binarizer.

(** Where the code meets a value that its TypeScript types rule out, or
    that the embedding leaves out, the result is [ShapeError]. *)

(** The values the serializer is used on.  A number is a safe integer
    ([Num]) or any other double, given by the eight bytes that
    [DataView.setFloat64] writes for it ([Float]).  The characters of a
    string are the code units below 256.  An object is a cell of the
    heap; [Ref a] is the reference to the cell [a], so that two equal
    references are one object. *)
Inductive value : Type :=
| Undefined
| Null
| Bool (b : bool)
| Num (n : Z)
| Float (bytes : list Z)
| Str (s : string)
| Ref (a : nat).

#[export] Instance value_eq_dec : EqDecision value.
Proof. solve_decision. Defined.

(** Objects: arrays (a hole is [Undefined]), plain objects with their own
    enumerable properties in the order of [Object.keys], [Map] and [Set]
    in insertion order, an instance of a class (named by its
    constructor), and the wrappers [new Number(v)], [new Boolean(b)]. *)
Inductive object : Type :=
| Array (items : list value)
| Plain (props : list (string * value))
| MapObject (entries : list (value * value))
| SetObject (elements : list value)
| Instance (constructor : string) (props : list (string * value))
| NumberObject (v : value)
| BooleanObject (b : bool).

Abbreviation Heap := (list object).

(** [Object.getPrototypeOf(_).constructor], by name. *)
Definition constructorOf (o : object) : string :=
  match o with
  | Array _ => "Array"
  | Plain _ => "Object"
  | MapObject _ => "Map"
  | SetObject _ => "Set"
  | Instance c _ => c
  | NumberObject _ => "Number"
  | BooleanObject _ => "Boolean"
  end.

(** The own enumerable properties that [for (var key in _)] visits. *)
Definition ownProperties (o : object) : list (string * value) :=
  match o with
  | Plain props | Instance _ props => props
  | _ => []
  end.

(** A [Map], or the properties of an object, in insertion order:
    [assoc_set] keeps the place of a key that is there, and puts a new
    key last. *)
Section assoc.
Context {K V : Type} `{EqDecision K}.

Fixpoint assoc_get (m : list (K * V)) (k : K) : option V :=
  match m with
  | [] => None
  | (k', v) :: m' => if decide (k' = k) then Some v else assoc_get m' k
  end.

Fixpoint assoc_set (m : list (K * V)) (k : K) (v : V) : list (K * V) :=
  match m with
  | [] => [(k, v)]
  | (k', v') :: m' =>
      if decide (k' = k) then (k', v) :: m' else (k', v') :: assoc_set m' k v
  end.

End assoc.

(** *** Custom: the registry

    A registered constructor with its tag, its [_binaryKeys] (one list
    of keys for each class of the inheritance chain) and its
    [_binaryCoder].  The coders that the file registers itself are those
    of [Boolean] and [Number]; the coders with [noindex] ([Token],
    [FixedCoder]) are left out of the embedding. *)
Inductive CustomCoder : Type :=
| BooleanCoder
| NumberCoder.

Record Registered : Type := mkRegistered {
  constructor : string;
  tag : string;
  binaryKeys : list (list string);
  binaryCoder : option CustomCoder;
}.

(** [Custom.register(Boolean, '@js.Boolean', ...)] and
    [Custom.register(Number, '@js.Number', ...)]: no [binaryProperties],
    nothing inherited, so [_binaryKeys] is [[[]]]. *)
Definition registered_by_file : list Registered :=
  [ mkRegistered "Number" "@js.Number" [[]] (Some NumberCoder);
    mkRegistered "Boolean" "@js.Boolean" [[]] (Some BooleanCoder) ].

Section registry.
(** The classes registered with [serializable(name)], the latest first. *)
Variable classes : list Registered.

Definition registry : list Registered := classes ++ registered_by_file.

Definition registrationOf (c : string) : option Registered :=
  List.find (λ r, String.eqb (constructor r) c) registry.

Definition tagOfConstructor (c : string) : option string :=
  tag <$> registrationOf c.

Definition constructorOfTag (t : string) : option Registered :=
  List.find (λ r, String.eqb (tag r) t) registry.

(** *** CountMap: a [Map] from values to counts, in insertion order *)

Definition CountMap : Type := list (value * Z).

Definition count_get (m : CountMap) (k : value) : option Z := assoc_get m k.

Definition count_has (m : CountMap) (k : value) : bool :=
  match count_get m k with Some _ => true | None => false end.

Definition count_set (m : CountMap) (k : value) (c : Z) : CountMap := assoc_set m k c.

(** [inc]: [(this._map.get(_) || 0) + 1]. *)
Definition inc (m : CountMap) (k : value) : CountMap :=
  count_set m k (default 0 (count_get m k) + 1).

(** [flatten]: [Array.from(this._map).sort((a, b) => b[1] - a[1])], a
    stable sort by descending count, then the keys. *)
Fixpoint sort_insert (e : value * Z) (l : list (value * Z)) : list (value * Z) :=
  match l with
  | [] => [e]
  | e' :: l' => if e.2 <? e'.2 then e' :: sort_insert e l' else e :: l
  end.

Definition sort_counts (m : CountMap) : list (value * Z) := foldr sort_insert [] m.

Definition flatten (m : CountMap) : list value := (sort_counts m).*1.

(** *** Indexer *)

Record Indexer : Type := mkIndexer {
  refcount : CountMap;
  queue : list nat;              (* the stack [_queue], its top first *)
}.

Definition object_at (h : Heap) (a : nat) : result object :=
  match h !! a with
  | Some o => Ok o
  | None => Err ShapeError      (* a reference is an object of the heap *)
  end.

(** [_add]: [typeof null] is ['object'], and [Object.getPrototypeOf(null)]
    throws a TypeError. *)
Definition add (h : Heap) (ix : Indexer) (v : value) : result Indexer :=
  match v with
  | Null => Err TypeError
  | Ref a =>
      if count_has (refcount ix) v then Ok (mkIndexer (inc (refcount ix) v) (queue ix))
      else
        o ← object_at h a;
        let counts :=
          match tagOfConstructor (constructorOf o) with
          | Some t => count_set (refcount ix) (Str t) 1000000000
          | None => refcount ix
          end in
        Ok (mkIndexer (inc counts v) (a :: queue ix))
  | Str s =>
      if (2 <? String.length s)%nat then Ok (mkIndexer (inc (refcount ix) v) (queue ix))
      else Ok ix
  | _ => Ok ix
  end.

(** The values that [_index] passes to [_add] for an object taken from
    the queue, in order. *)
Definition children (o : object) : result (list value) :=
  match o with
  | SetObject elements => Ok elements
  | MapObject entries => Ok (flat_map (λ kv, [kv.2; kv.1]) entries)
  | Array items => Ok items
  | _ =>
      match tagOfConstructor (constructorOf o) with
      | Some _ => Ok ((ownProperties o).*2)
      | None =>
          if String.eqb (constructorOf o) "Object"
          then Ok (flat_map (λ kv, [Str kv.1; kv.2]) (ownProperties o))
          else Err UnknownObject
      end
  end.

Fixpoint index_loop (fuel : nat) (h : Heap) (ix : Indexer) : result Indexer :=
  match queue ix with
  | [] => Ok ix
  | a :: rest =>
      match fuel with
      | O => Err OutOfFuel
      | S fuel' =>
          o ← object_at h a;
          vs ← children o;
          ix' ← foldM (add h) (mkIndexer (refcount ix) rest) vs;
          index_loop fuel' h ix'
      end
  end.

(** [index]: every object enters the queue once, so the loop takes at
    most one round for each object of the heap. *)
Definition index (h : Heap) (v : value) : result CountMap :=
  ix ← add h (mkIndexer [] []) v;
  ix' ← index_loop (length h) h ix;
  Ok (inc (refcount ix') v).


(** *** Code with a state and exceptions *)

Definition State (S A : Type) : Type := S → result (A * S).

#[export] Instance state_ret {S} : MRet (State S) := λ A a s, Ok (a, s).
#[export] Instance state_bind {S} : MBind (State S) :=
  λ A B f m s, match m s with
               | Ok (a, s') => f a s'
               | Err e => Err e
               end.

Definition get {S} : State S S := λ s, Ok (s, s).
Definition modify {S} (f : S → S) : State S unit := λ s, Ok (tt, f s).
Definition throw {S A} (e : error) : State S A := λ _, Err e.
Definition lift {S A} (r : result A) : State S A :=
  λ s, match r with Ok a => Ok (a, s) | Err e => Err e end.

Fixpoint for_each {S A} (f : A → State S unit) (l : list A) : State S unit :=
  match l with
  | [] => mret tt
  | a :: l' => f a ;; for_each f l'
  end.

(** *** The operators of JavaScript on numbers *)

Definition uint32 (z : Z) : Z := z `mod` 2 ^ 32.
Definition js_or (a b : Z) : Z := Z.lor (int32 a) (int32 b).
(** [a >>> b] *)
Definition js_ushr (a b : Z) : Z := Z.shiftr (uint32 a) (b `mod` 32).

Definition MAX_SAFE_INTEGER : Z := 2 ^ 53 - 1.

(** *** BinaryWriter: the bytes written so far *)

(** [DataView.setUint8] stores the number modulo 256. *)
Definition pushUint8 (w : list Z) (number : Z) : list Z := w ++ [number `mod` 256].

(** [pushFloat64]: the eight bytes of the double. *)
Definition pushFloat64 (w : list Z) (bytes : list Z) : list Z := w ++ bytes.

Definition charCode (c : Ascii.ascii) : Z := Z.of_nat (Ascii.nat_of_ascii c).

(** [pushUTF8String]: a code unit of the embedding is below 256, so the
    branches for surrogates and for three and four bytes are not met. *)
Fixpoint pushUTF8String_loop (w : list Z) (s : string) : list Z :=
  match s with
  | EmptyString => w
  | String c s' =>
      let u := charCode c in
      let w' :=
        if u <=? 127 then pushUint8 w u
        else pushUint8 (pushUint8 w (js_or 192 (js_shr u 6))) (js_or 128 (js_and u 63)) in
      pushUTF8String_loop w' s'
  end.

Definition pushUTF8String (w : list Z) (s : string) : list Z :=
  pushUint8 (pushUTF8String_loop w s) 0.

(** [pushVarint].  In the first loop [number /= 128] leaves a fraction:
    the number is [n / d] there, and each operator that follows drops the
    fraction. *)
Fixpoint pushVarint_high (fuel : nat) (n d : Z) (w : list Z) : result (Z * list Z) :=
  if 2147483648 * d <? n then
    match fuel with
    | O => Err OutOfFuel
    | S fuel' =>
        pushVarint_high fuel' n (d * 128)
          (pushUint8 w (js_or (js_and (n `div` d) 255) 128))
    end
  else Ok (n `div` d, w).

Fixpoint pushVarint_low (fuel : nat) (number : Z) (w : list Z) : result (list Z) :=
  if js_and number (-128) =? 0 then Ok (pushUint8 w (js_or number 0))
  else
    match fuel with
    | O => Err OutOfFuel
    | S fuel' =>
        pushVarint_low fuel' (js_ushr number 7)
          (pushUint8 w (js_or (js_and number 255) 128))
    end.

Definition pushVarint (w : list Z) (number : Z) : result (list Z) :=
  if MAX_SAFE_INTEGER <? number then Err Malformed
  else
    '(number', w') ← pushVarint_high 8 number 1 w;
    pushVarint_low 8 number' w'.

(** *** The coders *)

Inductive Coder : Type :=
| UNKNOWN | POINTER | POSITIVE_INT | NEGATIVE_INT | FLOAT64 | STRING
| UNDEFINED | TRUE | FALSE | NULL | ARRAY | PLAIN_OBJECT | OBJECT | MAP | SET.

#[export] Instance Coder_eq_dec : EqDecision Coder.
Proof. solve_decision. Defined.

Definition coder_id (c : Coder) : Z :=
  match c with
  | UNKNOWN => 0 | POINTER => 1 | POSITIVE_INT => 2 | NEGATIVE_INT => 3
  | FLOAT64 => 4 | STRING => 5 | UNDEFINED => 6 | TRUE => 7 | FALSE => 8
  | NULL => 9 | ARRAY => 10 | PLAIN_OBJECT => 11 | OBJECT => 12 | MAP => 13
  | SET => 14
  end.

(** The table [_coders]. *)
Definition coders (i : Z) : option Coder :=
  match i with
  | 0 => Some UNKNOWN | 1 => Some POINTER | 2 => Some POSITIVE_INT
  | 3 => Some NEGATIVE_INT | 4 => Some FLOAT64 | 5 => Some STRING
  | 6 => Some UNDEFINED | 7 => Some TRUE | 8 => Some FALSE | 9 => Some NULL
  | 10 => Some ARRAY | 11 => Some PLAIN_OBJECT | 12 => Some OBJECT
  | 13 => Some MAP | 14 => Some SET
  | _ => None
  end.

Definition coderOf (h : Heap) (v : value) : result Coder :=
  match v with
  | Num n => Ok (if n <? 0 then NEGATIVE_INT else POSITIVE_INT)
  | Float _ => Ok FLOAT64
  | Bool b => Ok (if b then TRUE else FALSE)
  | Str _ => Ok STRING
  | Undefined => Ok UNDEFINED
  | Null => Ok NULL
  | Ref a =>
      o ← object_at h a;
      match o with
      | MapObject _ => Ok MAP
      | SetObject _ => Ok SET
      | Array _ => Ok ARRAY
      | _ =>
          match tagOfConstructor (constructorOf o) with
          | Some _ => Ok OBJECT
          | None =>
              if String.eqb (constructorOf o) "Object" then Ok PLAIN_OBJECT
              else Err UnknownObject
          end
      end
  end.

(** *** BinaryEncoder *)

Record Encoder : Type := mkEncoder {
  headBytes : list Z;            (* [_head] *)
  flag : Z;
  atomCount : Z;
  objectCount : Z;
  bodyBytes : list Z;            (* the encoder itself, a BinaryWriter *)
}.

Definition write (f : list Z → result (list Z)) : State Encoder unit :=
  λ e, w ← f (bodyBytes e);
       Ok (tt, mkEncoder (headBytes e) (flag e) (atomCount e) (objectCount e) w).

(** The index of a value in the table of the objects ([indexes.get]). *)
Fixpoint indexes_get (objects : list value) (v : value) : option Z :=
  match objects with
  | [] => None
  | o :: objects' =>
      if decide (o = v) then Some 0
      else Z.succ <$> indexes_get objects' v
  end.

(** The property [$[key]]. *)
Definition property (props : list (string * value)) (key : string) : value :=
  default Undefined (assoc_get props key).

Section encoder.
Variable h : Heap.
Variable objects : list value.

Definition object_of (v : value) : result object :=
  match v with
  | Ref a => object_at h a
  | _ => Err ShapeError
  end.

(** [coder.encode($, _)], with [next] for [_.next]. *)
Definition encode_with (next : value → State Encoder unit) (coder : Coder) (v : value)
  : State Encoder unit :=
  match coder with
  | UNKNOWN | UNDEFINED | TRUE | FALSE | NULL => mret tt
  | POINTER | POSITIVE_INT =>
      match v with
      | Num n => write (λ w, pushVarint w n)
      | _ => throw ShapeError
      end
  | NEGATIVE_INT =>
      match v with
      | Num n => write (λ w, pushVarint w (- n - 1))
      | _ => throw ShapeError
      end
  | FLOAT64 =>
      match v with
      | Float bytes => write (λ w, Ok (pushFloat64 w bytes))
      | _ => throw ShapeError
      end
  | STRING =>
      match v with
      | Str s => write (λ w, Ok (pushUTF8String w s))
      | _ => throw ShapeError
      end
  | ARRAY =>
      o ← lift (object_of v);
      match o with
      | Array items =>
          write (λ w, pushVarint w (Z.of_nat (length items))) ;;
          for_each next items
      | _ => throw ShapeError
      end
  | PLAIN_OBJECT =>
      o ← lift (object_of v);
      let keys := (ownProperties o).*1 in
      write (λ w, pushVarint w (Z.of_nat (length keys))) ;;
      for_each (λ key, next (Str key) ;; next (property (ownProperties o) key)) keys
  | OBJECT =>
      o ← lift (object_of v);
      next (from_option Str Undefined (tagOfConstructor (constructorOf o))) ;;
      match registrationOf (constructorOf o) with
      | None => throw TypeError
      | Some r =>
          match binaryCoder r with
          | Some NumberCoder =>
              match o with
              | NumberObject n => next n
              | _ => throw ShapeError
              end
          | Some BooleanCoder =>
              match o with
              | BooleanObject b => next (Bool b)
              | _ => throw ShapeError
              end
          | None =>
              for_each (λ keys, write (λ w, pushVarint w (Z.of_nat (length keys))))
                       (binaryKeys r) ;;
              for_each (λ keys, for_each (λ key, next (property (ownProperties o) key)) keys)
                       (binaryKeys r)
          end
      end
  | MAP =>
      o ← lift (object_of v);
      match o with
      | MapObject entries =>
          write (λ w, pushVarint w (Z.of_nat (length entries))) ;;
          for_each (λ kv, next kv.1 ;; next kv.2) entries
      | _ => throw ShapeError
      end
  | SET =>
      o ← lift (object_of v);
      match o with
      | SetObject elements =>
          write (λ w, pushVarint w (Z.of_nat (length elements))) ;;
          for_each next elements
      | _ => throw ShapeError
      end
  end.

(** [next].  A value inside an object that the table does not hold is
    written in place; [fuel] bounds the depth of such values. *)
Fixpoint next (fuel : nat) (v : value) (isObject : bool) : State Encoder unit :=
  match fuel with
  | O => throw OutOfFuel
  | S fuel' =>
      let pointer := if isObject then None else indexes_get objects v in
      coder ← match pointer with
              | Some _ => mret POINTER
              | None => lift (coderOf h v)
              end;
      modify (λ e,
        let flag' := js_or (flag e)
                       (if atomCount e `mod` 2 =? 0 then coder_id coder else js_shl (coder_id coder) 4) in
        let odd := negb (atomCount e `mod` 2 =? 0) in
        mkEncoder (if odd then pushUint8 (headBytes e) flag' else headBytes e)
                  (if odd then 0 else flag')
                  (atomCount e + 1)
                  (if isObject then objectCount e + 1 else objectCount e)
                  (bodyBytes e)) ;;
      encode_with (λ v', next fuel' v' false) coder
                  (match pointer with Some p => Num p | None => v end)
  end.

(** [finish] *)
Definition finish (root : value) (e : Encoder) : result (list Z) :=
  let head := if flag e =? 0 then headBytes e else pushUint8 (headBytes e) (flag e) in
  meta ← pushVarint [] (atomCount e);
  meta ← pushVarint meta (objectCount e);
  meta ← pushVarint meta (default 0 (indexes_get objects root));
  Ok (meta ++ head ++ bodyBytes e).

End encoder.

(** [encode] *)
Definition encode (h : Heap) (v : value) : result (list Z) :=
  counts ← index h v;
  let objects := flatten counts in
  '(_, e) ← for_each (λ o, next h objects (S (S (length h))) o true) objects
                     (mkEncoder [] 0 0 0 []);
  finish objects v e.


(** *** BinaryReader *)

(** [readUint8]: [DataView.getUint8] throws outside the buffer. *)
Definition readUint8 (buffer : list Z) (offset : nat) : result (Z * nat) :=
  match buffer !! offset with
  | Some byte => Ok (byte, S offset)
  | None => Err Malformed
  end.

Fixpoint readVarint_loop (fuel : nat) (buffer : list Z) (offset : nat) (number shift : Z)
  : result (Z * nat) :=
  match fuel with
  | O => Err OutOfFuel
  | S fuel' =>
      if 49 <? shift then Err Malformed
      else
        '(byte, offset') ← readUint8 buffer offset;
        let number' :=
          number + (if shift <? 28 then js_shl (js_and byte 127) shift
                    else js_and byte 127 * 2 ^ shift) in
        if 128 <=? byte then readVarint_loop fuel' buffer offset' number' (shift + 7)
        else Ok (number', offset')
  end.

(** The ninth round throws, as [shift] is 56 then. *)
Definition readVarint (buffer : list Z) (offset : nat) : result (Z * nat) :=
  readVarint_loop 9 buffer offset 0 0.

Definition readFloat64 (buffer : list Z) (offset : nat) : result (list Z * nat) :=
  let bytes := take 8 (drop offset buffer) in
  if (length bytes =? 8)%nat then Ok (bytes, (offset + 8)%nat) else Err Malformed.

(** [TextDecoder.decode] on the bytes of a string of the embedding; a
    sequence for another character is left out. *)
Fixpoint utf8_decode (bytes : list Z) : result string :=
  match bytes with
  | [] => Ok EmptyString
  | b :: rest =>
      if b <? 128 then String (Ascii.ascii_of_nat (Z.to_nat b)) <$> utf8_decode rest
      else
        match rest with
        | b' :: rest' =>
            if (194 <=? b) && (b <=? 195) && (128 <=? b') && (b' <=? 191)
            then String (Ascii.ascii_of_nat (Z.to_nat ((b - 192) * 64 + (b' - 128))))
                   <$> utf8_decode rest'
            else Err ShapeError
        | [] => Err ShapeError
        end
  end.

(** [readUTF8String]: up to the first zero byte, or to the end. *)
Fixpoint until_zero (bytes : list Z) : list Z :=
  match bytes with
  | [] => []
  | b :: rest => if b =? 0 then [] else b :: until_zero rest
  end.

Definition readUTF8String (buffer : list Z) (offset : nat) : result (string * nat) :=
  let bytes := until_zero (drop offset buffer) in
  s ← utf8_decode bytes;
  Ok (s, (offset + length bytes + 1)%nat).

(** *** BinaryDecoder *)

Record Decoder : Type := mkDecoder {
  buffer : list Z;
  objects : Z;                   (* [meta.objects] *)
  root : Z;                      (* [meta.root] *)
  flags : list Z;                (* [head.flags] *)
  bodyOffset : nat;              (* [head.offset + head.byteLength] *)
  offset : nat;
  atomIndex : Z;
  objectIndex : Z;
  decoded : list (option value);
  created : Heap;                (* the objects that the decoder made *)
}.

Definition with_offset (n : nat) (d : Decoder) : Decoder :=
  mkDecoder (buffer d) (objects d) (root d) (flags d) (bodyOffset d) n
            (atomIndex d) (objectIndex d) (decoded d) (created d).
Definition with_indexes (a o : Z) (d : Decoder) : Decoder :=
  mkDecoder (buffer d) (objects d) (root d) (flags d) (bodyOffset d) (offset d)
            a o (decoded d) (created d).
Definition with_decoded (l : list (option value)) (d : Decoder) : Decoder :=
  mkDecoder (buffer d) (objects d) (root d) (flags d) (bodyOffset d) (offset d)
            (atomIndex d) (objectIndex d) l (created d).
Definition with_created (g : Heap) (d : Decoder) : Decoder :=
  mkDecoder (buffer d) (objects d) (root d) (flags d) (bodyOffset d) (offset d)
            (atomIndex d) (objectIndex d) (decoded d) g.

Definition read {A} (f : list Z → nat → result (A * nat)) : State Decoder A :=
  λ d, '(a, n) ← f (buffer d) (offset d); Ok (a, with_offset n d).

(** The constructor: the meta numbers, then the head of one half byte
    for each atom. *)
Definition new_decoder (buffer : list Z) : result Decoder :=
  '(atoms, n1) ← readVarint buffer 0;
  '(objects, n2) ← readVarint buffer n1;
  '(root, n3) ← readVarint buffer n2;
  let headByteLength := Z.to_nat (atoms `div` 2 + (if atoms `mod` 2 =? 0 then 0 else 1)) in
  if (length buffer <? n3 + headByteLength)%nat then Err Malformed
  else Ok (mkDecoder buffer objects root (take headByteLength (drop n3 buffer))
                     (n3 + headByteLength) (n3 + headByteLength) 0 0 [] []).

(** [coderByIndex]: a flag outside the head reads as [undefined], which
    [&] takes for 0; an id without a coder gives [undefined], whose
    methods cannot be called. *)
Definition coderByIndex (d : Decoder) (index : Z) : result Coder :=
  let shift := if index `mod` 2 =? 0 then 0 else 4 in
  let flag := default 0 (flags d !! Z.to_nat (index `div` 2)) in
  match coders (js_shr (js_and flag (js_shl 15 shift)) shift) with
  | Some coder => Ok coder
  | None => Err TypeError
  end.

(** A new object, and the reference to it. *)
Definition create (o : object) : State Decoder value :=
  λ d, Ok (Ref (length (created d)), with_created (created d ++ [o]) d).

(** [this._decoded[i]] *)
Definition decoded_at (d : Decoder) (i : Z) : value :=
  default Undefined (array_get (decoded d) i).

(** [run n m]: [m] for [n] times, and what it returned. *)
Fixpoint run {A} (n : nat) (m : State Decoder A) : State Decoder (list A) :=
  match n with
  | O => mret []
  | S n' => a ← m; l ← run n' m; mret (a :: l)
  end.

Definition truthy (v : value) : bool :=
  match v with
  | Undefined | Null | Bool false => false
  | Num n => negb (n =? 0)
  | Str s => negb (String.eqb s "")
  | _ => true
  end.

(** The coders without [predecode], whose [decode] does not use [$]. *)
Definition decode_atom (coder : Coder) : State Decoder value :=
  match coder with
  | POINTER | POSITIVE_INT => n ← read readVarint; mret (Num n)
  | NEGATIVE_INT => n ← read readVarint; mret (Num (- (n + 1)))
  | FLOAT64 => bytes ← read readFloat64; mret (Float bytes)
  | STRING => s ← read readUTF8String; mret (Str s)
  | TRUE => mret (Bool true)
  | FALSE => mret (Bool false)
  | NULL => mret Null
  | _ => mret Undefined
  end.

(** [coder.predecode(_)], with [next] for [_.next]. *)
Definition predecode_with (next : State Decoder value) (coder : Coder) : State Decoder value :=
  match coder with
  | ARRAY =>
      length ← read readVarint;
      run (Z.to_nat length) next ;;
      create (Array (replicate (Z.to_nat length) Undefined))
  | PLAIN_OBJECT =>
      size ← read readVarint;
      run (Z.to_nat size) (next ;; next) ;;
      create (Plain [])
  | OBJECT =>
      tag ← next;
      match (match tag with Str t => constructorOfTag t | _ => None end) with
      | None => throw UnknownTag
      | Some r =>
          match binaryCoder r with
          | Some BooleanCoder => v ← next; create (BooleanObject (truthy v))
          | Some NumberCoder =>
              v ← next;
              match v with
              | Num _ | Float _ => create (NumberObject v)
              | _ => throw ShapeError
              end
          | None =>
              sizes ← run (length (binaryKeys r)) (read readVarint);
              for_each (λ size, run (Z.to_nat size) next ;; mret tt) sizes ;;
              create (Instance (constructor r) [])
          end
      end
  | MAP =>
      size ← read readVarint;
      run (Z.to_nat size) (next ;; next) ;;
      create (MapObject [])
  | SET =>
      size ← read readVarint;
      run (Z.to_nat size) next ;;
      create (SetObject [])
  | _ => decode_atom coder
  end.

(** [predecodeNext] *)
Fixpoint predecodeNext (fuel : nat) (isObject : bool) : State Decoder value :=
  match fuel with
  | O => throw OutOfFuel
  | S fuel' =>
      d ← get;
      coder ← lift (coderByIndex d (atomIndex d));
      let decodeIndex := objectIndex d in
      modify (with_indexes (atomIndex d + 1)
                (if isObject then objectIndex d + 1 else objectIndex d)) ;;
      v ← predecode_with (predecodeNext fuel' false) coder;
      (if isObject then modify (λ d, with_decoded (array_set (decoded d) decodeIndex (Some v)) d)
       else mret tt) ;;
      d' ← get;
      match coder, v with
      | POINTER, Num p =>
          if p <? Z.of_nat (length (decoded d')) then mret (decoded_at d' p) else mret v
      | _, _ => mret v
      end
  end.


(** [$[i] = v] on an array: writing after the end extends the array. *)
Definition set_item (items : list value) (i : nat) (v : value) : list value :=
  if (i <? length items)%nat then <[i := v]> items
  else items ++ replicate (i - length items) Undefined ++ [v].

(** [$.add(v)] *)
Definition set_add (elements : list value) (v : value) : list value :=
  if decide (v ∈ elements) then elements else elements ++ [v].

(** A change of the object [$].  Setting a property of [undefined], or
    of a value that is no object, is a TypeError. *)
Definition update (target : value) (f : object → result object) : State Decoder unit :=
  match target with
  | Ref a =>
      λ d, o ← object_at (created d) a;
           o' ← f o;
           Ok (tt, with_created (<[a := o']> (created d)) d)
  | _ => throw TypeError
  end.

(** [$[key] = v] on an object with properties. *)
Definition set_property (key : string) (v : value) (o : object) : result object :=
  match o with
  | Plain props => Ok (Plain (assoc_set props key v))
  | Instance c props => Ok (Instance c (assoc_set props key v))
  | _ => Err ShapeError
  end.

(** [coder.decode(_, $)], with [next] for [_.next]. *)
Definition decode_with (next : State Decoder value) (coder : Coder) (target : value)
  : State Decoder value :=
  match coder with
  | ARRAY =>
      length ← read readVarint;
      for_each (λ i,
          v ← next;
          update target (λ o, match o with
                              | Array items => Ok (Array (set_item items i v))
                              | _ => Err ShapeError
                              end))
        (seq 0 (Z.to_nat length)) ;;
      mret target
  | PLAIN_OBJECT =>
      size ← read readVarint;
      run (Z.to_nat size)
          (key ← next;
           v ← next;
           match key with
           | Str k => update target (set_property k v)
           | _ => throw ShapeError
           end) ;;
      mret target
  | OBJECT =>
      tag ← next;
      match (match tag with Str t => constructorOfTag t | _ => None end) with
      | None => throw TypeError
      | Some r =>
          match binaryCoder r with
          | Some _ => mret target
          | None =>
              sizes ← run (length (binaryKeys r)) (read readVarint);
              for_each (λ ks,
                  for_each (λ k,
                      v ← next;
                      update target (set_property (default "undefined" (ks.1 !! k)) v))
                    (seq 0 (Z.to_nat ks.2)))
                (zip (binaryKeys r) sizes) ;;
              mret target
          end
      end
  | MAP =>
      size ← read readVarint;
      run (Z.to_nat size)
          (k ← next;
           v ← next;
           update target (λ o, match o with
                               | MapObject entries => Ok (MapObject (assoc_set entries k v))
                               | _ => Err TypeError
                               end)) ;;
      mret target
  | SET =>
      size ← read readVarint;
      run (Z.to_nat size)
          (v ← next;
           update target (λ o, match o with
                               | SetObject elements => Ok (SetObject (set_add elements v))
                               | _ => Err TypeError
                               end)) ;;
      mret target
  | _ => decode_atom coder
  end.

(** [decodeNext] *)
Fixpoint decodeNext (fuel : nat) (isObject : bool) : State Decoder value :=
  match fuel with
  | O => throw OutOfFuel
  | S fuel' =>
      d ← get;
      coder ← lift (coderByIndex d (atomIndex d));
      let predecoded := decoded_at d (objectIndex d) in
      modify (with_indexes (atomIndex d + 1)
                (if isObject then objectIndex d + 1 else objectIndex d)) ;;
      match coder with
      | POINTER => p ← read readVarint; d' ← get; mret (decoded_at d' p)
      | _ => decode_with (decodeNext fuel' false) coder predecoded
      end
  end.

(** [decode]: [next(true)] for each object before [finish], which
    rewinds and takes each object again, now with [decodeNext].  The
    result is the root with the heap of the objects made. *)
Definition decode (buffer : list Z) : result (value * Heap) :=
  d ← new_decoder buffer;
  let fuel := S (length buffer) in
  '(_, d1) ← run (Z.to_nat (objects d)) (predecodeNext fuel true) d;
  let predecodedCount := objectIndex d1 in
  '(_, d2) ← run (Z.to_nat predecodedCount) (decodeNext fuel true)
                 (with_offset (bodyOffset d1) (with_indexes 0 0 d1));
  Ok (decoded_at d2 (root d2), created d2).

End registry.

End Binarizer.

(** ** immutable.ts: List *)

Module ImmutableList.

(** [class ListNode<T>]: [next] is [undefined] in the last node. *)
Inductive ListNode (T : Type) : Type :=
| mkNode (data : T) (next : option (ListNode T)).
Arguments mkNode {T} data next.

Record List (T : Type) : Type := mkList {
  next : option (ListNode T);
  length : Z;
}.
Arguments mkList {T} next length.
Arguments next {T} l.
Arguments length {T} l.

Section list.
Context {T : Type}.

(** [List.empty = new List(undefined, 0)] *)
Definition empty : List T := mkList None 0.

Definition prepend (l : List T) (element : T) : List T :=
  mkList (Some (mkNode element (next l))) (length l + 1).

(** [get first() { return this.next?.data }] *)
Definition first (l : List T) : option T :=
  match next l with
  | Some (mkNode data _) => Some data
  | None => None
  end.

(** [for (var next = this.next; next; next = next.next) yield next.data] *)
Fixpoint iterate_nodes (node : ListNode T) : list T :=
  match node with
  | mkNode data nxt =>
      data :: match nxt with Some n => iterate_nodes n | None => [] end
  end.

Definition iterate (l : List T) : list T :=
  match next l with
  | Some n => iterate_nodes n
  | None => []
  end.

End list.
End ImmutableList.

(** ** immutable.ts: Vector, the operations that use the iterator, and [pop] *)

Module VectorOps.
Import Vector.

Section vector_ops.
Context {T : Type}.

(** [for (let element of this) body]: the rounds of the iterator, as in
    [iterate_loop], with the body of the loop at each [yield].  The body
    returns the next state of the loop ([inl]), or leaves it with the
    value of a [return] ([inr]). *)
Fixpoint for_of_loop {A R} (n : nat) (sh : Z) (stack : list (frame (T := T)))
    (node : option (VectorNode T)) (i : Z)
    (body : A → option T → result (A + R)) (a : A) : result (A + R) :=
  match n with
  | O => Ok (inl a)
  | S n' =>
      '(stack1, node1) ←
        (if (i >? 0) && (js_and i nodeBitmask =? nodeSize - 1) then
           '(step, rest) ← pop_full stack;
           let step' := (step.1, step.2 + 1) in
           Ok (step' :: rest, array_get step'.1 step'.2)
         else Ok (stack, node));
      '(stack2, node2) ← descend (descend_rounds sh stack1) stack1 node1;
      let i' := i + 1 in
      match node2 with
      | Some (Leaf items) =>
          r ← body a (array_get items (js_and i' nodeBitmask));
          match r with
          | inl a' => for_of_loop n' sh stack2 node2 i' body a'
          | inr res => Ok (inr res)
          end
      | Some (Inner _) => Err ShapeError
      | None => Err TypeError
      end
  end.

Definition for_of {A R} (v : Vector T) (body : A → option T → result (A + R)) (a : A)
  : result (A + R) :=
  for_of_loop (Z.to_nat (length v)) (shift v) [] (Some (root v)) (-1) body a.

(** [filter(predicate)]; the loop has no [return]. *)
Definition filter (v : Vector T) (predicate : option T → bool) : result (Vector T) :=
  r ← for_of (R := Empty_set) v
         (λ acc element,
            if predicate element then acc' ← append acc element; Ok (inl acc')
            else Ok (inl acc))
         empty;
  match r with
  | inl acc => Ok acc
  | inr none => match none : Empty_set with end
  end.

(** [find(predicate)]: the first element that passes, or [undefined]. *)
Definition find (v : Vector T) (predicate : option T → bool) : result (option T) :=
  r ← for_of v (λ (_ : unit) element,
                  Ok (if predicate element then inr element else inl tt)) tt;
  match r with
  | inl _ => Ok None
  | inr element => Ok element
  end.

(** Number of rounds of [while (shift > nodeBits) { ...; shift -= nodeBits }]. *)
Definition pop_rounds (sh : Z) : nat := Z.to_nat ((sh - 1) `div` nodeBits).

(** The last branch of [pop]: the copying descent along the removed
    index, [n] rounds, then [node[(removedIndex >> shift) & nodeBitmask]
    = undefined].  A leaf met on the way has elements in its cells, not
    arrays. *)
Fixpoint pop_loop (n : nat) (node : VectorNode T) (removedIndex sh : Z)
  : result (VectorNode T) :=
  match n with
  | O =>
      let k := js_and (js_shr removedIndex sh) nodeBitmask in
      match node with
      | Inner children => Ok (Inner (array_set children k None))
      | Leaf items => Ok (Leaf (array_set items k None))
      end
  | S n' =>
      let localIndex := js_and (js_shr removedIndex sh) nodeBitmask in
      match node with
      | Inner children =>
          match array_get children localIndex with
          | Some child =>
              child' ← pop_loop n' child removedIndex (sh - nodeBits);
              Ok (Inner (array_set children localIndex (Some child')))
          | None => Err TypeError
          end
      | Leaf items =>
          match array_get items localIndex with
          | Some _ => Err ShapeError
          | None => Err TypeError
          end
      end
  end.

(** [pop].  In the last branch the vector is built with the [shift] that
    the loop has counted down, not with [this.shift]. *)
Definition pop (v : Vector T) : result (Vector T) :=
  if length v <? 2 then Ok empty
  else if negb (js_and (length v) nodeBitmask =? 1) then
    vector ← set v (length v - 1) None;
    Ok (mkVector (root vector) (shift vector) (length vector - 1))
  else if length v - 1 =? js_shl nodeSize (shift v - nodeBits) then
    match root v with
    | Inner children =>
        match array_get children 0 with
        | Some root' => Ok (mkVector root' (shift v - nodeBits) (length v - 1))
        | None => Err ShapeError
        end
    | Leaf _ => Err ShapeError
    end
  else
    let rounds := pop_rounds (shift v) in
    root' ← pop_loop rounds (root v) (length v - 1) (shift v);
    Ok (mkVector root' (shift v - Z.of_nat rounds * nodeBits) (length v - 1)).

End vector_ops.
End VectorOps.

(** ** model.ts: Stream, with the subscriptions *)

Module Subscriptions.

(** The wrapper that [subscribe] makes is an object of its own, also
    when one function subscribes twice: a wrapper is the number of the
    call of [subscribe] that made it, with the function it calls.
    [made] counts the wrappers made so far. *)
Record Stream (F T : Type) : Type := mkStream {
  subscribers : list (nat * F);
  current : option T;
  made : nat;
}.
Arguments mkStream {F T} subscribers current made.
Arguments subscribers {F T} _.
Arguments current {F T} _.
Arguments made {F T} _.

Section subscriptions.
Context {F T : Type}.

Definition empty : Stream F T := mkStream [] None 0.

(** [push]: the calls [this._subscribers[i](next)]. *)
Definition push (s : Stream F T) (next : option T) : Stream F T * list (F * option T) :=
  (mkStream (subscribers s) next (made s), (λ wf, (wf.2, next)) <$> subscribers s).

(** [subscribe]: the stream, the wrapper of the subscription, and the
    call [wrapper(this._current)], if there is one. *)
Definition subscribe (s : Stream F T) (fn : F)
  : Stream F T * nat * list (F * option T) :=
  (mkStream (subscribers s ++ [(made s, fn)]) (current s) (S (made s)),
   made s,
   match current s with
   | Some v => [(fn, Some v)]
   | None => []
   end).

(** [this._subscribers.indexOf(wrapper)]: -1 when the wrapper is not in
    the array. *)
Fixpoint indexOf (l : list (nat * F)) (wrapper : nat) : Z :=
  match l with
  | [] => -1
  | (k, _) :: l' =>
      if (k =? wrapper)%nat then 0
      else let i := indexOf l' wrapper in if i <? 0 then -1 else i + 1
  end.

(** [array.splice(start, 1)]: a negative [start] counts from the end of
    the array. *)
Definition splice_one {A} (l : list A) (start : Z) : list A :=
  let len := Z.of_nat (length l) in
  let from := if start <? 0 then Z.max (len + start) 0 else Z.min start len in
  take (Z.to_nat from) l ++ drop (S (Z.to_nat from)) l.

(** [unsubscribe] of the subscription with this wrapper. *)
Definition unsubscribe (s : Stream F T) (wrapper : nat) : Stream F T :=
  mkStream (splice_one (subscribers s) (indexOf (subscribers s) wrapper))
           (current s) (made s).

End subscriptions.
End Subscriptions.

(** ** Sample values *)

Module Samples.
Import Chron Markup World.

(** A vector of 40 elements, which has two leaves. *)
Definition vector40 : Vector.Vector Z :=
  Eval vm_compute in
    foldl (λ v i, match Vector.append v (Some i) with Ok v' => v' | Err _ => v end)
          Vector.empty (seqZ 0 40).

(** The chron after [Chron.empty.insert(tail, 10, 101).insert(tail, 20, 102)],
    step by step. *)
Definition chron0 : Chron Z :=
  Eval vm_compute in
    match Chron.empty with Ok c => c | Err _ => mkChron Vector.empty 0 end.

Definition tail0 : ChronCursor Z :=
  Eval vm_compute in
    match chron_tail chron0 with Ok t => t | Err _ => mkCursor (AnchorKey 0) 0 end.

Definition chron1 : Chron Z :=
  Eval vm_compute in
    match insert chron0 tail0 10 101 with Ok c => c | Err _ => chron0 end.

Definition tail1 : ChronCursor Z :=
  Eval vm_compute in
    match chron_tail chron1 with Ok t => t | Err _ => mkCursor (AnchorKey 0) 0 end.

Definition chron2 : Chron Z :=
  Eval vm_compute in
    match insert chron1 tail1 20 102 with Ok c => c | Err _ => chron1 end.

(** Its two entries. *)
Definition entry_x : ChronEntry Z := mkEntry 1 101 (Live 10) (Some 0) (Some 2).
Definition entry_e : ChronEntry Z := mkEntry 2 102 (Live 20) (Some 1) None.

(** A marker set with no filter and no [covered]. *)
Definition plain_set : ChronMarkerSet Z Z := mkMarkerSet None false.

(** Two markers over [entry_x], up to the head of [entry_e]. *)
Definition range_before : ChronRange Z := mkRange (entry_head entry_x) (entry_head entry_e).

Definition markup_a : ChronMarkup Z Z :=
  Eval vm_compute in
    match mark Markup.empty 1 (Some range_before) with Ok m => m | Err _ => Markup.empty end.

Definition markup_before : ChronMarkup Z Z :=
  Eval vm_compute in
    match mark markup_a 2 (Some range_before) with Ok m => m | Err _ => Markup.empty end.

(** Two markers over both entries and a collapsed one behind [entry_e]. *)
Definition range_over : ChronRange Z := mkRange (entry_head entry_x) (entry_tail entry_e).
Definition range_point : ChronRange Z := mkRange (entry_tail entry_e) (entry_tail entry_e).

Definition markup_b : ChronMarkup Z Z :=
  Eval vm_compute in
    match mark Markup.empty 1 (Some range_over) with Ok m => m | Err _ => Markup.empty end.

Definition markup_c : ChronMarkup Z Z :=
  Eval vm_compute in
    match mark markup_b 2 (Some range_over) with Ok m => m | Err _ => Markup.empty end.

Definition markup_over : ChronMarkup Z Z :=
  Eval vm_compute in
    match mark markup_c 3 (Some range_point) with Ok m => m | Err _ => Markup.empty end.

(** Worlds: a root world with a model of two slots, of which the first
    is written, and two child worlds. *)
Definition two_slots : World.ModelConstructor := World.mkConstructor "M" 2.

Definition build_family : World.Eff unit :=
  r ← World.new_world None;
  _ ← World.add r "m" two_slots;
  _ ← World.writeSlot r "m" 0 (World.VNumber 1);
  a ← World.new_world (Some r);
  b ← World.new_world (Some r);
  _ ← World.bind a "m";
  _ ← World.bind b "m";
  mret tt.

Definition family : World.Heap := Eval vm_compute in (build_family []).2.

(** The first child reads slot 0 and writes slot 1. *)
Definition family_clean : World.Heap :=
  Eval vm_compute in
    ((_ ← World.readSlot 1 "m" 0; World.writeSlot 1 "m" 1 (World.VNumber 5)) family).2.

(** Then the second child writes slot 0 and commits. *)
Definition family_conflict : World.Heap :=
  Eval vm_compute in
    ((_ ← World.writeSlot 2 "m" 0 (World.VNumber 2); World.commit (λ _ _, false) 2)
       family_clean).2.

(** A heap with one world, and the app of this world. *)
Definition lone : World.Heap := Eval vm_compute in (World.new_world None []).2.

Definition lone_app : WaveApp.WaveApp := WaveApp.new_app 0.

(** The family after the first child has been locked. *)
Definition family_locked : World.Heap :=
  Eval vm_compute in (World.lock 1 family_clean).2.

(** A root world with a model of two slots, of which the first is
    written, and a child world that has not bound the model. *)
Definition nursery : World.Heap :=
  Eval vm_compute in
    ((r ← World.new_world None;
      _ ← World.add r "m" two_slots;
      _ ← World.writeSlot r "m" 0 (World.VNumber 1);
      _ ← World.new_world (Some r);
      mret tt) []).2.

(** A vector of 1057 elements: three levels, with one element in the
    last leaf. *)
Definition vector1057 : Vector.Vector Z :=
  Eval vm_compute in
    foldl (λ v i, match Vector.append v (Some i) with Ok v' => v' | Err _ => v end)
          Vector.empty (seqZ 0 1057).

(** The array [[new Number(5), [7]]]: the cell 0, with the wrapper in
    the cell 1 and the inner array in the cell 2. *)
Definition boxed_number : Binarizer.Heap :=
  [ Binarizer.Array [Binarizer.Ref 1; Binarizer.Ref 2];
    Binarizer.NumberObject (Binarizer.Num 5);
    Binarizer.Array [Binarizer.Num 7] ].

(** A class [Point] with the properties [x] and [y], registered with
    [serializable('pt')]. *)
Definition point_class : Binarizer.Registered :=
  Binarizer.mkRegistered "Point" "pt" [["x"; "y"]] None.

(** [a = [p, p, a]] with [p = new Point(1, a)]: an array that holds
    itself, and one object twice. *)
Definition cyclic : Binarizer.Heap :=
  [ Binarizer.Array [Binarizer.Ref 1; Binarizer.Ref 1; Binarizer.Ref 0];
    Binarizer.Instance "Point" [("x", Binarizer.Num 1); ("y", Binarizer.Ref 0)] ].

(** The array [[null]]. *)
Definition holds_null : Binarizer.Heap := [ Binarizer.Array [Binarizer.Null] ].

End Samples.
(** ** Invariants of the persistent vector *)

Section vector_invariants.
Context {T : Type}.
Import Vector.

(** Every array of the trie is of the kind its level needs: leaves at
    level 0, inner nodes above. *)
Fixpoint shaped (d : nat) (node : VectorNode T) : Prop :=
  match d, node with
  | O, Leaf _ => True
  | S d', Inner children =>
      Forall (λ c, match c with Some n => shaped d' n | None => True end) children
  | _, _ => False
  end.

Definition shaped_vector (v : Vector T) : Prop :=
  ∃ d : nat, shift v = nodeBits * Z.of_nat d ∧ shaped d (root v).

(** The elements of a node, left to right. *)
Fixpoint flat (node : VectorNode T) : list (option T) :=
  match node with
  | Leaf items => items
  | Inner children =>
      (fix go (cs : list (option (VectorNode T))) : list (option T) :=
         match cs with
         | [] => []
         | c :: cs' => match c with Some n => flat n | None => [] end ++ go cs'
         end) children
  end.

Definition to_list (v : Vector T) : list (option T) := flat (root v).

(** Number of elements under a full node of depth [d]. *)
Definition cap (d : nat) : nat := 32 ^ S d.

(** [holds d n node]: [node] is a trie of depth [d] with exactly [n]
    elements, packed to the left: full children first, then at most one
    child that is partly filled. *)
Fixpoint holds (d : nat) (n : nat) (node : VectorNode T) : Prop :=
  match d, node with
  | O, Leaf items => List.length items = n ∧ (n ≤ 32)%nat
  | S d', Inner children =>
      ∃ (front tail : list (VectorNode T)) (r : nat),
        children = Some <$> (front ++ tail) ∧
        Forall (holds d' (cap d')) front ∧
        (tail = [] ∧ r = O ∨ ∃ p, tail = [p] ∧ holds d' r p ∧ (0 < r < cap d')%nat) ∧
        n = (List.length front * cap d' + r)%nat ∧ (n ≤ cap (S d'))%nat
  | _, _ => False
  end.

(** The representation invariant of the vectors that [empty], [set] below
    the length and [append] build. *)
Definition wf (v : Vector T) : Prop :=
  ∃ d : nat, shift v = nodeBits * Z.of_nat d ∧ (d ≤ 5)%nat ∧
             0 ≤ length v ∧ holds d (Z.to_nat (length v)) (root v).

End vector_invariants.

Section vector_paths.
Context {T : Type}.
Import Vector.

(** [on_path d node j frames leaf]: descending from [node] (of depth [d])
    along the digits of the local index [j] passes through [frames], the
    outermost first, each with the position of the child taken, and ends
    in [leaf]. *)
Fixpoint on_path (d : nat) (node : VectorNode T) (j : nat)
    (frames : list (frame (T := T))) (leaf : VectorNode T) : Prop :=
  match d, node, frames with
  | O, _, [] => leaf = node
  | S d', Inner children, (cs, k) :: frames' =>
      cs = children ∧ k = Z.of_nat (j `div` cap d') ∧
      ∃ c, children !! (j `div` cap d')%nat = Some (Some c) ∧
           on_path d' c (j `mod` cap d') frames' leaf
  | _, _, _ => False
  end.

End vector_paths.

(** ** Invariants of the chronology *)

Section chron_invariants.
Context {T : Type}.
Import Chron.
Implicit Types (es : list (ChronEntry T)) (order seen : list nat).

(** [chain es order nxt]: each entry of [order] has the next position of
    [order] as its [latter]; the last one has [nxt]. *)
Fixpoint chain es order (nxt : option nat) : Prop :=
  match order with
  | [] => True
  | i :: rest =>
      (∃ e, es !! i = Some e ∧
            latter e = Z.of_nat <$> (match rest with [] => nxt | j :: _ => Some j end)) ∧
      chain es rest nxt
  end.

(** [formers es seen order]: the [former] of each entry of [order] is a
    position that comes earlier ([seen], or earlier in [order]); only the
    very first entry has none. *)
Fixpoint formers es seen order : Prop :=
  match order with
  | [] => True
  | i :: rest =>
      (∀ e, es !! i = Some e →
            match former e with
            | Some f => 0 ≤ f ∧ Z.to_nat f ∈ seen
            | None => seen = []
            end) ∧
      formers es (i :: seen) rest
  end.

(** The invariant of the chrons that [Chron.empty], [insert] and [delete]
    build: [es] are the entries of the log and [order] lists their
    positions in the logical order, the root first. *)
Record chron_wf (c : Chron T) es order : Prop := {
  cw_vector : wf (log c);
  cw_entries : to_list (log c) = Some <$> es;
  cw_index : ∀ i e, es !! i = Some e → index e = Z.of_nat i;
  cw_perm : order ≡ₚ seq 0 (List.length es);
  cw_head : hd_error order = Some O;
  cw_chain : chain es order None;
  cw_last : 0 ≤ last c ∧ list.last order = Some (Z.to_nat (last c));
  cw_formers : formers es [] order;
  cw_root : ∃ r, es !! O = Some r ∧ atom r = Deleted;
}.

Definition chron_ok (c : Chron T) : Prop := ∃ es order, chron_wf c es order.

(** The entries at the positions of [order]. *)
Definition walked es order : list (ChronEntry T) := omap (λ i, es !! i) order.

End chron_invariants.

Section chron_entries.
Context {T : Type}.
Import Chron.

(** [a] is the entry the log holds at position [a.index]. *)
Definition in_log (es : list (ChronEntry T)) (a : ChronEntry T) : Prop :=
  0 ≤ index a ∧ es !! Z.to_nat (index a) = Some a.

(** The entries of the log after an insertion behind [p], and the order. *)
Definition inserted_entries (es : list (ChronEntry T)) (p : ChronEntry T) (x : T) (k : Z)
  : list (ChronEntry T) :=
  let n := Z.of_nat (List.length es) in
  <[Z.to_nat (index p) := mkEntry (index p) (key p) (atom p) (former p) (Some n)]> es
  ++ [mkEntry n k (Live x) (Some (index p)) (latter p)].

(** The entries of the log after the deletion of [e]. *)
Definition deleted_entries (es : list (ChronEntry T)) (e : ChronEntry T)
  : list (ChronEntry T) :=
  <[Z.to_nat (index e) := mkEntry (index e) (key e) Deleted (former e) (latter e)]> es.

End chron_entries.

(** ** Invariants of the markup *)

Section markup_invariants.
Context {M T : Type} `{EqDecision M}.
Import Markup.
Implicit Types (ms : list (ChronMarker M T)) (mk : ChronMarkup M T).

(** The markers of the vectors that [ChronMarkup.empty] and [mark] build:
    every cell holds a marker, and no two markers have the same data. *)
Record markup_wf mk ms : Prop := {
  mw_vector : wf (markers mk);
  mw_cells : to_list (markers mk) = Some <$> ms;
  mw_nodup : NoDup (data <$> ms);
}.

Definition markup_ok mk : Prop := ∃ ms, markup_wf mk ms.

(** The list of markers after lines 420-429 of [mark]. *)
Fixpoint mark_list ms (d : M) (r : option (Chron.ChronRange T)) : list (ChronMarker M T) :=
  match ms with
  | [] => [mkMarker d r]
  | m :: ms' => if decide (data m = d) then mkMarker d r :: ms' else m :: mark_list ms' d r
  end.

(** The list of markers of the compact copy. *)
Definition compact_list ms : list (ChronMarker M T) :=
  fold_left (λ acc m, match range m with
                      | Some mr => mark_list acc (data m) (Some mr)
                      | None => acc
                      end) ms [].

Definition garbage_count ms : Z :=
  Z.of_nat (List.length (List.filter (λ m, bool_decide (range m = None)) ms)).

(** The markers with data [d] that have a range. *)
Definition live_with ms (d : M) : list (ChronMarker M T) :=
  List.filter (λ m, bool_decide (data m = d) && bool_decide (range m ≠ None)) ms.

(** The cells of the vector of markers that hold a marker with data [d]
    and a range. *)
Definition live_cells (cells : list (option (ChronMarker M T))) (d : M)
  : list (option (ChronMarker M T)) :=
  List.filter (λ cell, match cell with
                       | Some m => bool_decide (data m = d) && bool_decide (range m ≠ None)
                       | None => false
                       end) cells.

(** The markups that the code can build: [ChronMarkup.empty] (the
    constructor is private) and the results of [mark] and [unmark], which
    is [mark] with no range.  The vector holds fewer than 2^30 markers
    when [mark] is called. *)
Inductive built : ChronMarkup M T → Prop :=
| built_empty : built empty
| built_mark mk d r mk' :
    built mk → Vector.length (markers mk) < 2 ^ 30 → mark mk d r = Ok mk' → built mk'.

End markup_invariants.

(** ** The enumeration of a markup as a schedule of buckets *)

Section markup_sweep.
Context {M T : Type} `{EqDecision M}.
Import Markup.

(** One call of [push]: the map it goes to, the key, and the marker. *)
Record pushed : Type := mkPushed {
  to_heads : bool;
  at_key : Z;
  what : nat * ChronMarker M T;
}.

(** The array that the calls [ps] of [push] leave at key [k] of a map. *)
Definition bucket_of (ps : list pushed) (h : bool) (k : Z) : bucket (M := M) (T := T) :=
  what <$> List.filter (λ p, bool_decide (to_heads p = h) && bool_decide (at_key p = k)) ps.

(** A key that was never pushed to has no array. *)
Definition nonempty (b : bucket (M := M) (T := T)) : option bucket :=
  match b with [] => None | _ => Some b end.

(** The maps [bs] are those that the calls [ps] build; the arrays of the
    tails at the keys [fired] have been reversed in place since. *)
Definition holds_pushes (bs : buckets) (ps : list pushed) (fired : list Z) : Prop :=
  (∀ k, heads bs !! k = nonempty (bucket_of ps true k)) ∧
  (∀ k, k ∉ fired → tails bs !! k = nonempty (bucket_of ps false k)).

Definition key_of (chron : Chron.Chron T) (cursor : Chron.ChronCursor T) : Z :=
  match bucket_key chron cursor with Ok k => k | Err _ => -1 end.

Definition pushed_cursor (chron : Chron.Chron T) (cursor : Chron.ChronCursor T)
    (pm : nat * ChronMarker M T) : pushed :=
  mkPushed (Chron.offset cursor <? 0) (key_of chron cursor) pm.

(** The calls of [push] that the first loop of [entries] makes. *)
Definition pushes_of (chron : Chron.Chron T) (set : ChronMarkerSet M T)
    (cells : list (nat * ChronMarker M T)) : list pushed :=
  cells ≫= λ pm,
    match range pm.2 with
    | Some r =>
        if match filter set with Some f => negb (f (data pm.2) r) | None => false end
        then []
        else [pushed_cursor chron (Chron.head r) pm; pushed_cursor chron (Chron.tail r) pm]
    | None => []
    end.

(** The marker passes [set.filter]. *)
Definition kept (set : ChronMarkerSet M T) (m : ChronMarker M T) (r : Chron.ChronRange T)
  : Prop :=
  match filter set with Some f => f (data m) r = true | None => True end.

(** What happens during the enumeration, in order: a call of [trigger]
    that is not silent, or an entry that is yielded. *)
Inductive item : Type :=
| ICall (pm : nat * ChronMarker M T)
| IYield (entry : Chron.ChronEntry T).

Fixpoint run (s : sweep) (items : list item) : result (sweep (M := M) (T := T)) :=
  match items with
  | [] => Ok s
  | ICall pm :: rest => s' ← trigger false s pm; run s' rest
  | IYield e :: rest => run (mkSweep (active s) (trace s ++ [EvYield e])) rest
  end.

Definition calls_pos (items : list item) : list nat :=
  omap (λ it, match it with ICall pm => Some pm.1 | IYield _ => None end) items.

(** The parts of the enumeration: the array of a map at a key, or an
    entry. *)
Inductive segment : Type :=
| SBucket (h : bool) (k : Z)
| SYield (entry : Chron.ChronEntry T).

Definition content (ps : list pushed) (sg : segment) : list item :=
  match sg with
  | SBucket true k => ICall <$> bucket_of ps true k
  | SBucket false k => ICall <$> reverse (bucket_of ps false k)
  | SYield e => [IYield e]
  end.

Definition schedule_entries (walk : list (Chron.ChronEntry T)) : list segment :=
  walk ≫= λ e, [SBucket true (Chron.index e); SYield e; SBucket false (Chron.index e)].

(** The enumeration when no range is given. *)
Definition schedule (walk : list (Chron.ChronEntry T)) : list segment :=
  SBucket true (-1) :: SBucket false (-1) :: schedule_entries walk.

Definition items_of (ps : list pushed) (sched : list segment) : list item :=
  sched ≫= content ps.

End markup_sweep.

Section markup_live.
Context {M T : Type}.
Import Markup.

(** The markers that [ChronMarkup[Symbol.iterator]] yields, with their
    positions in the vector. *)
Fixpoint live_list (pos : nat) (ms : list (ChronMarker M T)) : list (nat * ChronMarker M T) :=
  match ms with
  | [] => []
  | m :: ms' =>
      match range m with
      | Some _ => (pos, m) :: live_list (S pos) ms'
      | None => live_list (S pos) ms'
      end
  end.

End markup_live.

(** ** Invariants of the worlds *)

Section world_invariants.
Import World.
Implicit Types (h : Heap) (x y : World) (m pm : Model) (v : value) (w p : nat) (id : string).

(** A [Ref] in a slot of a model is bound in the world of the model:
    [_readSlot], [_writeSlot] and [World.commit] leave it so. *)
Definition bound_in x v : Prop :=
  is_ref v = true → is_Some (map_get (models x) (ref_id v)).

Record model_ok x m : Prop := {
  mo_reads : List.length (reads m) = slotCount (constructor m);
  mo_writes : List.length (writes m) = slotCount (constructor m);
  mo_reads_bound : Forall (bound_in x) (reads m);
  mo_writes_bound : Forall (bound_in x) (writes m);
}.

(** The worlds that [new World], [bind], the slots of the models and
    [commit] build: a parent is older than its children, the models are as
    above, and the versions of one model are of one class. *)
Record heap_ok h : Prop := {
  ok_parent : ∀ w x p, h !! w = Some x → parent x = Some p → (p < w)%nat;
  ok_models : ∀ w x id m, h !! w = Some x → map_get (models x) id = Some m → model_ok x m;
  ok_keys : ∀ w x, h !! w = Some x → NoDup (models x).*1;
  ok_class : ∀ w w' x x' id m m',
    h !! w = Some x → h !! w' = Some x' →
    map_get (models x) id = Some m → map_get (models x') id = Some m' →
    constructor m = constructor m';
}.

(** What [_upcast] makes of a slot value in the world [w]. *)
Definition value_in w v : value :=
  if is_ref v then VModel w (ref_id v) else v.

(** What [getOwnSlot] returns for a model [m] of the world [w]. *)
Definition own_slot w m (i : Z) : value :=
  if i >=? Z.of_nat (List.length (reads m)) then VNone
  else if negb (is_none (slot_get (writes m) i)) then value_in w (slot_get (writes m) i)
  else if negb (is_none (slot_get (reads m) i)) then value_in w (slot_get (reads m) i)
  else VNone.

(** The sizes of the version of a model that the parent world has. *)
Definition version_of m pm : Prop :=
  constructor pm = constructor m ∧
  List.length (reads pm) = slotCount (constructor pm) ∧
  List.length (writes pm) = slotCount (constructor pm).

(** [a] is [w] or a world above it. *)
Inductive ancestor h : nat → nat → Prop :=
| ancestor_self w : ancestor h w w
| ancestor_parent w x p a :
    h !! w = Some x → parent x = Some p → ancestor h p a → ancestor h w a.

(** A locked world has a locked parent: [lock], [unlock] and
    [new World] leave it so. *)
Definition locked_upward h : Prop :=
  ∀ w x p y, h !! w = Some x → locked x = true → parent x = Some p →
             h !! p = Some y → locked y = true.

(** Every parent is a world, older than its children. *)
Definition parents_ok h : Prop :=
  ∀ w x p, h !! w = Some x → parent x = Some p → (p < w)%nat.

End world_invariants.

Section world_commit_views.
Import World.
Variable string_equals_number : string → Z → bool.
Implicit Types (h : Heap) (x y : World) (m pm : Model) (v : value) (w p : nat) (id : string).

(** One round of the loop of [committable]: the cached read of slot [i]
    agrees with the slot of the parent's model. *)
Definition read_agrees w p m pm (i : nat) : bool :=
  let r := slot_get (reads m) (Z.of_nat i) in
  is_none r ||
  (let my := value_in w r in
   let other := own_slot p pm (Z.of_nat i) in
   negb (is_ref my && negb (ref_equal string_equals_number my other))
   && negb (loose_neq my other)).

(** What [committable] returns for a model [m] of the world [w], child of
    the world [y] at [p]. *)
Definition passes w p y (km : string * Model) : bool :=
  match map_get (models y) km.1 with
  | None => true
  | Some pm => forallb (read_agrees w p km.2 pm) (seq 0 (List.length (reads km.2)))
  end.

End world_commit_views.

Section world_frames.
Import World.

Definition with_locked (b : bool) (x : World) : World :=
  mkWorld (parent x) (models x) (children x) b (lookupCache x).

Definition with_cache (c : option LookupCache) (x : World) : World :=
  mkWorld (parent x) (models x) (children x) (locked x) c.

(** [h'] is [h] but for worlds that have become locked. *)
Definition locked_more (h h' : Heap) : Prop :=
  List.length h' = List.length h ∧
  ∀ a x, h !! a = Some x →
         ∃ b, h' !! a = Some (with_locked b x) ∧ (locked x = true → b = true).

(** [h'] is [h] but for the lookup caches. *)
Definition caches_differ (h h' : Heap) : Prop :=
  List.length h' = List.length h ∧
  ∀ a x, h !! a = Some x → ∃ c, h' !! a = Some (with_cache c x).

(** A locked world above [w] has a locked parent. *)
Definition locked_above (h : Heap) (w : nat) : Prop :=
  ∀ a x p y, ancestor h w a → h !! a = Some x → locked x = true →
             parent x = Some p → h !! p = Some y → locked y = true.

End world_frames.

(** ** Invariants of an app *)

Section app_invariants.
Import World WaveApp.

(** The worlds of the app exist, in a heap that has the invariants. *)
Record app_ok (h : Heap) (app : WaveApp) : Prop := {
  ao_heap : heap_ok h;
  ao_locked : locked_upward h;
  ao_top : ∃ w, list.last (worlds app) = Some w ∧ (w < List.length h)%nat;
  ao_redo : Forall (λ w, (w < List.length h)%nat) (redo app);
}.

(** [n] calls of [merge] with the same arguments. *)
Fixpoint merges (n : nat) (st : WaveMergeState) (id tagString : string) (r : option Z)
  : WaveMergeState * list bool :=
  match n with
  | O => (st, [])
  | S n' =>
      let '(st1, b) := merge st id tagString r in
      let '(st2, bs) := merges n' st1 id tagString r in
      (st2, b :: bs)
  end.

(** [h'] has the models of [h], and its parents and locks but for worlds
    that are detached. *)
Definition detached_more (h h' : Heap) : Prop :=
  List.length h' = List.length h ∧
  ∀ a x, h !! a = Some x →
    ∃ x', h' !! a = Some x' ∧ models x' = models x ∧ locked x' = locked x ∧
          (parent x' = parent x ∨ parent x' = None).

End app_invariants.

(** ** The serializer: what is written *)

Section serializer_code.
Import Binarizer.

(** The bytes of [pushVarint]: seven bits at a time, the low ones
    first, with the high bit on all but the last byte. *)
Fixpoint digits (k : nat) (n : Z) : list Z :=
  match k with
  | O => [n]
  | S k' => if n <? 128 then [n] else (n `mod` 128 + 128) :: digits k' (n `div` 128)
  end.

Definition varint (n : Z) : list Z := digits 8 n.

(** The bytes of the characters of a string. *)
Definition utf8 (s : string) : list Z := pushUTF8String_loop [] s.

(** A string without the character of code zero, which ends a string in
    the buffer. *)
Fixpoint no_nul (s : string) : Prop :=
  match s with
  | EmptyString => True
  | String c s' => c ≠ Ascii.zero ∧ no_nul s'
  end.

(** The head: one byte for two flags, the first in the low half, and
    the flag that waits for the next one. *)
Fixpoint pairs (ids : list Z) : list Z * Z :=
  match ids with
  | [] => ([], 0)
  | [a] => ([], a)
  | a :: b :: rest => let '(bytes, f) := pairs rest in ((a + 16 * b) :: bytes, f)
  end.

Definition packed (ids : list Z) : list Z :=
  let '(bytes, f) := pairs ids in if f =? 0 then bytes else bytes ++ [f].

(** The encoder after the atoms of the coders [cs], of which [oc] were
    objects, and with the bytes [bs] written. *)
Definition encoder_at (cs : list Coder) (oc : Z) (bs : list Z) : Encoder :=
  mkEncoder (pairs (coder_id <$> cs)).1 (pairs (coder_id <$> cs)).2 (Z.of_nat (length cs)) oc bs.

Section code.
Variable classes : list Registered.
Variable table : list value.

(** A value that is no object: its coder and its bytes. *)
Definition atom_coder (v : value) : Coder :=
  match v with
  | Num n => if n <? 0 then NEGATIVE_INT else POSITIVE_INT
  | Float _ => FLOAT64
  | Bool b => if b then TRUE else FALSE
  | Str _ => STRING
  | Undefined => UNDEFINED
  | Null => NULL
  | Ref _ => UNKNOWN
  end.

Definition atom_bytes (v : value) : list Z :=
  match v with
  | Num n => varint (if n <? 0 then - n - 1 else n)
  | Float bytes => bytes
  | Str s => utf8 s ++ [0]
  | _ => []
  end.

(** A value inside an object: a pointer if the table holds it. *)
Definition leaf_coder (v : value) : Coder :=
  match indexes_get table v with
  | Some _ => POINTER
  | None => atom_coder v
  end.

Definition leaf_bytes (v : value) : list Z :=
  match indexes_get table v with
  | Some p => varint p
  | None => atom_bytes v
  end.

Definition leaves_bytes (vs : list value) : list Z := concat (leaf_bytes <$> vs).

(** The values inside an object, in the order of the encoder. *)
Definition nested (o : object) : list value :=
  match o with
  | Array items => items
  | Plain props => flat_map (λ kv, [Str kv.1; kv.2]) props
  | MapObject entries => flat_map (λ kv, [kv.1; kv.2]) entries
  | SetObject elements => elements
  | Instance c props =>
      from_option (λ t, [Str t]) [] (tagOfConstructor classes c) ++ props.*2
  | _ => []
  end.

(** The numbers that the encoder writes for an object: its size, or the
    sizes of the layers of keys. *)
Definition sizes (o : object) : list Z :=
  match o with
  | Array items => [Z.of_nat (length items)]
  | Plain props => [Z.of_nat (length props)]
  | MapObject entries => [Z.of_nat (length entries)]
  | SetObject elements => [Z.of_nat (length elements)]
  | Instance c _ =>
      from_option (λ r, (λ keys, Z.of_nat (length keys)) <$> binaryKeys r) []
                  (registrationOf classes c)
  | _ => []
  end.

Definition object_coder (o : object) : Coder :=
  match o with
  | Array _ => ARRAY
  | Plain _ => PLAIN_OBJECT
  | MapObject _ => MAP
  | SetObject _ => SET
  | _ => OBJECT
  end.

(** The coders and the bytes of an entry of the table. *)
Definition object_coders (o : object) : list Coder :=
  object_coder o :: (leaf_coder <$> nested o).

Definition object_bytes (o : object) : list Z :=
  match o with
  | Instance c props =>
      leaves_bytes (from_option (λ t, [Str t]) [] (tagOfConstructor classes c))
      ++ concat (varint <$> sizes o) ++ leaves_bytes props.*2
  | _ => concat (varint <$> sizes o) ++ leaves_bytes (nested o)
  end.

Definition entry_coders (h : Heap) (v : value) : list Coder :=
  match v with
  | Ref a => from_option object_coders [] (h !! a)
  | _ => [atom_coder v]
  end.

Definition entry_bytes (h : Heap) (v : value) : list Z :=
  match v with
  | Ref a => from_option object_bytes [] (h !! a)
  | _ => atom_bytes v
  end.

End code.

(** *** The graphs that the serializer takes *)

Section graphs.
Variable classes : list Registered.
Variable h : Heap.

Definition safe (n : Z) : Prop := - MAX_SAFE_INTEGER ≤ n ≤ MAX_SAFE_INTEGER.

(** Values: no [null]; strings without the character of code zero;
    references into the heap. *)
Definition atom_ok (v : value) : Prop :=
  match v with
  | Undefined | Bool _ => True
  | Null => False
  | Num n => safe n
  | Float bytes => length bytes = 8%nat
  | Str s => no_nul s
  | Ref _ => False
  end.

Definition value_ok (v : value) : Prop :=
  match v with
  | Ref a => is_Some (h !! a)
  | _ => atom_ok v
  end.

(** Objects: arrays, plain objects, maps and sets of such values, and
    the instances of a class registered without a coder of its own,
    whose own properties are the keys of the class, in their order. *)
Definition object_ok (o : object) : Prop :=
  match o with
  | Array items => Forall value_ok items
  | Plain props =>
      NoDup props.*1 ∧ Forall no_nul props.*1 ∧ Forall value_ok props.*2
  | MapObject entries =>
      NoDup entries.*1 ∧ Forall value_ok entries.*1 ∧ Forall value_ok entries.*2
  | SetObject elements => NoDup elements ∧ Forall value_ok elements
  | Instance c props =>
      ∃ r, registrationOf classes c = Some r ∧ binaryCoder r = None ∧
           constructorOfTag classes (tag r) = Some r ∧ no_nul (tag r) ∧
           props.*1 = concat (binaryKeys r) ∧ NoDup props.*1 ∧
           Forall value_ok props.*2
  | NumberObject _ | BooleanObject _ => False
  end.

(** The number of the values that an object holds, keys included. *)
Definition cells (o : object) : nat :=
  match o with
  | Array items => length items
  | Plain props => 2 * length props
  | MapObject entries => 2 * length entries
  | SetObject elements => length elements
  | Instance _ props => length props
  | _ => 0
  end.

Definition weight : nat := length h + sum_list (cells <$> h).

(** The constructors of the arrays, plain objects, maps and sets are not
    registered; the heap holds less than a billion values, the count
    that the Indexer gives to a tag. *)
Record supported : Prop := {
  plain_constructors :
    Forall (λ c, tagOfConstructor classes c = None) ["Array"; "Object"; "Map"; "Set"];
  objects_ok : Forall object_ok h;
  small : Z.of_nat weight < 1000000000 - 2;
}.

(** The objects that a value reaches. *)
Definition inside (o : object) : list value :=
  match o with
  | Array items => items
  | Plain props => props.*2
  | MapObject entries => entries.*1 ++ entries.*2
  | SetObject elements => elements
  | Instance _ props => props.*2
  | _ => []
  end.

Inductive reachable (x : value) : nat → Prop :=
| reach_root a : x = Ref a → reachable x a
| reach_step a o b :
    reachable x a → h !! a = Some o → Ref b ∈ inside o → reachable x b.

End graphs.

(** *** Graphs of one shape *)

Definition rename (f : nat → nat) (v : value) : value :=
  match v with
  | Ref a => Ref (f a)
  | _ => v
  end.

Definition rename_object (f : nat → nat) (o : object) : object :=
  match o with
  | Array items => Array (rename f <$> items)
  | Plain props => Plain (prod_map id (rename f) <$> props)
  | MapObject entries => MapObject (prod_map (rename f) (rename f) <$> entries)
  | SetObject elements => SetObject (rename f <$> elements)
  | Instance c props => Instance c (prod_map id (rename f) <$> props)
  | NumberObject v => NumberObject v
  | BooleanObject b => BooleanObject b
  end.

End serializer_code.
(** ** Facts on the 32-bit operators and on arrays *)

Lemma int32_small z : - 2 ^ 31 ≤ z < 2 ^ 31 → int32 z = z.
Proof. intros H. unfold int32. rewrite Z.mod_small; lia. Qed.

Lemma nodeSize_eq : Vector.nodeSize = 32.
Proof. reflexivity. Qed.

Lemma nodeBitmask_eq : Vector.nodeBitmask = 31.
Proof. reflexivity. Qed.

Lemma js_and_mask a : js_and a Vector.nodeBitmask = int32 a `mod` 32.
Proof.
  rewrite nodeBitmask_eq. unfold js_and.
  rewrite (int32_small 31) by lia.
  change 31 with (Z.ones 5). rewrite Z.land_ones by lia. reflexivity.
Qed.

Lemma js_and_mask_range a : 0 ≤ js_and a Vector.nodeBitmask < 32.
Proof. rewrite js_and_mask. apply Z.mod_pos_bound. lia. Qed.

Lemma array_get_nat {A} (l : list (option A)) (k : Z) :
  0 ≤ k → array_get l k = mjoin (l !! Z.to_nat k).
Proof. intros H. unfold array_get. destruct (Z.leb_spec 0 k); [done | lia]. Qed.

Lemma array_get_set_eq {A} (l : list (option A)) (k : Z) (v : option A) :
  0 ≤ k → array_get (array_set l k v) k = v.
Proof.
  intros Hk. rewrite array_get_nat by done. unfold array_set.
  destruct (Nat.ltb_spec (Z.to_nat k) (List.length l)) as [Hlt | Hge].
  - by rewrite list_lookup_insert_eq.
  - rewrite lookup_app_r by lia.
    rewrite lookup_app_r by (rewrite length_replicate; lia).
    rewrite length_replicate, Nat.sub_diag. reflexivity.
Qed.

Section vector_shape.
Context {T : Type}.
Import Vector.
Implicit Types (node : VectorNode T) (v : Vector T) (x : option T).

Lemma get_loop_inner (children : list (option (VectorNode T))) index sh :
  get_loop (Inner children) index sh =
    if sh =? 0 then Err ShapeError
    else match array_get children (js_and (js_shr index sh) nodeBitmask) with
         | Some child => get_loop child index (sh - nodeBits)
         | None => Err TypeError
         end.
Proof.
  cbn [get_loop]. destruct (sh =? 0); [reflexivity |].
  rewrite array_get_nat by apply js_and_mask_range.
  generalize (Z.to_nat (js_and (js_shr index sh) nodeBitmask)) as k.
  induction children as [| c cs IH]; intros k.
  - by destruct k.
  - destruct k as [| k]; [by destruct c | apply IH].
Qed.

Lemma rounds_levels (d : nat) : rounds (nodeBits * Z.of_nat d) = d.
Proof.
  unfold rounds, nodeBits.
  replace ((5 * Z.of_nat d + (5 - 1)) `div` 5) with (Z.of_nat d); [apply Nat2Z.id |].
  apply (Z.div_unique_pos _ _ _ 4); lia.
Qed.

Lemma shaped_fresh (d : nat) : shaped d (fresh_node (T := T) d).
Proof. destruct d; cbn; [done | constructor]. Qed.

Lemma shaped_child d (children : list (option (VectorNode T))) k child :
  shaped (S d) (Inner children) → array_get children k = Some child → shaped d child.
Proof.
  cbn. intros HF Hget. unfold array_get in Hget.
  destruct (0 <=? k); [| done].
  destruct (children !! Z.to_nat k) as [[c |] |] eqn:E; simplify_eq/=.
  by apply (Forall_lookup_1 _ _ _ _ HF E).
Qed.

Lemma shaped_array_set d (children : list (option (VectorNode T))) k child :
  shaped (S d) (Inner children) → shaped d child →
  shaped (S d) (Inner (array_set children k (Some child))).
Proof.
  cbn. intros HF Hc. unfold array_set.
  destruct (_ <? _)%nat.
  - apply Forall_insert; done.
  - apply Forall_app; split; [done |].
    apply Forall_app; split; [| by repeat constructor].
    by apply Forall_replicate.
Qed.

(** The copying descent succeeds on a trie of the right shape, keeps the
    shape, and the read descent along the same index finds the value. *)
Lemma set_loop_get_loop (d : nat) node index x :
  shaped d node →
  ∃ node', set_loop d node index (nodeBits * Z.of_nat d) x = Ok node' ∧
           shaped d node' ∧
           get_loop node' index (nodeBits * Z.of_nat d) = Ok x.
Proof.
  revert node. induction d as [| d IH]; intros node Hs.
  - destruct node as [items | cs]; [| done].
    eexists; split; [reflexivity |]. split; [done |]. cbn.
    f_equal. apply array_get_set_eq, js_and_mask_range.
  - destruct node as [items | cs]; [done |].
    cbn [set_loop].
    set (sh := nodeBits * Z.of_nat (S d)).
    set (k := js_and (js_shr index sh) nodeBitmask).
    assert (Hsh : sh - nodeBits = nodeBits * Z.of_nat d) by (unfold sh, nodeBits; lia).
    set (child := match array_get cs k with Some c => c | None => fresh_node d end).
    assert (Hchild : shaped d child).
    { unfold child. destruct (array_get cs k) eqn:E;
        [by eapply shaped_child | apply shaped_fresh]. }
    destruct (IH child Hchild) as (child' & Hset & Hs' & Hget).
    rewrite Hsh, Hset. cbn.
    eexists; split; [reflexivity |]. split; [by apply shaped_array_set |].
    rewrite get_loop_inner.
    destruct (Z.eqb_spec sh 0) as [E0 | _]; [unfold sh, nodeBits in E0; lia |].
    fold k. rewrite array_get_set_eq by apply js_and_mask_range.
    by rewrite Hsh.
Qed.

Lemma set_below_length v index x :
  0 ≤ index < length v → set v index x = set_within v index x.
Proof. intros H. unfold set. destruct (Z.gtb_spec index (length v)); [lia | done]. Qed.

End vector_shape.

(** C7. For every persistent vector [v] (a trie whose arrays match its
    [shift]), every index [0 <= i < v.length] and every value [x]:
    [v.set(i, x)] returns a vector [v'] with [v'.get(i) == x] and
    [v'.length == v.length]. *)
Theorem vector_set_get {T} (v : Vector.Vector T) (i : Z) (x : option T) :
  shaped_vector v → 0 ≤ i < Vector.length v →
  ∃ v', Vector.set v i x = Ok v' ∧
        Vector.get v' i = Ok x ∧
        Vector.length v' = Vector.length v.
Proof.
  intros (d & Hshift & Hshaped) Hi.
  rewrite set_below_length by done. unfold Vector.set_within.
  destruct (Z.ltb_spec i (Vector.length v)) as [_ | ?]; [| lia]. cbn [orb].
  rewrite Hshift, rounds_levels.
  destruct (set_loop_get_loop d (Vector.root v) i x Hshaped) as (root' & -> & _ & Hget).
  cbn. eexists; split; [reflexivity |]. split; [| reflexivity].
  unfold Vector.get. cbn.
  destruct (Z.leb_spec 0 i); [| lia]. destruct (Z.ltb_spec i (Vector.length v)); [| lia].
  exact Hget.
Qed.
(** ** The vector as a list: blocks of a concatenation *)

Section blocks.
Context {A : Type}.
Implicit Types (bs : list (list A)) (rest b : list A).

Lemma length_concat_blocks bs (C : nat) :
  Forall (λ b, List.length b = C) bs → List.length (concat bs) = (List.length bs * C)%nat.
Proof.
  induction 1 as [| b bs Hb _ IH]; [done |].
  cbn. rewrite length_app, IH, Hb. lia.
Qed.

Lemma lookup_concat_block bs (C k r : nat) rest b :
  Forall (λ b, List.length b = C) bs → (r < C)%nat → bs !! k = Some b →
  (concat bs ++ rest) !! (k * C + r)%nat = b !! r.
Proof.
  intros HF Hr. revert k. induction HF as [| b0 bs Hb0 _ IH]; intros k Hk; [done |].
  cbn [concat]. rewrite <- app_assoc. destruct k as [| k].
  - simplify_eq/=. rewrite lookup_app_l by lia. done.
  - cbn in Hk. rewrite lookup_app_r by lia.
    replace (S k * C + r - List.length b0)%nat with (k * C + r)%nat by lia.
    by apply IH.
Qed.

Lemma lookup_concat_after bs (C r : nat) rest :
  Forall (λ b, List.length b = C) bs →
  (concat bs ++ rest) !! (List.length bs * C + r)%nat = rest !! r.
Proof.
  intros HF. rewrite lookup_app_r; rewrite (length_concat_blocks _ C) by done; [| lia].
  f_equal. lia.
Qed.

Lemma insert_concat_block bs (C k r : nat) rest b (x : A) :
  Forall (λ b, List.length b = C) bs → (r < C)%nat → bs !! k = Some b →
  <[(k * C + r)%nat := x]> (concat bs ++ rest) = concat (<[k := <[r := x]> b]> bs) ++ rest.
Proof.
  intros HF Hr. revert k. induction HF as [| b0 bs Hb0 _ IH]; intros k Hk; [done |].
  cbn [concat]. rewrite <- app_assoc. destruct k as [| k].
  - simplify_eq/=. rewrite insert_app_l by lia. by rewrite <- app_assoc.
  - cbn in Hk. rewrite insert_app_r_alt by lia.
    replace (S k * C + r - List.length b0)%nat with (k * C + r)%nat by lia.
    rewrite IH by done. cbn. by rewrite <- app_assoc.
Qed.

Lemma insert_concat_after bs (C r : nat) rest (x : A) :
  Forall (λ b, List.length b = C) bs →
  <[(List.length bs * C + r)%nat := x]> (concat bs ++ rest) = concat bs ++ <[r := x]> rest.
Proof.
  intros HF. rewrite insert_app_r_alt; rewrite (length_concat_blocks _ C) by done; [| lia].
  do 2 f_equal. lia.
Qed.

End blocks.

(** ** Digits of an index *)

#[global] Arguments cap : simpl never.

Lemma cap_succ d : cap (S d) = (32 * cap d)%nat.
Proof. unfold cap. rewrite (Nat.pow_succ_r' 32 (S d)). done. Qed.

Lemma cap_zero : cap 0 = 32%nat.
Proof. reflexivity. Qed.

Lemma cap_pos d : (32 ≤ cap d)%nat.
Proof.
  induction d as [| d IH]; [done |]. rewrite cap_succ. lia.
Qed.

Lemma cap_bound d : (d ≤ 5)%nat → Z.of_nat (cap d) ≤ 2 ^ 30.
Proof.
  intros H. unfold cap. rewrite Nat2Z.inj_pow.
  change (Z.of_nat 32) with 32. change (2 ^ 30) with (32 ^ 6).
  apply Z.pow_le_mono_r; lia.
Qed.

Lemma digit_leaf index :
  0 ≤ index < 2 ^ 31 →
  Z.to_nat (js_and index Vector.nodeBitmask) = (Z.to_nat index `mod` 32)%nat.
Proof.
  intros H. rewrite js_and_mask, int32_small by lia.
  rewrite Z2Nat.inj_mod by lia. done.
Qed.

Lemma digit_inner index (d : nat) :
  0 ≤ index < 2 ^ 31 → (d ≤ 5)%nat →
  Z.to_nat (js_and (js_shr index (Vector.nodeBits * Z.of_nat d)) Vector.nodeBitmask)
  = ((Z.to_nat index `div` 32 ^ d) `mod` 32)%nat.
Proof.
  intros H Hd. unfold js_shr, Vector.nodeBits.
  rewrite (int32_small index) by lia.
  rewrite (Z.mod_small (5 * Z.of_nat d)) by lia.
  rewrite Z.shiftr_div_pow2 by lia.
  assert (Hpow : 2 ^ (5 * Z.of_nat d) = 32 ^ Z.of_nat d).
  { rewrite Z.pow_mul_r by lia. done. }
  rewrite Hpow.
  assert (0 < 32 ^ Z.of_nat d) by (apply Z.pow_pos_nonneg; lia).
  assert (0 ≤ index `div` 32 ^ Z.of_nat d ≤ index).
  { split; [apply Z.div_pos; lia |]. apply Z.div_le_upper_bound; nia. }
  rewrite js_and_mask, int32_small by lia.
  rewrite Z2Nat.inj_mod, Z2Nat.inj_div by lia.
  rewrite Znat.Z2Nat.inj_pow by lia. rewrite Nat2Z.id. done.
Qed.

Lemma index_split (idx C : nat) :
  (0 < C)%nat →
  (idx `mod` (32 * C) = (idx `div` C) `mod` 32 * C + idx `mod` C)%nat.
Proof.
  intros HC. rewrite (Nat.mul_comm 32 C), Nat.Div0.mod_mul_r. lia.
Qed.

Lemma block_unique (C k r k' r' : nat) :
  (r < C)%nat → (r' < C)%nat → (k * C + r = k' * C + r')%nat → k = k' ∧ r = r'.
Proof.
  intros Hr Hr' Heq.
  assert (k = k') as ->.
  { destruct (lt_eq_lt_dec k k') as [[H | H] | H]; [| done |].
    - assert (S k * C ≤ k' * C)%nat by (apply Nat.mul_le_mono_r; lia). lia.
    - assert (S k' * C ≤ k * C)%nat by (apply Nat.mul_le_mono_r; lia). lia. }
  split; [done | lia].
Qed.
(** ** The trie holds the list of its elements *)

Section vector_refinement.
Context {T : Type}.
Import Vector.
Implicit Types (node : VectorNode T) (v : Vector T) (x : option T).

Lemma flat_inner (cs : list (option (VectorNode T))) :
  flat (Inner cs) = concat ((λ c, match c with Some n => flat n | None => [] end) <$> cs).
Proof.
  cbn. induction cs as [| c cs IH]; [done |]. cbn. by rewrite IH.
Qed.

Lemma flat_inner_some (l : list (VectorNode T)) :
  flat (Inner (Some <$> l)) = concat (flat <$> l).
Proof. rewrite flat_inner, <- list_fmap_compose. done. Qed.

Lemma holds_length d : ∀ n node, holds d n node → List.length (flat node) = n.
Proof.
  induction d as [| d IH]; intros n [items | cs] Hh; try done.
  - by destruct Hh.
  - destruct Hh as (front & tail & r & -> & HF & Ht & -> & _).
    rewrite flat_inner_some, (fmap_app flat), concat_app, length_app.
    rewrite (length_concat_blocks _ (cap d)).
    2:{ apply Forall_fmap. eapply Forall_impl; [exact HF |]. intros ? ?. by apply IH. }
    rewrite length_fmap. f_equal.
    destruct Ht as [[-> ->] | (p & -> & Hp & _)]; [done |].
    cbn. rewrite app_nil_r. by apply IH.
Qed.

Lemma holds_blocks d (front : list (VectorNode T)) :
  Forall (holds d (cap d)) front →
  Forall (λ b, List.length b = cap d) (flat <$> front).
Proof.
  intros HF. apply Forall_fmap. eapply Forall_impl; [exact HF |].
  intros node Hn. by apply (holds_length d).
Qed.

Lemma level_zero : nodeBits * Z.of_nat 0 = 0.
Proof. reflexivity. Qed.

Lemma level_succ d : nodeBits * Z.of_nat (S d) - nodeBits = nodeBits * Z.of_nat d.
Proof. unfold nodeBits. lia. Qed.

Lemma level_succ_nonzero d : (nodeBits * Z.of_nat (S d) =? 0) = false.
Proof. apply Z.eqb_neq. unfold nodeBits. lia. Qed.

(** Reading below the number of elements finds the element of the list. *)
Lemma get_loop_holds d : ∀ n node index,
  holds d n node → (d ≤ 5)%nat → 0 ≤ index < 2 ^ 31 →
  (Z.to_nat index `mod` cap d < n)%nat →
  get_loop node index (nodeBits * Z.of_nat d)
  = Ok (mjoin (flat node !! (Z.to_nat index `mod` cap d)%nat)).
Proof.
  induction d as [| d IH]; intros n [items | cs] index Hh Hd Hi Hlt; try done.
  - cbn [get_loop]. rewrite level_zero. cbn [Z.eqb].
    rewrite array_get_nat by apply js_and_mask_range.
    by rewrite digit_leaf.
  - destruct Hh as (front & tail & r0 & -> & HF & Ht & Hn & Hcap).
    rewrite get_loop_inner, level_succ_nonzero, level_succ.
    rewrite array_get_nat by apply js_and_mask_range.
    rewrite digit_inner by lia. fold (cap d).
    pose proof (cap_pos d) as HC.
    assert (Hsplit := index_split (Z.to_nat index) (cap d) ltac:(lia)).
    rewrite <- cap_succ in Hsplit. rewrite Hsplit in Hlt |- *.
    set (k := ((Z.to_nat index `div` cap d) `mod` 32)%nat) in *.
    set (r := (Z.to_nat index `mod` cap d)%nat) in *.
    assert (Hr : (r < cap d)%nat) by (apply Nat.mod_upper_bound; lia).
    rewrite list_lookup_fmap, flat_inner_some, (fmap_app flat), concat_app.
    pose proof (holds_blocks d front HF) as HB.
    destruct (lt_eq_lt_dec k (List.length front)) as [[Hk | Hk] | Hk].
    + destruct (lookup_lt_is_Some_2 front k Hk) as [child Hchild].
      rewrite lookup_app_l, Hchild by done. cbn.
      rewrite (lookup_concat_block _ (cap d) k r _ (flat child)); [| done | done |].
      2:{ by rewrite list_lookup_fmap, Hchild. }
      apply (IH (cap d)); [| lia | done | done].
      by apply (Forall_lookup_1 _ _ _ _ HF Hchild).
    + destruct Ht as [[-> ->] | (p & -> & Hp & Hr0)]; [lia |].
      rewrite lookup_app_r by lia. rewrite Hk, Nat.sub_diag. cbn.
      rewrite <- (length_fmap flat front), lookup_concat_after by done.
      rewrite app_nil_r. apply (IH r0); [done | lia | done | lia].
    + destruct Ht as [[-> ->] | (p & -> & Hp & Hr0)]; nia.
Qed.

Lemma array_set_inside {A} (l : list (option A)) (k : Z) (w : option A) :
  (Z.to_nat k < List.length l)%nat → array_set l k w = <[Z.to_nat k := w]> l.
Proof. intros H. unfold array_set. by destruct (Nat.ltb_spec (Z.to_nat k) (List.length l)); [| lia]. Qed.

Lemma array_set_end {A} (l : list (option A)) (k : Z) (w : option A) :
  Z.to_nat k = List.length l → array_set l k w = l ++ [w].
Proof.
  intros H. unfold array_set. destruct (Nat.ltb_spec (Z.to_nat k) (List.length l)); [lia |].
  by rewrite H, Nat.sub_diag.
Qed.

(** Writing below the number of elements replaces one element. *)
Lemma set_loop_replace d : ∀ n node index x,
  holds d n node → (d ≤ 5)%nat → 0 ≤ index < 2 ^ 31 →
  (Z.to_nat index `mod` cap d < n)%nat →
  ∃ node', set_loop d node index (nodeBits * Z.of_nat d) x = Ok node' ∧
           holds d n node' ∧
           flat node' = <[(Z.to_nat index `mod` cap d)%nat := x]> (flat node).
Proof.
  induction d as [| d IH]; intros n [items | cs] index x Hh Hd Hi Hlt; try done.
  - destruct Hh as [Hlen Hn]. cbn [set_loop]. rewrite cap_zero in *.
    eexists; split; [reflexivity |].
    rewrite array_set_inside by (rewrite digit_leaf by done; lia).
    rewrite digit_leaf by done. split; [| done].
    split; [by rewrite length_insert | done].
  - destruct Hh as (front & tail & r0 & -> & HF & Ht & Hn & Hcap).
    cbn [set_loop]. rewrite level_succ.
    rewrite array_get_nat by apply js_and_mask_range.
    pose proof (cap_pos d) as HC.
    assert (Hsplit := index_split (Z.to_nat index) (cap d) ltac:(lia)).
    rewrite <- cap_succ in Hsplit. rewrite Hsplit in Hlt |- *.
    pose proof (digit_inner index (S d) Hi Hd) as Hdigit. fold (cap d) in Hdigit.
    set (kz := js_and (js_shr index (nodeBits * Z.of_nat (S d))) nodeBitmask) in *.
    set (k := ((Z.to_nat index `div` cap d) `mod` 32)%nat) in *.
    set (r := (Z.to_nat index `mod` cap d)%nat) in *.
    assert (Hr : (r < cap d)%nat) by (apply Nat.mod_upper_bound; lia).
    clearbody k kz.
    rewrite Hdigit, list_lookup_fmap, flat_inner_some, (fmap_app flat), concat_app.
    pose proof (holds_blocks d front HF) as HB.
    destruct (lt_eq_lt_dec k (List.length front)) as [[Hk | Hk] | Hk].
    + destruct (lookup_lt_is_Some_2 front k Hk) as [child Hchild].
      rewrite lookup_app_l, Hchild by done. cbn.
      assert (Hc : holds d (cap d) child) by apply (Forall_lookup_1 _ _ _ _ HF Hchild).
      destruct (IH (cap d) child index x Hc ltac:(lia) Hi Hr) as (child' & -> & Hc' & Hflat).
      cbn. eexists; split; [reflexivity |].
      rewrite array_set_inside by (rewrite Hdigit, length_fmap, length_app; lia).
      rewrite Hdigit, <- list_fmap_insert, insert_app_l by done.
      split.
      * exists (<[k := child']> front), tail, r0.
        rewrite length_insert. repeat split; try done.
        by apply Forall_insert.
      * rewrite flat_inner_some, (fmap_app flat), concat_app, list_fmap_insert, Hflat.
        symmetry. apply (insert_concat_block _ (cap d)); [done | done |].
        by rewrite list_lookup_fmap, Hchild.
    + destruct Ht as [[-> ->] | (p & -> & Hp & Hr0)]; [lia |].
      rewrite lookup_app_r by lia. rewrite Hk, Nat.sub_diag. cbn.
      destruct (IH r0 p index x Hp ltac:(lia) Hi ltac:(fold r; lia)) as (p' & -> & Hp' & Hflat).
      cbn. eexists; split; [reflexivity |].
      rewrite array_set_inside by (rewrite Hdigit, length_fmap, length_app; cbn; lia).
      rewrite Hdigit, <- list_fmap_insert, Hk.
      rewrite insert_app_r_alt, Nat.sub_diag by lia.
      change (<[O := p']> [p]) with [p'].
      split.
      * exists front, [p'], r0. repeat split; try done. right. by exists p'.
      * rewrite flat_inner_some, (fmap_app flat), concat_app. cbn. rewrite !app_nil_r, Hflat.
        rewrite <- (length_fmap flat front). symmetry.
        by apply (insert_concat_after _ (cap d)).
    + destruct Ht as [[-> ->] | (p & -> & Hp & Hr0)]; nia.
Qed.

Lemma holds_fresh d : holds d 0 (fresh_node (T := T) d).
Proof.
  destruct d; cbn; [split; [done | lia] |].
  exists [], [], O. repeat split; try done; try lia. by left.
Qed.

Lemma flat_fresh d : flat (fresh_node (T := T) d) = [].
Proof. by destruct d. Qed.

(** Writing at the number of elements of a node that is not full adds one
    element at the end. *)
Lemma set_loop_append d : ∀ n node index x,
  holds d n node → (d ≤ 5)%nat → 0 ≤ index < 2 ^ 31 →
  (n < cap d)%nat → (Z.to_nat index `mod` cap d)%nat = n →
  ∃ node', set_loop d node index (nodeBits * Z.of_nat d) x = Ok node' ∧
           holds d (S n) node' ∧
           flat node' = flat node ++ [x].
Proof.
  induction d as [| d IH]; intros n [items | cs] index x Hh Hd Hi Hlt Hidx; try done.
  - destruct Hh as [Hlen Hn]. cbn [set_loop]. rewrite cap_zero in *.
    eexists; split; [reflexivity |].
    rewrite array_set_end by (rewrite digit_leaf by done; lia).
    split; [| done]. split; [rewrite length_app; cbn; lia | lia].
  - destruct Hh as (front & tail & r0 & -> & HF & Ht & Hn & Hcap).
    cbn [set_loop]. rewrite level_succ.
    rewrite array_get_nat by apply js_and_mask_range.
    pose proof (cap_pos d) as HC.
    assert (Hsplit := index_split (Z.to_nat index) (cap d) ltac:(lia)).
    rewrite <- cap_succ in Hsplit. rewrite Hsplit in Hidx.
    pose proof (digit_inner index (S d) Hi Hd) as Hdigit. fold (cap d) in Hdigit.
    set (kz := js_and (js_shr index (nodeBits * Z.of_nat (S d))) nodeBitmask) in *.
    set (k := ((Z.to_nat index `div` cap d) `mod` 32)%nat) in *.
    assert (Hr : (Z.to_nat index `mod` cap d < cap d)%nat) by (apply Nat.mod_upper_bound; lia).
    set (r := (Z.to_nat index `mod` cap d)%nat) in *.
    clearbody k kz.
    rewrite Hdigit, list_lookup_fmap, flat_inner_some, (fmap_app flat), concat_app.
    pose proof (holds_blocks d front HF) as HB.
    assert (Hk : k = List.length front ∧ r = r0).
    { apply (block_unique (cap d)); [done | |].
      - destruct Ht as [[-> ->] | (p & -> & Hp & Hr0)]; lia.
      - lia. }
    destruct Hk as [Hk Hrr].
    destruct Ht as [[-> Hr0] | (p & -> & Hp & Hr0)].
    + rewrite app_nil_r, lookup_ge_None_2 by lia. cbn.
      destruct (IH O (fresh_node d) index x (holds_fresh d) ltac:(lia) Hi ltac:(lia)
                  ltac:(change (r = O); lia))
        as (child' & -> & Hc' & Hflat).
      cbn. eexists; split; [reflexivity |].
      rewrite array_set_end by (rewrite Hdigit, length_fmap; lia).
      rewrite flat_fresh in Hflat. cbn in Hflat.
      assert (Hfmap : (Some <$> front) ++ [Some child'] = Some <$> (front ++ [child']))
        by (by rewrite fmap_app).
      rewrite Hfmap. split.
      * exists front, [child'], 1%nat. repeat split; try done; try lia.
        right. exists child'. repeat split; try done; lia.
      * rewrite flat_inner_some, (fmap_app flat), concat_app. cbn. by rewrite !app_nil_r, Hflat.
    + rewrite lookup_app_r by lia. rewrite Hk, Nat.sub_diag. cbn.
      destruct (IH r0 p index x Hp ltac:(lia) Hi ltac:(lia) Hrr)
        as (p' & -> & Hp' & Hflat).
      cbn. eexists; split; [reflexivity |].
      rewrite array_set_inside by (rewrite Hdigit, length_fmap, length_app; cbn; lia).
      rewrite Hdigit, <- list_fmap_insert, Hk.
      rewrite insert_app_r_alt, Nat.sub_diag by lia.
      change (<[O := p']> [p]) with [p'].
      split.
      * destruct (decide (S r0 = cap d)) as [Hfull | Hpart].
        -- exists (front ++ [p']), [], O.
           rewrite <- app_assoc, length_app. cbn.
           repeat split; try done; try lia; [| by left].
           apply Forall_app. split; [done |]. repeat constructor. by rewrite <- Hfull.
        -- exists front, [p'], (S r0). repeat split; try done; try lia.
           right. exists p'. repeat split; try done; lia.
      * rewrite flat_inner_some, (fmap_app flat), concat_app. cbn.
        rewrite !app_nil_r, Hflat. by rewrite app_assoc.
Qed.

Lemma holds_spine d x : holds d 1 (spine d x) ∧ flat (spine d x) = [x].
Proof.
  induction d as [| d [IH1 IH2]]; cbn [spine].
  - split; [split; [done | lia] | done].
  - pose proof (cap_pos d). pose proof (cap_succ d). split.
    + exists [], [spine d x], 1%nat. repeat split; try done; try lia.
      right. exists (spine d x). repeat split; try done; lia.
    + change (Inner [Some (spine d x)]) with (Inner (Some <$> [spine d x])).
      rewrite flat_inner_some. cbn. by rewrite app_nil_r.
Qed.

End vector_refinement.
(** ** The vector operations on the list of elements *)

Lemma cap_five : Z.of_nat (cap 5) = 2 ^ 30.
Proof. unfold cap. rewrite Nat2Z.inj_pow. reflexivity. Qed.

Lemma cap_mono d d' : (d ≤ d')%nat → (cap d ≤ cap d')%nat.
Proof. intros H. unfold cap. apply Nat.pow_le_mono_r; lia. Qed.

Lemma capacity_eq (d : nat) :
  (d ≤ 5)%nat → js_shl Vector.nodeSize (Vector.nodeBits * Z.of_nat d) = Z.of_nat (cap d).
Proof.
  intros Hd. pose proof (cap_bound d Hd) as Hb.
  rewrite nodeSize_eq. unfold js_shl, Vector.nodeBits.
  rewrite (int32_small 32) by lia.
  rewrite (Z.mod_small (5 * Z.of_nat d)) by lia.
  rewrite Z.shiftl_mul_pow2 by lia.
  assert (Hpow : 32 * 2 ^ (5 * Z.of_nat d) = Z.of_nat (cap d)).
  { unfold cap. rewrite Nat2Z.inj_pow. change (Z.of_nat 32) with 32.
    replace (Z.of_nat (S d)) with (1 + Z.of_nat d) by lia.
    rewrite Z.pow_add_r, Z.pow_mul_r by lia. done. }
  rewrite Hpow. apply int32_small. lia.
Qed.

Section vector_spec.
Context {T : Type}.
Import Vector.
Implicit Types (node : VectorNode T) (v : Vector T) (x : option T).

Lemma holds_le d n node : holds d n node → (n ≤ cap d)%nat.
Proof.
  destruct d, node; try done; cbn.
  - rewrite cap_zero. lia.
  - intros (? & ? & ? & _ & _ & _ & _ & H). done.
Qed.

Lemma wf_empty : wf (empty (T := T)).
Proof. exists O. cbn. repeat split; try done; lia. Qed.

Lemma wf_length v : wf v → List.length (to_list v) = Z.to_nat (length v).
Proof. intros (d & _ & _ & _ & Hh). by apply (holds_length d). Qed.

Lemma wf_length_bound v : wf v → 0 ≤ length v ≤ 2 ^ 30.
Proof.
  intros (d & _ & Hd & H0 & Hh). apply holds_le in Hh.
  pose proof (cap_bound d Hd). lia.
Qed.

(** [get] below the length reads the element of the list. *)
Lemma get_spec v i :
  wf v → 0 ≤ i < length v → get v i = Ok (mjoin (to_list v !! Z.to_nat i)).
Proof.
  intros Hwf Hi. pose proof (wf_length_bound v Hwf) as Hb.
  destruct Hwf as (d & Hs & Hd & H0 & Hh).
  unfold get. destruct (Z.leb_spec 0 i); [| lia].
  destruct (Z.ltb_spec i (length v)); [| lia]. cbn.
  pose proof (holds_le _ _ _ Hh) as Hle.
  rewrite Hs, (get_loop_holds d _ _ _ Hh) by (rewrite ?Nat.mod_small; lia).
  rewrite Nat.mod_small by lia. done.
Qed.

Lemma get_outside v i : ¬ (0 ≤ i < length v) → get v i = Ok None.
Proof.
  intros Hi. unfold get.
  destruct (Z.leb_spec 0 i); destruct (Z.ltb_spec i (length v)); try done; lia.
Qed.

(** [set] below the length replaces the element of the list. *)
Lemma set_spec v i x :
  wf v → 0 ≤ i < length v →
  ∃ v', set v i x = Ok v' ∧ wf v' ∧
        to_list v' = <[Z.to_nat i := x]> (to_list v) ∧ length v' = length v.
Proof.
  intros Hwf Hi. pose proof (wf_length_bound v Hwf) as Hb.
  destruct Hwf as (d & Hs & Hd & H0 & Hh).
  rewrite set_below_length by done. unfold set_within.
  destruct (Z.ltb_spec i (length v)); [| lia]. cbn [orb].
  pose proof (holds_le _ _ _ Hh) as Hle.
  rewrite Hs, rounds_levels.
  destruct (set_loop_replace d _ _ i x Hh Hd ltac:(lia) ltac:(rewrite Nat.mod_small; lia))
    as (root' & -> & Hh' & Hflat).
  rewrite Nat.mod_small in Hflat by lia.
  cbn. eexists; split; [reflexivity |]. split; [| done].
  by exists d.
Qed.

(** [append] adds one element at the end of the list. *)
Lemma append_spec v x :
  wf v → length v < 2 ^ 30 →
  ∃ v', append v x = Ok v' ∧ wf v' ∧
        to_list v' = to_list v ++ [x] ∧ length v' = length v + 1.
Proof.
  intros Hwf Hlen. destruct Hwf as (d & Hs & Hd & H0 & Hh).
  pose proof (holds_le _ _ _ Hh) as Hle.
  unfold append, set. destruct (Z.gtb_spec (length v) (length v)); [lia |].
  unfold set_within.
  destruct (Z.ltb_spec (length v) (length v)); [lia |]. cbn [orb].
  rewrite Hs, (capacity_eq d Hd).
  destruct (Z.ltb_spec (length v) (Z.of_nat (cap d))) as [Hroom | Hfull].
  - rewrite rounds_levels.
    destruct (set_loop_append d _ _ (length v) x Hh Hd ltac:(lia) ltac:(lia)
                ltac:(rewrite Nat.mod_small; lia))
      as (root' & -> & Hh' & Hflat).
    cbn. eexists; split; [reflexivity |]. split; [| done].
    exists d. cbn. repeat split; try done; try lia.
    by replace (Z.to_nat (length v + 1)) with (S (Z.to_nat (length v))) by lia.
  - assert (Hn : Z.to_nat (length v) = cap d) by lia.
    assert (Hd' : (d ≤ 4)%nat).
    { destruct (decide (d = 5%nat)) as [-> |]; [| lia]. pose proof cap_five. lia. }
    assert (Hpushes : Z.to_nat ((nodeBits * Z.of_nat d + nodeBits + (nodeBits - 1))
                               `div` nodeBits - 1) = d).
    { unfold nodeBits.
      replace ((5 * Z.of_nat d + 5 + (5 - 1)) `div` 5) with (Z.of_nat d + 1); [lia |].
      apply (Z.div_unique_pos _ _ _ 4); lia. }
    rewrite Hpushes. eexists; split; [reflexivity |].
    destruct (holds_spine d x) as [Hsp Hfl].
    pose proof (cap_pos d) as HC. pose proof (cap_succ d) as HS.
    split; [| split; [| done]].
    + exists (S d). cbn [root shift length].
      split; [unfold nodeBits; lia |]. split; [lia |]. split; [lia |].
      replace (Z.to_nat (length v + 1)) with (S (cap d)) by lia.
      rewrite Hn in Hh.
      exists [root v], [spine d x], 1%nat.
      split; [done |]. split; [by repeat constructor |].
      split; [| cbn; lia].
      right. exists (spine d x). repeat split; try done; lia.
    + unfold to_list. cbn [root].
      change (Inner [Some (root v); Some (spine d x)])
        with (Inner (Some <$> [root v; spine d x])).
      rewrite flat_inner_some. cbn. by rewrite Hfl, app_nil_r.
Qed.

End vector_spec.
(** ** The iterator visits the list in order *)

Lemma cap_factor d : cap d = (32 * 32 ^ d)%nat.
Proof. unfold cap. apply Nat.pow_succ_r'. Qed.

Lemma mod_cap_mask d j : ((j `mod` cap d) `mod` 32 = j `mod` 32)%nat.
Proof.
  rewrite cap_factor, Nat.Div0.mod_mul_r.
  rewrite (Nat.mul_comm 32 (_ `mod` _)), Nat.Div0.mod_add. apply Nat.Div0.mod_mod.
Qed.

Lemma last_of_block (r C0 : nat) : S r = (32 * C0)%nat → (r `mod` 32 = 31)%nat.
Proof.
  intros H. destruct C0 as [| C0]; [lia |].
  replace r with (31 + C0 * 32)%nat by lia.
  by rewrite Nat.Div0.mod_add.
Qed.

Lemma succ_same_block d j :
  (j `mod` 32 ≠ 31)%nat →
  (S j `div` cap d = j `div` cap d ∧ S j `mod` cap d = S (j `mod` cap d))%nat.
Proof.
  intros Hj. pose proof (cap_pos d) as HC.
  pose proof (Nat.div_mod_eq j (cap d)) as Hdm.
  pose proof (Nat.mod_upper_bound j (cap d) ltac:(lia)) as Hr.
  assert (Hlt : (S (j `mod` cap d) < cap d)%nat).
  { destruct (decide (S (j `mod` cap d) = cap d)) as [E |]; [| lia].
    rewrite cap_factor in E at 2. apply last_of_block in E.
    rewrite mod_cap_mask in E. done. }
  assert (HS : S j = (cap d * (j `div` cap d) + S (j `mod` cap d))%nat) by lia.
  split; symmetry.
  - by apply (Nat.div_unique _ _ _ (S (j `mod` cap d))).
  - by apply (Nat.mod_unique _ _ (j `div` cap d)).
Qed.

Lemma succ_next_block C j :
  (0 < C)%nat → S (j `mod` C) = C →
  (S j `div` C = S (j `div` C) ∧ S j `mod` C = 0)%nat.
Proof.
  intros HC Hr. pose proof (Nat.div_mod_eq j C) as Hdm.
  assert (HS : S j = (C * S (j `div` C) + 0)%nat) by lia.
  split; symmetry.
  - by apply (Nat.div_unique _ _ _ 0).
  - by apply (Nat.mod_unique _ _ (S (j `div` C))).
Qed.

Section vector_iterate.
Context {T : Type}.
Import Vector.
Implicit Types (node leaf : VectorNode T) (v : Vector T) (x : option T).
Implicit Types (fr below stack : list (frame (T := T))).

Lemma on_path_length d : ∀ node j fr leaf, on_path d node j fr leaf → List.length fr = d.
Proof.
  induction d as [| d IH]; intros node j fr leaf H.
  - destruct fr; [done |]. by destruct node.
  - destruct node as [| cs]; [done |]. destruct fr as [| [cs' k] fr]; [done |].
    destruct H as (_ & _ & c & _ & H). cbn. f_equal. by eapply IH.
Qed.

(** The children of a node that holds [n] elements: child [k], when
    [k * cap d < n], exists and holds its share. *)
Lemma holds_child d n (cs : list (option (VectorNode T))) (k : nat) :
  holds (S d) n (Inner cs) → (k * cap d < n)%nat →
  ∃ c m, cs !! k = Some (Some c) ∧ holds d m c ∧ (0 < m)%nat ∧
         ((S k * cap d ≤ n)%nat ∧ m = cap d ∨ (n < S k * cap d)%nat ∧ n = (k * cap d + m)%nat).
Proof.
  intros (front & tail & r & -> & HF & Ht & Hn & Hcap) Hk.
  pose proof (cap_pos d) as HC.
  destruct (lt_eq_lt_dec k (List.length front)) as [[Hlt | Heq] | Hgt].
  - destruct (lookup_lt_is_Some_2 front k Hlt) as [c Hc].
    exists c, (cap d). rewrite list_lookup_fmap, lookup_app_l, Hc by done.
    split; [done |]. split; [by apply (Forall_lookup_1 _ _ _ _ HF Hc) |].
    split; [lia |]. left. split; [| done].
    assert (S k * cap d ≤ List.length front * cap d)%nat by (apply Nat.mul_le_mono_r; lia).
    lia.
  - destruct Ht as [[-> ->] | (p & -> & Hp & Hr)]; [lia |].
    exists p, r. rewrite list_lookup_fmap, lookup_app_r, Heq, Nat.sub_diag by lia.
    split; [done |]. split; [done |]. split; [lia |]. right. subst k. lia.
  - assert (S (List.length front) * cap d ≤ k * cap d)%nat by (apply Nat.mul_le_mono_r; lia).
    destruct Ht as [[-> ->] | (p & -> & Hp & Hr)]; lia.
Qed.

Lemma holds_child_of d n (cs : list (option (VectorNode T))) (k : nat) c :
  holds (S d) n (Inner cs) → cs !! k = Some (Some c) →
  ∃ m, holds d m c ∧
       (0 < m)%nat ∧ (k * cap d + m ≤ n)%nat ∧
       (m = cap d ∨ n = (k * cap d + m)%nat) ∧
       flat (Inner cs) !! (k * cap d)%nat = flat c !! O ∧
       ∀ r, (r < cap d)%nat → flat (Inner cs) !! (k * cap d + r)%nat = flat c !! r.
Proof.
  intros (front & tail & r0 & -> & HF & Ht & Hn & Hcap) Hc.
  pose proof (cap_pos d) as HC.
  pose proof (holds_blocks d front HF) as HB.
  rewrite list_lookup_fmap in Hc.
  rewrite flat_inner_some, (fmap_app flat), concat_app.
  destruct ((front ++ tail) !! k) as [c' |] eqn:E; cbn in Hc; simplify_eq.
  destruct (decide (k < List.length front)%nat) as [Hlt | Hge].
  - rewrite lookup_app_l in E by done.
    exists (cap d). split; [by apply (Forall_lookup_1 _ _ _ _ HF E) |].
    assert (S k * cap d ≤ List.length front * cap d)%nat by (apply Nat.mul_le_mono_r; lia).
    split; [lia |]. split; [lia |]. split; [by left |].
    assert (Hblock : ∀ r, (r < cap d)%nat →
      (concat (flat <$> front) ++ concat (flat <$> tail)) !! (k * cap d + r)%nat = flat c !! r).
    { intros r Hr. apply (lookup_concat_block _ (cap d)); [done | done |].
      by rewrite list_lookup_fmap, E. }
    split; [| done]. rewrite <- (Nat.add_0_r (k * cap d)). apply Hblock. lia.
  - rewrite lookup_app_r in E by lia.
    destruct Ht as [[-> ->] | (p & -> & Hp & Hr0)]; [by destruct (k - _)%nat |].
    destruct (k - List.length front)%nat as [| k'] eqn:Ek; [| by destruct k'].
    cbn in E. simplify_eq. assert (k = List.length front) as -> by lia.
    exists r0. split; [done |]. split; [lia |]. split; [lia |]. split; [by right |].
    change (concat (flat <$> [c])) with (flat c ++ []). rewrite app_nil_r.
    assert (Hafter : ∀ r,
      (concat (flat <$> front) ++ flat c) !! (List.length front * cap d + r)%nat = flat c !! r).
    { intros r. rewrite <- (length_fmap flat front). by apply lookup_concat_after. }
    split; [| by intros; apply Hafter].
    rewrite <- (Nat.add_0_r (_ * cap d)). apply Hafter.
Qed.

(** Descending along first children reaches the path of index 0. *)
Lemma descend_first d : ∀ n node below,
  holds d n node → (0 < n)%nat →
  ∃ fr leaf, descend d below (Some node) = Ok (rev fr ++ below, Some leaf) ∧
             on_path d node 0 fr leaf.
Proof.
  induction d as [| d IH]; intros n node below Hh Hn.
  - exists [], node. done.
  - destruct node as [| cs]; [done |].
    destruct (holds_child d n cs 0 Hh ltac:(lia)) as (c & m & Hc & Hm & Hpos & _).
    destruct (IH m c ((cs, 0) :: below) Hm Hpos) as (fr & leaf & Hdesc & Hpath).
    exists ((cs, 0) :: fr), leaf. cbn [descend].
    rewrite array_get_nat by lia. change (Z.to_nat 0) with O. rewrite Hc.
    cbn [mjoin option_join].
    rewrite Hdesc. split; [cbn; by rewrite <- app_assoc |].
    pose proof (cap_pos d).
    cbn. rewrite Nat.Div0.div_0_l, Nat.Div0.mod_0_l. eauto.
Qed.

(** The leaf at the end of the path of [j] holds element [j]. *)
Lemma on_path_elem d : ∀ n node j fr leaf,
  holds d n node → on_path d node j fr leaf → (j < n)%nat →
  ∃ items, leaf = Leaf items ∧ flat node !! j = items !! (j `mod` 32)%nat.
Proof.
  induction d as [| d IH]; intros n node j fr leaf Hh Hp Hj.
  - destruct fr; [| by destruct node]. cbn in Hp. subst leaf.
    destruct node as [items |]; [| done]. destruct Hh as [Hlen Hn].
    exists items. split; [done |]. rewrite Nat.mod_small by lia. done.
  - destruct node as [| cs]; [done |]. destruct fr as [| [cs' k] fr]; [done |].
    destruct Hp as (-> & -> & c & Hc & Hp).
    pose proof (cap_pos d) as HC.
    destruct (holds_child_of d n cs _ c Hh Hc) as (m & Hm & Hpos & Hle & Hcase & _ & Hblock).
    pose proof (Nat.div_mod_eq j (cap d)) as Hdm.
    pose proof (Nat.mod_upper_bound j (cap d) ltac:(lia)) as Hr.
    destruct (IH m c (j `mod` cap d)%nat fr leaf Hm Hp ltac:(lia)) as (items & -> & Hflat).
    exists items. split; [done |].
    rewrite mod_cap_mask in Hflat. rewrite <- Hflat, <- Hblock by done.
    f_equal. lia.
Qed.

Lemma on_path_no_carry d : ∀ node j fr leaf,
  on_path d node j fr leaf → (j `mod` 32 ≠ 31)%nat → on_path d node (S j) fr leaf.
Proof.
  induction d as [| d IH]; intros node j fr leaf Hp Hj; [done |].
  destruct node as [| cs]; [done |]. destruct fr as [| [cs' k] fr]; [done |].
  destruct Hp as (-> & -> & c & Hc & Hp).
  destruct (succ_same_block d j Hj) as [Hdiv Hmod].
  cbn. rewrite Hdiv, Hmod. repeat split; try done.
  exists c. split; [done |]. apply IH; [done |]. by rewrite mod_cap_mask.
Qed.

Lemma on_path_all_full d : ∀ node j fr leaf,
  on_path d node j fr leaf → S j = cap d → Forall (λ f, f.2 = 31) fr.
Proof.
  induction d as [| d IH]; intros node j fr leaf Hp Hj.
  - destruct fr; [constructor | by destruct node].
  - destruct node as [| cs]; [done |]. destruct fr as [| [cs' k] fr]; [done |].
    destruct Hp as (-> & -> & c & Hc & Hp).
    pose proof (cap_pos d) as HC. rewrite cap_succ in Hj.
    assert (Hdm : (j `div` cap d = 31 ∧ S (j `mod` cap d) = cap d)%nat).
    { assert (E : j = (cap d * 31 + (cap d - 1))%nat) by lia.
      split.
      - symmetry. apply (Nat.div_unique _ _ _ (cap d - 1)); [lia | done].
      - rewrite <- (Nat.mod_unique j (cap d) 31 (cap d - 1)); [lia | lia | done]. }
    destruct Hdm as [Hdiv Hmod]. constructor.
    + cbn. by rewrite Hdiv.
    + by apply (IH c (j `mod` cap d)%nat fr leaf).
Qed.

Lemma pop_full_app_full stack below :
  Forall (λ f, f.2 = 31) stack → pop_full (stack ++ below) = pop_full below.
Proof.
  induction 1 as [| f stack Hf _ IH]; [done |].
  cbn. rewrite Hf, nodeSize_eq. cbn. exact IH.
Qed.

(** [let step = stack.pop(); ...; step[1]++; stack.push(step); node = step[0][step[1]]] *)
Definition carry stack : result (list (frame (T := T)) * option (VectorNode T)) :=
  '(step, rest) ← pop_full stack;
  let step' := (step.1, step.2 + 1) in
  Ok (step' :: rest, array_get step'.1 step'.2).

Lemma descend_rounds_eq (D : nat) stack :
  (List.length stack ≤ D)%nat →
  descend_rounds (nodeBits * Z.of_nat D) stack = (D - List.length stack)%nat.
Proof.
  intros H. unfold descend_rounds, nodeBits.
  replace ((5 * Z.of_nat D - Z.of_nat (List.length stack) * 5 + (5 - 1)) `div` 5)
    with (Z.of_nat (D - List.length stack)); [apply Nat2Z.id |].
  apply (Z.div_unique_pos _ _ _ 4); lia.
Qed.

(** When the leaf of index [j] is exhausted, popping the full frames,
    stepping to the next child and descending reaches the path of [j+1]. *)
Lemma carry_next d : ∀ n node j fr leaf below (D : nat),
  holds d n node → on_path d node j fr leaf →
  (j `mod` 32 = 31)%nat → (S j < n)%nat → D = (List.length below + d)%nat →
  ∃ stack1 (next1 : option (VectorNode T)) fr' leaf',
    carry (rev fr ++ below) = Ok (stack1, next1) ∧
    descend (descend_rounds (nodeBits * Z.of_nat D) stack1) stack1 next1
      = Ok (rev fr' ++ below, Some leaf') ∧
    on_path d node (S j) fr' leaf'.
Proof.
  induction d as [| d IH]; intros n node j fr leaf below D Hh Hp Hj Hn HD.
  - destruct node as [items |]; [| done]. destruct Hh as [_ Hle].
    assert (j < 32)%nat by lia. rewrite Nat.mod_small in Hj by done. lia.
  - destruct node as [| cs]; [done |]. destruct fr as [| [cs' k] fr]; [done |].
    pose proof Hp as (-> & -> & c & Hc & Hp').
    pose proof (cap_pos d) as HC.
    destruct (holds_child_of d n cs _ c Hh Hc) as (m & Hm & Hpos & Hle & Hcase & _).
    pose proof (Nat.div_mod_eq j (cap d)) as Hdm.
    pose proof (Nat.mod_upper_bound j (cap d) ltac:(lia)) as Hr.
    pose proof (holds_le _ _ _ Hh) as Hcap. rewrite cap_succ in Hcap.
    set (k0 := (j `div` cap d)%nat) in *. set (r := (j `mod` cap d)%nat) in *.
    cbn [rev]. rewrite <- app_assoc. cbn [app].
    destruct (decide (S r < m)%nat) as [Hin | Hout].
    + (* the next index is under the same child *)
      destruct (IH m c r fr leaf ((cs, Z.of_nat k0) :: below) D Hm Hp'
                  ltac:(unfold r; by rewrite mod_cap_mask) Hin
                  ltac:(cbn [List.length]; unfold frame in *; lia))
        as (stack1 & next1 & fr' & leaf' & Hcarry & Hdesc & Hpath).
      exists stack1, next1, ((cs, Z.of_nat k0) :: fr'), leaf'.
      split; [done |]. split; [cbn [rev]; by rewrite <- app_assoc |].
      assert (Hdiv : (S j `div` cap d = k0 ∧ S j `mod` cap d = S r)%nat).
      { pose proof (holds_le _ _ _ Hm).
        assert (HS : S j = (cap d * k0 + S r)%nat) by lia.
        split; symmetry.
        - apply (Nat.div_unique _ _ _ (S r)); [lia | done].
        - apply (Nat.mod_unique _ _ k0); [lia | done]. }
      destruct Hdiv as [Hdiv Hmod]. cbn. rewrite Hdiv, Hmod. eauto.
    + (* the child is exhausted: step to the next child of this node *)
      assert (Hm_full : m = cap d) by (destruct Hcase; lia).
      assert (Hrfull : S r = cap d) by lia.
      pose proof (on_path_all_full d c r fr leaf Hp' Hrfull) as Hfull.
      destruct (succ_next_block (cap d) j ltac:(lia) Hrfull) as [Hdiv Hmod].
      fold k0 in Hdiv.
      assert (Hk31 : (k0 < 31)%nat).
      { destruct (decide (k0 < 31)%nat); [done |].
        assert (31 * cap d ≤ k0 * cap d)%nat by (apply Nat.mul_le_mono_r; lia). lia. }
      destruct (holds_child d n cs (S k0) Hh ltac:(lia)) as (c2 & m2 & Hc2 & Hm2 & Hpos2 & _).
      destruct (descend_first d m2 c2 ((cs, Z.of_nat k0 + 1) :: below) Hm2 Hpos2)
        as (fr2 & leaf2 & Hdesc & Hpath2).
      unfold carry. rewrite pop_full_app_full by (by apply Forall_rev).
      cbn [pop_full fst snd]. rewrite nodeSize_eq.
      destruct (Z.eqb_spec (Z.of_nat k0) (32 - 1)) as [? | _]; [lia |].
      cbn [mbind result_bind fst snd].
      eexists _, _, ((cs, Z.of_nat k0 + 1) :: fr2), leaf2.
      split; [reflexivity |].
      rewrite descend_rounds_eq by (cbn [List.length]; unfold frame in *; lia).
      match goal with
      | |- context [descend ?rounds] =>
          replace rounds with d by (cbn [List.length]; unfold frame in *; lia)
      end.
      rewrite array_get_nat by lia.
      replace (Z.to_nat (Z.of_nat k0 + 1)) with (S k0) by lia.
      rewrite Hc2. cbn [mjoin option_join]. rewrite Hdesc.
      split; [cbn [rev]; by rewrite <- app_assoc |].
      cbn. rewrite Hdiv, Hmod. repeat split; try done; [lia |]. eauto.
Qed.

Lemma leaf_mask (i : nat) :
  Z.of_nat i < 2 ^ 31 → js_and (Z.of_nat i) nodeBitmask = Z.of_nat (i `mod` 32).
Proof.
  intros H. rewrite js_and_mask, int32_small by lia.
  by rewrite Nat2Z.inj_mod.
Qed.

(** The rounds after the one that yielded element [j]. *)
Lemma iterate_loop_spec (D n : nat) root : ∀ (m j : nat) fr leaf,
  holds D n root → (D ≤ 5)%nat → on_path D root j fr leaf →
  (S j + m = n)%nat →
  iterate_loop m (nodeBits * Z.of_nat D) (rev fr) (Some leaf) (Z.of_nat j)
  = Ok (drop (S j) (flat root)).
Proof.
  induction m as [| m IH]; intros j fr leaf Hh HD Hp Hn.
  - cbn. rewrite drop_ge; [done |]. rewrite (holds_length D n) by done. lia.
  - pose proof (holds_le _ _ _ Hh) as Hcap. pose proof (cap_bound D HD) as Hb.
    pose proof (on_path_length D _ _ _ _ Hp) as Hlen.
    cbn [iterate_loop]. rewrite leaf_mask, nodeSize_eq by lia.
    match goal with
    | |- (?first ≫= _) = _ =>
        assert (Hstep : ∃ stack1 (next1 : option (VectorNode T)) fr' leaf',
          first = Ok (stack1, next1) ∧
          descend (descend_rounds (nodeBits * Z.of_nat D) stack1) stack1 next1
            = Ok (rev fr', Some leaf') ∧
          on_path D root (S j) fr' leaf')
    end.
    { destruct (decide (j `mod` 32 = 31)%nat) as [Hc | Hnc].
      - assert (0 < j)%nat by (destruct j; [done | lia]).
        destruct (Z.gtb_spec (Z.of_nat j) 0); [| lia].
        rewrite Hc. change (Z.of_nat 31 =? 32 - 1) with true. cbn [andb].
        destruct (carry_next D n root j fr leaf [] D Hh Hp Hc ltac:(lia) ltac:(cbn; lia))
          as (stack1 & next1 & fr' & leaf' & Hcarry & Hdesc & Hpath).
        rewrite app_nil_r in Hcarry, Hdesc.
        exists stack1, next1, fr', leaf'. split; [exact Hcarry |]. done.
      - exists (rev fr), (Some leaf), fr, leaf.
        assert (Hcond : (Z.of_nat j >? 0) && (Z.of_nat (j `mod` 32) =? 32 - 1) = false).
        { apply andb_false_iff. right. apply Z.eqb_neq. lia. }
        rewrite Hcond. split; [done |].
        split; [| by apply on_path_no_carry].
        rewrite descend_rounds_eq by (rewrite length_rev; lia).
        by rewrite length_rev, Hlen, Nat.sub_diag. }
    destruct Hstep as (stack1 & next1 & fr' & leaf' & -> & Hdesc & Hp').
    cbn [mbind result_bind]. rewrite Hdesc. cbn [mbind result_bind].
    destruct (on_path_elem D n root (S j) fr' leaf' Hh Hp' ltac:(lia)) as (items & -> & Helem).
    replace (Z.of_nat j + 1) with (Z.of_nat (S j)) by lia.
    rewrite (IH (S j) fr' (Leaf items) Hh HD Hp' ltac:(lia)).
    cbn [mbind result_bind]. f_equal.
    rewrite leaf_mask by lia. rewrite array_get_nat, Nat2Z.id by lia.
    rewrite <- Helem.
    destruct (lookup_lt_is_Some_2 (flat root) (S j)) as [cell Hcell].
    { rewrite (holds_length D n) by done. lia. }
    rewrite Hcell. cbn. symmetry. by apply drop_S.
Qed.

(** The iterator yields the elements of the list, in order. *)
Lemma iterate_spec v : wf v → iterate v = Ok (to_list v).
Proof.
  intros (D & Hs & HD & H0 & Hh). unfold iterate, to_list. rewrite Hs.
  destruct (Z.to_nat (length v)) as [| m] eqn:En.
  - cbn. apply (holds_length D) in Hh. by destruct (flat (root v)).
  - pose proof (holds_le _ _ _ Hh) as Hcap. pose proof (cap_bound D HD) as Hb.
    destruct (descend_first D (S m) (root v) [] Hh ltac:(lia)) as (fr & leaf & Hdesc & Hp).
    rewrite app_nil_r in Hdesc.
    cbn [iterate_loop]. cbn [Z.gtb Z.compare andb mbind result_bind].
    rewrite descend_rounds_eq by (cbn; lia). cbn [List.length]. rewrite Nat.sub_0_r, Hdesc.
    cbn [mbind result_bind].
    destruct (on_path_elem D (S m) (root v) 0 fr leaf Hh Hp ltac:(lia)) as (items & -> & Helem).
    change (-1 + 1) with (Z.of_nat 0).
    rewrite (iterate_loop_spec D (S m) (root v) m 0 fr (Leaf items) Hh HD Hp ltac:(lia)).
    cbn [mbind result_bind]. f_equal.
    rewrite leaf_mask by lia. rewrite array_get_nat, Nat2Z.id by lia.
    rewrite <- Helem.
    destruct (lookup_lt_is_Some_2 (flat (root v)) 0) as [cell Hcell].
    { rewrite (holds_length D (S m)) by done. lia. }
    rewrite Hcell. cbn. symmetry. rewrite <- (drop_0 (flat (root v))) at 1. by apply drop_S.
Qed.

End vector_iterate.
(** ** The chronology: reading the log *)

Section chron_log.
Context {T : Type}.
Import Chron.
Implicit Types (c : Chron T) (e p : ChronEntry T) (es : list (ChronEntry T)).
Implicit Types (order seen : list nat).

Lemma log_length c es order :
  chron_wf c es order → Vector.length (log c) = Z.of_nat (List.length es).
Proof.
  intros H. pose proof (wf_length _ (cw_vector _ _ _ H)) as Hl.
  rewrite (cw_entries _ _ _ H), length_fmap in Hl.
  destruct (cw_vector _ _ _ H) as (d & _ & _ & H0 & _). lia.
Qed.

Lemma log_get_at c es order (z : Z) :
  chron_wf c es order →
  Vector.get (log c) z = Ok (if 0 <=? z then es !! Z.to_nat z else None).
Proof.
  intros H. pose proof (log_length _ _ _ H) as Hlen.
  destruct (Z.leb_spec 0 z) as [Hz | Hz]; [| apply get_outside; lia].
  destruct (decide (z < Vector.length (log c))) as [Hlt | Hge].
  - rewrite get_spec by (first [exact (cw_vector _ _ _ H) | lia]).
    rewrite (cw_entries _ _ _ H), list_lookup_fmap.
    by destruct (es !! Z.to_nat z).
  - rewrite get_outside by lia. rewrite lookup_ge_None_2 by lia. done.
Qed.

Lemma log_get_nat c es order (i : nat) :
  chron_wf c es order → Vector.get (log c) (Z.of_nat i) = Ok (es !! i).
Proof.
  intros H. rewrite (log_get_at _ _ _ _ H).
  destruct (Z.leb_spec 0 (Z.of_nat i)); [| lia]. by rewrite Nat2Z.id.
Qed.

Lemma log_get_link c es order (n : option nat) :
  chron_wf c es order → log_get c (Z.of_nat <$> n) = Ok (n ≫= (es !!.)).
Proof.
  intros H. destruct n as [i |]; [| done]. cbn. by apply (log_get_nat _ _ order).
Qed.

Lemma chain_app es l1 l2 nxt :
  chain es (l1 ++ l2) nxt ↔
  chain es l1 (match l2 with [] => nxt | j :: _ => Some j end) ∧ chain es l2 nxt.
Proof.
  induction l1 as [| i l1 IH]; [cbn; tauto |].
  cbn [app chain]. rewrite IH.
  destruct l1 as [| j l1]; cbn; tauto.
Qed.

Lemma chain_ext es es' l nxt :
  (∀ i, i ∈ l → es' !! i = es !! i) → chain es l nxt → chain es' l nxt.
Proof.
  induction l as [| i l IH]; [done |]. intros Heq [(e & He & Hl) Hc].
  split.
  - exists e. rewrite Heq by left. done.
  - apply IH; [| done]. intros j Hj. apply Heq. by right.
Qed.

Lemma formers_mono es seen seen' l :
  seen ⊆ seen' → (seen = [] → seen' = []) → formers es seen l → formers es seen' l.
Proof.
  revert seen seen'. induction l as [| i l IH]; [done |].
  intros seen seen' Hsub Hnil [Hi Hl]. split.
  - intros e He. specialize (Hi e He). destruct (former e); [| auto].
    destruct Hi. split; [done |]. by apply Hsub.
  - apply (IH (i :: seen)); [| done | done]. by apply list_subseteq_skip.
Qed.

Lemma formers_app es seen l1 l2 :
  formers es seen (l1 ++ l2) ↔ formers es seen l1 ∧ formers es (rev l1 ++ seen) l2.
Proof.
  revert seen. induction l1 as [| i l1 IH]; intros seen; [cbn; tauto |].
  cbn [app formers rev]. rewrite IH, <- app_assoc. cbn. tauto.
Qed.

Lemma formers_ext es es' seen l :
  (∀ i e', i ∈ l → es' !! i = Some e' → ∃ e, es !! i = Some e ∧ former e = former e') →
  formers es seen l → formers es' seen l.
Proof.
  revert seen. induction l as [| i l IH]; [done |]. intros seen Heq [Hi Hl]. split.
  - intros e' He'. destruct (Heq i e' ltac:(left) He') as (e & He & <-). by apply Hi.
  - apply IH; [| done]. intros j e' Hj. apply Heq. by right.
Qed.

Lemma walked_app es l1 l2 : walked es (l1 ++ l2) = walked es l1 ++ walked es l2.
Proof. apply omap_app. Qed.

Lemma walked_cons es i l :
  walked es (i :: l) = match es !! i with Some e => e :: walked es l | None => walked es l end.
Proof. reflexivity. Qed.

Lemma walked_ext es es' l :
  (∀ i, i ∈ l → es' !! i = es !! i) → walked es' l = walked es l.
Proof.
  unfold walked. induction l as [| i l IH]; [done |]. intros Heq. cbn.
  rewrite Heq by left. rewrite IH; [done |]. intros j Hj. apply Heq. by right.
Qed.

Lemma range_loop_none fuel c (tl : option (ChronEntry T)) :
  range_loop fuel c None tl = Ok [].
Proof. by destruct fuel. Qed.

(** The loop of [range] follows the chain to its end. *)
Lemma range_loop_chain c es order0 : ∀ order (fuel : nat) i,
  chron_wf c es order0 → chain es (i :: order) None →
  (List.length order < fuel)%nat →
  range_loop fuel c (es !! i) None = Ok (walked es (i :: order)).
Proof.
  induction order as [| j order IH]; intros fuel i H [(e & He & Hl) Hc] Hf.
  - rewrite He. destruct fuel as [| fuel]; [cbn in Hf; lia |].
    cbn [range_loop same_object]. rewrite Hl. cbn. rewrite range_loop_none.
    unfold walked. cbn. by rewrite He.
  - rewrite He. destruct fuel as [| fuel]; [cbn in Hf; lia |].
    cbn [range_loop same_object].
    rewrite Hl, (log_get_link _ _ order0) by done. cbn [mbind option_bind result_bind].
    rewrite (IH fuel j H Hc) by (cbn in Hf; lia).
    unfold walked. cbn. by rewrite He.
Qed.

Lemma perm_order_length c es order :
  chron_wf c es order → List.length order = List.length es.
Proof. intros H. by rewrite (cw_perm _ _ _ H), length_seq. Qed.

Lemma order_nodup c es order : chron_wf c es order → NoDup order.
Proof. intros H. rewrite (cw_perm _ _ _ H). apply NoDup_seq. Qed.

Lemma order_lookup c es order i :
  chron_wf c es order → i ∈ order → is_Some (es !! i).
Proof.
  intros H Hi. rewrite (cw_perm _ _ _ H) in Hi.
  apply elem_of_seq in Hi. apply lookup_lt_is_Some_2. lia.
Qed.

Lemma order_split_root c es order :
  chron_wf c es order → ∃ rest, order = O :: rest.
Proof.
  intros H. pose proof (cw_head _ _ _ H) as Hh.
  destruct order as [| i rest]; [done |]. cbn in Hh. simplify_eq. eauto.
Qed.

Lemma last_link c es order :
  chron_wf c es order →
  ∃ e, es !! Z.to_nat (last c) = Some e ∧ latter e = None.
Proof.
  intros H. destruct (cw_last _ _ _ H) as [H0 Hl].
  apply last_Some in Hl as [l' ->].
  pose proof (cw_chain _ _ _ H) as Hc. apply chain_app in Hc as [_ Hc].
  destruct Hc as [(e & He & Hlat) _]. eauto.
Qed.

(** The chron, taken as a range, spans all entries after the root. *)
Lemma self_range_spec c es order :
  chron_wf c es order →
  ∃ r l, es !! O = Some r ∧ es !! Z.to_nat (last c) = Some l ∧
         self_range c = Ok (mkRange (entry_tail r) (entry_tail l)).
Proof.
  intros H. destruct (cw_root _ _ _ H) as (r & Hr & _).
  destruct (last_link _ _ _ H) as (l & Hl & _).
  destruct (cw_last _ _ _ H) as [H0 _].
  exists r, l. split; [done |]. split; [done |].
  unfold self_range, chron_head, chron_tail.
  rewrite (log_get_at c es order 0 H). change (Z.to_nat 0) with O.
  change (0 <=? 0) with true. cbn iota. rewrite Hr.
  cbn [mbind result_bind].
  rewrite (log_get_at _ _ _ _ H). destruct (Z.leb_spec 0 (last c)); [| lia].
  by rewrite Hl.
Qed.

Lemma anchorOf_entry_self c es order i e :
  chron_wf c es order → es !! i = Some e → anchorOf_entry c e = Ok (Some e).
Proof.
  intros H He. unfold anchorOf_entry.
  rewrite (cw_index _ _ _ H _ _ He), (log_get_nat _ _ _ _ H), He. cbn.
  by rewrite !Z.eqb_refl.
Qed.

Lemma iterate_by_spec c es order resolve :
  chron_wf c es order →
  (∀ i e, es !! i = Some e → resolve (entry_tail e) = Ok (Some e)) →
  (r ← self_range c; range_by resolve c r) = Ok (walked es (tl order)).
Proof.
  intros H Hres. destruct (self_range_spec _ _ _ H) as (r & l & Hr & Hl & ->).
  destruct (last_link _ _ _ H) as (l' & Hl' & Hlat). simplify_eq.
  destruct (order_split_root _ _ _ H) as [rest ->].
  pose proof (cw_chain _ _ _ H) as Hc. destruct Hc as [(r' & Hr' & Hlatr) Hc].
  simplify_eq. cbn [mbind result_bind tl].
  unfold range_by, nextTo_by. cbn [head tail].
  rewrite (Hres _ _ Hr), (Hres _ _ Hl). cbn [mbind result_bind entry_tail offset].
  cbn [Z.ltb Z.compare]. rewrite Hlatr, Hlat.
  rewrite (log_get_link _ _ _ _ H). cbn [mbind result_bind fmap option_fmap option_map log_get].
  destruct rest as [| j rest]; [done |].
  cbn [mbind option_bind].
  apply (range_loop_chain c es (O :: j :: rest)); [done | done |].
  unfold walk_fuel. rewrite (log_length _ _ _ H), Nat2Z.id.
  pose proof (perm_order_length _ _ _ H) as Hlen. cbn in Hlen |- *. lia.
Qed.

Lemma full_range_spec c es order :
  chron_wf c es order → full_range c = Ok (walked es (tl order)).
Proof.
  intros H. apply iterate_by_spec; [done |].
  intros i e He. by apply (anchorOf_entry_self c es order i).
Qed.

Lemma iterate_spec_chron c es order :
  chron_wf c es order → iterate c = Ok (walked es (tl order)).
Proof.
  intros H. apply iterate_by_spec; [done |].
  intros i e He. by apply (anchorOf_entry_self c es order i).
Qed.

Lemma data_spec c es order :
  chron_wf c es order → data c None = Ok (live_atoms (walked es (tl order))).
Proof.
  intros H. pose proof (iterate_spec_chron _ _ _ H) as Hi.
  unfold data, iterate in *.
  destruct (self_range c) as [r |]; [| done]. cbn in Hi |- *. by rewrite Hi.
Qed.

End chron_log.
(** ** The chronology: cursors *)

Section chron_cursors.
Context {T : Type}.
Import Chron.
Implicit Types (c : Chron T) (e p a : ChronEntry T) (es : list (ChronEntry T)).
Implicit Types (order seen : list nat) (cursor : ChronCursor T).

Lemma in_log_lookup c es order i e :
  chron_wf c es order → es !! i = Some e → in_log es e.
Proof.
  intros H He. unfold in_log. rewrite (cw_index _ _ _ H _ _ He), Nat2Z.id.
  split; [lia | done].
Qed.

Lemma walked_elem es l e : e ∈ walked es l → ∃ i, i ∈ l ∧ es !! i = Some e.
Proof.
  unfold walked. rewrite list_elem_of_omap. intros (i & Hi & He). eauto.
Qed.

Lemma find_elem {A} (f : A → bool) (l : list A) x : List.find f l = Some x → x ∈ l.
Proof. intros H. apply list_elem_of_In. by apply find_some in H as [H _]. Qed.

(** [anchorOf] returns, and what it returns is an entry of the log. *)
Lemma anchorOf_total c es order cursor :
  chron_wf c es order →
  ∃ r, anchorOf c cursor = Ok r ∧ ∀ a, r = Some a → in_log es a.
Proof.
  intros H. unfold anchorOf. destruct (anchor cursor) as [e | k].
  - unfold anchorOf_entry. rewrite (log_get_at _ _ _ _ H).
    cbn [mbind result_bind].
    destruct (Z.leb_spec 0 (index e)) as [Hi | Hi]; [| by eexists; split; [done |]].
    destruct (es !! Z.to_nat (index e)) as [a |] eqn:Ea; [| by eexists; split; [done |]].
    eexists; split; [done |]. intros a' Ha'.
    destruct (entry_isSame a (AnchorEntry e)); [| done]. simplify_eq.
    by apply (in_log_lookup c es order (Z.to_nat (index e))).
  - rewrite (full_range_spec _ _ _ H). cbn [mbind result_bind].
    eexists; split; [done |]. intros a Ha.
    apply find_elem, walked_elem in Ha as (i & _ & Hi).
    by apply (in_log_lookup c es order i).
Qed.

Lemma prevTo_loop_none fuel c index : prevTo_loop fuel c index None = Ok None.
Proof. by destruct fuel. Qed.

(** The loop of [prevTo], started at an earlier entry, stops at the
    entry just before position [i]. *)
Lemma prevTo_loop_chain c es order (i : nat) : ∀ b f (fuel : nat),
  chron_wf c es order → chain es (f :: b) (Some i) → i ∉ b →
  (List.length b ≤ fuel)%nat →
  prevTo_loop fuel c (Z.of_nat i) (es !! f) = Ok (list.last (f :: b) ≫= (es !!.)).
Proof.
  induction b as [| j b IH]; intros f fuel H [(e & He & Hl) Hc] Hi Hf.
  - rewrite He. cbn in Hl.
    destruct fuel; cbn [prevTo_loop]; rewrite bool_decide_eq_true_2 by done;
      cbn; by rewrite He.
  - rewrite He. cbn in Hl.
    assert (Hne : latter e ≠ Some (Z.of_nat i)).
    { rewrite Hl. intros [= E]. apply Hi. apply Nat2Z.inj in E. subst. left. }
    destruct fuel as [| fuel]; [cbn in Hf; lia |].
    cbn [prevTo_loop]. rewrite bool_decide_eq_false_2 by done.
    rewrite Hl. change (Some (Z.of_nat j)) with (Z.of_nat <$> Some j).
    rewrite (log_get_link _ _ order) by done. cbn [mbind option_bind result_bind].
    rewrite (IH j fuel H Hc); [done | | cbn in Hf; lia].
    intros Hib. apply Hi. by right.
Qed.

(** [prevTo] returns, and what it returns is an entry of the log. *)
Lemma prevTo_total c es order cursor :
  chron_wf c es order →
  ∃ r, prevTo c cursor = Ok r ∧ ∀ p, r = Some p → in_log es p.
Proof.
  intros H. unfold prevTo.
  destruct (anchorOf_total c es order cursor H) as ([a |] & -> & Ha);
    cbn [mbind result_bind]; [| by eexists; split; [done |]].
  destruct (Ha a eq_refl) as [Ha0 Hlook].
  destruct (offset cursor >? 0).
  { eexists; split; [done |]. intros p [= <-]. by split. }
  set (i := Z.to_nat (index a)) in *.
  assert (Hin : i ∈ order).
  { rewrite (cw_perm _ _ _ H). apply elem_of_seq. apply lookup_lt_Some in Hlook. lia. }
  apply list_elem_of_split in Hin as (l1 & l2 & Horder).
  pose proof (cw_formers _ _ _ H) as Hf. rewrite Horder in Hf.
  apply formers_app in Hf as [_ [Hf _]]. specialize (Hf a Hlook).
  rewrite app_nil_r in Hf.
  destruct (former a) as [f |] eqn:Ef.
  - destruct Hf as [Hf0 Hf]. apply list_elem_of_In, in_rev, list_elem_of_In in Hf.
    apply list_elem_of_split in Hf as (l1a & b & Hl1).
    cbn [log_get]. rewrite (log_get_at _ _ _ _ H).
    destruct (Z.leb_spec 0 f); [| lia]. cbn [mbind result_bind].
    pose proof (cw_chain _ _ _ H) as Hc. rewrite Horder, Hl1, <- app_assoc in Hc.
    apply chain_app in Hc as [_ Hc]. cbn [app] in Hc.
    change (Z.to_nat f :: b ++ i :: l2) with ((Z.to_nat f :: b) ++ i :: l2) in Hc.
    apply chain_app in Hc as [Hc _].
    pose proof (order_nodup _ _ _ H) as Hnd. rewrite Horder, Hl1, <- app_assoc in Hnd.
    apply NoDup_app in Hnd as (_ & _ & Hnd). cbn [app] in Hnd.
    apply NoDup_cons in Hnd as [_ Hnd]. apply NoDup_app in Hnd as (_ & Hnd & _).
    assert (Hib : i ∉ b) by (intros Hib; apply (Hnd i Hib); left).
    replace (index a) with (Z.of_nat i) by lia.
    rewrite (prevTo_loop_chain c es order i b (Z.to_nat f) _ H Hc Hib).
    2:{ unfold walk_fuel. rewrite (log_length _ _ _ H), Nat2Z.id.
        pose proof (perm_order_length _ _ _ H) as Hlen.
        rewrite Horder, Hl1 in Hlen.
        repeat (rewrite ?length_app, ?length_cons in Hlen). lia. }
    eexists; split; [done |]. intros p Hp.
    destruct (list.last (Z.to_nat f :: b)) as [q |]; [| done].
    cbn in Hp. by apply (in_log_lookup c es order q).
  - cbn [log_get mbind result_bind]. rewrite prevTo_loop_none.
    by eexists; split; [done |].
Qed.

End chron_cursors.
(** ** The chronology: insert and delete *)

Section chron_update.
Context {T : Type}.
Import Chron.
Implicit Types (c : Chron T) (e p a : ChronEntry T) (es : list (ChronEntry T)).
Implicit Types (order seen l : list nat) (cursor : ChronCursor T).

Lemma inserted_length es p x k :
  List.length (inserted_entries es p x k) = S (List.length es).
Proof. unfold inserted_entries. rewrite length_app, length_insert. cbn. lia. Qed.

Lemma inserted_lookup_old es p x k i :
  (i < List.length es)%nat → i ≠ Z.to_nat (index p) →
  inserted_entries es p x k !! i = es !! i.
Proof.
  intros Hi Hne. unfold inserted_entries.
  rewrite lookup_app_l by (rewrite length_insert; lia).
  by rewrite list_lookup_insert_ne.
Qed.

Lemma inserted_lookup_anchor es p x k i :
  in_log es p → i = Z.to_nat (index p) →
  inserted_entries es p x k !! i
  = Some (mkEntry (index p) (key p) (atom p) (former p) (Some (Z.of_nat (List.length es)))).
Proof.
  intros [H0 Hp] ->. unfold inserted_entries. apply lookup_lt_Some in Hp as Hlt.
  rewrite lookup_app_l by (rewrite length_insert; lia).
  by rewrite list_lookup_insert_eq.
Qed.

Lemma inserted_lookup_new es p x k i :
  i = List.length es →
  inserted_entries es p x k !! i
  = Some (mkEntry (Z.of_nat (List.length es)) k (Live x) (Some (index p)) (latter p)).
Proof.
  intros ->. unfold inserted_entries.
  rewrite lookup_app_r by (rewrite length_insert; lia).
  by rewrite length_insert, Nat.sub_diag.
Qed.

Lemma order_bound c es order i :
  chron_wf c es order → i ∈ order → (i < List.length es)%nat.
Proof.
  intros H Hi. rewrite (cw_perm _ _ _ H) in Hi. apply elem_of_seq in Hi. lia.
Qed.

Lemma chain_head_link es i l nxt e :
  chain es (i :: l) nxt → es !! i = Some e →
  latter e = Z.of_nat <$> (match l with [] => nxt | j :: _ => Some j end).
Proof. intros [(e' & He' & Hl) _] He. by simplify_eq. Qed.

(** The log after the two [set] calls of [insert]. *)
Lemma insert_log c es order p x k :
  chron_wf c es order → Vector.length (log c) < 2 ^ 30 → in_log es p →
  ∃ log1 log2,
    Vector.set (log c) (index p)
      (Some (mkEntry (index p) (key p) (atom p) (former p) (Some (Vector.length (log c)))))
      = Ok log1 ∧
    Vector.set log1 (Vector.length (log c))
      (Some (mkEntry (Vector.length (log c)) k (Live x) (Some (index p)) (latter p)))
      = Ok log2 ∧
    wf log2 ∧ to_list log2 = Some <$> inserted_entries es p x k.
Proof.
  intros H Hlen [H0 Hp]. pose proof (log_length _ _ _ H) as Hl.
  apply lookup_lt_Some in Hp as Hlt.
  destruct (set_spec (log c) (index p)
              (Some (mkEntry (index p) (key p) (atom p) (former p)
                       (Some (Vector.length (log c)))))
              (cw_vector _ _ _ H) ltac:(lia))
    as (log1 & Hset1 & Hwf1 & Hlist1 & Hlen1).
  destruct (append_spec log1
              (Some (mkEntry (Vector.length (log c)) k (Live x) (Some (index p)) (latter p)))
              Hwf1 ltac:(lia))
    as (log2 & Hset2 & Hwf2 & Hlist2 & Hlen2).
  exists log1, log2. split; [done |]. split.
  { unfold Vector.append in Hset2. by rewrite Hlen1 in Hset2. }
  split; [done |].
  rewrite Hlist2, Hlist1, (cw_entries _ _ _ H), Hl.
  unfold inserted_entries. by rewrite fmap_app, list_fmap_insert.
Qed.

(** [insert] behind an entry [p] of the log splices a new entry after
    [p] into the order, and keeps the invariant. *)
Lemma insert_after c es order cursor p x k l1 l2 :
  chron_wf c es order → Vector.length (log c) < 2 ^ 30 →
  prevTo c cursor = Ok (Some p) → in_log es p →
  order = l1 ++ Z.to_nat (index p) :: l2 →
  ∃ c', insert c cursor x k = Ok c' ∧
        chron_wf c' (inserted_entries es p x k)
                    (l1 ++ Z.to_nat (index p) :: List.length es :: l2).
Proof.
  intros H Hlen Hprev Hin Horder.
  destruct (insert_log c es order p x k H Hlen Hin) as (log1 & log2 & Hs1 & Hs2 & Hwf2 & Hl2).
  unfold insert. rewrite Hprev. cbn [mbind result_bind]. rewrite Hs1. cbn [mbind result_bind].
  rewrite Hs2. cbn [mbind result_bind]. eexists; split; [reflexivity |].
  pose proof (log_length _ _ _ H) as Hll.
  pose proof (order_nodup _ _ _ H) as Hnd.
  pose proof Hin as [Hp0 Hp]. set (ip := Z.to_nat (index p)) in *.
  set (n := List.length es) in *.
  assert (Hipn : (ip < n)%nat) by (by apply lookup_lt_Some in Hp).
  rewrite Horder in Hnd. apply NoDup_app in Hnd as (Hnd1 & Hnd12 & Hnd2).
  apply NoDup_cons in Hnd2 as [Hip2 Hnd2].
  assert (Hip1 : ip ∉ l1) by (intros Hx; apply (Hnd12 _ Hx); left).
  assert (Hb1 : ∀ i, i ∈ l1 → (i < n)%nat ∧ i ≠ ip).
  { intros i Hi. split; [| by intros ->].
    apply (order_bound c es order); [done |]. rewrite Horder.
    apply elem_of_app. by left. }
  assert (Hb2 : ∀ i, i ∈ l2 → (i < n)%nat ∧ i ≠ ip).
  { intros i Hi. split; [| by intros ->].
    apply (order_bound c es order); [done |]. rewrite Horder.
    apply elem_of_app. right. by right. }
  pose proof (cw_chain _ _ _ H) as Hc. rewrite Horder in Hc.
  apply chain_app in Hc as [Hc1 Hc2].
  pose proof (chain_head_link _ _ _ _ _ Hc2 Hp) as Hlat.
  destruct (order_split_root _ _ _ H) as [rest Hrest].
  assert (Hanchor := inserted_lookup_anchor es p x k ip Hin eq_refl).
  assert (Hnew := inserted_lookup_new es p x k n eq_refl).
  assert (Hold : ∀ i, (i < n)%nat → i ≠ ip → inserted_entries es p x k !! i = es !! i).
  { intros i ? ?. by apply inserted_lookup_old. }
  fold n in Hanchor, Hnew.
  split.
  - done.
  - done.
  - (* index *)
    intros i e He. apply lookup_lt_Some in He as Hlt. rewrite inserted_length in Hlt.
    fold n in Hlt.
    destruct (decide (i = n)) as [-> | Hin'].
    { rewrite Hnew in He. by simplify_eq. }
    destruct (decide (i = ip)) as [-> | Hiip].
    { rewrite Hanchor in He. simplify_eq. cbn. unfold ip. lia. }
    rewrite Hold in He by lia.
    by apply (cw_index _ _ _ H).
  - (* permutation *)
    rewrite inserted_length, seq_S, <- (cw_perm _ _ _ H), Horder. cbn [Nat.add].
    fold n. transitivity (n :: l1 ++ ip :: l2); [| apply Permutation_cons_append].
    symmetry. change (l1 ++ ip :: n :: l2) with (l1 ++ [ip] ++ n :: l2).
    rewrite (app_assoc l1 [ip]). apply Permutation_cons_app. by rewrite <- app_assoc.
  - (* head *)
    rewrite <- (cw_head _ _ _ H), Horder. by destruct l1.
  - (* chain *)
    apply chain_app. split.
    + apply (chain_ext es); [| done]. intros i Hi.
      destruct (Hb1 i Hi). by apply Hold.
    + cbn [chain]. split; [| split].
      * eexists. split; [exact Hanchor |]. done.
      * eexists. split; [exact Hnew |]. cbn [latter]. exact Hlat.
      * destruct Hc2 as [_ Hc2]. apply (chain_ext es); [| done]. intros i Hi.
        destruct (Hb2 i Hi). by apply Hold.
  - (* last *)
    destruct (cw_last _ _ _ H) as [Hlast0 Hlast]. cbn [last].
    rewrite Horder in Hlast. rewrite Hlat.
    destruct l2 as [| j l2].
    + cbn [fmap option_fmap option_map truthy]. split; [lia |].
      rewrite Hll, Nat2Z.id. fold n.
      change (l1 ++ [ip; n]) with (l1 ++ [ip] ++ [n]). by rewrite app_assoc, last_snoc.
    + assert (Hj : j ≠ O).
      { intros ->. rewrite Hrest in Horder.
        destruct l1 as [| i0 l1]; cbn in Horder; injection Horder as E0 E1.
        - apply Hip2. rewrite <- E0. left.
        - apply (Hnd12 O); [rewrite E0; left | right; left]. }
      cbn [fmap option_fmap option_map truthy].
      destruct (Z.eqb_spec (Z.of_nat j) 0); [lia |]. cbn [negb]. split; [done |].
      rewrite <- Hlast. rewrite !last_app_cons. by rewrite !last_cons_cons.
  - (* formers *)
    pose proof (cw_formers _ _ _ H) as Hf. rewrite Horder in Hf.
    apply formers_app in Hf as [Hf1 [Hfp Hf2]].
    assert (Hext : ∀ l, (∀ i, i ∈ l → (i < n)%nat) →
              ∀ i e', i ∈ l → inserted_entries es p x k !! i = Some e' →
              ∃ e, es !! i = Some e ∧ former e = former e').
    { intros l Hl i e' Hi He'. specialize (Hl i Hi).
      destruct (decide (i = ip)) as [-> | Hne].
      - rewrite Hanchor in He'. simplify_eq. eauto.
      - rewrite Hold in He' by done. eauto. }
    apply formers_app. split.
    + apply (formers_ext es); [| done]. apply Hext. intros i Hi. by apply Hb1.
    + cbn [formers]. split; [| split].
      * intros e' He'. rewrite Hanchor in He'. simplify_eq.
        cbn [former]. by apply Hfp.
      * intros e' He'. rewrite Hnew in He'. simplify_eq. cbn [former].
        split; [done |]. left.
      * apply (formers_ext es).
        { apply Hext. intros i Hi. by apply Hb2. }
        apply (formers_mono _ (ip :: rev l1 ++ [])); [| done | done].
        intros i Hi. by right.
  - (* root *)
    destruct (cw_root _ _ _ H) as (r & Hr & Hra).
    destruct (decide (ip = O)) as [E | Hne].
    + rewrite <- E, Hanchor. rewrite E in Hp. simplify_eq. eauto.
    + rewrite Hold by lia. eauto.
Qed.

End chron_update.
Section chron_delete.
Context {T : Type}.
Import Chron.
Implicit Types (c : Chron T) (e p a : ChronEntry T) (es : list (ChronEntry T)).
Implicit Types (order seen l : list nat) (cursor : ChronCursor T).

Lemma chain_ext_latter es es' l nxt :
  (∀ i e, i ∈ l → es !! i = Some e → ∃ e', es' !! i = Some e' ∧ latter e' = latter e) →
  chain es l nxt → chain es' l nxt.
Proof.
  induction l as [| i l IH]; [done |]. intros Heq [(e & He & Hl) Hc]. split.
  - destruct (Heq i e ltac:(left) He) as (e' & He' & Hl'). exists e'. by rewrite Hl'.
  - apply IH; [| done]. intros j e' Hj. apply Heq. by right.
Qed.

Lemma live_atoms_app (l1 l2 : list (ChronEntry T)) :
  live_atoms (l1 ++ l2) = live_atoms l1 ++ live_atoms l2.
Proof. apply omap_app. Qed.

Lemma entry_isSame_refl e : entry_isSame e (AnchorEntry e) = true.
Proof. cbn. by rewrite !Z.eqb_refl. Qed.

(** [delete] of a live entry of the log replaces its atom and keeps the
    order and the invariant. *)
Lemma delete_live c es order (i : nat) e x :
  chron_wf c es order → es !! i = Some e → atom e = Live x →
  ∃ c', delete c e = Ok c' ∧ chron_wf c' (deleted_entries es e) order ∧
        delete c' e = Ok c'.
Proof.
  intros H He Hlive. pose proof (cw_index _ _ _ H _ _ He) as Hidx.
  pose proof (log_length _ _ _ H) as Hlen. apply lookup_lt_Some in He as Hlt.
  set (e' := mkEntry (T := T) (index e) (key e) Deleted (former e) (latter e)).
  destruct (set_spec (log c) (index e) (Some e') (cw_vector _ _ _ H) ltac:(lia))
    as (log' & Hset & Hwf' & Hlist' & Hlen').
  assert (Hes' : deleted_entries es e = <[i := e']> es).
  { unfold deleted_entries. by replace (Z.to_nat (index e)) with i by lia. }
  assert (Hi0 : i ≠ O).
  { intros ->. destruct (cw_root _ _ _ H) as (r & Hr & Hra). simplify_eq. congruence. }
  assert (Hwf : chron_wf (mkChron log' (last c)) (deleted_entries es e) order).
  { rewrite Hes'. split; cbn [log last].
    - done.
    - by rewrite Hlist', (cw_entries _ _ _ H), Hidx, Nat2Z.id, list_fmap_insert.
    - intros j ej Hj. destruct (decide (j = i)) as [-> | Hne].
      + rewrite list_lookup_insert_eq in Hj by done. by simplify_eq.
      + rewrite list_lookup_insert_ne in Hj by done. by apply (cw_index _ _ _ H).
    - rewrite length_insert. apply (cw_perm _ _ _ H).
    - apply (cw_head _ _ _ H).
    - apply (chain_ext_latter es); [| apply (cw_chain _ _ _ H)].
      intros j ej _ Hj. destruct (decide (j = i)) as [-> | Hne].
      + rewrite list_lookup_insert_eq by done. simplify_eq. eauto.
      + rewrite list_lookup_insert_ne by done. eauto.
    - apply (cw_last _ _ _ H).
    - apply (formers_ext es); [| apply (cw_formers _ _ _ H)].
      intros j ej _ Hj. destruct (decide (j = i)) as [-> | Hne].
      + rewrite list_lookup_insert_eq in Hj by done. simplify_eq. eauto.
      + rewrite list_lookup_insert_ne in Hj by done. eauto.
    - rewrite list_lookup_insert_ne by done. apply (cw_root _ _ _ H). }
  exists (mkChron log' (last c)). split; [| split; [done |]].
  - unfold delete. rewrite Hidx, (log_get_nat _ _ _ _ H), He. cbn [mbind result_bind].
    rewrite entry_isSame_refl. unfold deleted. rewrite Hlive. cbn [negb orb].
    fold e'. by rewrite Hset.
  - unfold delete. rewrite Hidx, (log_get_nat _ _ _ _ Hwf), Hes'.
    rewrite list_lookup_insert_eq by done. cbn [mbind result_bind].
    replace (entry_isSame e' (AnchorEntry e)) with true
      by (cbn; by rewrite !Z.eqb_refl).
    done.
Qed.

End chron_delete.


(** C6. For every chron [c] and live entry [e] of it: [c.delete(e)]
    returns a chron whose data is the data of [c] without the atom at the
    place of [e], and deleting [e] again returns that chron unchanged. *)
Theorem chron_delete_live {T} (c : Chron.Chron T) (i : Z) (e : Chron.ChronEntry T) (x : T) :
  chron_ok c → Vector.get (Chron.log c) i = Ok (Some e) → Chron.atom e = Chron.Live x →
  ∃ c' before after,
    Chron.delete c e = Ok c' ∧ chron_ok c' ∧
    Chron.iterate c = Ok (before ++ e :: after) ∧
    Chron.data c None = Ok (Chron.live_atoms before ++ x :: Chron.live_atoms after) ∧
    Chron.data c' None = Ok (Chron.live_atoms before ++ Chron.live_atoms after) ∧
    Chron.delete c' e = Ok c'.
Proof.
  intros (es & order & H) Hget Hlive.
  rewrite (log_get_at _ _ _ _ H) in Hget.
  destruct (0 <=? i) eqn:Hi0; [| done]. injection Hget as He.
  set (n := Z.to_nat i) in *.
  destruct (delete_live c es order n e x H He Hlive) as (c' & Hdel & H' & Hdel2).
  pose proof (cw_index _ _ _ H _ _ He) as Hidx.
  assert (Hes' : deleted_entries es e
                 = <[n := Chron.mkEntry (Chron.index e) (Chron.key e) Chron.Deleted
                                        (Chron.former e) (Chron.latter e)]> es).
  { unfold deleted_entries. by replace (Z.to_nat (Chron.index e)) with n by lia. }
  assert (Hn0 : n ≠ O).
  { intros E. rewrite E in He. destruct (cw_root _ _ _ H) as (r & Hr & Hra).
    simplify_eq. congruence. }
  destruct (order_split_root _ _ _ H) as [rest Hrest].
  assert (Hin : n ∈ rest).
  { assert (Hno : n ∈ order).
    { rewrite (cw_perm _ _ _ H). apply elem_of_seq. apply lookup_lt_Some in He. lia. }
    rewrite Hrest in Hno. by apply elem_of_cons in Hno as [? | ?]. }
  apply list_elem_of_split in Hin as (r1 & r2 & Hsplit).
  pose proof (order_nodup _ _ _ H) as Hnd. rewrite Hrest, Hsplit in Hnd.
  apply NoDup_cons in Hnd as [_ Hnd].
  apply NoDup_app in Hnd as (_ & Hnd12 & Hnd2). apply NoDup_cons in Hnd2 as [Hn2 _].
  assert (Hext : ∀ l, n ∉ l → walked (deleted_entries es e) l = walked es l).
  { intros l Hl. apply walked_ext. intros j Hj. rewrite Hes'.
    apply list_lookup_insert_ne. by intros ->. }
  assert (Hw : walked es rest = walked es r1 ++ e :: walked es r2).
  { by rewrite Hsplit, walked_app, walked_cons, He. }
  exists c', (walked es r1), (walked es r2).
  split; [done |]. split; [by eexists _, _ |].
  rewrite (iterate_spec_chron _ _ _ H), (data_spec _ _ _ H), (data_spec _ _ _ H'), Hrest.
  cbn [tl]. rewrite Hw.
  split; [done |]. split.
  { rewrite live_atoms_app. do 2 f_equal. unfold Chron.live_atoms at 1. cbn.
    by rewrite Hlive. }
  split; [| done].
  f_equal. rewrite Hsplit, walked_app.
  rewrite (Hext r1) by (intros Hx; apply (Hnd12 n Hx); left).
  rewrite walked_cons, (Hext r2) by done.
  rewrite Hes', list_lookup_insert_eq by (by apply lookup_lt_Some in He).
  by rewrite live_atoms_app.
Qed.
Section chron_built.
Context {T : Type}.
Import Chron.
Implicit Types (c : Chron T) (es : list (ChronEntry T)) (order : list nat).

(** [Chron.empty] holds the root only. *)
Lemma empty_wf : ∃ c, Chron.empty (T := T) = Ok c ∧ chron_wf c [root] [O].
Proof.
  unfold Chron.empty.
  destruct (append_spec (Vector.empty (T := ChronEntry T)) (Some root) wf_empty ltac:(done))
    as (l & -> & Hwf & Hl & Hlen).
  eexists. split; [done |]. split; cbn [log last].
  - done.
  - by rewrite Hl.
  - intros [| i] e He; [by injection He as <- | done].
  - done.
  - done.
  - cbn. split; [| done]. exists root. done.
  - done.
  - cbn. split; [| done]. intros e [= <-]. done.
  - by exists root.
Qed.

Lemma empty_ok c : Chron.empty = Ok c → chron_ok c.
Proof.
  intros He. destruct empty_wf as (c' & He' & Hwf). rewrite He in He'.
  injection He' as <-. by eexists _, _.
Qed.

(** [insert] keeps the invariant. *)
Lemma insert_ok c cursor x k c' :
  chron_ok c → Vector.length (log c) < 2 ^ 30 → insert c cursor x k = Ok c' → chron_ok c'.
Proof.
  intros (es & order & Hc) Hlen Hins.
  destruct (prevTo_total c es order cursor Hc) as ([p |] & Hprev & Hp).
  - specialize (Hp p eq_refl). pose proof Hp as [Hp0 Hlk].
    assert (Hin : Z.to_nat (index p) ∈ order).
    { rewrite (cw_perm _ _ _ Hc). apply elem_of_seq. apply lookup_lt_Some in Hlk. lia. }
    apply list_elem_of_split in Hin as (l1 & l2 & Horder).
    destruct (insert_after c es order cursor p x k l1 l2 Hc Hlen Hprev Hp Horder)
      as (c'' & Hins' & Hwf).
    rewrite Hins in Hins'. injection Hins' as <-. by eexists _, _.
  - unfold insert in Hins. rewrite Hprev in Hins. cbn in Hins. injection Hins as <-.
    by exists es, order.
Qed.

End chron_built.
(** ** The markup: mark, unmark, rangeOf *)

Section markup_mark.
Context {M T : Type} `{EqDecision M}.
Import Markup.
Implicit Types (ms pre suf : list (ChronMarker M T)) (mk : ChronMarkup M T).
Implicit Types (d : M) (r : option (Chron.ChronRange T)).

Lemma count_garbage_spec ms : count_garbage (Some <$> ms) = Ok (garbage_count ms).
Proof.
  unfold garbage_count. induction ms as [| m ms IH]; [done |].
  cbn [fmap list_fmap count_garbage]. rewrite IH. cbn [mbind result_bind List.filter].
  destruct (range m); f_equal; try done.
  rewrite bool_decide_eq_true_2 by done. cbn [List.length]. lia.
Qed.

Lemma rangeOf_loop_spec ms d :
  rangeOf_loop (Some <$> ms) d
  = Ok (List.find (λ m, bool_decide (data m = d)) ms ≫= range).
Proof.
  induction ms as [| m ms IH]; [done |].
  cbn [fmap list_fmap rangeOf_loop List.find].
  destruct (decide (data m = d)) as [E | E].
  - by rewrite bool_decide_eq_true_2.
  - by rewrite bool_decide_eq_false_2.
Qed.

Lemma find_mark_list ms d r :
  List.find (λ m, bool_decide (data m = d)) (mark_list ms d r) = Some (mkMarker d r).
Proof.
  induction ms as [| m ms IH]; cbn [mark_list List.find].
  - by rewrite bool_decide_eq_true_2.
  - destruct (decide (data m = d)) as [E | E]; cbn [List.find data].
    + by rewrite bool_decide_eq_true_2.
    + by rewrite bool_decide_eq_false_2.
Qed.

Lemma mark_list_length ms d r :
  (List.length ms ≤ List.length (mark_list ms d r) ≤ S (List.length ms))%nat.
Proof.
  induction ms as [| m ms IH]; cbn; [lia |]. destruct (decide (data m = d)); cbn; lia.
Qed.

Lemma mark_list_data ms d r :
  data <$> mark_list ms d r = if decide (d ∈ data <$> ms) then data <$> ms
                              else (data <$> ms) ++ [d].
Proof.
  induction ms as [| m ms IH]; cbn [mark_list].
  - rewrite decide_False; [done |]. apply not_elem_of_nil.
  - destruct (decide (data m = d)) as [E | E]; cbn [fmap list_fmap].
    + subst d. rewrite decide_True; [done | left].
    + rewrite IH. destruct (decide (d ∈ data <$> ms)) as [Hin | Hnot].
      * rewrite decide_True; [done | by right].
      * rewrite decide_False; [done |].
        intros Hin'. apply elem_of_cons in Hin' as [-> | Hin']; done.
Qed.

Lemma mark_list_nodup ms d r : NoDup (data <$> ms) → NoDup (data <$> mark_list ms d r).
Proof.
  intros Hnd. rewrite mark_list_data. destruct (decide _) as [Hin | Hnot]; [done |].
  apply NoDup_app. split; [done |]. split; [| apply NoDup_singleton].
  intros x Hx Hd. apply list_elem_of_singleton in Hd as ->. done.
Qed.

Lemma mark_list_garbage ms d r :
  garbage_count ms = 0 → r ≠ None → garbage_count (mark_list ms d r) = 0.
Proof.
  unfold garbage_count. intros Hg Hr.
  induction ms as [| m ms IH]; cbn [mark_list].
  - cbn. by rewrite bool_decide_eq_false_2.
  - cbn [List.filter] in Hg. destruct (decide (data m = d)); cbn [List.filter range].
    + rewrite bool_decide_eq_false_2 by done.
      destruct (bool_decide (range m = None)); cbn in Hg; lia.
    + destruct (bool_decide (range m = None)); cbn in Hg |- *; [lia |]. by apply IH.
Qed.

(** The loop over [i] and the [append] of [mark] on the list of markers. *)
Lemma mark_slot_spec suf : ∀ pre (v : Vector.Vector (ChronMarker M T)) d r,
  wf v → to_list v = Some <$> (pre ++ suf) → Vector.length v < 2 ^ 30 →
  ∃ v', mark_slot (List.length suf) (Z.of_nat (List.length pre)) v d r = Ok v' ∧
        wf v' ∧ to_list v' = Some <$> (pre ++ mark_list suf d r).
Proof.
  induction suf as [| m suf IH]; intros pre v d r Hwf Hl Hlen.
  - cbn [mark_slot List.length mark_list].
    destruct (append_spec v (Some (mkMarker d r)) Hwf Hlen) as (v' & -> & Hwf' & Hl' & _).
    exists v'. split; [done |]. split; [done |].
    by rewrite Hl', Hl, app_nil_r, fmap_app.
  - cbn [mark_slot List.length mark_list].
    pose proof (wf_length v Hwf) as Hvl. rewrite Hl, length_fmap, length_app in Hvl.
    cbn [List.length] in Hvl.
    rewrite get_spec by (first [done | lia]).
    rewrite Hl, Nat2Z.id, list_lookup_fmap, lookup_app_r, Nat.sub_diag by lia.
    cbn [mbind result_bind lookup list_lookup fmap option_fmap option_map mjoin option_join].
    destruct (decide (data m = d)) as [E | E].
    + destruct (set_spec v (Z.of_nat (List.length pre)) (Some (mkMarker d r)) Hwf ltac:(lia))
        as (v' & -> & Hwf' & Hl' & _).
      exists v'. split; [done |]. split; [done |].
      rewrite Hl', Hl, Nat2Z.id, <- list_fmap_insert.
      by rewrite insert_app_r_alt, Nat.sub_diag by lia.
    + replace (Z.of_nat (List.length pre) + 1) with (Z.of_nat (List.length (pre ++ [m])))
        by (rewrite length_app; cbn; lia).
      destruct (IH (pre ++ [m]) v d r Hwf ltac:(by rewrite <- app_assoc) Hlen)
        as (v' & -> & Hwf' & Hl').
      exists v'. split; [done |]. split; [done |]. by rewrite Hl', <- app_assoc.
Qed.

(** [mark] on a markup whose removed markers are few. *)
Lemma mark_direct (fuel : nat) mk ms d r :
  markup_wf mk ms → Vector.length (markers mk) < 2 ^ 30 → garbage_count ms ≤ 16 →
  ∃ mk', mark_fuel (S fuel) mk d r = Ok mk' ∧ markup_wf mk' (mark_list ms d r).
Proof.
  intros [Hwf Hl Hnd] Hlen Hg. cbn [mark_fuel].
  rewrite (iterate_spec _ Hwf), Hl. cbn [mbind result_bind].
  rewrite count_garbage_spec. cbn [mbind result_bind].
  destruct (Z.gtb_spec (garbage_count ms) 16); [lia |].
  pose proof (wf_length _ Hwf) as Hvl. rewrite Hl, length_fmap in Hvl.
  rewrite <- Hvl.
  destruct (mark_slot_spec ms [] (markers mk) d r Hwf Hl Hlen) as (v' & Hv' & Hwf' & Hl').
  cbn [List.length] in Hv'. change (Z.of_nat 0) with 0 in Hv'. rewrite Hv'.
  cbn [mbind result_bind]. eexists; split; [done |].
  split; [done | done | by apply mark_list_nodup].
Qed.

Lemma wf_markup_length mk ms :
  markup_wf mk ms → Vector.length (markers mk) = Z.of_nat (List.length ms).
Proof.
  intros [Hwf Hl _]. pose proof (wf_length _ Hwf) as Hvl.
  rewrite Hl, length_fmap in Hvl. destruct Hwf as (? & _ & _ & ? & _). lia.
Qed.

(** The rebuilding loop of [mark]. *)
Lemma compact_loop (fuel : nat) ms : ∀ copy acc,
  markup_wf copy acc → garbage_count acc = 0 →
  Z.of_nat (List.length acc + List.length ms) < 2 ^ 30 →
  ∃ copy', foldM (λ copy cell,
              match cell with
              | None => Err TypeError
              | Some m =>
                  match range m with
                  | Some mr => mark_fuel (S fuel) copy (data m) (Some mr)
                  | None => Ok copy
                  end
              end) copy (Some <$> ms) = Ok copy' ∧
           markup_wf copy' (fold_left (λ acc m, match range m with
                                                | Some mr => mark_list acc (data m) (Some mr)
                                                | None => acc
                                                end) ms acc) ∧
           garbage_count (fold_left (λ acc m, match range m with
                                                | Some mr => mark_list acc (data m) (Some mr)
                                                | None => acc
                                                end) ms acc) = 0 ∧
           (List.length (fold_left (λ acc m, match range m with
                                                | Some mr => mark_list acc (data m) (Some mr)
                                                | None => acc
                                                end) ms acc)
            ≤ List.length acc + List.length ms)%nat.
Proof.
  induction ms as [| m ms IH]; intros copy acc Hwf Hg Hlen.
  - exists copy. cbn [fmap list_fmap foldM fold_left List.length]. split_and!; try done; lia.
  - cbn [fmap list_fmap foldM fold_left List.length] in *.
    destruct (range m) as [mr |] eqn:Er.
    + destruct (mark_direct fuel copy acc (data m) (Some mr) Hwf) as (copy1 & -> & Hwf1).
      { rewrite (wf_markup_length _ _ Hwf). lia. }
      { lia. }
      cbn [mbind result_bind].
      pose proof (mark_list_length acc (data m) (Some mr)) as Hml.
      destruct (IH copy1 _ Hwf1 (mark_list_garbage acc (data m) (Some mr) Hg ltac:(done)) ltac:(lia))
        as (copy' & -> & Hwf' & Hg' & Hlen').
      exists copy'. split_and!; try done. lia.
    + cbn [mbind result_bind].
      destruct (IH copy acc Hwf Hg ltac:(lia)) as (copy' & -> & Hwf' & Hg' & Hlen').
      exists copy'. split_and!; try done. lia.
Qed.

Lemma markup_wf_empty : markup_wf (empty (M := M) (T := T)) [].
Proof. split; [apply wf_empty | done | constructor]. Qed.

(** The list of markers after [mark]. *)
Definition marked_list ms d r : list (ChronMarker M T) :=
  mark_list (if garbage_count ms >? 16 then compact_list ms else ms) d r.

(** [mark] returns, with any depth of at least 2. *)
Lemma mark_fuel_enough (fuel : nat) mk ms d r :
  markup_wf mk ms → Vector.length (markers mk) < 2 ^ 30 →
  ∃ mk', mark_fuel (S (S fuel)) mk d r = Ok mk' ∧ markup_wf mk' (marked_list ms d r).
Proof.
  intros Hwf Hlen. unfold marked_list.
  destruct (Z.gtb_spec (garbage_count ms) 16) as [Hg | Hg].
  2:{ by apply mark_direct. }
  pose proof Hwf as [Hv Hl Hnd]. cbn [mark_fuel].
  rewrite (iterate_spec _ Hv), Hl. cbn [mbind result_bind].
  rewrite count_garbage_spec. cbn [mbind result_bind].
  destruct (Z.gtb_spec (garbage_count ms) 16); [| lia].
  pose proof (wf_markup_length _ _ Hwf) as Hml.
  destruct (compact_loop fuel ms empty [] markup_wf_empty eq_refl ltac:(cbn; lia))
    as (copy & Hcopy & Hwfc & Hgc & Hlenc).
  fold (compact_list ms) in Hwfc, Hgc, Hlenc.
  match goal with
  | |- context [foldM ?f empty (Some <$> ms)] =>
      replace (foldM f empty (Some <$> ms)) with (Ok (A := ChronMarkup M T) copy)
  end.
  cbn [mbind result_bind].
  apply mark_direct; [done | | lia].
  rewrite (wf_markup_length _ _ Hwfc). cbn in Hlenc. lia.
Qed.

Lemma rangeOf_spec mk ms d :
  markup_wf mk ms →
  rangeOf mk d = Ok (List.find (λ m, bool_decide (data m = d)) ms ≫= range).
Proof.
  intros [Hv Hl _]. unfold rangeOf. rewrite (iterate_spec _ Hv), Hl.
  apply rangeOf_loop_spec.
Qed.

Lemma filter_none {A} (f : A → bool) (l : list A) :
  (∀ x, x ∈ l → f x = false) → List.filter f l = [].
Proof.
  induction l as [| a l IH]; intros Hf; [done |]. cbn [List.filter].
  rewrite (Hf a) by left. apply IH. intros x Hx. apply Hf. by right.
Qed.

Lemma live_with_nodup ms d : NoDup (data <$> ms) → (List.length (live_with ms d) ≤ 1)%nat.
Proof.
  unfold live_with. induction ms as [| m ms IH]; intros Hnd; [cbn; lia |].
  cbn [fmap list_fmap] in Hnd. apply NoDup_cons in Hnd as [Hm Hnd].
  cbn [List.filter]. destruct (decide (data m = d)) as [E | E].
  - rewrite (filter_none _ ms).
    { destruct (_ && _); cbn; lia. }
    intros m' Hin. rewrite bool_decide_eq_false_2; [done |]. intros E'. apply Hm.
    rewrite E, <- E'. by apply list_elem_of_fmap_2.
  - rewrite bool_decide_eq_false_2 by done. cbn [andb]. by apply IH.
Qed.

Lemma live_cells_some ms d :
  live_cells (Some <$> ms) d = Some <$> live_with ms d.
Proof.
  unfold live_cells, live_with. induction ms as [| m ms IH]; [done |].
  cbn [fmap list_fmap List.filter]. destruct (_ && _); cbn [fmap list_fmap]; by rewrite IH.
Qed.

Lemma built_ok mk : built mk → markup_ok mk.
Proof.
  induction 1 as [| mk d r mk' _ (ms & Hwf) Hlen Hmark].
  - exists []. apply markup_wf_empty.
  - destruct (mark_fuel_enough 0 mk ms d r Hwf Hlen) as (mk'' & Hmark' & Hwf').
    unfold mark in Hmark. rewrite Hmark in Hmark'. injection Hmark' as <-.
    by eexists.
Qed.

End markup_mark.


(** ** The markup: the buckets of [entries] *)

Section markup_buckets.
Context {M T : Type} `{EqDecision M}.
Import Markup.
Implicit Types (ps : list (pushed (M := M) (T := T))) (bs : buckets (M := M) (T := T)).
Implicit Types (pm : nat * ChronMarker M T) (k : Z) (h : bool) (p : pushed (M := M) (T := T)).

Lemma bucket_of_app ps1 ps2 h k :
  bucket_of (ps1 ++ ps2) h k = bucket_of ps1 h k ++ bucket_of ps2 h k.
Proof. unfold bucket_of. by rewrite List.filter_app, fmap_app. Qed.

Lemma bucket_of_one p h k :
  bucket_of [p] h k = if bool_decide (to_heads p = h) && bool_decide (at_key p = k)
                      then [what p] else [].
Proof. unfold bucket_of. cbn [List.filter]. by destruct (_ && _). Qed.

Lemma nonempty_snoc (b : bucket (M := M) (T := T)) pm :
  nonempty (b ++ [pm]) = Some (b ++ [pm]).
Proof. by destruct b. Qed.

Lemma nonempty_default (b : bucket (M := M) (T := T)) : default [] (nonempty b) = b.
Proof. by destruct b. Qed.

Lemma bucket_push_lookup (map : gmap Z bucket) k pm k' :
  bucket_push map k pm !! k'
  = if bool_decide (k = k') then Some (default [] (map !! k) ++ [pm]) else map !! k'.
Proof.
  unfold bucket_push. destruct (map !! k) as [b |] eqn:Eb; cbn [default].
  - destruct (decide (k = k')) as [<- | Hne].
    + by rewrite bool_decide_eq_true_2, lookup_insert_eq.
    + by rewrite bool_decide_eq_false_2, lookup_insert_ne.
  - destruct (decide (k = k')) as [<- | Hne].
    + by rewrite bool_decide_eq_true_2, lookup_insert_eq.
    + by rewrite bool_decide_eq_false_2, lookup_insert_ne.
Qed.

Lemma bucket_push_pushed (map : gmap Z bucket) ps h p :
  to_heads p = h →
  (∀ k, map !! k = nonempty (bucket_of ps h k)) →
  ∀ k, bucket_push map (at_key p) (what p) !! k = nonempty (bucket_of (ps ++ [p]) h k).
Proof.
  intros Hh Hmap k. rewrite bucket_push_lookup, bucket_of_app, bucket_of_one, Hmap.
  rewrite (bool_decide_eq_true_2 _ Hh). cbn [andb].
  destruct (decide (at_key p = k)) as [<- | Hne].
  - by rewrite bool_decide_eq_true_2, nonempty_default, nonempty_snoc.
  - by rewrite bool_decide_eq_false_2, app_nil_r.
Qed.

Lemma bucket_push_other (map : gmap Z bucket) ps h p :
  to_heads p ≠ h →
  (∀ k, map !! k = nonempty (bucket_of ps h k)) →
  ∀ k, map !! k = nonempty (bucket_of (ps ++ [p]) h k).
Proof.
  intros Hh Hmap k. rewrite bucket_of_app, bucket_of_one, Hmap.
  by rewrite (bool_decide_eq_false_2 _ Hh), app_nil_r.
Qed.

Lemma run_app (s : sweep (M := M) (T := T)) (items1 items2 : list item) :
  run s (items1 ++ items2) = (s' ← run s items1; run s' items2).
Proof.
  revert s. induction items1 as [| it items1 IH]; intros s; [done |].
  destruct it as [pm | e]; cbn [app run].
  - destruct (trigger false s pm); [| done]. cbn [mbind result_bind]. apply IH.
  - apply IH.
Qed.

End markup_buckets.
Section markup_fill.
Context {M T : Type} `{EqDecision M}.
Import Markup.
Implicit Types (ps : list (pushed (M := M) (T := T))) (bs : buckets (M := M) (T := T)).
Implicit Types (pm : nat * ChronMarker M T) (k : Z) (h : bool) (p : pushed (M := M) (T := T)).
Implicit Types (chron : Chron.Chron T) (set : ChronMarkerSet M T).
Implicit Types (s : sweep (M := M) (T := T)) (items : list (item (M := M) (T := T))).
Implicit Types (e : Chron.ChronEntry T) (walk : list (Chron.ChronEntry T)).

Lemma bucket_key_total chron cursor :
  chron_ok chron → bucket_key chron cursor = Ok (key_of chron cursor).
Proof.
  intros (es & order & Hc). unfold key_of, bucket_key.
  by destruct (anchorOf_total chron es order cursor Hc) as (r & -> & _).
Qed.

Lemma push_spec chron bs ps cursor pm :
  chron_ok chron → holds_pushes bs ps [] →
  ∃ bs', push chron bs cursor pm = Ok bs' ∧
         holds_pushes bs' (ps ++ [pushed_cursor chron cursor pm]) [].
Proof.
  intros Hc [Hh Ht]. unfold push. rewrite bucket_key_total by done.
  cbn [mbind result_bind]. eexists; split; [done |].
  destruct (Chron.offset cursor <? 0) eqn:Eo; split; cbn [heads tails]; intros k.
  - apply (bucket_push_pushed _ ps true (pushed_cursor chron cursor pm)); [by cbn | done].
  - intros Hk. apply (bucket_push_other _ ps false (pushed_cursor chron cursor pm)).
    + cbn. by rewrite Eo.
    + intros k'. apply Ht, not_elem_of_nil.
  - apply (bucket_push_other _ ps true (pushed_cursor chron cursor pm)); [| done].
    cbn. by rewrite Eo.
  - intros Hk. apply (bucket_push_pushed _ ps false (pushed_cursor chron cursor pm)).
    + cbn. by rewrite Eo.
    + intros k'. apply Ht, not_elem_of_nil.
Qed.

Lemma fill_spec chron set cells : ∀ bs ps,
  chron_ok chron → holds_pushes bs ps [] →
  (∀ pm, pm ∈ cells → is_Some (range pm.2)) →
  ∃ bs', foldM (fill chron set) bs cells = Ok bs' ∧
         holds_pushes bs' (ps ++ pushes_of chron set cells) [].
Proof.
  induction cells as [| pm cells IH]; intros bs ps Hc Hbs Hr.
  - exists bs. split; [done |]. unfold pushes_of. cbn. by rewrite app_nil_r.
  - cbn [foldM]. unfold pushes_of. cbn [mbind list_bind]. fold (pushes_of chron set cells).
    destruct (Hr pm ltac:(left)) as [r Er]. rewrite Er.
    assert (Hfill : fill chron set bs pm =
      if match filter set with Some f => negb (f (data pm.2) r) | None => false end
      then Ok bs
      else bs1 ← push chron bs (Chron.head r) pm; push chron bs1 (Chron.tail r) pm).
    { unfold fill. by rewrite Er. }
    rewrite Hfill. clear Hfill.
    destruct (match filter set with Some f => negb (f (data pm.2) r) | None => false end).
    + cbn [mbind result_bind app]. apply IH; [done | done |].
      intros pm' Hin. apply Hr. by right.
    + destruct (push_spec chron bs ps (Chron.head r) pm Hc Hbs) as (bs1 & -> & Hbs1).
      cbn [mbind result_bind].
      destruct (push_spec chron bs1 _ (Chron.tail r) pm Hc Hbs1) as (bs2 & -> & Hbs2).
      cbn [mbind result_bind].
      destruct (IH bs2 _ Hc Hbs2) as (bs' & Hfold & Hbs').
      { intros pm' Hin. apply Hr. by right. }
      exists bs'. split; [done |]. by rewrite <- !app_assoc in Hbs'.
Qed.

Lemma holds_pushes_empty : holds_pushes (M := M) (T := T) (mkBuckets ∅ ∅) [] [].
Proof. split; intros k; by rewrite ?lookup_empty. Qed.

Lemma foldM_trigger s b :
  foldM (trigger false) s b = run s (ICall <$> b).
Proof.
  revert s. induction b as [| pm b IH]; intros s; [done |].
  cbn [foldM fmap list_fmap run]. destruct (trigger false s pm); [| done].
  cbn [mbind result_bind]. apply IH.
Qed.

Lemma fire_heads_spec bs ps fired k s :
  holds_pushes bs ps fired →
  fire_heads bs k false s = run s (content ps (SBucket true k)).
Proof.
  intros [Hh _]. unfold fire_heads. rewrite Hh. cbn [content].
  destruct (bucket_of ps true k) eqn:Eb; [done |]. cbn [nonempty]. apply foldM_trigger.
Qed.

Lemma fire_tails_spec bs ps fired k s :
  holds_pushes bs ps fired → k ∉ fired →
  ∃ bs', holds_pushes bs' ps (k :: fired) ∧
         fire_tails bs k false s = (s' ← run s (content ps (SBucket false k)); Ok (bs', s')).
Proof.
  intros [Hh Ht] Hk. unfold fire_tails. rewrite Ht by done. cbn [content].
  destruct (bucket_of ps false k) as [| pm b] eqn:Eb; cbn [nonempty].
  - exists bs. split; [| done]. split; [done |].
    intros k' Hk'. apply Ht. intros Hin. apply Hk'. by right.
  - eexists. split; [| by rewrite foldM_trigger].
    split; cbn [heads tails]; [done |].
    intros k' Hk'. apply not_elem_of_cons in Hk' as [Hne Hk'].
    rewrite lookup_insert_ne by done. by apply Ht.
Qed.

Lemma sweep_entry_spec bs ps fired e s :
  holds_pushes bs ps fired → Chron.index e ∉ fired →
  ∃ bs', holds_pushes bs' ps (Chron.index e :: fired) ∧
         sweep_entry (bs, s) e
         = (s' ← run s (items_of ps (schedule_entries [e])); Ok (bs', s')).
Proof.
  intros Hbs Hk. unfold sweep_entry, items_of, schedule_entries. cbn [fst snd].
  cbn [mbind list_bind app]. rewrite app_nil_r.
  rewrite (fire_heads_spec _ _ _ _ _ Hbs), !run_app.
  destruct (run s (content ps (SBucket true (Chron.index e)))) as [s1 |] eqn:E1.
  2:{ exists bs. split; [| done]. destruct Hbs as [Hh Ht]. split; [done |].
      intros k' Hk'. apply Ht. intros Hin. apply Hk'. by right. }
  cbn [mbind result_bind content run].
  destruct (fire_tails_spec bs ps fired (Chron.index e)
              (mkSweep (active s1) (trace s1 ++ [EvYield e])) Hbs Hk) as (bs' & Hbs' & ->).
  by exists bs'.
Qed.

Lemma schedule_entries_cons e walk :
  schedule_entries (e :: walk) = schedule_entries [e] ++ schedule_entries walk.
Proof. unfold schedule_entries. cbn [mbind list_bind app]. by rewrite ?app_nil_r. Qed.

Lemma items_of_app ps sched1 sched2 :
  items_of ps (sched1 ++ sched2) = items_of ps sched1 ++ items_of ps sched2.
Proof. unfold items_of. apply bind_app. Qed.

Lemma sweep_walk_spec ps walk : ∀ bs fired s,
  holds_pushes bs ps fired →
  NoDup (Chron.index <$> walk) →
  (∀ e, e ∈ walk → Chron.index e ∉ fired) →
  ∃ bs', foldM sweep_entry (bs, s) walk
         = (s' ← run s (items_of ps (schedule_entries walk)); Ok (bs', s')).
Proof.
  induction walk as [| e walk IH]; intros bs fired s Hbs Hnd Hf.
  - by exists bs.
  - cbn [fmap list_fmap] in Hnd. apply NoDup_cons in Hnd as [He Hnd].
    destruct (sweep_entry_spec bs ps fired e s Hbs) as (bs1 & Hbs1 & Hstep).
    { apply Hf. left. }
    cbn [foldM]. rewrite Hstep, (schedule_entries_cons e walk), items_of_app, run_app.
    destruct (run s (items_of ps (schedule_entries [e]))) as [s1 |]; [| by exists bs].
    cbn [mbind result_bind].
    apply (IH bs1 (Chron.index e :: fired) s1 Hbs1 Hnd).
    intros e' Hin. apply not_elem_of_cons. split; [| apply Hf; by right].
    intros Heq. apply He. rewrite <- Heq. by apply list_elem_of_fmap_2.
Qed.

End markup_fill.
Section markup_entries.
Context {M T : Type} `{EqDecision M}.
Import Markup.
Implicit Types (ps : list (pushed (M := M) (T := T))) (bs : buckets (M := M) (T := T)).
Implicit Types (pm : nat * ChronMarker M T) (k : Z) (h : bool) (p : pushed (M := M) (T := T)).
Implicit Types (chron : Chron.Chron T) (set : ChronMarkerSet M T).
Implicit Types (s : sweep (M := M) (T := T)) (items : list (item (M := M) (T := T))).
Implicit Types (e : Chron.ChronEntry T) (walk : list (Chron.ChronEntry T)).
Implicit Types (ms : list (ChronMarker M T)) (mk : ChronMarkup M T).

Lemma live_loop_spec ms : ∀ pos, live_loop pos (Some <$> ms) = Ok (live_list pos ms).
Proof.
  induction ms as [| m ms IH]; intros pos; [done |].
  cbn [fmap list_fmap live_loop live_list]. rewrite IH. cbn [mbind result_bind].
  by destruct (range m).
Qed.

Lemma live_spec mk ms : markup_wf mk ms → live mk = Ok (live_list 0 ms).
Proof.
  intros [Hv Hl _]. unfold live. rewrite (iterate_spec _ Hv), Hl. apply live_loop_spec.
Qed.

Lemma live_list_elem ms : ∀ pos pm,
  pm ∈ live_list pos ms →
  (pos ≤ pm.1)%nat ∧ ms !! (pm.1 - pos)%nat = Some pm.2 ∧ is_Some (range pm.2).
Proof.
  induction ms as [| m ms IH]; intros pos pm Hin; [by apply elem_of_nil in Hin |].
  cbn [live_list] in Hin.
  assert (Hrest : pm ∈ live_list (S pos) ms →
    (pos ≤ pm.1)%nat ∧ (m :: ms) !! (pm.1 - pos)%nat = Some pm.2 ∧ is_Some (range pm.2)).
  { intros Hin'. destruct (IH _ _ Hin') as (Hle & Hlk & Hr).
    split; [lia |]. split; [| done].
    replace (pm.1 - pos)%nat with (S (pm.1 - S pos)) by lia. done. }
  destruct (range m) as [r |] eqn:Er; [| by apply Hrest].
  apply elem_of_cons in Hin as [-> | Hin]; [| by apply Hrest].
  cbn [fst snd]. rewrite Nat.sub_diag. split; [lia |]. split; [done |]. by rewrite Er.
Qed.

Lemma walked_index (c : Chron.Chron T) es order l :
  chron_wf c es order → Chron.index <$> walked es l = Z.of_nat <$> List.filter (λ i, bool_decide (is_Some (es !! i))) l.
Proof.
  intros Hc. induction l as [| i l IH]; [done |].
  rewrite walked_cons. cbn [List.filter].
  destruct (es !! i) as [e |] eqn:Ee.
  - rewrite bool_decide_eq_true_2 by done. cbn [fmap list_fmap].
    by rewrite IH, (cw_index _ _ _ Hc _ _ Ee).
  - rewrite bool_decide_eq_false_2; [done |]. by intros [? ?].
Qed.

Lemma walked_index_nodup (c : Chron.Chron T) es order :
  chron_wf c es order → NoDup (Chron.index <$> walked es (tl order)).
Proof.
  intros Hc. rewrite (walked_index c es order _ Hc).
  apply (NoDup_fmap_2 _). apply NoDup_ListNoDup, List.NoDup_filter, NoDup_ListNoDup.
  pose proof (order_nodup _ _ _ Hc) as Hnd.
  destruct order as [| i rest]; [done |]. by apply NoDup_cons in Hnd as [_ Hnd].
Qed.

Lemma walked_index_pos (c : Chron.Chron T) es order e l :
  chron_wf c es order → e ∈ walked es l → 0 ≤ Chron.index e.
Proof.
  intros Hc Hin. apply walked_elem in Hin as (i & _ & He).
  rewrite (cw_index _ _ _ Hc _ _ He). lia.
Qed.

Lemma items_of_cons ps sg sched :
  items_of ps (sg :: sched) = content ps sg ++ items_of ps sched.
Proof. reflexivity. Qed.

(** [entries] without a range runs the schedule of the whole chron. *)
Lemma entries_none_spec mk ms chron es order set s :
  markup_wf mk ms → chron_wf chron es order →
  run (mkSweep [] [])
      (items_of (pushes_of chron set (live_list 0 ms)) (schedule (walked es (tl order))))
  = Ok s →
  ∃ extra, entries mk chron set None = Ok (trace s ++ extra).
Proof.
  intros Hmk Hc Hrun. unfold entries. rewrite (live_spec _ _ Hmk).
  cbn [mbind result_bind].
  destruct (fill_spec chron set (live_list 0 ms) (mkBuckets ∅ ∅) [])
    as (bs & -> & Hbs); [by exists es, order | apply holds_pushes_empty | |].
  { intros pm Hin. by apply live_list_elem in Hin as (_ & _ & Hr). }
  cbn [mbind result_bind app] in Hbs |- *.
  set (ps := pushes_of chron set (live_list 0 ms)) in *.
  unfold schedule in Hrun. rewrite !items_of_cons, run_app in Hrun.
  rewrite (fire_heads_spec _ _ _ _ _ Hbs).
  destruct (run _ (content ps (SBucket true (-1)))) as [s1 |]; [| done].
  cbn [mbind result_bind] in Hrun |- *.
  rewrite run_app in Hrun.
  destruct (fire_tails_spec bs ps [] (-1) s1 Hbs ltac:(apply not_elem_of_nil))
    as (bs1 & Hbs1 & ->).
  destruct (run s1 (content ps (SBucket false (-1)))) as [s2 |]; [| done].
  cbn [mbind result_bind] in Hrun |- *.
  rewrite (iterate_spec_chron _ _ _ Hc). cbn [mbind result_bind].
  destruct (sweep_walk_spec ps (walked es (tl order)) bs1 [-1] s2 Hbs1) as (bs2 & ->).
  { by apply (walked_index_nodup chron). }
  { intros e Hin. apply (walked_index_pos chron _ order) in Hin; [| done].
    intros Hk. apply list_elem_of_singleton in Hk. lia. }
  rewrite Hrun. cbn [mbind result_bind].
  destruct (covered set); eexists; [done |]. by rewrite app_nil_r.
Qed.

End markup_entries.
Section markup_run.
Context {M T : Type} `{EqDecision M}.
Import Markup.
Implicit Types (pm : nat * ChronMarker M T) (p q : nat).
Implicit Types (s : sweep (M := M) (T := T)) (items : list (item (M := M) (T := T))).

(** Every marker that is triggered has a range. *)
Definition ranged items : Prop := ∀ pm, ICall pm ∈ items → is_Some (range pm.2).

Lemma ranged_app items1 items2 : ranged (items1 ++ items2) ↔ ranged items1 ∧ ranged items2.
Proof.
  unfold ranged. split.
  - intros Hr. split; intros pm Hin; apply Hr, elem_of_app; auto.
  - intros [H1 H2] pm Hin. apply elem_of_app in Hin as [Hin | Hin]; auto.
Qed.

Lemma ranged_cons pm items : ranged (ICall pm :: items) ↔ is_Some (range pm.2) ∧ ranged items.
Proof.
  unfold ranged. split.
  - intros Hr. split; [apply Hr; left |]. intros pm' Hin. apply Hr. by right.
  - intros [H1 H2] pm' Hin. apply elem_of_cons in Hin as [Heq | Hin]; [| auto].
    by injection Heq as ->.
Qed.

Lemma calls_pos_app items1 items2 :
  calls_pos (items1 ++ items2) = calls_pos items1 ++ calls_pos items2.
Proof. apply omap_app. Qed.

Lemma calls_pos_calls (b : list (nat * ChronMarker M T)) : calls_pos (ICall <$> b) = fst <$> b.
Proof. induction b as [| pm b IH]; [done |]. cbn. by rewrite <- IH. Qed.

Lemma trigger_add s pm r :
  range pm.2 = Some r → pm.1 ∉ active s →
  trigger false s pm
  = Ok (mkSweep (active s ++ [pm.1]) (trace s ++ [EvAdd (data pm.2) (Chron.head r)])).
Proof. intros Hr Hp. unfold trigger. by rewrite Hr, bool_decide_eq_false_2. Qed.

Lemma trigger_delete s pm r :
  range pm.2 = Some r → pm.1 ∈ active s →
  trigger false s pm
  = Ok (mkSweep (List.filter (λ p, negb (bool_decide (p = pm.1))) (active s))
                (trace s ++ [EvDelete (data pm.2) (Chron.tail r)])).
Proof. intros Hr Hp. unfold trigger. by rewrite Hr, bool_decide_eq_true_2. Qed.

Lemma elem_of_remove p q (l : list nat) :
  p ∈ List.filter (λ p', negb (bool_decide (p' = q))) l ↔ p ∈ l ∧ p ≠ q.
Proof.
  rewrite !list_elem_of_In, List.filter_In, negb_true_iff, bool_decide_eq_false. done.
Qed.

(** A part of the enumeration that does not trigger [p] leaves it open or
    closed as it was, and only adds events. *)
Lemma run_frame items : ∀ s,
  ranged items →
  ∃ s' t, run s items = Ok s' ∧ trace s' = trace s ++ t ∧
          ∀ p, p ∉ calls_pos items → (p ∈ active s' ↔ p ∈ active s).
Proof.
  induction items as [| it items IH]; intros s Hr.
  - exists s, []. by rewrite app_nil_r.
  - destruct it as [pm | e].
    + apply ranged_cons in Hr as [[r Er] Hr]. cbn [run].
      destruct (decide (pm.1 ∈ active s)) as [Hin | Hnot].
      * rewrite (trigger_delete _ _ _ Er Hin). cbn [mbind result_bind].
        destruct (IH (mkSweep (List.filter (λ p, negb (bool_decide (p = pm.1))) (active s))
                    (trace s ++ [EvDelete (data pm.2) (Chron.tail r)])) Hr)
          as (s' & t & -> & Ht & Ha).
        exists s', (EvDelete (data pm.2) (Chron.tail r) :: t).
        split; [done |]. split; [by (rewrite Ht; cbn [trace]; rewrite <- app_assoc) |].
        intros p Hp. cbn [calls_pos omap] in Hp. apply not_elem_of_cons in Hp as [Hne Hp].
        rewrite (Ha p Hp). cbn [active]. rewrite elem_of_remove. tauto.
      * rewrite (trigger_add _ _ _ Er Hnot). cbn [mbind result_bind].
        destruct (IH (mkSweep (active s ++ [pm.1])
                    (trace s ++ [EvAdd (data pm.2) (Chron.head r)])) Hr)
          as (s' & t & -> & Ht & Ha).
        exists s', (EvAdd (data pm.2) (Chron.head r) :: t).
        split; [done |]. split; [by (rewrite Ht; cbn [trace]; rewrite <- app_assoc) |].
        intros p Hp. cbn [calls_pos omap] in Hp. apply not_elem_of_cons in Hp as [Hne Hp].
        rewrite (Ha p Hp). cbn [active]. rewrite elem_of_app, list_elem_of_singleton. tauto.
    + assert (Hr' : ranged items).
      { intros pm Hin. apply Hr. by right. }
      cbn [run].
      destruct (IH (mkSweep (active s) (trace s ++ [EvYield e])) Hr')
        as (s' & t & -> & Ht & Ha).
      exists s', (EvYield e :: t).
      split; [done |]. split; [by (rewrite Ht; cbn [trace]; rewrite <- app_assoc) |].
      intros p Hp. by apply Ha.
Qed.

(** Up to the first time a marker is triggered: it opens. *)
Lemma run_over_add items pm r rest s :
  ranged items → range pm.2 = Some r → pm.1 ∉ calls_pos items → pm.1 ∉ active s →
  ∃ s1 t, run s (items ++ ICall pm :: rest) = run s1 rest ∧
          trace s1 = trace s ++ t ++ [EvAdd (data pm.2) (Chron.head r)] ∧
          pm.1 ∈ active s1 ∧
          ∀ q, q ∉ calls_pos items → q ≠ pm.1 → (q ∈ active s1 ↔ q ∈ active s).
Proof.
  intros Hr Er Hp Hs. destruct (run_frame items s Hr) as (s' & t & Hrun & Ht & Ha).
  rewrite run_app, Hrun. cbn [mbind result_bind run].
  rewrite (trigger_add _ _ _ Er) by (by rewrite Ha). cbn [mbind result_bind].
  eexists _, t. split; [done |]. cbn [trace active].
  split; [by rewrite Ht, <- app_assoc |].
  split; [apply elem_of_app; right; left |].
  intros q Hq Hne. rewrite elem_of_app, list_elem_of_singleton, (Ha q Hq). tauto.
Qed.

(** Up to the next time an open marker is triggered: it closes. *)
Lemma run_over_delete items pm r rest s :
  ranged items → range pm.2 = Some r → pm.1 ∉ calls_pos items → pm.1 ∈ active s →
  ∃ s1 t, run s (items ++ ICall pm :: rest) = run s1 rest ∧
          trace s1 = trace s ++ t ++ [EvDelete (data pm.2) (Chron.tail r)] ∧
          (pm.1 ∉ active s1) ∧
          ∀ q, q ∉ calls_pos items → q ≠ pm.1 → (q ∈ active s1 ↔ q ∈ active s).
Proof.
  intros Hr Er Hp Hs. destruct (run_frame items s Hr) as (s' & t & Hrun & Ht & Ha).
  rewrite run_app, Hrun. cbn [mbind result_bind run].
  rewrite (trigger_delete _ _ _ Er) by (by rewrite Ha). cbn [mbind result_bind].
  eexists _, t. split; [done |]. cbn [trace active].
  split; [by rewrite Ht, <- app_assoc |].
  split; [rewrite elem_of_remove; tauto |].
  intros q Hq Hne. rewrite elem_of_remove, (Ha q Hq). tauto.
Qed.

(** A marker that is triggered twice in a row opens and closes at once. *)
Lemma run_collapsed items1 items2 pm r :
  ranged (items1 ++ ICall pm :: ICall pm :: items2) →
  range pm.2 = Some r → pm.1 ∉ calls_pos items1 →
  ∃ s' t1 t2, run (mkSweep [] []) (items1 ++ ICall pm :: ICall pm :: items2) = Ok s' ∧
    trace s' = t1 ++ [EvAdd (data pm.2) (Chron.head r); EvDelete (data pm.2) (Chron.tail r)]
               ++ t2.
Proof.
  intros Hr Er Hp.
  apply ranged_app in Hr as [Hr1 Hr]. apply ranged_cons in Hr as [_ Hr].
  apply ranged_cons in Hr as [_ Hr2].
  destruct (run_over_add items1 pm r (ICall pm :: items2) (mkSweep [] []) Hr1 Er Hp)
    as (s1 & t1 & -> & Ht1 & Ha1 & _); [apply not_elem_of_nil |].
  cbn [run]. rewrite (trigger_delete _ _ _ Er Ha1). cbn [mbind result_bind].
  match goal with |- context [run ?s2 items2] =>
    destruct (run_frame items2 s2 Hr2) as (s' & t2 & -> & Ht & _) end.
  exists s', t1, t2. split; [done |].
  rewrite Ht. cbn [trace]. rewrite Ht1. cbn [trace app]. by rewrite <- !app_assoc.
Qed.

(** Two markers of which the second opens after and closes before the
    first. *)
Lemma run_nested items1 items2 items3 items4 items5 pm qn r r' :
  ranged (items1 ++ ICall pm :: items2 ++ ICall qn :: items3 ++ ICall qn :: items4
          ++ ICall pm :: items5) →
  range pm.2 = Some r → range qn.2 = Some r' → pm.1 ≠ qn.1 →
  (∀ p, p = pm.1 ∨ p = qn.1 →
        (p ∉ calls_pos items1) ∧ (p ∉ calls_pos items2) ∧ (p ∉ calls_pos items3) ∧
        (p ∉ calls_pos items4)) →
  ∃ s' t1 t2 t3 t4 t5,
    run (mkSweep [] []) (items1 ++ ICall pm :: items2 ++ ICall qn :: items3 ++ ICall qn
                         :: items4 ++ ICall pm :: items5) = Ok s' ∧
    trace s' = t1 ++ [EvAdd (data pm.2) (Chron.head r)] ++ t2
               ++ [EvAdd (data qn.2) (Chron.head r')] ++ t3
               ++ [EvDelete (data qn.2) (Chron.tail r')] ++ t4
               ++ [EvDelete (data pm.2) (Chron.tail r)] ++ t5.
Proof.
  intros Hr Er Er' Hne Hnot.
  destruct (Hnot pm.1 ltac:(by left)) as (Hp1 & Hp2 & Hp3 & Hp4).
  destruct (Hnot qn.1 ltac:(by right)) as (Hq1 & Hq2 & Hq3 & Hq4).
  apply ranged_app in Hr as [Hr1 Hr]. apply ranged_cons in Hr as [_ Hr].
  apply ranged_app in Hr as [Hr2 Hr]. apply ranged_cons in Hr as [_ Hr].
  apply ranged_app in Hr as [Hr3 Hr]. apply ranged_cons in Hr as [_ Hr].
  apply ranged_app in Hr as [Hr4 Hr]. apply ranged_cons in Hr as [_ Hr5].
  destruct (run_over_add items1 pm r
              (items2 ++ ICall qn :: items3 ++ ICall qn :: items4 ++ ICall pm :: items5)
              (mkSweep [] []) Hr1 Er Hp1)
    as (s1 & t1 & -> & Ht1 & Hpa1 & Ha1); [apply not_elem_of_nil |].
  destruct (run_over_add items2 qn r' (items3 ++ ICall qn :: items4 ++ ICall pm :: items5)
              s1 Hr2 Er' Hq2)
    as (s2 & t2 & -> & Ht2 & Hqa2 & Ha2).
  { rewrite (Ha1 _ Hq1) by done. apply not_elem_of_nil. }
  destruct (run_over_delete items3 qn r' (items4 ++ ICall pm :: items5) s2 Hr3 Er' Hq3 Hqa2)
    as (s3 & t3 & -> & Ht3 & Hqa3 & Ha3).
  destruct (run_over_delete items4 pm r items5 s3 Hr4 Er Hp4)
    as (s4 & t4 & -> & Ht4 & Hpa4 & Ha4).
  { rewrite (Ha3 _ Hp3) by done. by rewrite (Ha2 _ Hp2). }
  destruct (run_frame items5 s4 Hr5) as (s' & t5 & -> & Ht5 & _).
  exists s', t1, t2, t3, t4, t5. split; [done |].
  rewrite Ht5, Ht4, Ht3, Ht2, Ht1. cbn [trace app]. by rewrite <- !app_assoc.
Qed.

Lemma nested_sublist {A} (a b c d : A) t1 t2 t3 t4 t5 extra :
  [a; b; c; d] `sublist_of`
    (t1 ++ [a] ++ t2 ++ [b] ++ t3 ++ [c] ++ t4 ++ [d] ++ t5) ++ extra.
Proof.
  apply sublist_inserts_r, sublist_inserts_l. cbn [app]. apply sublist_skip.
  apply sublist_inserts_l, sublist_skip, sublist_inserts_l, sublist_skip.
  apply sublist_inserts_l, sublist_skip, sublist_nil_l.
Qed.

Lemma adjacent_sublist {A} (a b : A) t1 t2 extra :
  ∃ u1 u2, (t1 ++ [a; b] ++ t2) ++ extra = u1 ++ [a; b] ++ u2.
Proof. exists t1, (t2 ++ extra). by rewrite <- !app_assoc. Qed.

End markup_run.
Section list_split.
Context {A : Type}.

Lemma split_first (l : list A) x :
  NoDup l → x ∈ l → ∃ l1 l2, l = l1 ++ x :: l2 ∧ (x ∉ l1) ∧ (x ∉ l2).
Proof.
  intros Hnd Hx. apply list_elem_of_split in Hx as (l1 & l2 & ->).
  exists l1, l2. split; [done |].
  apply NoDup_app in Hnd as (_ & Hdisj & Hnd2). apply NoDup_cons in Hnd2 as [Hx2 _].
  split; [| done]. intros Hin. apply (Hdisj x Hin). left.
Qed.

(** Two different members of a list without duplicates, in either order. *)
Lemma split_two (l : list A) x y :
  NoDup l → x ∈ l → y ∈ l → x ≠ y →
  ∃ l1 l2 l3, (l = l1 ++ x :: l2 ++ y :: l3 ∨ l = l1 ++ y :: l2 ++ x :: l3) ∧
              (x ∉ l1) ∧ (y ∉ l1) ∧ (x ∉ l2) ∧ (y ∉ l2).
Proof.
  intros Hnd Hx Hy Hne.
  destruct (split_first l x Hnd Hx) as (l1 & l' & -> & Hx1 & Hx').
  apply NoDup_app in Hnd as (Hnd1 & Hdisj & Hnd'). apply NoDup_cons in Hnd' as [_ Hnd'].
  apply elem_of_app in Hy as [Hy | Hy].
  - destruct (split_first l1 y Hnd1 Hy) as (k1 & k2 & -> & Hy1 & Hy2).
    exists k1, k2, l'. split; [right; by rewrite <- app_assoc |].
    rewrite elem_of_app, elem_of_cons in Hx1. tauto.
  - apply elem_of_cons in Hy as [-> | Hy]; [done |].
    destruct (split_first l' y Hnd' Hy) as (k1 & k2 & -> & Hy1 & Hy2).
    exists l1, k1, k2. split; [by left |].
    rewrite elem_of_app, elem_of_cons in Hx'.
    split; [done |]. split; [| tauto].
    intros Hin. apply (Hdisj y Hin). right. apply elem_of_app. right. left.
Qed.

End list_split.

Section markup_schedule.
Context {M T : Type} `{EqDecision M}.
Import Markup.
Implicit Types (ps : list (pushed (M := M) (T := T))).
Implicit Types (pm : nat * ChronMarker M T) (k : Z) (h : bool) (p : nat).
Implicit Types (x : pushed (M := M) (T := T)).
Implicit Types (chron : Chron.Chron T) (set : ChronMarkerSet M T).
Implicit Types (e : Chron.ChronEntry T) (walk : list (Chron.ChronEntry T)).
Implicit Types (ms : list (ChronMarker M T)) (sched : list (segment (T := T))).

Lemma schedule_entries_elem walk sg :
  sg ∈ schedule_entries walk ↔
  ∃ e, e ∈ walk ∧ (sg = SBucket true (Chron.index e) ∨ sg = SYield e ∨
                   sg = SBucket false (Chron.index e)).
Proof.
  unfold schedule_entries. rewrite list_elem_of_bind. split.
  - intros (e & Hsg & He). exists e. split; [done |].
    rewrite !elem_of_cons in Hsg. destruct Hsg as [? | [? | [? | Hn]]]; auto.
    by apply elem_of_nil in Hn.
  - intros (e & He & Hsg). exists e. split; [| done].
    rewrite !elem_of_cons. tauto.
Qed.

Lemma schedule_entries_nodup walk :
  NoDup (Chron.index <$> walk) → NoDup (schedule_entries walk).
Proof.
  induction walk as [| e walk IH]; intros Hnd; [constructor |].
  cbn [fmap list_fmap] in Hnd. apply NoDup_cons in Hnd as [He Hnd].
  rewrite schedule_entries_cons. apply NoDup_app. split; [| split; [| by apply IH]].
  - unfold schedule_entries. cbn [mbind list_bind app].
    repeat (apply NoDup_cons; split; [rewrite ?elem_of_cons, ?elem_of_nil; intuition congruence |]).
    constructor.
  - intros sg Hsg Hin. apply schedule_entries_elem in Hin as (e' & He' & Hsg').
    unfold schedule_entries in Hsg. cbn [mbind list_bind app] in Hsg.
    assert (Hidx : Chron.index e' ≠ Chron.index e).
    { intros Heq. apply He. rewrite <- Heq. by apply list_elem_of_fmap_2. }
    assert (He'e : e' ≠ e) by congruence.
    rewrite !elem_of_cons, elem_of_nil in Hsg. intuition congruence.
Qed.

Lemma schedule_nodup walk :
  NoDup (Chron.index <$> walk) → (∀ e, e ∈ walk → Chron.index e ≠ -1) →
  NoDup (schedule walk).
Proof.
  intros Hnd Hidx. unfold schedule.
  assert (Hno : ∀ h, SBucket h (-1) ∉ schedule_entries walk).
  { intros h Hin. apply schedule_entries_elem in Hin as (e & He & Hsg).
    apply Hidx in He. intuition congruence. }
  apply NoDup_cons. split; [| apply NoDup_cons; split; [done | by apply schedule_entries_nodup]].
  rewrite elem_of_cons. intros [? | Hin]; [done |]. by apply Hno in Hin.
Qed.

Lemma schedule_elem walk h k :
  k = -1 ∨ k ∈ Chron.index <$> walk → SBucket h k ∈ schedule walk.
Proof.
  unfold schedule. intros [-> | Hk].
  - destruct h; [left | right; left].
  - right. right. apply list_elem_of_fmap in Hk as (e & -> & He).
    apply schedule_entries_elem. exists e. split; [done |]. destruct h; auto.
Qed.

(** A bucket is fired where the schedule names it. *)
Lemma bucket_of_elem ps h k pm :
  pm ∈ bucket_of ps h k ↔ ∃ x, x ∈ ps ∧ what x = pm ∧ to_heads x = h ∧ at_key x = k.
Proof.
  unfold bucket_of. rewrite list_elem_of_fmap. split.
  - intros (x & -> & Hx). exists x. apply list_elem_of_In, List.filter_In in Hx as [Hx Hb].
    apply andb_true_iff in Hb as [H1%bool_decide_eq_true H2%bool_decide_eq_true].
    by rewrite list_elem_of_In.
  - intros (x & Hx & <- & Hh & Hk). exists x. split; [done |].
    apply list_elem_of_In, List.filter_In. split; [by apply list_elem_of_In |].
    by rewrite !bool_decide_eq_true_2.
Qed.

Lemma calls_content ps sg p :
  p ∈ calls_pos (content ps sg) →
  ∃ h k x, sg = SBucket h k ∧ x ∈ ps ∧ (what x).1 = p ∧ to_heads x = h ∧ at_key x = k.
Proof.
  destruct sg as [[|] k | e]; cbn [content].
  - rewrite calls_pos_calls, list_elem_of_fmap. intros (pm & -> & Hin).
    apply bucket_of_elem in Hin as (x & Hx & <- & Hh & Hk). by exists true, k, x.
  - rewrite calls_pos_calls, list_elem_of_fmap. intros (pm & -> & Hin).
    apply elem_of_reverse, bucket_of_elem in Hin as (x & Hx & <- & Hh & Hk).
    by exists false, k, x.
  - cbn. by intros ?%elem_of_nil.
Qed.

Lemma calls_items_of ps sched p :
  p ∈ calls_pos (items_of ps sched) →
  ∃ h k x, SBucket h k ∈ sched ∧ x ∈ ps ∧ (what x).1 = p ∧ to_heads x = h ∧ at_key x = k.
Proof.
  induction sched as [| sg sched IH]; [by intros ?%elem_of_nil |].
  rewrite items_of_cons, calls_pos_app, elem_of_app. intros [Hin | Hin].
  - apply calls_content in Hin as (h & k & x & -> & Hx). exists h, k, x.
    split; [left | done].
  - destruct (IH Hin) as (h & k & x & Hsg & Hx). exists h, k, x. split; [by right | done].
Qed.

Lemma ranged_content ps sg :
  (∀ x, x ∈ ps → is_Some (range (what x).2)) → ranged (content ps sg).
Proof.
  intros Hps pm Hin. destruct sg as [[|] k | e]; cbn [content] in Hin.
  - apply list_elem_of_fmap in Hin as (pm' & [= <-] & Hin).
    apply bucket_of_elem in Hin as (x & Hx & <- & _). by apply Hps.
  - apply list_elem_of_fmap in Hin as (pm' & [= <-] & Hin).
    apply elem_of_reverse, bucket_of_elem in Hin as (x & Hx & <- & _). by apply Hps.
  - apply list_elem_of_singleton in Hin. done.
Qed.

Lemma ranged_items_of ps sched :
  (∀ x, x ∈ ps → is_Some (range (what x).2)) → ranged (items_of ps sched).
Proof.
  intros Hps. induction sched as [| sg sched IH]; [by intros ? ?%elem_of_nil |].
  rewrite items_of_cons. apply ranged_app. split; [by apply ranged_content | done].
Qed.

End markup_schedule.
Section markup_pushes.
Context {M T : Type} `{EqDecision M}.
Import Markup.
Implicit Types (ps : list (pushed (M := M) (T := T))).
Implicit Types (pm : nat * ChronMarker M T) (k : Z) (h : bool) (p : nat).
Implicit Types (x : pushed (M := M) (T := T)).
Implicit Types (chron : Chron.Chron T) (set : ChronMarkerSet M T).
Implicit Types (e : Chron.ChronEntry T) (walk : list (Chron.ChronEntry T)).
Implicit Types (ms : list (ChronMarker M T)) (m : ChronMarker M T).

Lemma live_list_app ms1 : ∀ pos ms2,
  live_list pos (ms1 ++ ms2) = live_list pos ms1 ++ live_list (pos + List.length ms1) ms2.
Proof.
  induction ms1 as [| m ms1 IH]; intros pos ms2; cbn [app live_list List.length].
  - by rewrite Nat.add_0_r.
  - rewrite IH. replace (S pos + List.length ms1)%nat with (pos + S (List.length ms1))%nat by lia.
    by destruct (range m).
Qed.

Lemma live_list_bound ms pos pm :
  pm ∈ live_list pos ms → (pos ≤ pm.1 < pos + List.length ms)%nat.
Proof.
  intros Hin. apply live_list_elem in Hin as (Hle & Hlk & _).
  apply lookup_lt_Some in Hlk. lia.
Qed.

Lemma pushes_of_app chron set cells1 cells2 :
  pushes_of chron set (cells1 ++ cells2)
  = pushes_of chron set cells1 ++ pushes_of chron set cells2.
Proof. unfold pushes_of. apply bind_app. Qed.

Lemma pushes_of_elem chron set cells x :
  x ∈ pushes_of chron set cells → what x ∈ cells ∧ is_Some (range (what x).2).
Proof.
  unfold pushes_of. rewrite list_elem_of_bind. intros (pm & Hx & Hpm).
  destruct (range pm.2) as [r |] eqn:Er; [| by apply elem_of_nil in Hx].
  destruct (match filter set with Some f => negb (f (data pm.2) r) | None => false end);
    [by apply elem_of_nil in Hx |].
  rewrite !elem_of_cons, elem_of_nil in Hx.
  destruct Hx as [-> | [-> | []]]; cbn [what pushed_cursor]; by rewrite Er.
Qed.

Lemma kept_spec set m r :
  kept set m r →
  match filter set with Some f => negb (f (data m) r) | None => false end = false.
Proof. unfold kept. destruct (filter set) as [f |]; [| done]. by intros ->. Qed.

(** The calls of [push] for the marker at position [i], between those for
    the markers before it and those for the markers after it. *)
Lemma pushes_split chron set ms pos i m r :
  ms !! i = Some m → range m = Some r → kept set m r →
  pushes_of chron set (live_list pos ms)
  = pushes_of chron set (live_list pos (take i ms))
    ++ [pushed_cursor chron (Chron.head r) ((pos + i)%nat, m);
        pushed_cursor chron (Chron.tail r) ((pos + i)%nat, m)]
    ++ pushes_of chron set (live_list (S (pos + i)) (drop (S i) ms)).
Proof.
  intros Hi Er Hk. rewrite <- (take_drop_middle ms i m Hi) at 1.
  rewrite live_list_app, pushes_of_app. f_equal.
  rewrite length_take_le by (apply lookup_lt_Some in Hi; lia).
  cbn [live_list]. rewrite Er.
  change ((pos + i)%nat, m) with (((pos + i)%nat, m) : nat * ChronMarker M T).
  unfold pushes_of at 1. cbn [mbind list_bind snd]. rewrite Er, (kept_spec _ _ _ Hk).
  done.
Qed.

Lemma pushes_bound chron set ms pos x :
  x ∈ pushes_of chron set (live_list pos ms) →
  (pos ≤ (what x).1 < pos + List.length ms)%nat.
Proof. intros Hin. apply pushes_of_elem in Hin as [Hin _]. by apply live_list_bound. Qed.

(** The key of a cursor is that of the first two buckets or of an entry
    of the chron. *)
Lemma key_of_scheduled chron es order cursor :
  chron_wf chron es order →
  key_of chron cursor = -1 ∨
  key_of chron cursor ∈ Chron.index <$> walked es (tl order).
Proof.
  intros Hc. unfold key_of, bucket_key.
  destruct (anchorOf_total chron es order cursor Hc) as (r & -> & Hr).
  cbn [mbind result_bind]. destruct r as [a |]; [| by left].
  destruct (Hr a eq_refl) as [Hpos Ha].
  destruct (Z.eqb_spec (Chron.index a) 0) as [| Hne]; [by left |]. right.
  apply list_elem_of_fmap. exists a. split; [done |].
  unfold walked. apply list_elem_of_omap. exists (Z.to_nat (Chron.index a)). split; [| done].
  destruct (order_split_root _ _ _ Hc) as (rest & Horder).
  assert (Hin : Z.to_nat (Chron.index a) ∈ order).
  { rewrite (cw_perm _ _ _ Hc). apply elem_of_seq. apply lookup_lt_Some in Ha. lia. }
  rewrite Horder in Hin |- *. cbn [tl].
  apply elem_of_cons in Hin as [Hz | Hin]; [lia | done].
Qed.

End markup_pushes.
Section markup_nesting.
Context {M T : Type} `{EqDecision M}.
Import Markup.
Implicit Types (ps : list (pushed (M := M) (T := T))).
Implicit Types (pm : nat * ChronMarker M T) (k : Z) (h : bool) (p : nat).
Implicit Types (x : pushed (M := M) (T := T)).
Implicit Types (chron : Chron.Chron T) (set : ChronMarkerSet M T).
Implicit Types (e : Chron.ChronEntry T) (walk : list (Chron.ChronEntry T)).
Implicit Types (ms : list (ChronMarker M T)) (m : ChronMarker M T).
Implicit Types (sched : list (segment (T := T))).

Lemma bucket_of_cons x ps h k :
  bucket_of (x :: ps) h k
  = (if bool_decide (to_heads x = h) && bool_decide (at_key x = k) then [what x] else [])
    ++ bucket_of ps h k.
Proof. unfold bucket_of. cbn [List.filter]. by destruct (_ && _). Qed.

Lemma bucket_of_hit pm ps h k :
  bucket_of (mkPushed h k pm :: ps) h k = pm :: bucket_of ps h k.
Proof. by rewrite bucket_of_cons; cbn; rewrite !bool_decide_eq_true_2. Qed.

Lemma bucket_of_miss pm ps h k h' k' :
  SBucket (T := T) h' k' ≠ SBucket h k →
  bucket_of (mkPushed h' k' pm :: ps) h k = bucket_of ps h k.
Proof.
  intros Hne. rewrite bucket_of_cons. cbn [to_heads at_key].
  destruct (decide (h' = h)) as [-> | Hh]; [| by rewrite (bool_decide_eq_false_2 _ Hh)].
  destruct (decide (k' = k)) as [-> | Hk]; [done |].
  by rewrite (bool_decide_eq_false_2 _ Hk), andb_false_r.
Qed.

(** A position that [ps] does not push is in none of its buckets. *)
Lemma bucket_of_free ps h k p :
  (∀ x, x ∈ ps → (what x).1 ≠ p) → p ∉ fst <$> bucket_of ps h k.
Proof.
  intros Hps Hin. apply list_elem_of_fmap in Hin as (pm & -> & Hin).
  apply bucket_of_elem in Hin as (x & Hx & <- & _). by apply (Hps x).
Qed.

Lemma calls_free_bucket ps h k p :
  (∀ x, x ∈ ps → (what x).1 ≠ p) → p ∉ calls_pos (ICall <$> bucket_of ps h k).
Proof. rewrite calls_pos_calls. apply bucket_of_free. Qed.

Lemma calls_free_reverse ps h k p :
  (∀ x, x ∈ ps → (what x).1 ≠ p) → p ∉ calls_pos (ICall <$> reverse (bucket_of ps h k)).
Proof.
  intros Hps. rewrite calls_pos_calls, fmap_reverse, elem_of_reverse.
  by apply bucket_of_free.
Qed.

(** A position that is pushed only to buckets that a part of the schedule
    does not name is not triggered in this part. *)
Lemma calls_free_items ps sched p :
  (∀ x, x ∈ ps → (what x).1 = p → SBucket (to_heads x) (at_key x) ∉ sched) →
  p ∉ calls_pos (items_of ps sched).
Proof.
  intros Hps Hin. apply calls_items_of in Hin as (h & k & x & Hsg & Hx & Hp & <- & <-).
  by apply (Hps x).
Qed.

Lemma pushes_ranged chron set cells x :
  x ∈ pushes_of chron set cells → is_Some (range (what x).2).
Proof. intros Hin. by apply pushes_of_elem in Hin as [_ ?]. Qed.

Lemma vector_get_marker mk ms (a : Z) m :
  markup_wf mk ms → Vector.get (markers mk) a = Ok (Some m) →
  0 ≤ a ∧ ms !! Z.to_nat a = Some m.
Proof.
  intros [Hv Hl _] Hget.
  destruct (decide (0 ≤ a < Vector.length (markers mk))) as [Hin | Hout].
  - rewrite (get_spec _ _ Hv Hin), Hl, list_lookup_fmap in Hget.
    split; [lia |]. destruct (ms !! Z.to_nat a); by simplify_eq/=.
  - rewrite get_outside in Hget by lia. done.
Qed.

(** The items of the schedule, around one of its buckets. *)
Lemma items_of_split ps sched1 sg sched2 :
  items_of ps (sched1 ++ sg :: sched2)
  = items_of ps sched1 ++ content ps sg ++ items_of ps sched2.
Proof. by rewrite items_of_app, items_of_cons. Qed.

Lemma cursor_isSame_offset (c1 c2 : Chron.ChronCursor T) :
  Chron.cursor_isSame c1 c2 = true → Chron.offset c2 = Chron.offset c1.
Proof.
  unfold Chron.cursor_isSame.
  destruct (Z.eqb_spec (Chron.offset c2) (Chron.offset c1)); [done |]. by cbn.
Qed.

(** A collapsed marker whose cursors resolve to one anchor opens and
    closes at once, when the whole chron is enumerated. *)
Lemma entries_collapsed mk ms chron es order set (a : nat) m r :
  markup_wf mk ms → chron_wf chron es order →
  ms !! a = Some m → range m = Some r → kept set m r →
  Chron.collapsed r = true →
  key_of chron (Chron.head r) = key_of chron (Chron.tail r) →
  ∃ tr t1 t2, entries mk chron set None = Ok tr ∧
    tr = t1 ++ [EvAdd (data m) (Chron.head r); EvDelete (data m) (Chron.tail r)] ++ t2.
Proof.
  intros Hmk Hc Ha Er Hk Hcol Hkey.
  set (ps := pushes_of chron set (live_list 0 ms)).
  set (walk := walked es (tl order)).
  set (h := Chron.offset (Chron.head r) <? 0).
  set (k := key_of chron (Chron.head r)).
  pose (pm := (a, m) : nat * ChronMarker M T).
  (* the calls of [push] *)
  pose proof (pushes_split chron set ms 0 a m r Ha Er Hk) as Hps.
  fold ps in Hps. cbn [Nat.add] in Hps.
  set (P1 := pushes_of chron set (live_list 0 (take a ms))) in Hps.
  set (P2 := pushes_of chron set (live_list (S a) (drop (S a) ms))) in Hps.
  assert (HP1 : ∀ x, x ∈ P1 → (what x).1 ≠ a).
  { intros x Hx. apply pushes_bound in Hx. rewrite length_take in Hx. lia. }
  assert (HP2 : ∀ x, x ∈ P2 → (what x).1 ≠ a).
  { intros x Hx. apply pushes_bound in Hx. lia. }
  unfold pushed_cursor in Hps. apply cursor_isSame_offset in Hcol.
  rewrite <- Hkey, Hcol in Hps. fold h k pm in Hps.
  (* the bucket *)
  assert (Hb : bucket_of ps h k = bucket_of P1 h k ++ pm :: pm :: bucket_of P2 h k).
  { rewrite Hps, bucket_of_app. cbn [app]. by rewrite !bucket_of_hit. }
  assert (Hcontent : ∃ X Y, content ps (SBucket h k) = X ++ ICall pm :: ICall pm :: Y ∧
                            a ∉ calls_pos X).
  { destruct h; cbn [content]; rewrite Hb.
    - exists (ICall <$> bucket_of P1 true k), (ICall <$> bucket_of P2 true k).
      split; [by rewrite fmap_app |]. by apply calls_free_bucket.
    - exists (ICall <$> reverse (bucket_of P2 false k)),
             (ICall <$> reverse (bucket_of P1 false k)).
      split; [| by apply calls_free_reverse].
      rewrite reverse_app, !reverse_cons, <- !app_assoc, fmap_app. done. }
  destruct Hcontent as (X & Y & HX & HaX).
  (* the schedule *)
  assert (Hin : SBucket h k ∈ schedule walk).
  { apply schedule_elem, (key_of_scheduled chron es order _ Hc). }
  assert (Hnd : NoDup (schedule walk)).
  { apply schedule_nodup; [by apply (walked_index_nodup chron) |].
    intros e He. apply (walked_index_pos chron _ order) in He; [lia | done]. }
  destruct (split_first _ _ Hnd Hin) as (l1 & l2 & Hsched & Hl1 & _).
  assert (Hitems : items_of ps (schedule walk)
                   = (items_of ps l1 ++ X) ++ ICall pm :: ICall pm :: (Y ++ items_of ps l2)).
  { by rewrite Hsched, items_of_split, HX, <- !app_assoc. }
  destruct (run_collapsed (items_of ps l1 ++ X) (Y ++ items_of ps l2) pm r)
    as (s' & t1 & t2 & Hrun & Htr); [| done | |].
  { rewrite <- Hitems. apply ranged_items_of. intros x. apply pushes_ranged. }
  { rewrite calls_pos_app, elem_of_app. intros [Hbad | Hbad]; [| done].
    revert Hbad. apply calls_free_items. intros x Hx Hp. rewrite Hps in Hx.
    rewrite !elem_of_app, !elem_of_cons, elem_of_nil in Hx.
    destruct Hx as [Hx | [[-> | [-> | []]] | Hx]];
      [by apply HP1 in Hx | done | done | by apply HP2 in Hx]. }
  rewrite <- Hitems in Hrun.
  destruct (entries_none_spec mk ms chron es order set s' Hmk Hc Hrun) as (extra & Hent).
  exists (trace s' ++ extra), t1, (t2 ++ extra). split; [done |].
  rewrite Htr, <- !app_assoc. done.
Qed.

End markup_nesting.
Section markup_pair.
Context {M T : Type} `{EqDecision M}.
Import Markup.
Implicit Types (ps : list (pushed (M := M) (T := T))).
Implicit Types (pm : nat * ChronMarker M T) (k : Z) (h : bool) (p : nat).
Implicit Types (x : pushed (M := M) (T := T)).
Implicit Types (chron : Chron.Chron T) (set : ChronMarkerSet M T).
Implicit Types (ms : list (ChronMarker M T)) (m : ChronMarker M T).

(** The calls of [push] for two markers. *)
Lemma pushes_split_two chron set ms (a b : nat) mA mB rA rB :
  (a < b)%nat → ms !! a = Some mA → ms !! b = Some mB →
  range mA = Some rA → range mB = Some rB → kept set mA rA → kept set mB rB →
  ∃ P1 P2 P3,
    pushes_of chron set (live_list 0 ms)
    = P1 ++ [pushed_cursor chron (Chron.head rA) (a, mA);
             pushed_cursor chron (Chron.tail rA) (a, mA)]
      ++ P2 ++ [pushed_cursor chron (Chron.head rB) (b, mB);
                pushed_cursor chron (Chron.tail rB) (b, mB)]
      ++ P3 ∧
    ∀ x, x ∈ P1 ∨ x ∈ P2 ∨ x ∈ P3 → (what x).1 ≠ a ∧ (what x).1 ≠ b.
Proof.
  intros Hab Ha Hb ErA ErB HkA HkB.
  rewrite (pushes_split chron set ms 0 a mA rA Ha ErA HkA). cbn [Nat.add].
  assert (Hb' : drop (S a) ms !! (b - S a)%nat = Some mB).
  { rewrite lookup_drop. by replace (S a + (b - S a))%nat with b by lia. }
  rewrite (pushes_split chron set (drop (S a) ms) (S a) (b - S a) mB rB Hb' ErB HkB).
  replace (S a + (b - S a))%nat with b by lia.
  eexists _, _, _. split; [done |].
  intros x [Hx | [Hx | Hx]]; apply pushes_bound in Hx;
    rewrite ?length_take, ?length_drop in Hx; lia.
Qed.

(** Two markers whose head cursors go to one bucket of the heads and
    whose tail cursors go to one bucket of the tails: the one that opens
    second closes first, when the whole chron is enumerated. *)
Lemma entries_nested_pair mk ms chron es order set (a b : nat) mA mB rA rB :
  markup_wf mk ms → chron_wf chron es order →
  (a < b)%nat → ms !! a = Some mA → ms !! b = Some mB →
  range mA = Some rA → range mB = Some rB → kept set mA rA → kept set mB rB →
  Chron.offset (Chron.head rA) < 0 → Chron.offset (Chron.head rB) < 0 →
  0 ≤ Chron.offset (Chron.tail rA) → 0 ≤ Chron.offset (Chron.tail rB) →
  key_of chron (Chron.head rA) = key_of chron (Chron.head rB) →
  key_of chron (Chron.tail rA) = key_of chron (Chron.tail rB) →
  ∃ tr, entries mk chron set None = Ok tr ∧
    ([EvAdd (data mA) (Chron.head rA); EvAdd (data mB) (Chron.head rB);
      EvDelete (data mB) (Chron.tail rB); EvDelete (data mA) (Chron.tail rA)]
       `sublist_of` tr ∨
     [EvAdd (data mB) (Chron.head rB); EvAdd (data mA) (Chron.head rA);
      EvDelete (data mA) (Chron.tail rA); EvDelete (data mB) (Chron.tail rB)]
       `sublist_of` tr).
Proof.
  intros Hmk Hc Hab Ha Hb ErA ErB HkA HkB HhA HhB HtA HtB Hkh Hkt.
  set (ps := pushes_of chron set (live_list 0 ms)).
  set (walk := walked es (tl order)).
  set (kh := key_of chron (Chron.head rA)).
  set (kt := key_of chron (Chron.tail rA)).
  pose (A := (a, mA) : nat * ChronMarker M T).
  pose (B := (b, mB) : nat * ChronMarker M T).
  destruct (pushes_split_two chron set ms a b mA mB rA rB Hab Ha Hb ErA ErB HkA HkB)
    as (P1 & P2 & P3 & Hps & HP).
  fold ps in Hps. unfold pushed_cursor in Hps. rewrite <- Hkh, <- Hkt in Hps.
  rewrite (proj2 (Z.ltb_lt _ _) HhA), (proj2 (Z.ltb_lt _ _) HhB) in Hps.
  rewrite (proj2 (Z.ltb_ge _ _) HtA), (proj2 (Z.ltb_ge _ _) HtB) in Hps.
  fold kh kt A B in Hps.
  assert (HP1 : ∀ p, p = a ∨ p = b → ∀ x, x ∈ P1 → (what x).1 ≠ p).
  { intros p [-> | ->] x Hx; apply (HP x); auto. }
  assert (HP2 : ∀ p, p = a ∨ p = b → ∀ x, x ∈ P2 → (what x).1 ≠ p).
  { intros p [-> | ->] x Hx; apply (HP x); auto. }
  assert (HP3 : ∀ p, p = a ∨ p = b → ∀ x, x ∈ P3 → (what x).1 ≠ p).
  { intros p [-> | ->] x Hx; apply (HP x); auto. }
  assert (Hdiff : SBucket (T := T) false kt ≠ SBucket true kh) by congruence.
  assert (Hdiff' : SBucket (T := T) true kh ≠ SBucket false kt) by congruence.
  (* the two buckets *)
  assert (Hbh : bucket_of ps true kh
                = bucket_of P1 true kh ++ A :: bucket_of P2 true kh
                  ++ B :: bucket_of P3 true kh).
  { rewrite Hps, bucket_of_app. cbn [app].
    rewrite bucket_of_hit, (bucket_of_miss _ _ _ _ _ _ Hdiff), bucket_of_app. cbn [app].
    by rewrite bucket_of_hit, (bucket_of_miss _ _ _ _ _ _ Hdiff). }
  assert (Hbt : bucket_of ps false kt
                = bucket_of P1 false kt ++ A :: bucket_of P2 false kt
                  ++ B :: bucket_of P3 false kt).
  { rewrite Hps, bucket_of_app. cbn [app].
    rewrite (bucket_of_miss _ _ _ _ _ _ Hdiff'), bucket_of_hit, bucket_of_app. cbn [app].
    by rewrite (bucket_of_miss _ _ _ _ _ _ Hdiff'), bucket_of_hit. }
  assert (Hch : content ps (SBucket true kh)
                = (ICall <$> bucket_of P1 true kh) ++ ICall A
                  :: (ICall <$> bucket_of P2 true kh) ++ ICall B
                  :: (ICall <$> bucket_of P3 true kh)).
  { cbn [content]. by rewrite Hbh, !fmap_app, !fmap_cons, !fmap_app, !fmap_cons. }
  assert (Hct : content ps (SBucket false kt)
                = (ICall <$> reverse (bucket_of P3 false kt)) ++ ICall B
                  :: (ICall <$> reverse (bucket_of P2 false kt)) ++ ICall A
                  :: (ICall <$> reverse (bucket_of P1 false kt))).
  { cbn [content]. rewrite Hbt, reverse_app, reverse_cons, reverse_app, reverse_cons.
    rewrite <- !app_assoc. cbn [app]. by rewrite !fmap_app, !fmap_cons, !fmap_app, !fmap_cons. }
  (* the schedule *)
  assert (Hnd : NoDup (schedule walk)).
  { apply schedule_nodup; [by apply (walked_index_nodup chron) |].
    intros e He. apply (walked_index_pos chron _ order) in He; [lia | done]. }
  destruct (split_two (schedule walk) (SBucket true kh) (SBucket false kt) Hnd)
    as (l1 & l2 & l3 & Hsched & Hh1 & Ht1 & Hh2 & Ht2); [| | done |].
  { apply schedule_elem, (key_of_scheduled chron es order _ Hc). }
  { apply schedule_elem, (key_of_scheduled chron es order _ Hc). }
  assert (Hfree : ∀ l p, p = a ∨ p = b → SBucket true kh ∉ l → SBucket false kt ∉ l →
                         p ∉ calls_pos (items_of ps l)).
  { intros l p Hp Hhl Htl. apply calls_free_items. intros x Hx Hxp. rewrite Hps in Hx.
    rewrite !elem_of_app, !elem_of_cons, elem_of_nil in Hx.
    destruct Hx as [Hx | [[-> | [-> | []]] | [Hx | [[-> | [-> | []]] | Hx]]]]; try done.
    - by apply (HP1 p Hp) in Hx.
    - by apply (HP2 p Hp) in Hx.
    - by apply (HP3 p Hp) in Hx. }
  assert (Hranged : ranged (items_of ps (schedule walk))).
  { apply ranged_items_of. intros x. apply pushes_ranged. }
  destruct Hsched as [Hsched | Hsched].
  - (* the heads are fired first *)
    assert (Hitems : items_of ps (schedule walk)
      = (items_of ps l1 ++ (ICall <$> bucket_of P1 true kh)) ++ ICall A
        :: (ICall <$> bucket_of P2 true kh) ++ ICall B
        :: ((ICall <$> bucket_of P3 true kh) ++ items_of ps l2
            ++ (ICall <$> reverse (bucket_of P3 false kt))) ++ ICall B
        :: (ICall <$> reverse (bucket_of P2 false kt)) ++ ICall A
        :: ((ICall <$> reverse (bucket_of P1 false kt)) ++ items_of ps l3)).
    { rewrite Hsched, items_of_split, items_of_split, Hch, Hct.
      rewrite <- !app_assoc. cbn [app]. rewrite <- ?app_assoc. cbn [app].
      by rewrite <- ?app_assoc. }
    rewrite Hitems in Hranged.
    destruct (run_nested _ _ _ _ _ A B rA rB Hranged ErA ErB ltac:(cbn; lia))
      as (s' & t1 & t2 & t3 & t4 & t5 & Hrun & Htr).
    { intros p Hp. cbn [fst A B] in Hp. rewrite !calls_pos_app, !elem_of_app.
      pose proof (Hfree l1 p Hp Hh1 Ht1). pose proof (Hfree l2 p Hp Hh2 Ht2).
      pose proof (calls_free_bucket P1 true kh p (HP1 p Hp)).
      pose proof (calls_free_bucket P2 true kh p (HP2 p Hp)).
      pose proof (calls_free_bucket P3 true kh p (HP3 p Hp)).
      pose proof (calls_free_reverse P2 false kt p (HP2 p Hp)).
      pose proof (calls_free_reverse P3 false kt p (HP3 p Hp)).
      tauto. }
    rewrite <- Hitems in Hrun.
    destruct (entries_none_spec mk ms chron es order set s' Hmk Hc Hrun) as (extra & Hent).
    exists (trace s' ++ extra). split; [done |]. left. rewrite Htr. apply nested_sublist.
  - (* the tails are fired first *)
    assert (Hitems : items_of ps (schedule walk)
      = (items_of ps l1 ++ (ICall <$> reverse (bucket_of P3 false kt))) ++ ICall B
        :: (ICall <$> reverse (bucket_of P2 false kt)) ++ ICall A
        :: ((ICall <$> reverse (bucket_of P1 false kt)) ++ items_of ps l2
            ++ (ICall <$> bucket_of P1 true kh)) ++ ICall A
        :: (ICall <$> bucket_of P2 true kh) ++ ICall B
        :: ((ICall <$> bucket_of P3 true kh) ++ items_of ps l3)).
    { rewrite Hsched, items_of_split, items_of_split, Hch, Hct.
      rewrite <- !app_assoc. cbn [app]. rewrite <- ?app_assoc. cbn [app].
      by rewrite <- ?app_assoc. }
    rewrite Hitems in Hranged.
    destruct (run_nested _ _ _ _ _ B A rB rA Hranged ErB ErA ltac:(cbn; lia))
      as (s' & t1 & t2 & t3 & t4 & t5 & Hrun & Htr).
    { intros p Hp. cbn [fst A B] in Hp. rewrite !calls_pos_app, !elem_of_app.
      assert (Hp' : p = a ∨ p = b) by tauto.
      pose proof (Hfree l1 p Hp' Hh1 Ht1). pose proof (Hfree l2 p Hp' Hh2 Ht2).
      pose proof (calls_free_bucket P1 true kh p (HP1 p Hp')).
      pose proof (calls_free_bucket P2 true kh p (HP2 p Hp')).
      pose proof (calls_free_reverse P1 false kt p (HP1 p Hp')).
      pose proof (calls_free_reverse P2 false kt p (HP2 p Hp')).
      pose proof (calls_free_reverse P3 false kt p (HP3 p Hp')).
      tauto. }
    rewrite <- Hitems in Hrun.
    destruct (entries_none_spec mk ms chron es order set s' Hmk Hc Hrun) as (extra & Hent).
    exists (trace s' ++ extra). split; [done |]. right. rewrite Htr. apply nested_sublist.
Qed.

End markup_pair.
Section samples_ok.
Import Chron Markup Samples.

Lemma chron2_ok : chron_ok chron2.
Proof.
  assert (H0 : chron_ok chron0) by (by apply empty_ok).
  assert (H1 : chron_ok chron1) by (by apply (insert_ok chron0 tail0 10 101)).
  by apply (insert_ok chron1 tail1 20 102).
Qed.

Lemma markup_before_built : built markup_before.
Proof.
  apply (built_mark markup_a 2 (Some range_before)); [| done | done].
  apply (built_mark Markup.empty 1 (Some range_before)); [constructor | done | done].
Qed.

Lemma markup_over_built : built markup_over.
Proof.
  apply (built_mark markup_c 3 (Some range_point)); [| done | done].
  apply (built_mark markup_b 2 (Some range_over)); [| done | done].
  apply (built_mark Markup.empty 1 (Some range_over)); [constructor | done | done].
Qed.

End samples_ok.



(** ** Worlds: the effects of the operations *)

Section world_effects.
Import World.
Implicit Types (h : Heap) (x y : World) (m : Model) (v : value) (w p : nat) (id : string).

Lemma eff_bind_eq {A B} (m : Eff A) (k : A → Eff B) h :
  (m ≫= k) h = match m h with
               | (Ok a, h') => k a h'
               | (Err e, h') => (Err e, h')
               end.
Proof. reflexivity. Qed.

Lemma eff_bind_ok {A B} (m : Eff A) (k : A → Eff B) h a h' :
  m h = (Ok a, h') → (m ≫= k) h = k a h'.
Proof. intros E. by rewrite eff_bind_eq, E. Qed.

Lemma eff_bind_err {A B} (m : Eff A) (k : A → Eff B) h e h' :
  m h = (Err e, h') → (m ≫= k) h = (Err e, h').
Proof. intros E. by rewrite eff_bind_eq, E. Qed.

Lemma world_of_ok h w x : h !! w = Some x → world_of w h = (Ok x, h).
Proof. intros E. unfold world_of. by rewrite E. Qed.

Lemma findOwn_ok h w x id :
  h !! w = Some x → findOwn w id h = (Ok (map_get (models x) id), h).
Proof. intros E. unfold findOwn. by rewrite (eff_bind_ok _ _ _ _ _ (world_of_ok _ _ _ E)). Qed.

Lemma this_model_ok h w x id m :
  h !! w = Some x → map_get (models x) id = Some m → this_model w id h = (Ok m, h).
Proof.
  intros E Em. unfold this_model.
  by rewrite (eff_bind_ok _ _ _ _ _ (findOwn_ok _ _ _ _ E)), Em.
Qed.

Lemma findNearest_own h w x id m :
  h !! w = Some x → map_get (models x) id = Some m →
  findNearest w id h = (Ok (Some (VModel w id)), h).
Proof.
  intros E Em. unfold findNearest, get_heap. rewrite eff_bind_eq.
  cbn [findNearest_loop]. by rewrite (eff_bind_ok _ _ _ _ _ (world_of_ok _ _ _ E)), Em.
Qed.

Lemma bind_own h w x id m :
  h !! w = Some x → map_get (models x) id = Some m →
  bind w id h = (Ok (VModel w id), h).
Proof.
  intros E Em. unfold bind, mustFindNearest.
  rewrite eff_bind_eq, (eff_bind_ok _ _ _ _ _ (findNearest_own _ _ _ _ _ E Em)).
  cbn. by rewrite Nat.eqb_refl.
Qed.

(** [_upcast] of a value that is bound in the world changes nothing. *)
Lemma upcast_bound h w x v :
  h !! w = Some x → bound_in x v → upcast w v h = (Ok (value_in w v), h).
Proof.
  intros E Hb. unfold upcast, value_in. destruct (is_ref v) eqn:Er; [| done].
  destruct (Hb Er) as [m Em]. by apply (bind_own h w x _ m).
Qed.

Lemma slot_get_bound x (a : list value) (i : Z) :
  Forall (bound_in x) a → bound_in x (slot_get a i).
Proof.
  intros Ha. unfold slot_get. destruct (0 <=? i); [| done].
  destruct (a !! Z.to_nat i) as [v |] eqn:Ev; [| done].
  cbn. by apply (Forall_lookup_1 _ _ _ _ Ha Ev).
Qed.

Lemma getOwnSlot_ok h w x id m (i : Z) :
  h !! w = Some x → map_get (models x) id = Some m → model_ok x m →
  getOwnSlot w id i h = (Ok (own_slot w m i), h).
Proof.
  intros E Em Hok. unfold getOwnSlot, own_slot.
  rewrite (eff_bind_ok _ _ _ _ _ (this_model_ok _ _ _ _ _ E Em)).
  destruct (i >=? _); [done |].
  destruct (is_none (slot_get (writes m) i)); cbn [negb].
  - destruct (is_none (slot_get (reads m) i)); cbn [negb]; [done |].
    apply (upcast_bound h w x); [done |]. apply slot_get_bound, Hok.
  - apply (upcast_bound h w x); [done |]. apply slot_get_bound, Hok.
Qed.

End world_effects.
Section world_committable.
Import World.
Variable sn : string → Z → bool.
Implicit Types (h : Heap) (x y : World) (m pm : Model) (v : value) (w p : nat) (id : string).

Lemma committable_loop_ok h w p x y id m pm idxs :
  h !! w = Some x → map_get (models x) id = Some m → model_ok x m →
  h !! p = Some y → map_get (models y) id = Some pm → model_ok y pm →
  committable_loop sn w p id idxs h = (Ok (forallb (read_agrees sn w p m pm) idxs), h).
Proof.
  intros Ew Em Hm Ep Epm Hpm. induction idxs as [| i idxs IH]; [done |].
  cbn [committable_loop forallb].
  rewrite (eff_bind_ok _ _ _ _ _ (this_model_ok _ _ _ _ _ Ew Em)).
  unfold read_agrees at 1.
  destruct (is_none (slot_get (reads m) (Z.of_nat i))); cbn [orb]; [done |].
  rewrite (eff_bind_ok _ _ _ _ _ (upcast_bound h w x _ Ew (slot_get_bound _ _ _ (mo_reads_bound _ _ Hm)))).
  rewrite (eff_bind_ok _ _ _ _ _ (getOwnSlot_ok h p y id pm _ Ep Epm Hpm)).
  destruct (is_ref _ && negb _); cbn [negb andb]; [done |].
  by destruct (loose_neq _ _).
Qed.

Lemma committable_ok h w p x y id m :
  heap_ok h → h !! w = Some x → parent x = Some p → h !! p = Some y →
  map_get (models x) id = Some m →
  committable sn w id h = (Ok (passes sn w p y (id, m)), h).
Proof.
  intros Hok Ew Hp Ep Em. unfold committable, passes. cbn [fst snd].
  rewrite (eff_bind_ok _ _ _ _ _ (world_of_ok _ _ _ Ew)), Hp.
  rewrite (eff_bind_ok _ _ _ _ _ (findOwn_ok _ _ _ id Ep)).
  destruct (map_get (models y) id) as [pm |] eqn:Epm; [| done].
  rewrite (eff_bind_ok _ _ _ _ _ (this_model_ok _ _ _ _ _ Ew Em)).
  apply (committable_loop_ok h w p x y id m pm); try done.
  - by apply (ok_models h Hok w x id).
  - by apply (ok_models h Hok p y id).
Qed.

Lemma map_get_lookup {V} (l : list (string * V)) (k : nat) id (v : V) :
  NoDup l.*1 → l !! k = Some (id, v) → map_get l id = Some v.
Proof.
  revert k. induction l as [| [id' v'] l IH]; intros k Hnd Hk; [done |].
  cbn [fmap list_fmap fst] in Hnd. apply NoDup_cons in Hnd as [Hid Hnd].
  cbn [map_get]. destruct k as [| k].
  - injection Hk as -> ->. by rewrite String.eqb_refl.
  - cbn in Hk. destruct (String.eqb_spec id' id) as [-> | Hne]; [| by apply (IH k)].
    exfalso. apply Hid. apply list_elem_of_fmap. exists (id, v). split; [done |].
    by apply list_elem_of_lookup_2 in Hk.
Qed.

Lemma models_fuel_bound h w x :
  h !! w = Some x → (List.length (models x) < models_fuel h)%nat.
Proof.
  unfold models_fuel. revert w. induction h as [| x' h IH]; intros w E; [done |].
  cbn [foldr]. destruct w as [| w].
  - injection E as ->. lia.
  - specialize (IH w E). lia.
Qed.

(** The first loop of [World.commit] changes nothing, and throws when a
    model does not pass. *)
Lemma check_models_ok h w p x y :
  heap_ok h → h !! w = Some x → parent x = Some p → h !! p = Some y →
  ∀ fuel k, (List.length (models x) - k < fuel)%nat →
    check_models sn fuel w k h
    = (if forallb (passes sn w p y) (drop k (models x)) then Ok tt else Err CommitConflict, h).
Proof.
  intros Hok Ew Hp Ep. induction fuel as [| fuel IH]; intros k Hf; [lia |].
  cbn [check_models]. rewrite (eff_bind_ok _ _ _ _ _ (world_of_ok _ _ _ Ew)).
  destruct (models x !! k) as [[id m] |] eqn:Ek.
  - rewrite (drop_S _ _ _ Ek). cbn [forallb].
    pose proof (map_get_lookup _ _ _ _ (ok_keys h Hok w x Ew) Ek) as Em.
    rewrite (eff_bind_ok _ _ _ _ _ (committable_ok h w p x y id m Hok Ew Hp Ep Em)).
    destruct (passes sn w p y (id, m)); cbn [andb]; [| done].
    apply IH. apply lookup_lt_Some in Ek. lia.
  - apply lookup_ge_None in Ek. by rewrite drop_ge.
Qed.

End world_committable.
Section world_maps.
Import World.
Context {V : Type}.
Implicit Types (l : list (string * V)) (k id : string) (v : V).

Lemma map_get_set_eq l k v : map_get (map_set l k v) k = Some v.
Proof.
  induction l as [| [k' v'] l IH]; cbn [map_set map_get].
  - by rewrite String.eqb_refl.
  - destruct (String.eqb_spec k' k) as [-> | Hne]; cbn [map_get].
    + by rewrite String.eqb_refl.
    + by rewrite (proj2 (String.eqb_neq _ _) Hne).
Qed.

Lemma map_get_set_ne l k k' v : k ≠ k' → map_get (map_set l k v) k' = map_get l k'.
Proof.
  intros Hne. induction l as [| [k0 v0] l IH]; cbn [map_set map_get].
  - by rewrite (proj2 (String.eqb_neq _ _) Hne).
  - destruct (String.eqb_spec k0 k) as [-> | Hne0]; cbn [map_get].
    + by rewrite !(proj2 (String.eqb_neq _ _) Hne).
    + by rewrite IH.
Qed.

Lemma map_set_keys l k v v0 : map_get l k = Some v0 → (map_set l k v).*1 = l.*1.
Proof.
  induction l as [| [k' v'] l IH]; cbn [map_set map_get]; [done |].
  destruct (String.eqb_spec k' k) as [-> | Hne]; [done |].
  intros Hget. cbn [fmap list_fmap]. f_equal. by apply IH.
Qed.

Lemma map_set_keys_new l k v : map_get l k = None → (map_set l k v).*1 = l.*1 ++ [k].
Proof.
  induction l as [| [k' v'] l IH]; cbn [map_set map_get]; [done |].
  destruct (String.eqb_spec k' k) as [-> | Hne]; [done |].
  intros Hget. cbn [fmap list_fmap app]. f_equal. by apply IH.
Qed.

Lemma map_get_keys l k : is_Some (map_get l k) ↔ k ∈ l.*1.
Proof.
  induction l as [| [k' v'] l IH]; cbn [map_get fmap list_fmap fst].
  - split; [by intros [? ?] | by intros ?%elem_of_nil].
  - rewrite elem_of_cons. destruct (String.eqb_spec k' k) as [-> | Hne].
    + split; [by left | by eexists].
    + rewrite IH. split; [by right | by intros [-> | ?]].
Qed.

Lemma map_get_key_lookup l (j : nat) k :
  NoDup l.*1 → l.*1 !! j = Some k → ∃ v, l !! j = Some (k, v) ∧ map_get l k = Some v.
Proof.
  intros Hnd Hj. rewrite list_lookup_fmap in Hj.
  destruct (l !! j) as [[k' v] |] eqn:El; [| done]. injection Hj as ->.
  exists v. split; [done |]. by apply (map_get_lookup l j).
Qed.

End world_maps.

Section world_heap.
Import World.
Implicit Types (h : Heap) (x y : World) (m : Model) (v : value) (w p : nat) (id : string).

Lemma update_world_ok h w x (f : World → World) :
  h !! w = Some x →
  ∃ h', update_world w f h = (Ok tt, h') ∧ h' !! w = Some (f x) ∧
        List.length h' = List.length h ∧ ∀ w', w' ≠ w → h' !! w' = h !! w'.
Proof.
  intros E. exists (alter f w h). unfold update_world, modify.
  split; [done |]. split; [by rewrite list_lookup_alter_eq, E |].
  split; [apply length_alter |]. intros w' Hne. by apply list_lookup_alter_ne.
Qed.

Lemma set_model_ok h w x id m :
  h !! w = Some x →
  ∃ h', set_model w id m h = (Ok tt, h') ∧ h' !! w = Some (with_model id m x) ∧
        List.length h' = List.length h ∧ ∀ w', w' ≠ w → h' !! w' = h !! w'.
Proof. apply update_world_ok. Qed.

Lemma add_ok h w x id c :
  h !! w = Some x →
  ∃ h', add w id c h = (Ok (VModel w id), h') ∧
        h' !! w = Some (with_model id (new_model c) x) ∧
        List.length h' = List.length h ∧ ∀ w', w' ≠ w → h' !! w' = h !! w'.
Proof.
  intros E. destruct (update_world_ok h w x (with_model id (new_model c)) E)
    as (h' & Hu & Hr). exists h'. split; [| done].
  unfold add. by rewrite (eff_bind_ok _ _ _ _ _ Hu).
Qed.

(** Slots *)

Lemma slot_get_lookup (a : list value) (i : nat) v :
  a !! i = Some v → slot_get a (Z.of_nat i) = v.
Proof.
  intros E. unfold slot_get. destruct (Z.leb_spec 0 (Z.of_nat i)); [| lia].
  by rewrite Nat2Z.id, E.
Qed.

Lemma slot_set_inside (a : list value) (i : nat) v :
  (i < List.length a)%nat → slot_set a i v = <[i := v]> a.
Proof. intros Hi. unfold slot_set. by rewrite (proj2 (Nat.ltb_lt _ _) Hi). Qed.

Lemma slot_get_inside (a : list value) (i : nat) :
  (i < List.length a)%nat → a !! i = Some (slot_get a (Z.of_nat i)).
Proof.
  intros Hi. destruct (lookup_lt_is_Some_2 a i Hi) as [v Ev].
  by rewrite (slot_get_lookup _ _ _ Ev).
Qed.

End world_heap.
Section world_commit_loops.
Import World.
Implicit Types (h : Heap) (x y : World) (m pm : Model) (v : value) (w p : nat) (id : string).

Lemma map_set_same {V} (l : list (string * V)) k (v : V) :
  map_get l k = Some v → map_set l k v = l.
Proof.
  induction l as [| [k' v'] l IH]; cbn [map_get map_set]; [done |].
  destruct (String.eqb_spec k' k) as [-> | Hne]; [by intros [= ->] |].
  intros Hg. by rewrite IH.
Qed.

Lemma map_set_set {V} (l : list (string * V)) k (v v' : V) :
  map_set (map_set l k v) k v' = map_set l k v'.
Proof.
  induction l as [| [k0 v0] l IH]; cbn [map_set].
  - by rewrite String.eqb_refl.
  - destruct (String.eqb_spec k0 k) as [-> | Hne]; cbn [map_set].
    + by rewrite String.eqb_refl.
    + by rewrite (proj2 (String.eqb_neq _ _) Hne), IH.
Qed.

Lemma with_model_same x id m : map_get (models x) id = Some m → with_model id m x = x.
Proof. intros E. unfold with_model. rewrite (map_set_same _ _ _ E). by destruct x. Qed.

Lemma with_model_twice x id m m' :
  with_model id m' (with_model id m x) = with_model id m' x.
Proof. unfold with_model. cbn. by rewrite map_set_set. Qed.

Lemma with_model_get x id m : map_get (models (with_model id m x)) id = Some m.
Proof. apply map_get_set_eq. Qed.

Lemma with_model_get_ne x id id' m :
  id ≠ id' → map_get (models (with_model id m x)) id' = map_get (models x) id'.
Proof. apply map_get_set_ne. Qed.

Lemma bound_in_with_model x id m v :
  is_Some (map_get (models x) id) → bound_in x v → bound_in (with_model id m x) v.
Proof.
  intros Hid Hb Hr. destruct (decide (id = ref_id v)) as [<- | Hne].
  - rewrite with_model_get. by eexists.
  - rewrite with_model_get_ne by done. by apply Hb.
Qed.

Lemma bound_in_none x : bound_in x VNone.
Proof. by intros ?. Qed.

(** The first loop of [Model.commit], from slot [j] on. *)
Lemma commit_writes_spec w p id (n : nat) : w ≠ p → ∀ cnt j h x y m pm,
  (j + cnt = n)%nat →
  h !! w = Some x → h !! p = Some y →
  map_get (models x) id = Some m → map_get (models y) id = Some pm →
  List.length (writes m) = n → List.length (writes pm) = n →
  Forall (bound_in x) (writes m) →
  ∃ h' m' pm',
    commit_writes w p id (seq j cnt) h = (Ok tt, h') ∧
    h' !! w = Some (with_model id m' x) ∧ h' !! p = Some (with_model id pm' y) ∧
    List.length h' = List.length h ∧
    (∀ w', w' ≠ w → w' ≠ p → h' !! w' = h !! w') ∧
    constructor m' = constructor m ∧ reads m' = reads m ∧ List.length (writes m') = n ∧
    constructor pm' = constructor pm ∧ reads pm' = reads pm ∧
    List.length (writes pm') = n ∧
    (∀ i, (i < j)%nat → writes m' !! i = writes m !! i ∧ writes pm' !! i = writes pm !! i) ∧
    (∀ i v, (j ≤ i)%nat → writes m !! i = Some v →
       writes m' !! i = Some VNone ∧
       writes pm' !! i = if is_none v then writes pm !! i else Some (downcast v)).
Proof.
  intros Hwp. induction cnt as [| cnt IH]; intros j h x y m pm Hj Ew Ep Em Epm Hlm Hlpm Hb.
  - exists h, m, pm. cbn [seq commit_writes].
    rewrite (with_model_same _ _ _ Em), (with_model_same _ _ _ Epm).
    split_and!; try done. intros i v Hi Hv. apply lookup_lt_Some in Hv. lia.
  - cbn [seq commit_writes].
    rewrite (eff_bind_ok _ _ _ _ _ (this_model_ok _ _ _ _ _ Ew Em)).
    assert (Hjn : (j < List.length (writes m))%nat) by lia.
    pose proof (slot_get_inside _ _ Hjn) as Hvj.
    destruct (is_none (slot_get (writes m) (Z.of_nat j))) eqn:Enone.
    + destruct (IH (S j) h x y m pm ltac:(lia) Ew Ep Em Epm Hlm Hlpm Hb)
        as (h' & m' & pm' & Hrun & Hw' & Hp' & Hlen & Hfr & Hc & Hr & Hl & Hpc & Hpr & Hpl
            & Hlow & Hhigh).
      exists h', m', pm'. split_and!; try done.
      * intros i Hi. apply Hlow. lia.
      * intros i v Hi Hv. destruct (decide (i = j)) as [-> | Hne]; [| apply Hhigh; [lia | done]].
        rewrite Hvj in Hv. injection Hv as <-. rewrite Enone.
        destruct (Hlow j ltac:(lia)) as [Hm' Hpm']. split; [| done].
        rewrite Hm', Hvj. f_equal. by destruct (slot_get (writes m) (Z.of_nat j)).
    + set (vj := slot_get (writes m) (Z.of_nat j)) in *.
      rewrite (eff_bind_ok _ _ _ _ _
                 (upcast_bound h w x vj Ew (slot_get_bound _ _ _ Hb))).
      rewrite (eff_bind_ok _ _ _ _ _ (this_model_ok _ _ _ _ _ Ep Epm)).
      set (pm1 := mkModel (constructor pm) (reads pm)
                    (slot_set (writes pm) j (downcast (value_in w vj)))).
      destruct (set_model_ok h p y id pm1 Ep) as (h1 & Hs1 & Hp1 & Hlen1 & Hfr1).
      rewrite (eff_bind_ok _ _ _ _ _ Hs1).
      assert (Ew1 : h1 !! w = Some x) by (by rewrite Hfr1).
      rewrite (eff_bind_ok _ _ _ _ _ (this_model_ok _ _ _ _ _ Ew1 Em)).
      set (m1 := mkModel (constructor m) (reads m) (slot_set (writes m) j VNone)).
      destruct (set_model_ok h1 w x id m1 Ew1) as (h2 & Hs2 & Hw2 & Hlen2 & Hfr2).
      rewrite (eff_bind_ok _ _ _ _ _ Hs2).
      assert (Ep2 : h2 !! p = Some (with_model id pm1 y)) by (by rewrite Hfr2).
      assert (Hdown : downcast (value_in w vj) = downcast vj).
      { unfold value_in, downcast. by destruct vj. }
      destruct (IH (S j) h2 (with_model id m1 x) (with_model id pm1 y) m1 pm1 ltac:(lia)
                  Hw2 Ep2 (with_model_get _ _ _) (with_model_get _ _ _))
        as (h' & m' & pm' & Hrun & Hw' & Hp' & Hlen & Hfr & Hc & Hr & Hl & Hpc & Hpr & Hpl
            & Hlow & Hhigh).
      { cbn [m1 writes]. rewrite slot_set_inside by done. by rewrite length_insert. }
      { cbn [pm1 writes]. rewrite slot_set_inside by lia. by rewrite length_insert. }
      { cbn [m1 writes]. rewrite slot_set_inside by done.
        apply Forall_insert; [| apply bound_in_none].
        eapply Forall_impl; [exact Hb |]. intros v. by apply bound_in_with_model. }
      rewrite !with_model_twice in *.
      exists h', m', pm'. split_and!; try done.
      * lia.
      * intros w' Hw'w Hw'p. by rewrite Hfr, Hfr2, Hfr1.
      * intros i Hi. destruct (Hlow i ltac:(lia)) as [H1 H2]. rewrite H1, H2.
        cbn [m1 pm1 writes]. rewrite !slot_set_inside by lia.
        by rewrite !list_lookup_insert_ne by lia.
      * intros i v Hi Hv. destruct (decide (i = j)) as [-> | Hne].
        -- rewrite Hvj in Hv. injection Hv as <-. rewrite Enone.
           destruct (Hlow j ltac:(lia)) as [H1 H2]. rewrite H1, H2.
           cbn [m1 pm1 writes]. rewrite !slot_set_inside by lia.
           rewrite !list_lookup_insert_eq by lia. by rewrite Hdown.
        -- destruct (Hhigh i v ltac:(lia)) as [H1 H2].
           { cbn [m1 writes]. rewrite slot_set_inside by lia.
             by rewrite list_lookup_insert_ne by lia. }
           split; [done |]. rewrite H2. cbn [pm1 writes].
           rewrite slot_set_inside by lia. by rewrite list_lookup_insert_ne by lia.
Qed.

(** The second loop of [Model.commit], from slot [j] on. *)
Lemma commit_reads_spec w p id (n : nat) : w ≠ p → ∀ cnt j h x y m pm,
  (j + cnt = n)%nat →
  h !! w = Some x → h !! p = Some y →
  map_get (models x) id = Some m → map_get (models y) id = Some pm →
  List.length (reads m) = n → List.length (reads pm) = n →
  Forall (bound_in x) (reads m) →
  ∃ h' m' pm',
    commit_reads w p id (seq j cnt) h = (Ok tt, h') ∧
    h' !! w = Some (with_model id m' x) ∧ h' !! p = Some (with_model id pm' y) ∧
    List.length h' = List.length h ∧
    (∀ w', w' ≠ w → w' ≠ p → h' !! w' = h !! w') ∧
    constructor m' = constructor m ∧ writes m' = writes m ∧ List.length (reads m') = n ∧
    constructor pm' = constructor pm ∧ writes pm' = writes pm ∧
    List.length (reads pm') = n ∧
    (∀ i, (i < j)%nat → reads m' !! i = reads m !! i) ∧
    (∀ i v, reads m' !! i = Some v → v = VNone ∨ reads m !! i = Some v).
Proof.
  intros Hwp. induction cnt as [| cnt IH]; intros j h x y m pm Hj Ew Ep Em Epm Hlm Hlpm Hb.
  - exists h, m, pm. cbn [seq commit_reads].
    rewrite (with_model_same _ _ _ Em), (with_model_same _ _ _ Epm).
    split_and!; try done. intros i v Hv. by right.
  - cbn [seq commit_reads].
    rewrite (eff_bind_ok _ _ _ _ _ (this_model_ok _ _ _ _ _ Ep Epm)).
    assert (Hjn : (j < List.length (reads m))%nat) by lia.
    destruct (is_none (slot_get (reads pm) (Z.of_nat j))) eqn:Enone; cbn [negb].
    2:{ destruct (IH (S j) h x y m pm ltac:(lia) Ew Ep Em Epm Hlm Hlpm Hb)
          as (h' & m' & pm' & Hrun & Hw' & Hp' & Hlen & Hfr & Hc & Hr & Hl & Hpc & Hpr & Hpl
              & Hlow & Hsub).
        exists h', m', pm'. split_and!; try done. intros i Hi. apply Hlow. lia. }
    rewrite (eff_bind_ok _ _ _ _ _ (this_model_ok _ _ _ _ _ Ew Em)).
    set (rj := slot_get (reads m) (Z.of_nat j)) in *.
    rewrite (eff_bind_ok _ _ _ _ _ (upcast_bound h w x rj Ew (slot_get_bound _ _ _ Hb))).
    rewrite (eff_bind_ok _ _ _ _ _ (this_model_ok _ _ _ _ _ Ep Epm)).
    set (pm1 := mkModel (constructor pm)
                  (slot_set (reads pm) j (downcast (value_in w rj))) (writes pm)).
    destruct (set_model_ok h p y id pm1 Ep) as (h1 & Hs1 & Hp1 & Hlen1 & Hfr1).
    rewrite (eff_bind_ok _ _ _ _ _ Hs1).
    assert (Ew1 : h1 !! w = Some x) by (by rewrite Hfr1).
    rewrite (eff_bind_ok _ _ _ _ _ (this_model_ok _ _ _ _ _ Ew1 Em)).
    set (m1 := mkModel (constructor m) (slot_set (reads m) j VNone) (writes m)).
    destruct (set_model_ok h1 w x id m1 Ew1) as (h2 & Hs2 & Hw2 & Hlen2 & Hfr2).
    rewrite (eff_bind_ok _ _ _ _ _ Hs2).
    assert (Ep2 : h2 !! p = Some (with_model id pm1 y)) by (by rewrite Hfr2).
    destruct (IH (S j) h2 (with_model id m1 x) (with_model id pm1 y) m1 pm1 ltac:(lia)
                Hw2 Ep2 (with_model_get _ _ _) (with_model_get _ _ _))
      as (h' & m' & pm' & Hrun & Hw' & Hp' & Hlen & Hfr & Hc & Hr & Hl & Hpc & Hpr & Hpl
          & Hlow & Hsub).
    { cbn [m1 reads]. rewrite slot_set_inside by done. by rewrite length_insert. }
    { cbn [pm1 reads]. rewrite slot_set_inside by lia. by rewrite length_insert. }
    { cbn [m1 reads]. rewrite slot_set_inside by done.
      apply Forall_insert; [| apply bound_in_none].
      eapply Forall_impl; [exact Hb |]. intros v. by apply bound_in_with_model. }
    rewrite !with_model_twice in *.
    exists h', m', pm'. split_and!; try done.
    + lia.
    + intros w' Hw'w Hw'p. by rewrite Hfr, Hfr2, Hfr1.
    + intros i Hi. rewrite (Hlow i ltac:(lia)). cbn [m1 reads].
      rewrite slot_set_inside by lia. by rewrite list_lookup_insert_ne by lia.
    + intros i v Hv. destruct (Hsub i v Hv) as [-> | Hv1]; [by left |].
      cbn [m1 reads] in Hv1. rewrite slot_set_inside in Hv1 by lia.
      destruct (decide (i = j)) as [-> | Hne].
      * rewrite list_lookup_insert_eq in Hv1 by lia. left. congruence.
      * rewrite list_lookup_insert_ne in Hv1 by lia. by right.
Qed.

End world_commit_loops.
Section world_commit_model.
Import World.
Implicit Types (h : Heap) (x y : World) (m pm : Model) (v : value) (w p : nat) (id : string).

Lemma version_of_new m : version_of m (new_model (constructor m)).
Proof. split; [done |]. cbn. by rewrite !length_replicate. Qed.

(** [Model.commit]: the writes go to the version of the parent world. *)
Lemma commit_model_spec h w p x y id m :
  h !! w = Some x → parent x = Some p → h !! p = Some y → w ≠ p →
  map_get (models x) id = Some m → model_ok x m →
  (∀ pm, map_get (models y) id = Some pm → version_of m pm) →
  ∃ h' m' pm',
    commit_model w id h = (Ok tt, h') ∧
    h' !! w = Some (with_model id m' x) ∧ h' !! p = Some (with_model id pm' y) ∧
    List.length h' = List.length h ∧
    (∀ w', w' ≠ w → w' ≠ p → h' !! w' = h !! w') ∧
    constructor m' = constructor m ∧
    List.length (reads m') = slotCount (constructor m) ∧
    List.length (writes m') = slotCount (constructor m) ∧
    (∀ i v, reads m' !! i = Some v → v = VNone ∨ reads m !! i = Some v) ∧
    (∀ i v, writes m' !! i = Some v → v = VNone) ∧
    version_of m pm' ∧
    (∀ i v, writes m !! i = Some v → v ≠ VNone → writes pm' !! i = Some (downcast v)).
Proof.
  intros Ew Hpar Ep Hwp Em [Hlr Hlw Hbr Hbw] Hver.
  set (n := slotCount (constructor m)) in *.
  unfold commit_model.
  rewrite (eff_bind_ok _ _ _ _ _ (world_of_ok _ _ _ Ew)), Hpar.
  rewrite (eff_bind_ok _ _ _ _ _ (findOwn_ok _ _ _ id Ep)).
  (* the version of the parent world, which is made when there is none *)
  assert (Hparent : ∃ h1 y1 pm,
    (match map_get (models y) id with
     | Some _ => mret tt
     | None => c ← constructorOf (VModel w id); _ ← add p id c; mret tt
     end) h = (Ok tt, h1) ∧
    h1 !! w = Some x ∧ h1 !! p = Some y1 ∧ y1 = with_model id pm y ∧
    map_get (models y1) id = Some pm ∧ version_of m pm ∧
    List.length h1 = List.length h ∧ (∀ w', w' ≠ p → h1 !! w' = h !! w')).
  { destruct (map_get (models y) id) as [pm |] eqn:Epm.
    - exists h, y, pm. split_and!; try done.
      + by rewrite (with_model_same _ _ _ Epm).
      + by apply Hver.
    - destruct (add_ok h p y id (constructor m) Ep) as (h1 & Hadd & Hp1 & Hlen1 & Hfr1).
      exists h1, (with_model id (new_model (constructor m)) y), (new_model (constructor m)).
      split_and!; try done.
      + cbn [constructorOf].
        rewrite eff_bind_eq, (eff_bind_ok _ _ _ _ _ (findOwn_ok _ _ _ id Ew)), Em.
        cbn. by rewrite (eff_bind_ok _ _ _ _ _ Hadd).
      + by rewrite Hfr1.
      + apply with_model_get.
      + apply version_of_new. }
  destruct Hparent as (h1 & y1 & pm & Hrun1 & Ew1 & Ep1 & Hy1 & Epm & (Hpc & Hplr & Hplw)
                       & Hlen1 & Hfr1).
  rewrite (eff_bind_ok _ _ _ _ _ Hrun1).
  rewrite (eff_bind_ok _ _ _ _ _ (this_model_ok _ _ _ _ _ Ew1 Em)).
  rewrite Hpc in Hplr, Hplw. fold n in Hplr, Hplw.
  destruct (commit_writes_spec w p id n Hwp n 0 h1 x y1 m pm ltac:(lia) Ew1 Ep1 Em Epm
              Hlw Hplw Hbw)
    as (h2 & m2 & pm2 & Hrun2 & Ew2 & Ep2 & Hlen2 & Hfr2 & Hc2 & Hr2 & Hl2 & Hpc2 & Hpr2
        & Hpl2 & _ & Hhigh2).
  rewrite Hlw, (eff_bind_ok _ _ _ _ _ Hrun2).
  rewrite (eff_bind_ok _ _ _ _ _ (this_model_ok _ _ _ _ _ Ew2 (with_model_get _ _ _))).
  destruct (commit_reads_spec w p id n Hwp n 0 h2 (with_model id m2 x) (with_model id pm2 y1)
              m2 pm2 ltac:(lia) Ew2 Ep2 (with_model_get _ _ _) (with_model_get _ _ _))
    as (h3 & m3 & pm3 & Hrun3 & Ew3 & Ep3 & Hlen3 & Hfr3 & Hc3 & Hw3 & Hl3 & Hpc3 & Hpw3
        & Hpl3 & _ & Hsub3).
  { by rewrite Hr2. }
  { by rewrite Hpr2. }
  { rewrite Hr2. eapply Forall_impl; [exact Hbr |]. intros v.
    apply bound_in_with_model. by eexists. }
  rewrite Hr2, Hlr, Hrun3. rewrite !with_model_twice in *. subst y1.
  rewrite with_model_twice in Ep3.
  exists h3, m3, pm3. split_and!; try done.
  - lia.
  - intros w' Hw'w Hw'p. by rewrite Hfr3, Hfr2, Hfr1.
  - congruence.
  - by rewrite Hw3.
  - intros i v Hv. rewrite <- Hr2. by apply Hsub3.
  - intros i v Hv. rewrite Hw3 in Hv. pose proof Hv as Hlt%lookup_lt_Some.
    rewrite Hl2, <- Hlw in Hlt. destruct (lookup_lt_is_Some_2 _ _ Hlt) as [v0 Ev0].
    destruct (Hhigh2 i v0 ltac:(lia) Ev0) as [H1 _]. congruence.
  - split; [congruence |]. rewrite Hpw3, Hpc3, Hpc2, Hpc. fold n. split; [lia | done].
  - intros i v Hv Hne. rewrite Hpw3. destruct (Hhigh2 i v ltac:(lia) Hv) as [_ H2].
    rewrite H2. by destruct v.
Qed.

End world_commit_model.
Section world_commit_models.
Import World.
Implicit Types (h : Heap) (x y : World) (m pm : Model) (v : value) (w p : nat) (id : string).

(** The state of the second loop of [World.commit] before the model at
    position [k]; [x0] is the world as it was before the loop. *)
Record committing w p x0 (k : nat) h : Prop := {
  cg_child : ∃ x, h !! w = Some x ∧ parent x = Some p ∧
    (models x).*1 = (models x0).*1 ∧
    (∀ id m, map_get (models x) id = Some m → model_ok x m) ∧
    (∀ j id m0, (k ≤ j)%nat → models x0 !! j = Some (id, m0) →
                map_get (models x) id = Some m0) ∧
    ∃ y, h !! p = Some y ∧
      (∀ id m pm, map_get (models x) id = Some m → map_get (models y) id = Some pm →
                  version_of m pm) ∧
      (∀ j id m0, (j < k)%nat → models x0 !! j = Some (id, m0) →
         ∃ pm, map_get (models y) id = Some pm ∧ version_of m0 pm ∧
               ∀ i v, writes m0 !! i = Some v → v ≠ VNone →
                      writes pm !! i = Some (downcast v));
}.

Lemma model_ok_with_model x id m' m :
  is_Some (map_get (models x) id) → model_ok x m → model_ok (with_model id m' x) m.
Proof.
  intros Hid [H1 H2 H3 H4]. split; [done | done | |];
    (eapply Forall_impl; [eassumption |]); intros v; by apply bound_in_with_model.
Qed.

Lemma commit_models_spec w p x0 : w ≠ p → NoDup (models x0).*1 → ∀ cnt k h fuel,
  (k + cnt = List.length (models x0))%nat → (cnt < fuel)%nat →
  committing w p x0 k h →
  ∃ h', commit_models fuel w k h = (Ok tt, h') ∧
        committing w p x0 (List.length (models x0)) h' ∧
        List.length h' = List.length h ∧
        (∀ w', w' ≠ w → w' ≠ p → h' !! w' = h !! w').
Proof.
  intros Hwp Hnd. induction cnt as [| cnt IH]; intros k h fuel Hk Hf Hst.
  - destruct fuel as [| fuel]; [lia |]. cbn [commit_models].
    destruct Hst as [(x & Ew & Hpar & Hkeys & Hok & Hun & Hy)].
    rewrite (eff_bind_ok _ _ _ _ _ (world_of_ok _ _ _ Ew)).
    assert (Hnone : models x !! k = None).
    { apply lookup_ge_None. rewrite <- (length_fmap fst), Hkeys, length_fmap. lia. }
    rewrite Hnone. exists h. split; [done |]. split; [| done].
    replace (List.length (models x0)) with k by lia.
    split. exists x. by split_and!.
  - destruct fuel as [| fuel]; [lia |]. cbn [commit_models].
    destruct Hst as [(x & Ew & Hpar & Hkeys & Hok & Hun & y & Ep & Hver & Hdone)].
    rewrite (eff_bind_ok _ _ _ _ _ (world_of_ok _ _ _ Ew)).
    assert (Hkx : is_Some (models x0 !! k)) by (apply lookup_lt_is_Some_2; lia).
    destruct Hkx as [[id m0] Ek0].
    pose proof (Hun k id m0 ltac:(lia) Ek0) as Em.
    assert (Ek : ∃ m1, models x !! k = Some (id, m1)).
    { assert (Hkey : (models x).*1 !! k = Some id).
      { by rewrite Hkeys, list_lookup_fmap, Ek0. }
      rewrite list_lookup_fmap in Hkey. destruct (models x !! k) as [[id1 m1] |]; [| done].
      injection Hkey as ->. by exists m1. }
    destruct Ek as (m1 & Ek). rewrite Ek.
    destruct (commit_model_spec h w p x y id m0 Ew Hpar Ep Hwp Em (Hok _ _ Em))
      as (h1 & m' & pm' & Hrun & Ew1 & Ep1 & Hlen1 & Hfr1 & Hc' & Hlr' & Hlw' & Hsubr
          & Hnonew & Hver' & Hwrites).
    { intros pm Epm. by apply (Hver id). }
    rewrite (eff_bind_ok _ _ _ _ _ Hrun).
    assert (Hidx : is_Some (map_get (models x) id)) by (by eexists).
    destruct (IH (S k) h1 fuel ltac:(lia) ltac:(lia)) as (h' & Hrun' & Hst' & Hlen' & Hfr').
    { split. exists (with_model id m' x). split_and!; try done.
      - cbn [with_model models]. by rewrite (map_set_keys _ _ _ _ Em).
      - intros id1 m1' Eg. destruct (decide (id = id1)) as [<- | Hne].
        + rewrite with_model_get in Eg. injection Eg as <-.
          destruct (Hok _ _ Em) as [H1 H2 H3 H4]. split; [congruence | congruence | |].
          * apply Forall_lookup_2. intros i v Hv.
            destruct (Hsubr i v Hv) as [-> | Hv0]; [apply bound_in_none |].
            apply bound_in_with_model; [done |]. by apply (Forall_lookup_1 _ _ _ _ H3 Hv0).
          * apply Forall_lookup_2. intros i v Hv. rewrite (Hnonew i v Hv).
            apply bound_in_none.
        + rewrite with_model_get_ne in Eg by done.
          apply model_ok_with_model; [done |]. by apply (Hok id1).
      - intros j id1 m1' Hj Ej. assert (Hne : id ≠ id1).
        { intros <-. assert (j = k); [| lia].
          apply (NoDup_lookup _ j k id Hnd); by rewrite list_lookup_fmap, ?Ej, ?Ek0. }
        rewrite with_model_get_ne by done. apply (Hun j); [lia | done].
      - exists (with_model id pm' y). split_and!; try done.
        + intros id1 m1' pm1 Eg Egp. destruct (decide (id = id1)) as [<- | Hne].
          * rewrite with_model_get in Eg, Egp. injection Eg as <-. injection Egp as <-.
            destruct Hver' as (H1 & H2 & H3). split; [congruence | done].
          * rewrite with_model_get_ne in Eg, Egp by done. by apply (Hver id1).
        + intros j id1 m1' Hj Ej. destruct (decide (j = k)) as [-> | Hjk].
          * rewrite Ek0 in Ej. injection Ej as <- <-. exists pm'.
            split; [apply with_model_get | done].
          * assert (Hne : id ≠ id1).
            { intros <-. apply Hjk.
              apply (NoDup_lookup _ j k id Hnd); by rewrite list_lookup_fmap, ?Ej, ?Ek0. }
            rewrite with_model_get_ne by done. apply (Hdone j); [lia | done]. }
    exists h'. split; [done |]. split; [done |]. split; [lia |].
    intros w' H1 H2. by rewrite Hfr', Hfr1.
Qed.

End world_commit_models.
Section world_commit.
Import World.
Variable sn : string → Z → bool.
Implicit Types (h : Heap) (x y : World) (m pm : Model) (v : value) (w p : nat) (id : string).

Lemma map_get_elem {V} (l : list (string * V)) id (v : V) :
  map_get l id = Some v → (id, v) ∈ l.
Proof.
  induction l as [| [k' v'] l IH]; cbn [map_get]; [done |].
  destruct (String.eqb_spec k' id) as [-> | Hne].
  - intros [= ->]. left.
  - intros Hg. right. by apply IH.
Qed.

Lemma commit_unfold h w p x y :
  h !! w = Some x → parent x = Some p → h !! p = Some y →
  locked y && (1 <? List.length (children y))%nat = false →
  commit sn w h
  = (_ ← check_models sn (models_fuel h) w 0;
     h' ← get_heap; commit_models (models_fuel h') w 0) h.
Proof.
  intros Ew Hpar Ep Hl. unfold commit.
  rewrite (eff_bind_ok _ _ _ _ _ (world_of_ok _ _ _ Ew)), Hpar.
  by rewrite (eff_bind_ok _ _ _ _ _ (world_of_ok _ _ _ Ep)), Hl.
Qed.

(** A cached read that differs from the slot of the parent's model makes
    [World.commit] throw, and nothing is changed. *)
Lemma commit_conflict h w p x y id m (i : nat) my other :
  heap_ok h → h !! w = Some x → parent x = Some p → h !! p = Some y →
  locked y && (1 <? List.length (children y))%nat = false →
  map_get (models x) id = Some m → (i < List.length (reads m))%nat →
  slot_get (reads m) (Z.of_nat i) ≠ VNone →
  upcast w (slot_get (reads m) (Z.of_nat i)) h = (Ok my, h) →
  getOwnSlot p id (Z.of_nat i) h = (Ok other, h) →
  loose_neq my other = true →
  commit sn w h = (Err CommitConflict, h).
Proof.
  intros Hok Ew Hpar Ep Hl Em Hi Hr Hmy Hother Hneq.
  rewrite (commit_unfold h w p x y Ew Hpar Ep Hl).
  pose proof (ok_models h Hok w x id m Ew Em) as Hm.
  rewrite (upcast_bound h w x _ Ew (slot_get_bound _ _ _ (mo_reads_bound _ _ Hm))) in Hmy.
  injection Hmy as <-.
  destruct (map_get (models y) id) as [pm |] eqn:Epm.
  2:{ unfold getOwnSlot, this_model in Hother.
      rewrite eff_bind_eq, (eff_bind_ok _ _ _ _ _ (findOwn_ok _ _ _ id Ep)), Epm in Hother.
      done. }
  rewrite (getOwnSlot_ok h p y id pm _ Ep Epm (ok_models h Hok p y id pm Ep Epm)) in Hother.
  injection Hother as <-.
  rewrite eff_bind_eq, (check_models_ok sn h w p x y Hok Ew Hpar Ep)
    by (pose proof (models_fuel_bound h w x Ew); lia).
  rewrite drop_0.
  assert (Hfail : forallb (passes sn w p y) (models x) = false).
  { apply not_true_is_false. intros Hall.
    rewrite forallb_forall in Hall.
    assert (Hin : In (id, m) (models x)) by (by apply list_elem_of_In, map_get_elem).
    specialize (Hall (id, m) Hin).
    unfold passes in Hall. cbn [fst snd] in Hall. rewrite Epm in Hall.
    rewrite forallb_forall in Hall.
    assert (Hiin : In i (seq 0 (List.length (reads m)))) by (apply in_seq; lia).
    specialize (Hall i Hiin). unfold read_agrees in Hall. rewrite Hneq in Hall.
    rewrite andb_false_r, orb_false_r in Hall.
    by destruct (slot_get (reads m) (Z.of_nat i)). }
  by rewrite Hfail.
Qed.

(** After [World.commit], the parent world reads what the child wrote. *)
Lemma commit_writes_read h h' w p x y id m (i : nat) v :
  heap_ok h → h !! w = Some x → parent x = Some p → h !! p = Some y →
  commit sn w h = (Ok tt, h') →
  map_get (models x) id = Some m → (i < List.length (writes m))%nat →
  slot_get (writes m) (Z.of_nat i) = v → v ≠ VNone →
  readSlot p id (Z.of_nat i) h' = (Ok (value_in p v), h').
Proof.
  intros Hok Ew Hpar Ep Hcommit Em Hi Hv Hne.
  assert (Hwp : w ≠ p).
  { pose proof (ok_parent h Hok w x p Ew Hpar). lia. }
  destruct (locked y && (1 <? List.length (children y))%nat) eqn:Hl.
  { unfold commit in Hcommit.
    rewrite (eff_bind_ok _ _ _ _ _ (world_of_ok _ _ _ Ew)), Hpar in Hcommit.
    by rewrite (eff_bind_ok _ _ _ _ _ (world_of_ok _ _ _ Ep)), Hl in Hcommit. }
  rewrite (commit_unfold h w p x y Ew Hpar Ep Hl) in Hcommit.
  rewrite eff_bind_eq, (check_models_ok sn h w p x y Hok Ew Hpar Ep) in Hcommit
    by (pose proof (models_fuel_bound h w x Ew); lia).
  destruct (forallb _ _); [| done].
  unfold get_heap in Hcommit. rewrite eff_bind_eq in Hcommit.
  pose proof (ok_keys h Hok w x Ew) as Hnd.
  destruct (commit_models_spec w p x Hwp Hnd (List.length (models x)) 0 h (models_fuel h))
    as (h1 & Hrun & [(x1 & Ew1 & _ & _ & _ & _ & y1 & Ep1 & _ & Hdone)] & _ & _);
    [done | by apply (models_fuel_bound h w) | |].
  { split. exists x. split_and!; try done.
    - intros id1 m1 E1. by apply (ok_models h Hok w x id1).
    - intros j id1 m1 _ Ej. by apply (map_get_lookup _ j).
    - exists y. split_and!; try done.
      + intros id1 m1 pm1 E1 Ep1.
        destruct (ok_models h Hok p y id1 pm1 Ep Ep1) as [H1 H2 _ _].
        split; [| done]. by apply (ok_class h Hok p w y x id1).
      + intros j ? ? Hj. lia. }
  rewrite Hrun in Hcommit. injection Hcommit as <-.
  (* the model and the reference are versions of the parent world *)
  assert (Hpos : ∀ id1 m1, map_get (models x) id1 = Some m1 →
            ∃ pm, map_get (models y1) id1 = Some pm ∧ version_of m1 pm ∧
                  ∀ i v, writes m1 !! i = Some v → v ≠ VNone →
                         writes pm !! i = Some (downcast v)).
  { intros id1 m1 E1. apply map_get_elem, list_elem_of_lookup in E1 as (j & Ej).
    apply (Hdone j); [by apply lookup_lt_Some in Ej | done]. }
  destruct (Hpos id m Em) as (pm & Epm & (Hc & Hlr & Hlw) & Hwr).
  pose proof (ok_models h Hok w x id m Ew Em) as [Hmr Hmw Hbr Hbw].
  pose proof (slot_get_inside _ _ Hi) as Hvi. rewrite Hv in Hvi.
  pose proof (Hwr i v Hvi Hne) as Hpv.
  assert (Hown : getOwnSlot p id (Z.of_nat i) h1 = (Ok (value_in p v), h1)).
  { unfold getOwnSlot. rewrite (eff_bind_ok _ _ _ _ _ (this_model_ok _ _ _ _ _ Ep1 Epm)).
    destruct (Z.geb_spec (Z.of_nat i) (Z.of_nat (List.length (reads pm)))) as [Hge |];
      [rewrite Hlr, Hc in Hge; lia |].
    rewrite (slot_get_lookup _ _ _ Hpv).
    assert (Hnn : is_none (downcast v) = false) by (by destruct v).
    rewrite Hnn. cbn [negb].
    unfold upcast. destruct (is_ref (downcast v)) eqn:Er.
    - assert (Hrv : is_ref v = true) by (by destruct v).
      destruct (Forall_lookup_1 _ _ _ _ Hbw Hvi Hrv) as [mx Emx].
      destruct (Hpos _ mx Emx) as (px & Epx & _).
      replace (ref_id (downcast v)) with (ref_id v) by (by destruct v).
      rewrite (bind_own h1 p y1 _ px Ep1 Epx). unfold value_in. by rewrite Hrv.
    - unfold value_in. by destruct v. }
  unfold readSlot. rewrite (eff_bind_ok _ _ _ _ _ (this_model_ok _ _ _ _ _ Ep1 Epm)).
  destruct (Z.geb_spec (Z.of_nat i) (Z.of_nat (List.length (reads pm)))) as [Hge |];
    [rewrite Hlr, Hc in Hge; lia |].
  rewrite (eff_bind_ok _ _ _ _ _ Hown).
  assert (Hnn : is_none (value_in p v) = false) by (by destruct v).
  by rewrite Hnn.
Qed.

End world_commit.
Section world_samples.
Import World Samples.

(** The invariant of a heap that is written out. *)
Ltac heap_cases :=
  repeat match goal with
         | H : (_ :: _) !! ?w = Some _ |- _ =>
             destruct w; cbn in H; [injection H as <- |]
         | H : [] !! _ = Some _ |- _ => done
         | H : map_get _ ?id = Some _ |- _ =>
             cbn [map_get models] in H;
             repeat match type of H with
                    | context [String.eqb ?a id] => destruct (String.eqb a id)
                    end;
             try done; injection H as <-
         end.

Ltac model_is_ok :=
  split; [done | done | |];
  repeat (apply List.Forall_cons; [by intros ? |]); apply List.Forall_nil.

Lemma family_clean_ok : heap_ok family_clean.
Proof.
  split.
  - intros w x p Hw Hp. unfold family_clean in Hw. heap_cases; cbn in Hp; simplify_eq; lia.
  - intros w x id m Hw Hm. unfold family_clean in Hw. heap_cases; model_is_ok.
  - intros w x Hw. unfold family_clean in Hw. heap_cases; cbn;
      (apply NoDup_cons; split; [by intros ?%elem_of_nil | apply NoDup_nil_2]).
  - intros w w' x x' id m m' Hw Hw' Hm Hm'. unfold family_clean in Hw, Hw'.
    heap_cases; done.
Qed.

Lemma family_conflict_ok : heap_ok family_conflict.
Proof.
  split.
  - intros w x p Hw Hp. unfold family_conflict in Hw.
    heap_cases; cbn in Hp; simplify_eq; lia.
  - intros w x id m Hw Hm. unfold family_conflict in Hw. heap_cases; model_is_ok.
  - intros w x Hw. unfold family_conflict in Hw. heap_cases; cbn;
      (apply NoDup_cons; split; [by intros ?%elem_of_nil | apply NoDup_nil_2]).
  - intros w w' x x' id m m' Hw Hw' Hm Hm'. unfold family_conflict in Hw, Hw'.
    heap_cases; done.
Qed.

End world_samples.


Section world_lock.
Import World.
Implicit Types (h : Heap) (x y : World) (m pm : Model) (v : value) (w p a : nat) (id : string).

Lemma with_locked_same x : with_locked (locked x) x = x.
Proof. by destruct x. Qed.

Lemma locked_more_refl h : locked_more h h.
Proof.
  split; [done |]. intros a x E. exists (locked x). by rewrite with_locked_same.
Qed.

Lemma locked_more_trans h1 h2 h3 : locked_more h1 h2 → locked_more h2 h3 → locked_more h1 h3.
Proof.
  intros [Hl1 H1] [Hl2 H2]. split; [lia |]. intros a x E.
  destruct (H1 a x E) as (b & E2 & Hb). destruct (H2 a _ E2) as (b' & E3 & Hb').
  exists b'. split; [done |]. intros Hx. apply Hb'. cbn. by apply Hb.
Qed.

Lemma ancestor_le h w a : parents_ok h → ancestor h w a → (a ≤ w)%nat.
Proof.
  intros Hp. induction 1 as [| w x p a Ew Hpar _ IH]; [done |].
  pose proof (Hp w x p Ew Hpar). lia.
Qed.

Lemma ancestor_same_parents h h' w a :
  (∀ b x, h !! b = Some x → ∃ x', h' !! b = Some x' ∧ parent x' = parent x) →
  ancestor h w a → ancestor h' w a.
Proof.
  intros Hsame. induction 1 as [| w x p a Ew Hpar _ IH]; [constructor |].
  destruct (Hsame w x Ew) as (x' & Ew' & Hp'). apply (ancestor_parent h' w x' p); by try congruence.
Qed.

(** Above a locked world everything is locked. *)
Lemma locked_above_all h w x a :
  parents_ok h → locked_above h w → h !! w = Some x → locked x = true →
  ancestor h w a → ∃ xa, h !! a = Some xa ∧ locked xa = true.
Proof.
  intros Hp Hup Ew Hl Ha. revert x Ew Hl Hup.
  induction Ha as [| w x' p a Ew' Hpar Ha IH]; intros x Ew Hl Hup; [by exists x |].
  rewrite Ew in Ew'. injection Ew' as <-.
  pose proof (Hp w x p Ew Hpar) as Hlt.
  assert (Hy : is_Some (h !! p)).
  { apply lookup_lt_is_Some_2. apply lookup_lt_Some in Ew. lia. }
  destruct Hy as [y Ep].
  apply (IH y Ep).
  - apply (Hup w x p y); [constructor | done..].
  - intros b xb q yq Hb. apply Hup. by apply (ancestor_parent h w x p).
Qed.

Lemma ancestor_inv h w a :
  ancestor h w a →
  a = w ∨ ∃ x p, h !! w = Some x ∧ parent x = Some p ∧ ancestor h p a.
Proof. destruct 1; [by left | right; eauto]. Qed.

Lemma lock_loop_none fuel h : lock_loop fuel None h = (Ok tt, h).
Proof. by destruct fuel. Qed.

(** The loop of [World.lock]. *)
Lemma lock_loop_spec fuel : ∀ h w,
  parents_ok h → locked_above h w → (w < List.length h)%nat → (w < fuel)%nat →
  ∃ h', lock_loop fuel (Some w) h = (Ok tt, h') ∧ locked_more h h' ∧
        ∀ a, ancestor h w a → ∃ xa, h' !! a = Some xa ∧ locked xa = true.
Proof.
  induction fuel as [| fuel IH]; intros h w Hp Hup Hw Hf; [lia |].
  destruct (lookup_lt_is_Some_2 h w Hw) as [x Ew].
  cbn [lock_loop]. rewrite (eff_bind_ok _ _ _ _ _ (world_of_ok _ _ _ Ew)).
  destruct (locked x) eqn:Hl.
  - exists h. split; [done |]. split; [apply locked_more_refl |].
    intros a Ha. by apply (locked_above_all h w x).
  - destruct (update_world_ok h w x (with_locked true) Ew) as (h1 & Hu & Ew1 & Hlen1 & Hfr1).
    change (λ y, mkWorld (parent y) (models y) (children y) true (lookupCache y))
      with (with_locked true).
    rewrite (eff_bind_ok _ _ _ _ _ Hu).
    assert (Hmore1 : locked_more h h1).
    { split; [done |]. intros a xa Ea. destruct (decide (a = w)) as [-> | Hne].
      - rewrite Ew in Ea. injection Ea as <-. by exists true.
      - exists (locked xa). by rewrite with_locked_same, Hfr1. }
    destruct (parent x) as [p |] eqn:Hpar.
    2:{ exists h1. split; [apply lock_loop_none |]. split; [done |].
        intros a Ha. apply ancestor_inv in Ha as [-> | (x' & p' & Ew' & Hpar' & _)].
        - by eexists.
        - rewrite Ew in Ew'. injection Ew' as <-. congruence. }
    pose proof (Hp w x p Ew Hpar) as Hlt.
    assert (Hanc : ∀ a, ancestor h1 p a ↔ ancestor h p a).
    { intros a. split; apply ancestor_same_parents; intros b xb Eb.
      - destruct (decide (b = w)) as [-> | Hne].
        + exists x. rewrite Ew1 in Eb. by injection Eb as <-.
        + exists xb. by rewrite <- Hfr1.
      - destruct (proj2 Hmore1 b xb Eb) as (c & E1 & _). by eexists. }
    destruct (IH h1 p) as (h' & Hrun & Hmore & Hall); [ | | lia | lia |].
    { intros b xb q Eb Hq. destruct (decide (b = w)) as [-> | Hne].
      - rewrite Ew1 in Eb. injection Eb as <-. cbn in Hq. by apply (Hp w x).
      - rewrite Hfr1 in Eb by done. by apply (Hp b xb). }
    { intros a xa q yq Ha Ea Hla Hq Eq.
      apply Hanc in Ha. pose proof (ancestor_le h p a Hp Ha) as Hle.
      rewrite Hfr1 in Ea by lia.
      pose proof (Hp a xa q Ea Hq) as Hqa. rewrite Hfr1 in Eq by lia.
      apply (Hup a xa q yq); try done. by apply (ancestor_parent h w x p). }
    exists h'. split; [done |]. split; [by apply (locked_more_trans h h1) |].
    intros a Ha. apply ancestor_inv in Ha as [-> | (x' & p' & Ew' & Hpar' & Ha')].
    + destruct (proj2 Hmore w _ Ew1) as (b & E' & Hb). eexists. split; [done |].
      cbn. by apply Hb.
    + rewrite Ew in Ew'. injection Ew' as <-. rewrite Hpar in Hpar'. injection Hpar' as <-.
      apply Hall. by apply Hanc.
Qed.

End world_lock.
Section world_cache.
Import World.
Implicit Types (h : Heap) (x y : World) (m pm : Model) (v : value) (w p a : nat) (id : string).
Implicit Types (cache : LookupCache).

(** The models of every world are as the invariant has them. *)
Definition models_ok h : Prop :=
  ∀ w x id m, h !! w = Some x → map_get (models x) id = Some m → model_ok x m.

Lemma model_ok_same_models x x' m : models x' = models x → model_ok x m → model_ok x' m.
Proof.
  intros Hm [H1 H2 H3 H4]. split; [done | done | |];
    (eapply Forall_impl; [eassumption |]); intros v Hb Hr; rewrite Hm; by apply Hb.
Qed.

Lemma cache_path_ok fuel : ∀ h (world : option nat) path,
  parents_ok h → (∀ w, world = Some w → (w < List.length h)%nat ∧ (w < fuel)%nat) →
  Forall (λ a, (a < List.length h)%nat) path →
  ∃ path' top, cache_path fuel world path h = (Ok (path', top), h) ∧
    Forall (λ a, (a < List.length h)%nat) path' ∧
    ∀ t, top = Some t → (t < List.length h)%nat.
Proof.
  induction fuel as [| fuel IH]; intros h world path Hp Hw Hpath.
  - destruct world as [w |]; [destruct (Hw w eq_refl); lia |].
    exists path, None. by split_and!.
  - destruct world as [w |]; [| exists path, None; by split_and!].
    destruct (Hw w eq_refl) as [Hlt Hf].
    destruct (lookup_lt_is_Some_2 h w Hlt) as [x Ew].
    cbn [cache_path]. rewrite (eff_bind_ok _ _ _ _ _ (world_of_ok _ _ _ Ew)).
    destruct (lookupCache x).
    + exists path, (Some w). split_and!; try done. by intros t [= <-].
    + apply IH; [done | |].
      * intros p Hpar. pose proof (Hp w x p Ew Hpar). lia.
      * apply Forall_app. split; [done |]. by apply Forall_singleton.
Qed.

Lemma put_slots_ok h w x id m idxs : ∀ slots,
  h !! w = Some x → map_get (models x) id = Some m → model_ok x m →
  ∃ slots', put_slots w id slots idxs h = (Ok slots', h).
Proof.
  induction idxs as [| i idxs IH]; intros slots Ew Em Hm; [by eexists |].
  cbn [put_slots]. rewrite (eff_bind_ok _ _ _ _ _ (getOwnSlot_ok h w x id m _ Ew Em Hm)).
  by apply IH.
Qed.

Lemma put_ok h w x id m cache :
  h !! w = Some x → map_get (models x) id = Some m → model_ok x m →
  ∃ cache', put cache w id h = (Ok cache', h).
Proof.
  intros Ew Em Hm. unfold put.
  rewrite (eff_bind_ok _ _ _ _ _ (this_model_ok _ _ _ _ _ Ew Em)).
  destruct (map_get cache id) as [entry |]; [| by eexists].
  destruct (put_slots_ok h w x id m (seq 0 (List.length (reads m))) (entry_slots entry)
              Ew Em Hm) as (slots & Hs).
  rewrite (eff_bind_ok _ _ _ _ _ Hs). by eexists.
Qed.

Lemma put_models_ok h w x : models_ok h → h !! w = Some x →
  ∀ fuel k cache, (List.length (models x) - k < fuel)%nat →
  ∃ cache', put_models fuel cache w k h = (Ok cache', h).
Proof.
  intros Hok Ew. induction fuel as [| fuel IH]; intros k cache Hf; [lia |].
  cbn [put_models]. rewrite (eff_bind_ok _ _ _ _ _ (world_of_ok _ _ _ Ew)).
  destruct (models x !! k) as [[id m0] |] eqn:Ek; [| by eexists].
  assert (Hid : is_Some (map_get (models x) id)).
  { apply map_get_keys, list_elem_of_fmap. exists (id, m0).
    split; [done |]. by apply list_elem_of_lookup_2 in Ek. }
  destruct Hid as [m Em].
  destruct (put_ok h w x id m cache Ew Em (Hok _ _ _ _ Ew Em)) as (cache1 & Hput).
  rewrite (eff_bind_ok _ _ _ _ _ Hput). apply IH. apply lookup_lt_Some in Ek. lia.
Qed.

Lemma fill_cache_ok h popped : models_ok h →
  Forall (λ a, (a < List.length h)%nat) popped →
  ∀ cache, ∃ cache', fill_cache cache popped h = (Ok cache', h).
Proof.
  intros Hok. induction popped as [| w popped IH]; intros Hall cache; [by eexists |].
  apply Forall_cons in Hall as [Hw Hall].
  destruct (lookup_lt_is_Some_2 h w Hw) as [x Ew].
  cbn [fill_cache]. unfold get_heap. rewrite eff_bind_eq.
  destruct (put_models_ok h w x Hok Ew (models_fuel h) 0 cache) as (cache1 & Hput).
  { pose proof (models_fuel_bound h w x Ew). lia. }
  rewrite (eff_bind_ok _ _ _ _ _ Hput). by apply IH.
Qed.

Lemma caches_differ_refl h : caches_differ h h.
Proof.
  split; [done |]. intros a x E. exists (lookupCache x). by destruct x.
Qed.

Lemma set_cache_ok h w x c :
  h !! w = Some x →
  ∃ h', set_cache w c h = (Ok tt, h') ∧ caches_differ h h' ∧
        h' !! w = Some (with_cache c x).
Proof.
  intros Ew. destruct (update_world_ok h w x (with_cache c) Ew) as (h' & Hu & Ew' & Hlen & Hfr).
  exists h'. split; [done |]. split; [| done]. split; [done |].
  intros a xa Ea. destruct (decide (a = w)) as [-> | Hne].
  - rewrite Ew in Ea. injection Ea as <-. by exists c.
  - exists (lookupCache xa). rewrite Hfr by done. by destruct xa.
Qed.

Lemma caches_differ_trans h1 h2 h3 :
  caches_differ h1 h2 → caches_differ h2 h3 → caches_differ h1 h3.
Proof.
  intros [Hl1 H1] [Hl2 H2]. split; [lia |]. intros a x E.
  destruct (H1 a x E) as (c & E2). destruct (H2 a _ E2) as (c' & E3).
  exists c'. by rewrite E3.
Qed.

Lemma models_ok_caches h h' : caches_differ h h' → models_ok h → models_ok h'.
Proof.
  intros [Hlen Hd] Hok w x' id m Ew' Em.
  assert (Hw : is_Some (h !! w)).
  { apply lookup_lt_is_Some_2. apply lookup_lt_Some in Ew'. lia. }
  destruct Hw as [x Ew]. destruct (Hd w x Ew) as (c & Ew2).
  rewrite Ew' in Ew2. injection Ew2 as ->.
  apply (model_ok_same_models x); [done |]. by apply (Hok w x id).
Qed.

(** [_requestLookupCache] returns, and changes the caches only. *)
Lemma requestLookupCache_ok h w :
  parents_ok h → models_ok h → (w < List.length h)%nat →
  ∃ h', requestLookupCache w h = (Ok tt, h') ∧ caches_differ h h'.
Proof.
  intros Hp Hok Hw. destruct (lookup_lt_is_Some_2 h w Hw) as [x Ew].
  unfold requestLookupCache. rewrite (eff_bind_ok _ _ _ _ _ (world_of_ok _ _ _ Ew)).
  destruct (locked x); cbn [negb]; [| exists h; split; [done | apply caches_differ_refl]].
  unfold get_heap. rewrite eff_bind_eq.
  destruct (cache_path_ok (S (List.length h)) h (parent x) [] Hp)
    as (path & top & Hpath & Hall & Htop); [| done |].
  { intros p Hpar. pose proof (Hp w x p Ew Hpar). lia. }
  rewrite (eff_bind_ok _ _ _ _ _ Hpath).
  destruct (List.length path <? lookupCacheFactor)%nat;
    [exists h; split; [done | apply caches_differ_refl] |].
  destruct top as [t |].
  - destruct (lookup_lt_is_Some_2 h t (Htop t eq_refl)) as [y Et].
    rewrite eff_bind_eq, (eff_bind_ok _ _ _ _ _ (world_of_ok _ _ _ Et)).
    destruct (set_cache_ok h t y None Et) as (h1 & Hs1 & Hd1 & _).
    rewrite (eff_bind_ok _ _ _ _ _ Hs1). cbn [mret eff_ret].
    destruct (fill_cache_ok h1 (rev (path ++ [t])) (models_ok_caches _ _ Hd1 Hok))
      with (cache := default [] (lookupCache y)) as (cache' & Hfill).
    { apply Forall_rev, Forall_app. rewrite (proj1 Hd1). split; [done |].
      apply Forall_singleton. by apply Htop. }
    rewrite (eff_bind_ok _ _ _ _ _ Hfill).
    assert (Hw1 : is_Some (h1 !! w)).
    { apply lookup_lt_is_Some_2. rewrite (proj1 Hd1). done. }
    destruct Hw1 as [x1 Ew1].
    destruct (set_cache_ok h1 w x1 (Some cache') Ew1) as (h2 & Hs2 & Hd2 & _).
    exists h2. split; [done |]. by apply (caches_differ_trans h h1).
  - rewrite eff_bind_eq. cbn [mret eff_ret].
    destruct (fill_cache_ok h (rev path) Hok) with (cache := ([] : LookupCache))
      as (cache' & Hfill).
    { by apply Forall_rev. }
    rewrite (eff_bind_ok _ _ _ _ _ Hfill).
    destruct (set_cache_ok h w x (Some cache') Ew) as (h2 & Hs2 & Hd2 & _).
    by exists h2.
Qed.

(** A write to a slot of a model of a locked world throws, and changes
    nothing. *)
Lemma writeSlot_locked h a x id m (i : Z) v :
  h !! a = Some x → locked x = true → map_get (models x) id = Some m →
  i < Z.of_nat (List.length (reads m)) →
  writeSlot a id i v h = (Err LockedWrite, h).
Proof.
  intros Ea Hl Em Hi. unfold writeSlot.
  rewrite (eff_bind_ok _ _ _ _ _ (this_model_ok _ _ _ _ _ Ea Em)).
  destruct (Z.geb_spec i (Z.of_nat (List.length (reads m)))); [lia |].
  by rewrite (eff_bind_ok _ _ _ _ _ (world_of_ok _ _ _ Ea)), Hl.
Qed.

End world_cache.
Section world_lock_all.
Import World.
Implicit Types (h : Heap) (x y : World) (m pm : Model) (v : value) (w p a : nat) (id : string).

Lemma lock_spec h w :
  heap_ok h → locked_upward h → (w < List.length h)%nat →
  ∃ h', lock w h = (Ok tt, h') ∧
    (List.length h' = List.length h ∧
     ∀ a x, h !! a = Some x →
       ∃ x', h' !! a = Some x' ∧ models x' = models x ∧ parent x' = parent x ∧
             (locked x = true → locked x' = true)) ∧
    ∀ a, ancestor h' w a → ∃ xa, h' !! a = Some xa ∧ locked xa = true.
Proof.
  intros Hok Hup Hw.
  assert (Hp : parents_ok h) by (intros ? ? ?; apply (ok_parent h Hok)).
  destruct (lock_loop_spec (S (List.length h)) h w Hp) as (h1 & Hrun & Hmore & Hall);
    [| done | lia |].
  { intros a x p y _. apply Hup. }
  assert (Hp1 : parents_ok h1).
  { intros b xb q Eb Hq.
    assert (Hb : is_Some (h !! b)).
    { apply lookup_lt_is_Some_2. apply lookup_lt_Some in Eb. by rewrite <- (proj1 Hmore). }
    destruct Hb as [x0 Eb0]. destruct (proj2 Hmore b x0 Eb0) as (c & Eb1 & _).
    rewrite Eb in Eb1. injection Eb1 as ->. by apply (Hp b x0). }
  assert (Hm1 : models_ok h1).
  { intros b xb id m Eb Em.
    assert (Hb : is_Some (h !! b)).
    { apply lookup_lt_is_Some_2. apply lookup_lt_Some in Eb. by rewrite <- (proj1 Hmore). }
    destruct Hb as [x0 Eb0]. destruct (proj2 Hmore b x0 Eb0) as (c & Eb1 & _).
    rewrite Eb in Eb1. injection Eb1 as ->.
    apply (model_ok_same_models x0); [done |]. by apply (ok_models h Hok b x0 id). }
  destruct (requestLookupCache_ok h1 w Hp1 Hm1) as (h2 & Hreq & Hd); [by rewrite (proj1 Hmore) |].
  exists h2. split.
  { unfold lock, get_heap. by rewrite eff_bind_eq, (eff_bind_ok _ _ _ _ _ Hrun). }
  split.
  { split; [by rewrite (proj1 Hd), (proj1 Hmore) |]. intros a x Ea.
    destruct (proj2 Hmore a x Ea) as (c & Ea1 & Hc).
    destruct (proj2 Hd a _ Ea1) as (c' & Ea2). eexists. split; [done |]. by split_and!. }
  intros a Ha.
  assert (Ha0 : ancestor h w a).
  { revert Ha. apply ancestor_same_parents. intros b xb Eb.
    assert (Hb : is_Some (h !! b)).
    { apply lookup_lt_is_Some_2. apply lookup_lt_Some in Eb.
      by rewrite <- (proj1 Hmore), <- (proj1 Hd). }
    destruct Hb as [x0 Eb0]. exists x0. split; [done |].
    destruct (proj2 Hmore b x0 Eb0) as (c & Eb1 & _).
    destruct (proj2 Hd b _ Eb1) as (c' & Eb2). rewrite Eb in Eb2. by injection Eb2 as ->. }
  destruct (Hall a Ha0) as (xa & Ea1 & Hla).
  destruct (proj2 Hd a xa Ea1) as (c & Ea2). by eexists.
Qed.

End world_lock_all.


Lemma family_clean_unlocked : locked_upward Samples.family_clean.
Proof.
  intros w x p y Hw Hl. unfold Samples.family_clean in Hw.
  repeat (destruct w as [| w]; [by injection Hw as <- |]; cbn in Hw). done.
Qed.

(** ** The app: wave merge *)

Section app_heap.
Import World WaveApp.
Implicit Types (h : Heap) (x y : World) (w p a : nat).

Lemma heap_ok_models h h' :
  List.length h' = List.length h →
  (∀ a x', h' !! a = Some x' →
     ∃ x, h !! a = Some x ∧ models x' = models x ∧
          (parent x' = parent x ∨ parent x' = None)) →
  heap_ok h → heap_ok h'.
Proof.
  intros Hlen Hsame [H1 H2 H3 H4]. split.
  - intros w x' p Ew Hp. destruct (Hsame w x' Ew) as (x & E & _ & [Hpar | Hpar]);
      [| congruence]. apply (H1 w x p E). congruence.
  - intros w x' id m Ew Em. destruct (Hsame w x' Ew) as (x & E & Hm & _).
    apply (model_ok_same_models x); [done |]. apply (H2 w x id m E). by rewrite <- Hm.
  - intros w x' Ew. destruct (Hsame w x' Ew) as (x & E & Hm & _). rewrite Hm. by apply (H3 w).
  - intros w w' x1 x2 id m m' E1 E2 Em Em'.
    destruct (Hsame w x1 E1) as (y1 & F1 & Hm1 & _).
    destruct (Hsame w' x2 E2) as (y2 & F2 & Hm2 & _).
    rewrite Hm1 in Em. rewrite Hm2 in Em'. by apply (H4 w w' y1 y2 id).
Qed.

Lemma detached_more_refl h : detached_more h h.
Proof. split; [done |]. intros a x E. exists x. by split_and!; [| | | left]. Qed.

Lemma detached_more_trans h1 h2 h3 :
  detached_more h1 h2 → detached_more h2 h3 → detached_more h1 h3.
Proof.
  intros [Hl1 H1] [Hl2 H2]. split; [lia |]. intros a x E.
  destruct (H1 a x E) as (x2 & E2 & Hm2 & Hk2 & Hp2).
  destruct (H2 a x2 E2) as (x3 & E3 & Hm3 & Hk3 & Hp3).
  exists x3. split_and!; [done | congruence | congruence |].
  destruct Hp3 as [Hp3 | Hp3]; [| by right]. destruct Hp2 as [Hp2 | Hp2]; [left | right]; congruence.
Qed.

Lemma detached_more_back h h' a x' :
  detached_more h h' → h' !! a = Some x' →
  ∃ x, h !! a = Some x ∧ models x' = models x ∧ locked x' = locked x ∧
       (parent x' = parent x ∨ parent x' = None).
Proof.
  intros [Hlen Hd] E'.
  assert (Ha : is_Some (h !! a)).
  { apply lookup_lt_is_Some_2. apply lookup_lt_Some in E'. lia. }
  destruct Ha as [x E]. destruct (Hd a x E) as (x2 & E2 & Hr). rewrite E' in E2.
  injection E2 as <-. by exists x.
Qed.

Lemma detached_heap_ok h h' : detached_more h h' → heap_ok h → heap_ok h'.
Proof.
  intros Hd. apply heap_ok_models; [apply Hd |]. intros a x' E'.
  destruct (detached_more_back h h' a x' Hd E') as (x & E & Hm & _ & Hp). by exists x.
Qed.

Lemma detached_locked_upward h h' : detached_more h h' → locked_upward h → locked_upward h'.
Proof.
  intros Hd Hup w x' p y' Ew Hl Hp Ep.
  destruct (detached_more_back h h' w x' Hd Ew) as (x & E & _ & Hk & [Hpar | Hpar]);
    [| congruence].
  destruct (detached_more_back h h' p y' Hd Ep) as (y & F & _ & Hky & _).
  rewrite Hky. apply (Hup w x p y); congruence.
Qed.

Lemma detach_ok h w :
  heap_ok h → (w < List.length h)%nat →
  ∃ h', detach w h = (Ok tt, h') ∧ detached_more h h'.
Proof.
  intros Hok Hw. destruct (lookup_lt_is_Some_2 h w Hw) as [x Ew].
  unfold detach. rewrite (eff_bind_ok _ _ _ _ _ (world_of_ok _ _ _ Ew)).
  destruct (parent x) as [p |] eqn:Hpar; [| exists h; split; [done | apply detached_more_refl]].
  pose proof (ok_parent h Hok w x p Ew Hpar) as Hlt.
  destruct (lookup_lt_is_Some_2 h p ltac:(lia)) as [y Ep].
  match goal with |- context [update_world p ?f] =>
    destruct (update_world_ok h p y f Ep) as (h1 & Hu1 & Ep1 & Hlen1 & Hfr1) end.
  rewrite (eff_bind_ok _ _ _ _ _ Hu1).
  assert (Ew1 : h1 !! w = Some x) by (rewrite Hfr1; [done | lia]).
  match goal with |- context [update_world w ?f] =>
    destruct (update_world_ok h1 w x f Ew1) as (h2 & Hu2 & Ew2 & Hlen2 & Hfr2) end.
  exists h2. split; [done |]. split; [lia |].
  intros a xa Ea. destruct (decide (a = w)) as [-> | Hne].
  - rewrite Ew in Ea. injection Ea as <-. eexists. split; [done |]. by split_and!; [| | right].
  - rewrite Hfr2 by done. destruct (decide (a = p)) as [-> | Hnp].
    + rewrite Ep in Ea. injection Ea as <-. eexists. split; [done |]. by split_and!; [| | left].
    + rewrite Hfr1 by done. exists xa. by split_and!; [| | | left].
Qed.

Lemma detach_all_ok ws : ∀ h,
  heap_ok h → Forall (λ w, (w < List.length h)%nat) ws →
  ∃ h', detach_all ws h = (Ok tt, h') ∧ detached_more h h'.
Proof.
  induction ws as [| w ws IH]; intros h Hok Hall.
  - exists h. split; [done | apply detached_more_refl].
  - apply Forall_cons in Hall as [Hw Hall].
    destruct (detach_ok h w Hok Hw) as (h1 & Hd & Hm1).
    cbn [detach_all]. rewrite (eff_bind_ok _ _ _ _ _ Hd).
    destruct (IH h1 (detached_heap_ok _ _ Hm1 Hok)) as (h2 & Hd2 & Hm2).
    { by rewrite (proj1 Hm1). }
    exists h2. split; [done |]. by apply (detached_more_trans h h1).
Qed.

Lemma new_world_ok h p :
  (p < List.length h)%nat →
  ∃ h', new_world (Some p) h = (Ok (List.length h), h') ∧
        List.length h' = S (List.length h).
Proof.
  intros Hp. unfold new_world, get_heap, modify. rewrite eff_bind_eq. cbn [fst snd].
  rewrite eff_bind_eq.
  assert (Ep : is_Some ((h ++ [mkWorld (Some p) [] [] false None]) !! p)).
  { apply lookup_lt_is_Some_2. rewrite length_app. lia. }
  destruct Ep as [y Ep].
  match goal with |- context [update_world p ?f] =>
    destruct (update_world_ok _ p y f Ep) as (h1 & Hu1 & _ & Hlen1 & _) end.
  rewrite (eff_bind_ok _ _ _ _ _ Hu1). exists h1. split; [done |].
  rewrite Hlen1, length_app. cbn. lia.
Qed.

End app_heap.
Section wave_merge.
Import World WaveApp.
Implicit Types (h : Heap) (app : WaveApp) (st : WaveMergeState) (t : list string).
Implicit Types (r : option Z) (id tg : string).

Lemma tags_match_iff t (stored : list string) :
  forallb (λ ts : string * string,
             negb (negb (String.eqb ts.1 "*") && negb (String.eqb ts.1 ts.2)))
          (zip t stored) = true
  ↔ ∀ (i : nat) ti si, t !! i = Some ti → stored !! i = Some si → ti = "*" ∨ ti = si.
Proof.
  revert stored. induction t as [| a t IH]; intros [| b stored]; cbn [zip zip_with forallb].
  - split; [by intros _ i ? ? ? | done].
  - split; [by intros _ i ? ? ? | done].
  - split; [by intros _ i ? ? _ ? | done].
  - rewrite andb_true_iff, IH. cbn [fst snd]. split.
    + intros [Hab Hrest] [| i] ti si; cbn.
      * intros [= <-] [= <-].
        destruct (String.eqb_spec a "*"); [by left |].
        destruct (String.eqb_spec a b); [by right | done].
      * apply Hrest.
    + intros Hall. split.
      * destruct (Hall O a b eq_refl eq_refl) as [-> | ->]; [done |].
        rewrite String.eqb_refl. by destruct (String.eqb b "*").
      * intros i. apply (Hall (S i)).
Qed.

(** When [_canMerge] holds. *)
Lemma canMerge_iff st t r :
  canMerge st t r = true ↔
  (r = None ∨ ∃ n, r = Some n ∧ rate st < n) ∧
  List.length t = List.length (tag st) ∧
  ∀ (i : nat) ti si, t !! i = Some ti → tag st !! i = Some si → ti = "*" ∨ ti = si.
Proof.
  unfold canMerge. destruct r as [n |].
  - destruct (Z.leb_spec n (rate st)) as [Hle | Hlt].
    + split; [done |]. intros [[? | (n' & [= <-] & Hn)] _]; [done | lia].
    + destruct (Nat.eqb_spec (List.length t) (List.length (tag st))) as [Hlen | Hlen];
        cbn [negb].
      * rewrite tags_match_iff. split; [| tauto]. intros Hm. split_and!; try done.
        right. by exists n.
      * split; [done | tauto].
  - destruct (Nat.eqb_spec (List.length t) (List.length (tag st))) as [Hlen | Hlen];
      cbn [negb].
    + rewrite tags_match_iff. split; [| tauto]. intros Hm. split_and!; try done. by left.
    + split; [done | tauto].
Qed.

Lemma cleanRedoBuffer_ok h app :
  heap_ok h → Forall (λ w, (w < List.length h)%nat) (redo app) →
  ∃ h', cleanRedoBuffer app h
        = (Ok (mkApp (worlds app) [] (mutations app) (waveMergeState app)), h') ∧
        detached_more h h'.
Proof.
  intros Hok Hall. destruct (detach_all_ok (redo app) h Hok Hall) as (h' & Hd & Hm).
  exists h'. split; [| done]. unfold cleanRedoBuffer. by rewrite (eff_bind_ok _ _ _ _ _ Hd).
Qed.

Lemma advance_ok h app :
  app_ok h app →
  ∃ h', advance app h
        = (Ok (mkApp (worlds app ++ [List.length h]) [] (mutations app)
                 (waveMergeState app)), h').
Proof.
  intros [Hok Hup (w & Hlast & Hw) Hredo].
  destruct (cleanRedoBuffer_ok h app Hok Hredo) as (h1 & Hc & Hm1).
  unfold advance. rewrite (eff_bind_ok _ _ _ _ _ Hc).
  unfold top. cbn [worlds]. rewrite Hlast, eff_bind_eq. cbn [mret eff_ret].
  destruct (lock_spec h1 w (detached_heap_ok _ _ Hm1 Hok) (detached_locked_upward _ _ Hm1 Hup))
    as (h2 & Hlock & (Hlen2 & _) & _); [by rewrite (proj1 Hm1) |].
  rewrite (eff_bind_ok _ _ _ _ _ Hlock).
  destruct (new_world_ok h2 w) as (h3 & Hnew & _); [rewrite Hlen2, (proj1 Hm1); done |].
  rewrite (eff_bind_ok _ _ _ _ _ Hnew). exists h3. cbn. by rewrite Hlen2, (proj1 Hm1).
Qed.

(** [_advanceWaveMerge]: no world is pushed when the call can merge, and
    one is pushed when not. *)
Lemma advanceWaveMerge_spec h app id tg r :
  app_ok h app →
  let st := waveMergeState app in
  let t := parseTag id tg r in
  ∃ app' h',
    advanceWaveMerge app id tg r h = (Ok app', h') ∧
    worlds app' = (if canMerge st t r then worlds app else worlds app ++ [List.length h]) ∧
    waveMergeState app' = mkState t (if canMerge st t r then rate st + 1 else 1).
Proof.
  intros Happ st t. unfold advanceWaveMerge, merge. fold st t.
  destruct (canMerge st t r); cbn [negb].
  - destruct (cleanRedoBuffer_ok h (mkApp (worlds app) (redo app) (mutations app)
                (mkState t (rate st + 1))) (ao_heap _ _ Happ) (ao_redo _ _ Happ))
      as (h' & Hc & _).
    by eexists _, h'.
  - destruct (advance_ok h (mkApp (worlds app) (redo app) (mutations app) (mkState t 1)))
      as (h' & Ha).
    { destruct Happ as [H1 H2 H3 H4]. by split. }
    by eexists _, h'.
Qed.

Lemma tags_match_self t :
  forallb (λ ts : string * string,
             negb (negb (String.eqb ts.1 "*") && negb (String.eqb ts.1 ts.2)))
          (zip t t) = true.
Proof.
  apply tags_match_iff. intros i ti si H1 H2. right. congruence.
Qed.

(** Calls with the tag of the state merge while the count is below the
    rate, and always without a rate. *)
Lemma merges_same (k : nat) : ∀ st id tg r,
  tag st = parseTag id tg r →
  match r with Some n => rate st + Z.of_nat k ≤ n | None => True end →
  merges k st id tg r = (mkState (tag st) (rate st + Z.of_nat k), replicate k true).
Proof.
  induction k as [| k IH]; intros st id tg r Ht Hr.
  - cbn. rewrite Z.add_0_r. by destruct st.
  - cbn [merges]. unfold merge. rewrite <- Ht.
    assert (Hcan : canMerge st (tag st) r = true).
    { unfold canMerge. rewrite Nat.eqb_refl. cbn [negb]. rewrite tags_match_self.
      destruct r as [n |]; [| done]. destruct (Z.leb_spec n (rate st)); [lia | done]. }
    rewrite Hcan. cbn [negb].
    rewrite (IH (mkState (tag st) (rate st + 1)) id tg r); cbn [tag rate]; [| done |].
    + cbn [replicate]. do 2 f_equal. lia.
    + destruct r; [lia | done].
Qed.

End wave_merge.
Section app_samples.
Import World WaveApp Samples.

Lemma lone_ok : heap_ok lone.
Proof.
  split.
  - intros w x p Hw Hp. destruct w as [| w]; [| done]. injection Hw as <-. done.
  - intros w x id m Hw Hm. destruct w as [| w]; [| done]. injection Hw as <-. done.
  - intros w x Hw. destruct w as [| w]; [| done]. injection Hw as <-. constructor.
  - intros w w' x x' id m m' Hw Hw' Hm. destruct w as [| w]; [| done].
    injection Hw as <-. done.
Qed.

Lemma lone_app_ok : app_ok lone lone_app.
Proof.
  split.
  - apply lone_ok.
  - intros w x p y Hw Hl. destruct w as [| w]; [| done]. injection Hw as <-. done.
  - exists O. split; [done |]. cbn. lia.
  - constructor.
Qed.

End app_samples.

(** C3 (as the code has it).  A call coalesces into the live top world
    (no world is pushed) if and only if its parsed tag has the length of
    the stored tag and each of its components is [*] or the stored
    component, and its rate is [undefined] or greater than the stored
    count; otherwise it pushes one world.  The stored count is 1 after a
    call that pushes and one more after a call that merges.  So calls with
    the stored tag and one rate merge while the count stays below the
    rate, and calls without a rate always merge. *)
Theorem wave_merge_decision (app : WaveApp.WaveApp) (h : World.Heap)
    (id tg : string) (r : option Z) :
  app_ok h app →
  (WaveApp.canMerge (WaveApp.waveMergeState app) (WaveApp.parseTag id tg r) r = true ↔
     (r = None ∨ ∃ n, r = Some n ∧ WaveApp.rate (WaveApp.waveMergeState app) < n) ∧
     List.length (WaveApp.parseTag id tg r)
       = List.length (WaveApp.tag (WaveApp.waveMergeState app)) ∧
     ∀ (i : nat) ti si,
       WaveApp.parseTag id tg r !! i = Some ti →
       WaveApp.tag (WaveApp.waveMergeState app) !! i = Some si → ti = "*" ∨ ti = si) ∧
  (∃ app' h',
     WaveApp.advanceWaveMerge app id tg r h = (Ok app', h') ∧
     WaveApp.worlds app'
       = (if WaveApp.canMerge (WaveApp.waveMergeState app) (WaveApp.parseTag id tg r) r
          then WaveApp.worlds app else WaveApp.worlds app ++ [List.length h]) ∧
     WaveApp.waveMergeState app'
       = WaveApp.mkState (WaveApp.parseTag id tg r)
           (if WaveApp.canMerge (WaveApp.waveMergeState app) (WaveApp.parseTag id tg r) r
            then WaveApp.rate (WaveApp.waveMergeState app) + 1 else 1)) ∧
  (∀ k : nat,
     WaveApp.tag (WaveApp.waveMergeState app) = WaveApp.parseTag id tg r →
     match r with
     | Some n => WaveApp.rate (WaveApp.waveMergeState app) + Z.of_nat k ≤ n
     | None => True
     end →
     merges k (WaveApp.waveMergeState app) id tg r
     = (WaveApp.mkState (WaveApp.parseTag id tg r)
          (WaveApp.rate (WaveApp.waveMergeState app) + Z.of_nat k),
        replicate k true)).
Proof.
  intros Happ. split; [apply canMerge_iff |]. split; [by apply advanceWaveMerge_spec |].
  intros k Ht Hr. rewrite <- Ht. by apply merges_same.
Qed.

Lemma wave_merge_decision_witness :
  ∃ app' h',
    WaveApp.advanceWaveMerge Samples.lone_app "@1" "typing" (Some 8) Samples.lone
      = (Ok app', h') ∧
    WaveApp.worlds app' = [0; 1]%nat ∧
    WaveApp.waveMergeState app' = WaveApp.mkState ["typing"] 1.
Proof.
  exact (proj1 (proj2 (wave_merge_decision Samples.lone_app Samples.lone "@1" "typing"
                         (Some 8) lone_app_ok))).
Defined.

(** C3, the rates: after a call with rate 8, a call with the same tag
    and the lower rate 5 pushes no world; and after a call with rate 0, a
    call with the same tag and the greater rate 1 pushes a world; and a
    call without a rate merges, although its rate is not greater than the
    stored one. *)
Lemma wave_merge_rate_is_count :
  (∃ app1 h1 app2 h2,
     WaveApp.advanceWaveMerge Samples.lone_app "@1" "typing" (Some 8) Samples.lone
       = (Ok app1, h1) ∧
     WaveApp.advanceWaveMerge app1 "@1" "typing" (Some 5) h1 = (Ok app2, h2) ∧
     WaveApp.worlds app2 = WaveApp.worlds app1) ∧
  (∃ app1 h1 app2 h2,
     WaveApp.advanceWaveMerge Samples.lone_app "@1" "typing" (Some 0) Samples.lone
       = (Ok app1, h1) ∧
     WaveApp.advanceWaveMerge app1 "@1" "typing" (Some 1) h1 = (Ok app2, h2) ∧
     WaveApp.worlds app2 = WaveApp.worlds app1 ++ [2%nat]) ∧
  (∃ app1 h1 app2 h2,
     WaveApp.advanceWaveMerge Samples.lone_app "@1" "this:move" None Samples.lone
       = (Ok app1, h1) ∧
     WaveApp.advanceWaveMerge app1 "@1" "this:move" None h1 = (Ok app2, h2) ∧
     WaveApp.worlds app2 = WaveApp.worlds app1).
Proof.
  split; [| split];
    match goal with
    | |- ∃ app1 h1 app2 h2, ?first = _ ∧ _ =>
        lazymatch eval vm_compute in first with
        | (Ok ?a1, ?g1) =>
            exists a1, g1;
            match goal with
            | |- ∃ app2 h2, _ ∧ ?second = _ ∧ _ =>
                lazymatch eval vm_compute in second with
                | (Ok ?a2, ?g2) => exists a2, g2
                end
            end
        end
    end; by vm_compute.
Qed.
(** ** The stream of mutations *)

Section stream_facts.
Context {F T : Type}.
Import Stream.
Implicit Types (s : Stream F T) (nexts : list (option T)).

Lemma push_all_app s nexts1 nexts2 :
  push_all s (nexts1 ++ nexts2) = push_all (push_all s nexts1) nexts2.
Proof. apply foldl_app. Qed.

Lemma push_all_subscribers s nexts : subscribers (push_all s nexts) = subscribers s.
Proof.
  unfold push_all. revert s. induction nexts as [| next nexts IH]; intros s; [done |].
  cbn [foldl]. by rewrite IH.
Qed.

Lemma push_all_current s nexts next :
  current (push_all s (nexts ++ [next])) = next.
Proof. by rewrite push_all_app. Qed.

End stream_facts.

(** C10. [Stream.subscribe] calls the new subscriber at once with the
    value that was pushed last, when values have been pushed and the last
    one is not [undefined]; so the function of [WaveApp.watch] is called
    when it subscribes, if the world pushed last has the model modified. *)
Theorem subscribe_replays_last {F T} (s : Stream.Stream F T)
    (nexts : list (option T)) (v : T) (fn : F) :
  Stream.subscribe (Stream.push_all s (nexts ++ [Some v])) fn
    = (Stream.mkStream (Stream.subscribers s ++ [fn]) (Some v), [(fn, Some v)]) ∧
  ∀ (app : WaveApp.WaveApp) (h : World.Heap) (ref : string) (f : nat) (w : nat) x m,
    Stream.current (WaveApp.mutations app) = Some w →
    h !! w = Some x → World.map_get (World.models x) ref = Some m →
    WaveApp.isModified m = true →
    WaveApp.watch app ref f h
    = (Ok (WaveApp.mkApp (WaveApp.worlds app) (WaveApp.redo app)
             (Stream.mkStream
                (Stream.subscribers (WaveApp.mutations app) ++ [WaveApp.Watcher ref f])
                (Some w))
             (WaveApp.waveMergeState app), [f]), h).
Proof.
  split.
  - unfold Stream.subscribe. by rewrite push_all_current, push_all_subscribers.
  - intros app h ref f w x m Hcur Ew Em Hmod. unfold WaveApp.watch, Stream.subscribe.
    rewrite Hcur. unfold WaveApp.filter_calls.
    rewrite eff_bind_eq, (eff_bind_ok _ _ _ _ _ (findOwn_ok _ _ _ ref Ew)), Em, Hmod.
    done.
Qed.

Lemma subscribe_replays_last_witness :
  let app := WaveApp.mkApp [0; 1]%nat []
               (Stream.push_all Stream.empty [Some 0%nat; Some 1%nat])
               (WaveApp.mkState ["*"] 0) in
  ∃ app', WaveApp.watch app "m" 7 Samples.family_clean = (Ok (app', [7%nat]), Samples.family_clean).
Proof.
  intros app. eexists.
  refine (proj2 (subscribe_replays_last Stream.empty [] 0%nat 0%nat) app
            Samples.family_clean "m" 7%nat 1%nat _ _ eq_refl eq_refl eq_refl eq_refl).
Defined.
(** ** The claims at sample values *)

Lemma vector_set_get_witness :
  ∃ v', Vector.set Samples.vector40 35 (Some 7) = Ok v' ∧
        Vector.get v' 35 = Ok (Some 7) ∧
        Vector.length v' = Vector.length Samples.vector40.
Proof.
  apply (vector_set_get Samples.vector40 35 (Some 7)).
  - exists 1%nat. split; [reflexivity |]. cbn. repeat constructor.
  - cbn. lia.
Defined.



Lemma chron_delete_live_witness :
  ∃ c' before after,
    Chron.delete Samples.chron2 Samples.entry_x = Ok c' ∧ chron_ok c' ∧
    Chron.iterate Samples.chron2 = Ok (before ++ Samples.entry_x :: after) ∧
    Chron.data Samples.chron2 None
      = Ok (Chron.live_atoms before ++ 10 :: Chron.live_atoms after) ∧
    Chron.data c' None = Ok (Chron.live_atoms before ++ Chron.live_atoms after) ∧
    Chron.delete c' Samples.entry_x = Ok c'.
Proof.
  apply (chron_delete_live Samples.chron2 1 Samples.entry_x 10).
  - apply chron2_ok.
  - reflexivity.
  - reflexivity.
Defined.

(** ** The serializer: numbers and strings in bytes *)

Section serializer_bytes.
Import Binarizer.

Lemma below_all (P : Z → bool) (n : nat) :
  forallb P (seqZ 0 (Z.of_nat n)) = true → ∀ y, 0 ≤ y < Z.of_nat n → P y = true.
Proof.
  intros H y Hy. rewrite forallb_forall in H. apply H.
  apply list_elem_of_In, elem_of_seqZ. lia.
Qed.

Lemma int32_mod z k : (0 ≤ k ≤ 32)%Z → int32 z `mod` 2 ^ k = z `mod` 2 ^ k.
Proof.
  intros Hk. unfold int32.
  assert (H32 : 2 ^ 32 = 2 ^ k * 2 ^ (32 - k)).
  { rewrite <- Z.pow_add_r by lia. f_equal. lia. }
  assert (H31 : 2 ^ 31 `mod` 2 ^ k = if k =? 32 then 2 ^ 31 else 0).
  { destruct (k =? 32) eqn:E.
    - apply Z.eqb_eq in E. subst. reflexivity.
    - apply Z.eqb_neq in E.
      replace 31 with (k + (31 - k)) by lia. rewrite Z.pow_add_r by lia.
      rewrite Z.mul_comm. apply Z_mod_mult. }
  destruct (k =? 32) eqn:E.
  - apply Z.eqb_eq in E. subst k.
    rewrite Zminus_mod, Zmod_mod, <- Zminus_mod.
    replace (z + 2 ^ 31 - 2 ^ 31) with z by lia. reflexivity.
  - rewrite Zminus_mod, H31, Z.sub_0_r, Zmod_mod.
    rewrite H32 at 1.
    rewrite Z.rem_mul_r by lia.
    rewrite Z.mul_comm, Z_mod_plus_full, Zmod_mod.
    rewrite Zplus_mod, H31, Z.add_0_r, Zmod_mod. reflexivity.
Qed.

Lemma js_and_255 z : js_and z 255 = z `mod` 256.
Proof.
  unfold js_and. change (int32 255) with (Z.ones 8).
  rewrite Z.land_ones by lia. apply (int32_mod z 8). lia.
Qed.

Lemma js_and_127 z : js_and z 127 = z `mod` 128.
Proof.
  unfold js_and. change (int32 127) with (Z.ones 7).
  rewrite Z.land_ones by lia. apply (int32_mod z 7). lia.
Qed.

Lemma js_and_63 z : js_and z 63 = z `mod` 64.
Proof.
  unfold js_and. change (int32 63) with (Z.ones 6).
  rewrite Z.land_ones by lia. apply (int32_mod z 6). lia.
Qed.

Lemma js_or_128 y : 0 ≤ y < 256 → js_or y 128 = y `mod` 128 + 128.
Proof.
  intros Hy.
  apply Z.eqb_eq.
  apply (below_all (λ y, js_or y 128 =? y `mod` 128 + 128) 256); [| lia].
  vm_compute. reflexivity.
Qed.

(** The byte that both loops of [pushVarint] write. *)
Lemma varint_byte x : js_or (js_and x 255) 128 `mod` 256 = x `mod` 128 + 128.
Proof.
  rewrite js_and_255.
  assert (H : 0 ≤ x `mod` 256 < 256) by (apply Z.mod_pos_bound; lia).
  rewrite js_or_128 by done.
  rewrite Z.mod_mod_divide by (exists 2; lia).
  apply Z.mod_small.
  assert (0 ≤ x `mod` 128 < 128) by (apply Z.mod_pos_bound; lia). lia.
Qed.

Lemma int32_range z : - 2 ^ 31 ≤ int32 z < 2 ^ 31.
Proof.
  unfold int32.
  assert (0 ≤ (z + 2 ^ 31) `mod` 2 ^ 32 < 2 ^ 32) by (apply Z.mod_pos_bound; lia). lia.
Qed.

Lemma land_high a : Z.land a (-128) = a `div` 128 * 128.
Proof.
  change (-128) with (Z.lnot (Z.ones 7)).
  rewrite <- Z.ldiff_land, Z.ldiff_ones_r by lia.
  rewrite Z.shiftr_div_pow2, Z.shiftl_mul_pow2 by lia. reflexivity.
Qed.

(** The test of the second loop. *)
Lemma js_and_high x :
  0 ≤ x < 2 ^ 32 → (js_and x (-128) =? 0) = (x <? 128).
Proof.
  intros Hx. unfold js_and. change (int32 (-128)) with (-128).
  rewrite land_high.
  destruct (x <? 128) eqn:E.
  - apply Z.ltb_lt in E. rewrite int32_small by lia.
    rewrite Z.div_small by lia. reflexivity.
  - apply Z.ltb_ge in E. apply Z.eqb_neq. intros H.
    apply Z.mul_eq_0_l in H; [| lia].
    pose proof (int32_range x) as Hr.
    destruct (decide (x < 2 ^ 31)).
    + rewrite int32_small in H by lia.
      apply Z.div_small_iff in H; lia.
    + apply Z.div_small_iff in H; [| lia].
      assert (int32 x = x - 2 ^ 32).
      { unfold int32. replace (x + 2 ^ 31) with (x - 2 ^ 31 + 1 * 2 ^ 32) by lia.
        rewrite Z_mod_plus_full, Z.mod_small by lia. lia. }
      lia.
Qed.

Lemma js_ushr_7 x : 0 ≤ x < 2 ^ 32 → js_ushr x 7 = x `div` 128.
Proof.
  intros Hx. unfold js_ushr, uint32. rewrite Z.mod_small by lia.
  change (7 `mod` 32) with 7. rewrite Z.shiftr_div_pow2 by lia. reflexivity.
Qed.

Lemma js_or_0 x : 0 ≤ x < 128 → js_or x 0 `mod` 256 = x.
Proof.
  intros Hx. unfold js_or. rewrite int32_small by lia.
  change (int32 0) with 0. rewrite Z.lor_0_r. apply Z.mod_small. lia.
Qed.

Lemma digits_small k n : n < 128 → digits k n = [n].
Proof. intros H. destruct k; [done |]. cbn. rewrite (proj2 (Z.ltb_lt _ _)) by lia. done. Qed.

Lemma digits_large k n :
  128 ≤ n → digits (S k) n = (n `mod` 128 + 128) :: digits k (n `div` 128).
Proof. intros H. cbn. rewrite (proj2 (Z.ltb_ge _ _)) by lia. done. Qed.

Lemma pushVarint_low_spec fuel k x w :
  0 ≤ x < 2 ^ 32 → x < 128 ^ Z.of_nat k → x < 128 ^ Z.of_nat (S fuel) →
  pushVarint_low fuel x w = Ok (w ++ digits k x).
Proof.
  revert k x w. induction fuel as [| fuel IH]; intros k x w Hx Hk Hf.
  - change (128 ^ Z.of_nat 1) with 128 in Hf.
    cbn. rewrite js_and_high by done. rewrite (proj2 (Z.ltb_lt _ _)) by lia. cbn.
    unfold pushUint8. rewrite js_or_0 by lia. rewrite digits_small by lia. done.
  - cbn [pushVarint_low]. rewrite js_and_high by done.
    destruct (x <? 128) eqn:E.
    + apply Z.ltb_lt in E. unfold pushUint8. rewrite js_or_0 by lia.
      rewrite digits_small by lia. done.
    + apply Z.ltb_ge in E.
      destruct k as [| k]; [change (128 ^ Z.of_nat 0) with 1 in Hk; lia |].
      rewrite digits_large by done.
      unfold pushUint8 at 1. rewrite varint_byte, js_ushr_7 by done.
      assert (Hd : 0 ≤ x `div` 128 < 2 ^ 32).
      { split; [apply Z.div_pos; lia |]. apply Z.div_lt_upper_bound; lia. }
      rewrite (IH k); [by rewrite <- app_assoc | done | |].
      * apply Z.div_lt_upper_bound; [lia |].
        rewrite Nat2Z.inj_succ, Z.pow_succ_r in Hk by lia. lia.
      * apply Z.div_lt_upper_bound; [lia |].
        rewrite (Nat2Z.inj_succ (S fuel)), Z.pow_succ_r in Hf by lia. lia.
Qed.

Lemma pushVarint_high_spec fuel k n d w :
  0 < d → 0 ≤ n → n `div` d < 128 ^ Z.of_nat k →
  n `div` d < 2 ^ 31 * 128 ^ Z.of_nat fuel →
  (pushVarint_high fuel n d w ≫= λ '(x, w'), pushVarint_low 8 x w')
  = Ok (w ++ digits k (n `div` d)).
Proof.
  revert k d w. induction fuel as [| fuel IH]; intros k d w Hd Hn Hk Hf.
  - change (128 ^ Z.of_nat 0) with 1 in Hf.
    assert (Hlt : n < 2 ^ 31 * d).
    { pose proof (Z.div_mod n d ltac:(lia)) as Hdm.
      pose proof (Z.mod_pos_bound n d ltac:(lia)) as Hmd. nia. }
    cbn [pushVarint_high]. rewrite (proj2 (Z.ltb_ge _ _)) by lia.
    change (pushVarint_low 8 (n `div` d) w = Ok (w ++ digits k (n `div` d))).
    apply pushVarint_low_spec; [| done |].
    + split; [apply Z.div_pos; lia | lia].
    + change (128 ^ Z.of_nat 9) with (2 ^ 63). lia.
  - cbn [pushVarint_high].
    destruct (2147483648 * d <? n) eqn:E.
    + apply Z.ltb_lt in E.
      assert (Hx : 2 ^ 31 ≤ n `div` d).
      { apply Z.div_le_lower_bound; lia. }
      destruct k as [| k]; [change (128 ^ Z.of_nat 0) with 1 in Hk; lia |].
      rewrite digits_large by lia.
      assert (Hdd : n `div` (d * 128) = (n `div` d) `div` 128).
      { rewrite Z.div_div; lia. }
      unfold pushUint8 at 1. rewrite varint_byte.
      rewrite (IH k); [by rewrite <- app_assoc, Hdd | lia | done | |].
      * rewrite Hdd. apply Z.div_lt_upper_bound; [lia |].
        rewrite Nat2Z.inj_succ, Z.pow_succ_r in Hk by lia. lia.
      * rewrite Hdd. apply Z.div_lt_upper_bound; [lia |].
        rewrite Nat2Z.inj_succ, Z.pow_succ_r in Hf by lia. lia.
    + apply Z.ltb_ge in E.
      change (pushVarint_low 8 (n `div` d) w = Ok (w ++ digits k (n `div` d))).
      assert (Hx : n `div` d ≤ 2 ^ 31).
      { apply Z.div_le_upper_bound; lia. }
      apply pushVarint_low_spec; [| done |].
      * split; [apply Z.div_pos; lia | lia].
      * change (128 ^ Z.of_nat 9) with (2 ^ 63). lia.
Qed.

(** [pushVarint] writes the digits of a number that is not negative and
    no more than the largest safe integer. *)
Lemma pushVarint_spec w n :
  0 ≤ n ≤ MAX_SAFE_INTEGER → pushVarint w n = Ok (w ++ varint n).
Proof.
  intros Hn. unfold pushVarint, MAX_SAFE_INTEGER in *.
  rewrite (proj2 (Z.ltb_ge _ _)) by lia.
  pose proof (pushVarint_high_spec 8 8 n 1 w) as H.
  rewrite Z.div_1_r in H. apply H; lia.
Qed.

Lemma digits_length k n : (length (digits k n) ≤ S k)%nat.
Proof.
  revert n. induction k as [| k IH]; intros n; cbn; [lia |].
  destruct (n <? 128); cbn; [lia |]. specialize (IH (n `div` 128)). lia.
Qed.

Lemma varint_length n : (1 ≤ length (varint n) ≤ 9)%nat.
Proof.
  pose proof (digits_length 8 n). unfold varint. split; [| lia].
  cbn. destruct (n <? 128); cbn; lia.
Qed.

Lemma readUint8_at pre b post :
  readUint8 (pre ++ b :: post) (length pre) = Ok (b, S (length pre)).
Proof.
  unfold readUint8. rewrite lookup_app_r by lia.
  replace (length pre - length pre)%nat with 0%nat by lia. done.
Qed.

Lemma js_shl_small a s :
  0 ≤ a < 128 → 0 ≤ s ≤ 21 → js_shl a s = a * 2 ^ s.
Proof.
  intros Ha Hs. unfold js_shl.
  rewrite (int32_small a) by lia. rewrite (Z.mod_small s 32) by lia.
  rewrite Z.shiftl_mul_pow2 by lia.
  apply int32_small.
  assert (2 ^ s ≤ 2 ^ 21) by (apply Z.pow_le_mono_r; lia).
  assert (0 < 2 ^ s) by (apply Z.pow_pos_nonneg; lia).
  nia.
Qed.

(** [readVarint] on the digits of a number. *)
Lemma readVarint_loop_spec fuel k n pre post number j :
  0 ≤ n < 128 ^ Z.of_nat (S k) → (j + k < 8)%nat → (k < fuel)%nat →
  readVarint_loop fuel (pre ++ digits k n ++ post) (length pre) number (7 * Z.of_nat j)
  = Ok (number + n * 2 ^ (7 * Z.of_nat j), (length pre + length (digits k n))%nat).
Proof.
  revert k n pre number j. induction fuel as [| fuel IH]; intros k n pre number j Hn Hj Hf;
    [lia |].
  cbn [readVarint_loop]. rewrite (proj2 (Z.ltb_ge _ _)) by lia.
  assert (Hadd : ∀ b, 0 ≤ b < 128 →
            (if 7 * Z.of_nat j <? 28 then js_shl b (7 * Z.of_nat j)
             else b * 2 ^ (7 * Z.of_nat j)) = b * 2 ^ (7 * Z.of_nat j)).
  { intros b Hb. destruct (7 * Z.of_nat j <? 28) eqn:E; [| done].
    apply Z.ltb_lt in E. apply js_shl_small; lia. }
  destruct k as [| k].
  - change (128 ^ Z.of_nat 1) with 128 in Hn.
    cbn [digits app]. rewrite readUint8_at. cbn.
    rewrite js_and_127, (Z.mod_small n 128) by lia. rewrite Hadd by lia.
    rewrite (proj2 (Z.leb_gt _ _)) by lia.
    do 2 f_equal. cbn. lia.
  - destruct (decide (n < 128)) as [Hs | Hs].
    + rewrite digits_small by done.
      cbn [app]. rewrite readUint8_at. cbn.
      rewrite js_and_127, (Z.mod_small n 128) by lia. rewrite Hadd by lia.
      rewrite (proj2 (Z.leb_gt _ _)) by lia.
      do 2 f_equal. cbn. lia.
    + rewrite digits_large by lia.
      cbn [app]. rewrite readUint8_at. cbn.
      assert (Hm : 0 ≤ n `mod` 128 < 128) by (apply Z.mod_pos_bound; lia).
      rewrite js_and_127.
      replace ((n `mod` 128 + 128) `mod` 128) with (n `mod` 128).
      2:{ replace (n `mod` 128 + 128) with (n `mod` 128 + 1 * 128) by lia.
          rewrite Z_mod_plus_full, Zmod_mod. done. }
      rewrite Hadd by done.
      rewrite (proj2 (Z.leb_le _ _)) by lia.
      replace (S (length pre)) with (length (pre ++ [n `mod` 128 + 128])).
      2:{ rewrite length_app. cbn. lia. }
      replace (pre ++ (n `mod` 128 + 128) :: digits k (n `div` 128) ++ post)
        with ((pre ++ [n `mod` 128 + 128]) ++ digits k (n `div` 128) ++ post).
      2:{ rewrite <- app_assoc. done. }
      replace (7 * Z.of_nat j + 7) with (7 * Z.of_nat (S j)) by lia.
      rewrite IH; [| | lia | lia].
      * f_equal. f_equal.
        -- replace (7 * Z.of_nat (S j)) with (7 * Z.of_nat j + 7) by lia.
           rewrite Z.pow_add_r by lia.
           pose proof (Z.div_mod n 128 ltac:(lia)) as Hdm.
           change (2 ^ 7) with 128. nia.
        -- rewrite length_app. cbn. lia.
      * split; [apply Z.div_pos; lia |].
        apply Z.div_lt_upper_bound; [lia |].
        rewrite (Nat2Z.inj_succ (S k)), Z.pow_succ_r in Hn by lia. lia.
Qed.

Lemma readVarint_spec n pre post :
  0 ≤ n ≤ MAX_SAFE_INTEGER →
  readVarint (pre ++ varint n ++ post) (length pre)
  = Ok (n, (length pre + length (varint n))%nat).
Proof.
  intros Hn. unfold readVarint, varint, MAX_SAFE_INTEGER in *.
  pose proof (readVarint_loop_spec 9 7 n pre post 0 0) as H.
  change (7 * Z.of_nat 0) with 0 in H.
  (* eight digits hold 56 bits; a safe integer has no more than seven *)
  assert (Hd : digits 8 n = digits 7 n).
  { assert (Hgen : ∀ k m, 0 ≤ m < 128 ^ Z.of_nat (S k) → digits (S k) m = digits k m).
    { induction k as [| k IHk]; intros m Hm.
      - change (128 ^ Z.of_nat 1) with 128 in Hm. rewrite !digits_small by lia. done.
      - destruct (decide (m < 128)) as [Hlt | Hge];
          [rewrite !digits_small by done; done |].
        apply Z.nlt_ge in Hge.
        rewrite (digits_large (S k) m Hge), (digits_large k m Hge). f_equal.
        apply IHk. split; [apply Z.div_pos; lia |].
        apply Z.div_lt_upper_bound; [lia |].
        rewrite (Nat2Z.inj_succ (S k)), Z.pow_succ_r in Hm by lia. lia. }
    apply Hgen. change (128 ^ Z.of_nat 8) with (2 ^ 56). lia. }
  rewrite Hd. rewrite H; [| | lia | lia].
  - do 2 f_equal. lia.
  - change (128 ^ Z.of_nat 8) with (2 ^ 56). lia.
Qed.

Definition char_bytes (c : Ascii.ascii) : list Z := utf8 (String c EmptyString).

Lemma pushUTF8String_loop_app w s : pushUTF8String_loop w s = w ++ utf8 s.
Proof.
  unfold utf8. revert w. induction s as [| c s IH]; intros w.
  - cbn. by rewrite app_nil_r.
  - cbn [pushUTF8String_loop].
    destruct (charCode c <=? 127).
    + rewrite IH, (IH (pushUint8 [] _)). unfold pushUint8. cbn.
      by rewrite <- app_assoc.
    + rewrite IH, (IH (pushUint8 (pushUint8 [] _) _)). unfold pushUint8. cbn.
      by rewrite <- !app_assoc.
Qed.

Lemma utf8_cons c s : utf8 (String c s) = char_bytes c ++ utf8 s.
Proof.
  unfold char_bytes, utf8 at 1. cbn [pushUTF8String_loop].
  rewrite pushUTF8String_loop_app. f_equal.
Qed.

Lemma pushUTF8String_spec w s : pushUTF8String w s = w ++ utf8 s ++ [0].
Proof.
  unfold pushUTF8String, pushUint8. rewrite pushUTF8String_loop_app.
  by rewrite <- app_assoc.
Qed.

Lemma char_bytes_decode c rest :
  c ≠ Ascii.zero →
  until_zero (char_bytes c ++ rest) = char_bytes c ++ until_zero rest ∧
  ∀ r, utf8_decode rest = r → utf8_decode (char_bytes c ++ rest) = String c <$> r.
Proof.
  intros Hc.
  destruct c as [[] [] [] [] [] [] [] []]; try done; (split; [reflexivity |]);
    intros r <-; reflexivity.
Qed.

Lemma until_zero_utf8 s rest :
  no_nul s → until_zero (utf8 s ++ 0 :: rest) = utf8 s.
Proof.
  induction s as [| c s IH]; intros Hs.
  - reflexivity.
  - destruct Hs as [Hc Hs]. rewrite utf8_cons, <- app_assoc.
    rewrite (proj1 (char_bytes_decode c _ Hc)), IH by done. done.
Qed.

Lemma utf8_decode_utf8 s : no_nul s → utf8_decode (utf8 s) = Ok s.
Proof.
  induction s as [| c s IH]; intros Hs.
  - reflexivity.
  - destruct Hs as [Hc Hs]. rewrite utf8_cons.
    rewrite (proj2 (char_bytes_decode c _ Hc) _ (IH Hs)). done.
Qed.

Lemma readUTF8String_spec s pre post :
  no_nul s →
  readUTF8String (pre ++ (utf8 s ++ [0]) ++ post) (length pre)
  = Ok (s, (length pre + length (utf8 s ++ [0%Z]))%nat).
Proof.
  intros Hs. unfold readUTF8String.
  rewrite drop_app_length, <- app_assoc. cbn [app].
  rewrite until_zero_utf8, utf8_decode_utf8 by done. cbn.
  do 2 f_equal. rewrite length_app. cbn. lia.
Qed.

Lemma readFloat64_spec bytes pre post :
  length bytes = 8%nat →
  readFloat64 (pre ++ bytes ++ post) (length pre)
  = Ok (bytes, (length pre + length bytes)%nat).
Proof.
  intros Hb. unfold readFloat64.
  rewrite drop_app_length. rewrite take_app_length' by done.
  rewrite Hb. done.
Qed.

End serializer_bytes.

(** ** The serializer: the head and the encoder *)

Section serializer_encoder.
Import Binarizer.

Lemma state_bind_ok {S A B} (m : State S A) (k : A → State S B) s a s' :
  m s = Ok (a, s') → (m ≫= k) s = k a s'.
Proof. intros H. unfold mbind, state_bind. by rewrite H. Qed.

Lemma state_bind_err {S A B} (m : State S A) (k : A → State S B) s e :
  m s = Err e → (m ≫= k) s = Err e.
Proof. intros H. unfold mbind, state_bind. by rewrite H. Qed.

Lemma for_each_app {S A} (f : A → State S unit) l1 l2 s s1 :
  for_each f l1 s = Ok (tt, s1) → for_each f (l1 ++ l2) s = for_each f l2 s1.
Proof.
  revert s. induction l1 as [| a l1 IH]; intros s H.
  - cbn in H. by injection H as <-.
  - cbn [for_each app] in *.
    destruct (f a s) as [[[] s'] | e] eqn:E.
    + rewrite (state_bind_ok _ _ _ _ _ E) in H.
      rewrite (state_bind_ok _ _ _ _ _ E). by apply IH.
    + by rewrite (state_bind_err _ _ _ _ E) in H.
Qed.

Lemma pairs_snoc ids x :
  pairs (ids ++ [x])
  = if Nat.even (length ids) then ((pairs ids).1, x)
    else ((pairs ids).1 ++ [(pairs ids).2 + 16 * x], 0).
Proof.
  assert (H : ∀ n ids, (length ids < n)%nat →
    pairs (ids ++ [x])
    = if Nat.even (length ids) then ((pairs ids).1, x)
      else ((pairs ids).1 ++ [(pairs ids).2 + 16 * x], 0)).
  { clear ids. induction n as [| n IH]; intros ids Hn; [lia |].
    destruct ids as [| a [| b rest]]; [done | done |].
    cbn [app pairs length Nat.even].
    rewrite IH by (cbn in Hn; lia).
    destruct (pairs rest) as [bytes f]. by destruct (Nat.even (length rest)). }
  by apply (H (S (length ids))); lia.
Qed.

Lemma pairs_odd ids :
  Nat.even (length ids) = true → (pairs ids).2 = 0.
Proof.
  assert (H : ∀ n ids, (length ids < n)%nat →
    Nat.even (length ids) = true → (pairs ids).2 = 0).
  { clear ids. induction n as [| n IH]; intros ids Hn He; [lia |].
    destruct ids as [| a [| b rest]]; [done | done |].
    cbn [pairs]. cbn in He, Hn.
    specialize (IH rest ltac:(lia) He). by destruct (pairs rest). }
  by apply (H (S (length ids))); lia.
Qed.

Lemma pairs_even ids d :
  Nat.even (length ids) = false → (pairs ids).2 = List.last ids d.
Proof.
  assert (H : ∀ n ids, (length ids < n)%nat →
    Nat.even (length ids) = false → (pairs ids).2 = List.last ids d).
  { clear ids. induction n as [| n IH]; intros ids Hn He; [lia |].
    destruct ids as [| a [| b rest]]; [done | done |].
    cbn [pairs]. cbn in He, Hn.
    specialize (IH rest ltac:(lia) He).
    destruct (pairs rest) as [bytes f] eqn:E. cbn in *. rewrite IH.
    destruct rest; [done |]. done. }
  by apply (H (S (length ids))); lia.
Qed.

(** The byte of two flags, as the encoder makes it and as the decoder
    reads it. *)
Lemma flag_low c : js_or 0 (coder_id c) = coder_id c.
Proof. by destruct c. Qed.

Lemma flag_high a b : js_or (coder_id a) (js_shl (coder_id b) 4) `mod` 256 = coder_id a + 16 * coder_id b.
Proof. by destruct a, b. Qed.

Lemma flag_of_low a b :
  coders (js_shr (js_and (coder_id a + 16 * coder_id b) (js_shl 15 0)) 0) = Some a.
Proof. by destruct a, b. Qed.

Lemma flag_of_high a b :
  coders (js_shr (js_and (coder_id a + 16 * coder_id b) (js_shl 15 4)) 4) = Some b.
Proof. by destruct a, b. Qed.

Lemma flag_of_last a :
  coders (js_shr (js_and (coder_id a) (js_shl 15 0)) 0) = Some a.
Proof. by destruct a. Qed.

Lemma coder_id_pos c : c ≠ UNKNOWN → 0 < coder_id c.
Proof. by destruct c. Qed.

Lemma indexes_get_Some T v p :
  indexes_get T v = Some p → 0 ≤ p < Z.of_nat (length T) ∧ T !! Z.to_nat p = Some v.
Proof.
  revert p. induction T as [| o T IH]; intros p H; [done |].
  cbn in H. destruct (decide (o = v)) as [-> | Hne].
  - injection H as <-. cbn. split; [lia | done].
  - destruct (indexes_get T v) as [q |] eqn:E; [| done].
    injection H as <-. destruct (IH q eq_refl) as [Hq Hl].
    split; [cbn; lia |].
    replace (Z.to_nat (Z.succ q)) with (S (Z.to_nat q)) by lia. done.
Qed.

Lemma indexes_get_None T v : indexes_get T v = None → v ∉ T.
Proof.
  induction T as [| o T IH]; intros H; [apply not_elem_of_nil |].
  cbn in H. destruct (decide (o = v)) as [-> | Hne]; [done |].
  destruct (indexes_get T v) eqn:E; [done |].
  apply not_elem_of_cons. split; [done | by apply IH].
Qed.

Lemma indexes_get_elem T v : v ∈ T → is_Some (indexes_get T v).
Proof.
  intros H. destruct (indexes_get T v) eqn:E; [done |].
  by apply indexes_get_None in E.
Qed.

Lemma indexes_get_lookup T v i :
  NoDup T → T !! i = Some v → indexes_get T v = Some (Z.of_nat i).
Proof.
  intros Hnd Hl.
  destruct (indexes_get_elem T v) as [p Hp]; [by eapply list_elem_of_lookup_2 |].
  destruct (indexes_get_Some _ _ _ Hp) as [Hr Hl'].
  rewrite Hp. f_equal.
  pose proof (NoDup_lookup _ _ _ _ Hnd Hl Hl'). lia.
Qed.

Lemma even_mod n : (Z.of_nat n `mod` 2 =? 0) = Nat.even n.
Proof.
  destruct (Nat.even n) eqn:E.
  - apply Nat.even_spec in E as [k ->]. apply Z.eqb_eq.
    rewrite Nat2Z.inj_mul, Z.mul_comm. apply Z_mod_mult.
  - apply Z.eqb_neq. intros H.
    assert (Ho : Nat.odd n = true) by (by rewrite <- Nat.negb_even, E).
    apply Nat.odd_spec in Ho as [k ->].
    rewrite Nat2Z.inj_add, Nat2Z.inj_mul, Z.add_comm, Z.mul_comm in H.
    rewrite Z_mod_plus_full in H. done.
Qed.

Section encoder_steps.
Variable classes : list Registered.
Variable h : Heap.
Variable table : list value.
Hypothesis table_small : Z.of_nat (length table) ≤ MAX_SAFE_INTEGER.

(** The flag of one more atom. *)
Lemma encoder_flag cs oc bs c (isObject : bool) :
  let e := encoder_at cs oc bs in
  let flag' := js_or (flag e)
                 (if atomCount e `mod` 2 =? 0 then coder_id c else js_shl (coder_id c) 4) in
  let odd := negb (atomCount e `mod` 2 =? 0) in
  mkEncoder (if odd then pushUint8 (headBytes e) flag' else headBytes e)
            (if odd then 0 else flag')
            (atomCount e + 1)
            (if isObject then objectCount e + 1 else objectCount e)
            (bodyBytes e)
  = encoder_at (cs ++ [c]) (if isObject then oc + 1 else oc) bs.
Proof.
  cbn zeta. unfold encoder_at. cbn [flag atomCount headBytes objectCount bodyBytes].
  rewrite even_mod, fmap_app. change (coder_id <$> [c]) with [coder_id c].
  rewrite pairs_snoc, length_fmap, length_app. cbn [length].
  replace (Z.of_nat (length cs + 1)) with (Z.of_nat (length cs) + 1) by lia.
  destruct (Nat.even (length cs)) eqn:E; cbn [negb fst snd].
  - rewrite pairs_odd by (by rewrite length_fmap). by rewrite flag_low.
  - rewrite (pairs_even _ 0) by (by rewrite length_fmap).
    destruct cs as [| c0 cs] using rev_ind; [done |].
    rewrite fmap_app. cbn [fmap list_fmap]. rewrite List.last_last.
    unfold pushUint8. by rewrite flag_high.
Qed.

Lemma next_eq fuel v (isObject : bool) cs oc bs c :
  match (if isObject then None else indexes_get table v) with
  | Some _ => Ok POINTER
  | None => coderOf classes h v
  end = Ok c →
  next classes h table (S fuel) v isObject (encoder_at cs oc bs)
  = encode_with classes h (λ v', next classes h table fuel v' false) c
      (match (if isObject then None else indexes_get table v) with
       | Some p => Num p
       | None => v
       end)
      (encoder_at (cs ++ [c]) (if isObject then oc + 1 else oc) bs).
Proof.
  intros Hc. cbn [next].
  set (pointer := if isObject then None else indexes_get table v) in *.
  erewrite state_bind_ok; last first.
  { destruct pointer; [injection Hc as <-; reflexivity |].
    unfold lift. rewrite Hc. reflexivity. }
  erewrite state_bind_ok; last first.
  { unfold modify. rewrite encoder_flag. reflexivity. }
  reflexivity.
Qed.

Lemma write_ok f cs oc bs bs' :
  f bs = Ok bs' → write f (encoder_at cs oc bs) = Ok (tt, encoder_at cs oc bs').
Proof. intros H. unfold write. cbn. by rewrite H. Qed.

(** A value inside an object: a value of the table, or a value that is
    no reference. *)
Definition leaf_ok (v : value) : Prop := v ∈ table ∨ atom_ok v.

Lemma encode_atom next' v cs oc bs :
  atom_ok v →
  encode_with classes h next' (atom_coder v) v (encoder_at cs oc bs)
  = Ok (tt, encoder_at cs oc (bs ++ atom_bytes v)).
Proof.
  intros Hv.
  destruct v as [| | b | n | bytes | s | a]; cbn [atom_coder atom_bytes atom_ok] in *.
  - cbn. by rewrite app_nil_r.
  - done.
  - destruct b; cbn; by rewrite app_nil_r.
  - unfold safe, MAX_SAFE_INTEGER in Hv.
    destruct (n <? 0) eqn:E; cbn [encode_with].
    + apply Z.ltb_lt in E. apply write_ok, pushVarint_spec.
      unfold MAX_SAFE_INTEGER. lia.
    + apply Z.ltb_ge in E. apply write_ok, pushVarint_spec.
      unfold MAX_SAFE_INTEGER. lia.
  - cbn [encode_with]. by apply write_ok.
  - cbn [encode_with]. apply write_ok. by rewrite pushUTF8String_spec.
  - done.
Qed.

Lemma coderOf_atom v : atom_ok v → coderOf classes h v = Ok (atom_coder v).
Proof. by destruct v. Qed.

Lemma next_leaf fuel v cs oc bs :
  leaf_ok v →
  next classes h table (S fuel) v false (encoder_at cs oc bs)
  = Ok (tt, encoder_at (cs ++ [leaf_coder table v]) oc (bs ++ leaf_bytes table v)).
Proof.
  intros Hv. unfold leaf_coder, leaf_bytes.
  destruct (indexes_get table v) as [p |] eqn:Hp.
  - rewrite (next_eq _ _ false _ _ _ POINTER) by (by rewrite Hp).
    rewrite Hp. cbn [encode_with].
    destruct (indexes_get_Some _ _ _ Hp) as [Hr _].
    apply write_ok, pushVarint_spec. lia.
  - destruct Hv as [Hv | Hv]; [by apply indexes_get_None in Hp |].
    rewrite (next_eq _ _ false _ _ _ (atom_coder v)).
    2:{ rewrite Hp. by apply coderOf_atom. }
    rewrite Hp. by apply encode_atom.
Qed.

Lemma for_each_leaves fuel vs cs oc bs :
  Forall leaf_ok vs →
  for_each (λ v, next classes h table (S fuel) v false) vs (encoder_at cs oc bs)
  = Ok (tt, encoder_at (cs ++ (leaf_coder table <$> vs)) oc (bs ++ leaves_bytes table vs)).
Proof.
  revert cs bs. induction vs as [| v vs IH]; intros cs bs Hvs.
  - cbn. by rewrite !app_nil_r.
  - apply Forall_cons in Hvs as [Hv Hvs]. cbn [for_each].
    erewrite state_bind_ok by (by apply next_leaf).
    rewrite IH by done. unfold leaves_bytes. cbn [fmap list_fmap concat].
    by rewrite <- !app_assoc.
Qed.

Lemma assoc_get_NoDup {K V} `{EqDecision K} (m : list (K * V)) k v :
  NoDup m.*1 → (k, v) ∈ m → assoc_get m k = Some v.
Proof.
  induction m as [| [k' v'] m IH]; intros Hnd Hin; [by apply elem_of_nil in Hin |].
  cbn in Hnd. apply NoDup_cons in Hnd as [Hk Hnd].
  apply elem_of_cons in Hin as [Heq | Hin].
  - injection Heq as <- <-. cbn. by rewrite decide_True.
  - cbn. rewrite decide_False; [by apply IH |].
    intros ->. apply Hk. apply list_elem_of_fmap. by exists (k, v).
Qed.

Lemma for_each_concat {S A} (g : A → State S unit) (ls : list (list A)) s :
  for_each (λ l, for_each g l) ls s = for_each g (concat ls) s.
Proof.
  revert s. induction ls as [| l ls IH]; intros s; [done |].
  cbn [for_each concat].
  destruct (for_each g l s) as [[[] s'] | e] eqn:E.
  - rewrite (state_bind_ok _ _ _ _ _ E). rewrite (for_each_app _ _ _ _ _ E). apply IH.
  - rewrite (state_bind_err _ _ _ _ E).
    clear IH. revert s E. induction l as [| a l IHl]; intros s E; [done |].
    cbn [for_each app] in *.
    destruct (g a s) as [[[] s'] | e'] eqn:E'.
    + rewrite (state_bind_ok _ _ _ _ _ E') in E.
      rewrite (state_bind_ok _ _ _ _ _ E'). by apply IHl.
    + rewrite (state_bind_err _ _ _ _ E') in E.
      by rewrite (state_bind_err _ _ _ _ E').
Qed.

(** The values inside an object with properties, by their keys. *)
Lemma for_each_properties fuel props kvs cs oc bs :
  (∀ kv, kv ∈ kvs → property props kv.1 = kv.2) →
  Forall leaf_ok kvs.*2 →
  for_each (λ key, next classes h table (S fuel) (property props key) false) kvs.*1
           (encoder_at cs oc bs)
  = Ok (tt, encoder_at (cs ++ (leaf_coder table <$> kvs.*2)) oc
                       (bs ++ leaves_bytes table kvs.*2)).
Proof.
  revert cs bs. induction kvs as [| [k v] kvs IH]; intros cs bs Hp Hvs.
  - cbn. by rewrite !app_nil_r.
  - cbn in Hvs. apply Forall_cons in Hvs as [Hv Hvs].
    cbn [fmap list_fmap for_each fst snd].
    pose proof (Hp (k, v) ltac:(apply list_elem_of_here)) as Hkv.
    cbn [fst snd] in Hkv. rewrite Hkv.
    erewrite state_bind_ok by (by apply next_leaf).
    rewrite IH; [| intros kv Hin; apply Hp; by apply list_elem_of_further | done].
    unfold leaves_bytes. cbn [fmap list_fmap concat].
    by rewrite <- !app_assoc.
Qed.

Lemma for_each_keys fuel props kvs cs oc bs :
  (∀ kv, kv ∈ kvs → property props kv.1 = kv.2) →
  Forall leaf_ok (flat_map (λ kv, [Str kv.1; kv.2]) kvs) →
  for_each (λ key, next classes h table (S fuel) (Str key) false ;;
                   next classes h table (S fuel) (property props key) false) kvs.*1
           (encoder_at cs oc bs)
  = Ok (tt, encoder_at (cs ++ (leaf_coder table <$> flat_map (λ kv, [Str kv.1; kv.2]) kvs)) oc
                       (bs ++ leaves_bytes table (flat_map (λ kv, [Str kv.1; kv.2]) kvs))).
Proof.
  revert cs bs. induction kvs as [| [k v] kvs IH]; intros cs bs Hp Hvs.
  - cbn. by rewrite !app_nil_r.
  - cbn in Hvs. apply Forall_cons in Hvs as [Hk Hvs]. apply Forall_cons in Hvs as [Hv Hvs].
    cbn [fmap list_fmap for_each fst snd flat_map app].
    pose proof (Hp (k, v) ltac:(apply list_elem_of_here)) as Hkv.
    cbn [fst snd] in Hkv. rewrite Hkv.
    erewrite state_bind_ok; last first.
    { erewrite state_bind_ok by (by apply next_leaf). by apply next_leaf. }
    rewrite IH; [| intros kv Hin; apply Hp; by apply list_elem_of_further | done].
    unfold leaves_bytes. cbn [fmap list_fmap concat].
    by rewrite <- !app_assoc.
Qed.

Lemma for_each_entries fuel (entries : list (value * value)) cs oc bs :
  Forall leaf_ok (flat_map (λ kv, [kv.1; kv.2]) entries) →
  for_each (λ kv : value * value,
              next classes h table (S fuel) kv.1 false ;;
              next classes h table (S fuel) kv.2 false) entries
           (encoder_at cs oc bs)
  = Ok (tt, encoder_at (cs ++ (leaf_coder table <$> flat_map (λ kv, [kv.1; kv.2]) entries)) oc
                       (bs ++ leaves_bytes table (flat_map (λ kv, [kv.1; kv.2]) entries))).
Proof.
  revert cs bs. induction entries as [| [k v] entries IH]; intros cs bs Hvs.
  - cbn. by rewrite !app_nil_r.
  - cbn in Hvs. apply Forall_cons in Hvs as [Hk Hvs]. apply Forall_cons in Hvs as [Hv Hvs].
    cbn [for_each fst snd flat_map app].
    erewrite state_bind_ok; last first.
    { erewrite state_bind_ok by (by apply next_leaf). by apply next_leaf. }
    rewrite IH by done.
    unfold leaves_bytes. cbn [fmap list_fmap concat].
    by rewrite <- !app_assoc.
Qed.

Lemma for_each_sizes (layers : list (list string)) cs oc bs :
  Forall (λ keys, Z.of_nat (length keys) ≤ MAX_SAFE_INTEGER) layers →
  for_each (λ keys : list string, write (λ w, pushVarint w (Z.of_nat (length keys)))) layers
           (encoder_at cs oc bs)
  = Ok (tt, encoder_at cs oc
              (bs ++ concat (varint <$> ((λ keys, Z.of_nat (length keys)) <$> layers)))).
Proof.
  revert bs. induction layers as [| keys layers IH]; intros bs Hl.
  - cbn. by rewrite app_nil_r.
  - apply Forall_cons in Hl as [Hk Hl]. cbn [for_each].
    erewrite state_bind_ok by (apply write_ok, pushVarint_spec; lia).
    rewrite IH by done. cbn [fmap list_fmap concat]. by rewrite <- app_assoc.
Qed.

Hypothesis plain : Forall (λ c, tagOfConstructor classes c = None)
                          ["Array"; "Object"; "Map"; "Set"].

(** What the encoder and the decoder need of an entry of the table. *)
Definition entry_ok (v : value) : Prop :=
  match v with
  | Ref a => ∃ o, h !! a = Some o ∧ object_ok classes h o ∧
                  Forall leaf_ok (nested classes o) ∧
                  Z.of_nat (cells o) ≤ MAX_SAFE_INTEGER
  | _ => atom_ok v
  end.

Lemma plain_tags :
  tagOfConstructor classes "Array" = None ∧ tagOfConstructor classes "Object" = None ∧
  tagOfConstructor classes "Map" = None ∧ tagOfConstructor classes "Set" = None.
Proof.
  pose proof plain as H.
  apply Forall_cons in H as [H1 H]. apply Forall_cons in H as [H2 H].
  apply Forall_cons in H as [H3 H]. apply Forall_cons in H as [H4 _]. done.
Qed.

Lemma coderOf_object a o :
  h !! a = Some o → object_ok classes h o →
  coderOf classes h (Ref a) = Ok (object_coder o).
Proof.
  intros Ha Ho. unfold coderOf, object_at. rewrite Ha. cbn.
  destruct plain_tags as (_ & Hobj & _ & _).
  destruct o as [items | props | entries | elements | c props | v | b]; try done.
  - cbn. rewrite Hobj. done.
  - destruct Ho as (r & Hr & _). cbn. unfold tagOfConstructor. rewrite Hr. done.
Qed.

Lemma layers_small (layers : list (list string)) n :
  Z.of_nat (length (concat layers)) ≤ n →
  Forall (λ keys, Z.of_nat (length keys) ≤ n) layers.
Proof.
  clear. induction layers as [| l layers IH]; intros H; [done |].
  cbn in H. rewrite length_app in H.
  apply Forall_cons. split; [lia | apply IH; lia].
Qed.

(** The encoder on an entry of the table. *)
Lemma next_entry fuel v cs oc bs :
  entry_ok v →
  next classes h table (S (S fuel)) v true (encoder_at cs oc bs)
  = Ok (tt, encoder_at (cs ++ entry_coders classes table h v) (oc + 1)
                       (bs ++ entry_bytes classes table h v)).
Proof.
  intros Hv.
  assert (Hatom : atom_ok v →
    next classes h table (S (S fuel)) v true (encoder_at cs oc bs)
    = Ok (tt, encoder_at (cs ++ [atom_coder v]) (oc + 1) (bs ++ atom_bytes v))).
  { intros Ha. rewrite (next_eq _ _ true _ _ _ (atom_coder v)) by (by apply coderOf_atom).
    by apply encode_atom. }
  destruct v as [| | b | n | bytes | s | a]; try (by apply Hatom).
  destruct Hv as (o & Ha & Ho & Hn & Hc).
  rewrite (next_eq _ _ true _ _ _ (object_coder o)) by (by apply coderOf_object).
  unfold entry_coders, entry_bytes. rewrite Ha. cbn [from_option].
  unfold object_coders, object_bytes.
  assert (Hof : lift (object_of h (Ref a)) (encoder_at (cs ++ [object_coder o]) (oc + 1) bs)
                = Ok (o, encoder_at (cs ++ [object_coder o]) (oc + 1) bs)).
  { unfold lift, object_of, object_at. by rewrite Ha. }
  destruct o as [items | props | entries | elements | c props | v | b]; try done;
    cbn [object_coder encode_with nested sizes cells] in *.
  - (* Array *)
    erewrite state_bind_ok by exact Hof. cbn beta iota.
    erewrite state_bind_ok by (apply write_ok, pushVarint_spec; lia).
    rewrite for_each_leaves by done. cbn [fmap list_fmap concat].
    by rewrite ?app_nil_r, <- ?app_assoc.
  - (* Plain *)
    destruct Ho as (Hnd & _ & _).
    erewrite state_bind_ok by exact Hof. cbn beta iota. cbn [ownProperties].
    erewrite state_bind_ok.
    2:{ apply write_ok, pushVarint_spec. rewrite length_fmap. lia. }
    rewrite for_each_keys; [| | done].
    + cbn [fmap list_fmap concat]. rewrite length_fmap.
      by rewrite ?app_nil_r, <- ?app_assoc.
    + intros [k x] Hin. unfold property. by rewrite (assoc_get_NoDup _ _ _ Hnd Hin).
  - (* Map *)
    erewrite state_bind_ok by exact Hof. cbn beta iota.
    erewrite state_bind_ok by (apply write_ok, pushVarint_spec; lia).
    rewrite for_each_entries by done. cbn [fmap list_fmap concat].
    by rewrite ?app_nil_r, <- ?app_assoc.
  - (* Set *)
    erewrite state_bind_ok by exact Hof. cbn beta iota.
    erewrite state_bind_ok by (apply write_ok, pushVarint_spec; lia).
    rewrite for_each_leaves by done. cbn [fmap list_fmap concat].
    by rewrite ?app_nil_r, <- ?app_assoc.
  - (* Instance *)
    destruct Ho as (r & Hr & Hcoder & _ & _ & Hkeys & Hnd & _).
    erewrite state_bind_ok by exact Hof. cbn beta iota. cbn [constructorOf ownProperties].
    unfold tagOfConstructor in *. rewrite Hr in *. cbn [fmap option_fmap option_map from_option] in *.
    apply Forall_cons in Hn as [Ht Hn].
    erewrite state_bind_ok by (by apply next_leaf).
    rewrite Hcoder.
    erewrite state_bind_ok.
    2:{ apply for_each_sizes, layers_small. rewrite <- Hkeys, length_fmap. lia. }
    rewrite for_each_concat, <- Hkeys.
    rewrite for_each_properties; [| | done].
    + unfold leaves_bytes. cbn [fmap list_fmap concat app].
      by rewrite ?app_nil_r, <- ?app_assoc.
    + intros [k x] Hin. unfold property. by rewrite (assoc_get_NoDup _ _ _ Hnd Hin).
Qed.

(** The encoder on the entries of a table, one after the other. *)
Lemma for_each_entry fuel vs cs oc bs :
  Forall entry_ok vs →
  for_each (λ o, next classes h table (S (S fuel)) o true) vs (encoder_at cs oc bs)
  = Ok (tt, encoder_at (cs ++ concat (entry_coders classes table h <$> vs))
                       (oc + Z.of_nat (length vs))
                       (bs ++ concat (entry_bytes classes table h <$> vs))).
Proof.
  revert cs oc bs. induction vs as [| v vs IH]; intros cs oc bs Hvs.
  - cbn. by rewrite !app_nil_r, Z.add_0_r.
  - apply Forall_cons in Hvs as [Hv Hvs]. cbn [for_each].
    erewrite state_bind_ok by (by apply next_entry).
    rewrite IH by done. cbn [fmap list_fmap concat length].
    rewrite <- !app_assoc. do 3 f_equal. lia.
Qed.

Lemma leaf_coder_known v : leaf_ok v → leaf_coder table v ≠ UNKNOWN.
Proof.
  intros Hv. unfold leaf_coder. destruct (indexes_get table v) eqn:E; [done |].
  destruct Hv as [Hv | Hv]; [by apply indexes_get_None in E |].
  destruct v as [| | [] | n | | |]; try done. cbn. by destruct (n <? 0).
Qed.

Lemma atom_coder_known v : atom_ok v → atom_coder v ≠ UNKNOWN.
Proof. destruct v as [| | [] | n | | |]; try done. cbn. by destruct (n <? 0). Qed.

Lemma entry_coders_known v :
  entry_ok v → Forall (λ c, c ≠ UNKNOWN) (entry_coders classes table h v).
Proof.
  intros Hv. destruct v as [| | b | n | bytes | s | a];
    try (apply Forall_cons; split; [by apply atom_coder_known | done]).
  destruct Hv as (o & Ha & Ho & Hn & Hc). unfold entry_coders. rewrite Ha. cbn.
  apply Forall_cons. split; [by destruct o |].
  apply Forall_fmap. eapply Forall_impl; [exact Hn |]. intros v. apply leaf_coder_known.
Qed.

End encoder_steps.

Lemma pairs_cons2 a b ids :
  pairs (a :: b :: ids) = ((a + 16 * b) :: (pairs ids).1, (pairs ids).2).
Proof. cbn. by destruct (pairs ids). Qed.

Lemma packed_cons2 a b ids : packed (a :: b :: ids) = (a + 16 * b) :: packed ids.
Proof.
  unfold packed. rewrite pairs_cons2. destruct (pairs ids) as [bytes f]. cbn.
  by destruct (f =? 0).
Qed.

Lemma packed_length ids :
  Forall (λ x, x ≠ 0) ids →
  length (packed ids)
  = Z.to_nat (Z.of_nat (length ids) `div` 2
              + (if Z.of_nat (length ids) `mod` 2 =? 0 then 0 else 1)).
Proof.
  assert (H : ∀ n ids, (length ids < n)%nat → Forall (λ x, x ≠ 0) ids →
    length (packed ids)
    = Z.to_nat (Z.of_nat (length ids) `div` 2
                + (if Z.of_nat (length ids) `mod` 2 =? 0 then 0 else 1))).
  { clear ids. induction n as [| n IH]; intros ids Hn Hz; [lia |].
    destruct ids as [| a [| b rest]]; [done | |].
    - apply Forall_cons in Hz as [Ha _]. unfold packed. cbn [pairs].
      rewrite (proj2 (Z.eqb_neq _ _)) by done. done.
    - apply Forall_cons in Hz as [_ Hz]. apply Forall_cons in Hz as [_ Hz].
      rewrite packed_cons2. cbn [length] in *. rewrite IH by (done || lia).
      replace (Z.of_nat (S (S (length rest)))) with (Z.of_nat (length rest) + 1 * 2) by lia.
      rewrite Z.div_add, Z_mod_plus_full by lia.
      assert (0 ≤ Z.of_nat (length rest) `div` 2) by (apply Z.div_pos; lia).
      destruct (Z.of_nat (length rest) `mod` 2 =? 0); lia. }
  intros Hz. by apply (H (S (length ids))); [lia |].
Qed.

Lemma packed_flag (cs : list Coder) j c :
  Forall (λ c, c ≠ UNKNOWN) cs → cs !! j = Some c →
  let shift := if Z.of_nat j `mod` 2 =? 0 then 0 else 4 in
  let flag := default 0 (packed (coder_id <$> cs) !! Z.to_nat (Z.of_nat j `div` 2)) in
  coders (js_shr (js_and flag (js_shl 15 shift)) shift) = Some c.
Proof.
  assert (H : ∀ n cs j, (length cs < n)%nat →
    Forall (λ c, c ≠ UNKNOWN) cs → cs !! j = Some c →
    let shift := if Z.of_nat j `mod` 2 =? 0 then 0 else 4 in
    let flag := default 0 (packed (coder_id <$> cs) !! Z.to_nat (Z.of_nat j `div` 2)) in
    coders (js_shr (js_and flag (js_shl 15 shift)) shift) = Some c).
  { clear cs j. induction n as [| n IH]; intros cs j Hn Hk Hj; [lia |].
    destruct cs as [| a [| b rest]]; [done | |].
    - destruct j; [| done]. injection Hj as ->.
      apply Forall_cons in Hk as [Ha _].
      cbn [fmap list_fmap]. unfold packed. cbn [pairs].
      rewrite (proj2 (Z.eqb_neq _ _)); [| by destruct c].
      apply flag_of_last.
    - apply Forall_cons in Hk as [_ Hk]. apply Forall_cons in Hk as [_ Hk].
      cbn [fmap list_fmap]. rewrite packed_cons2.
      destruct j as [| [| j]].
      + injection Hj as ->. apply flag_of_low.
      + injection Hj as ->. apply flag_of_high.
      + cbn [lookup list_lookup] in Hj.
        specialize (IH rest j ltac:(cbn in Hn; lia) Hk Hj). cbn zeta in IH |- *.
        replace (Z.of_nat (S (S j))) with (Z.of_nat j + 1 * 2) by lia.
        rewrite Z.div_add, Z_mod_plus_full by lia.
        assert (0 ≤ Z.of_nat j `div` 2) by (apply Z.div_pos; lia).
        replace (Z.to_nat (Z.of_nat j `div` 2 + 1)) with (S (Z.to_nat (Z.of_nat j `div` 2)))
          by lia.
        exact IH. }
  intros Hk Hj. by apply (H (S (length cs))); [lia | |].
Qed.

Lemma packed_bytes (cs : list Coder) :
  Forall (λ b, 0 ≤ b < 256) (packed (coder_id <$> cs)).
Proof.
  assert (H : ∀ n cs, (length cs < n)%nat → Forall (λ b, 0 ≤ b < 256) (packed (coder_id <$> cs))).
  { clear cs. induction n as [| n IH]; intros cs Hn; [lia |].
    destruct cs as [| a [| b rest]]; [done | |].
    - cbn [fmap list_fmap]. unfold packed. cbn [pairs].
      destruct (coder_id a =? 0); [done |].
      apply Forall_cons. split; [by destruct a | done].
    - cbn [fmap list_fmap]. rewrite packed_cons2.
      apply Forall_cons. split; [by destruct a, b |].
      apply IH. cbn in Hn. lia. }
  by apply (H (S (length cs))); lia.
Qed.

(** [finish] *)
Lemma finish_spec table root cs oc bs p :
  Z.of_nat (length cs) ≤ MAX_SAFE_INTEGER → 0 ≤ oc ≤ MAX_SAFE_INTEGER →
  indexes_get table root = Some p → p ≤ MAX_SAFE_INTEGER →
  finish table root (encoder_at cs oc bs)
  = Ok ((varint (Z.of_nat (length cs)) ++ varint oc ++ varint p)
        ++ packed (coder_id <$> cs) ++ bs).
Proof.
  intros Hcs Hoc Hp Hps. unfold finish.
  destruct (indexes_get_Some _ _ _ Hp) as [Hr _].
  cbn [atomCount objectCount encoder_at].
  rewrite pushVarint_spec by lia. cbn [mbind result_bind app].
  rewrite pushVarint_spec by lia. cbn [mbind result_bind app].
  rewrite Hp. change (default 0 (Some p)) with p. rewrite pushVarint_spec by lia. cbn [mbind result_bind app].
  unfold encoder_at, packed. cbn [flag headBytes bodyBytes].
  destruct (pairs (coder_id <$> cs)) as [bytes f] eqn:E. cbn [fst snd].
  destruct (f =? 0) eqn:Ef; [by rewrite <- !app_assoc |].
  unfold pushUint8. rewrite Z.mod_small; [by rewrite <- !app_assoc |].
  destruct (Nat.even (length (coder_id <$> cs))) eqn:Ev.
  - pose proof (pairs_odd _ Ev) as H0. rewrite E in H0. cbn in H0. subst f. done.
  - pose proof (pairs_even _ 0 Ev) as H0. rewrite E in H0. cbn in H0. subst f.
    destruct cs as [| c0 cs] using rev_ind; [done |].
    rewrite fmap_app. cbn [fmap list_fmap]. rewrite List.last_last. by destruct c0.
Qed.

End serializer_encoder.

(** ** The serializer: the decoder *)

#[global] Arguments varint : simpl never.
#[global] Arguments utf8 : simpl never.

Section serializer_decoder.
Import Binarizer.

Lemma length_varint_pos n : (0 < length (varint n))%nat.
Proof. pose proof (varint_length n). lia. Qed.

(** The readers at a place of the buffer where the bytes written are
    found. *)
Lemma drop_split (buf : list Z) off bs rest :
  drop off buf = bs ++ rest → (0 < length bs)%nat →
  buf = take off buf ++ bs ++ rest ∧ length (take off buf) = off.
Proof.
  intros Hd Hb. split; [by rewrite <- Hd, take_drop |].
  rewrite length_take. apply Nat.min_l.
  assert (length (drop off buf) = (length bs + length rest)%nat)
    by (by rewrite Hd, length_app).
  rewrite length_drop in H. lia.
Qed.

Lemma readVarint_at buf off n rest :
  drop off buf = varint n ++ rest → 0 ≤ n ≤ MAX_SAFE_INTEGER →
  readVarint buf off = Ok (n, (off + length (varint n))%nat).
Proof.
  intros Hd Hn.
  destruct (drop_split _ _ _ _ Hd (length_varint_pos n)) as [Hb Hl].
  pose proof (readVarint_spec n (take off buf) rest Hn) as H.
  by rewrite <- Hb, Hl in H.
Qed.

Lemma readUTF8String_at buf off s rest :
  drop off buf = (utf8 s ++ [0]) ++ rest → no_nul s →
  readUTF8String buf off = Ok (s, (off + length (utf8 s ++ [0%Z]))%nat).
Proof.
  intros Hd Hs.
  destruct (drop_split _ _ _ _ Hd) as [Hb Hl]; [rewrite length_app; cbn; lia |].
  pose proof (readUTF8String_spec s (take off buf) rest Hs) as H.
  by rewrite <- Hb, Hl in H.
Qed.

Lemma readFloat64_at buf off bytes rest :
  drop off buf = bytes ++ rest → length bytes = 8%nat →
  readFloat64 buf off = Ok (bytes, (off + length bytes)%nat).
Proof.
  intros Hd Hs.
  destruct (drop_split _ _ _ _ Hd) as [Hb Hl]; [lia |].
  pose proof (readFloat64_spec bytes (take off buf) rest Hs) as H.
  by rewrite <- Hb, Hl in H.
Qed.

Section decoder_steps.
Variable classes : list Registered.
Variable table : list value.
(** The parts of the decoder that do not change. *)
Variables (buf : list Z) (count rt : Z) (fl : list Z) (bo : nat).

Definition st (off : nat) (ai oi : Z) (dec : list (option value)) (cr : Heap) : Decoder :=
  mkDecoder buf count rt fl bo off ai oi dec cr.

(** At the atom [ai] and the byte [off], the coders [cs] and the bytes
    [bs] come next. *)
Definition upcoming (ai : Z) (off : nat) (cs : list Coder) (bs : list Z) : Prop :=
  (∀ (j : nat) c, cs !! j = Some c →
     coders (js_shr (js_and (default 0 (fl !! Z.to_nat ((ai + Z.of_nat j) `div` 2)))
                            (js_shl 15 (if (ai + Z.of_nat j) `mod` 2 =? 0 then 0 else 4)))
                    (if (ai + Z.of_nat j) `mod` 2 =? 0 then 0 else 4)) = Some c) ∧
  ∃ rest, drop off buf = bs ++ rest.

Lemma upcoming_app ai off cs1 cs2 bs1 bs2 :
  upcoming ai off (cs1 ++ cs2) (bs1 ++ bs2) →
  upcoming ai off cs1 bs1 ∧
  upcoming (ai + Z.of_nat (length cs1)) (off + length bs1) cs2 bs2.
Proof.
  intros [Hc [rest Hb]]. split; split.
  - intros j c Hj. apply Hc. by apply lookup_app_l_Some.
  - exists (bs2 ++ rest). by rewrite Hb, <- app_assoc.
  - intros j c Hj.
    replace (ai + Z.of_nat (length cs1) + Z.of_nat j)
      with (ai + Z.of_nat (length cs1 + j)) by lia.
    apply Hc. rewrite lookup_app_r by lia.
    by replace (length cs1 + j - length cs1)%nat with j by lia.
  - exists rest. rewrite <- drop_drop, Hb, <- app_assoc. by rewrite drop_app_length.
Qed.

Lemma upcoming_coder ai off c cs bs dec cr oi :
  upcoming ai off (c :: cs) bs →
  coderByIndex (st off ai oi dec cr) ai = Ok c.
Proof.
  intros [Hc _]. specialize (Hc 0%nat c eq_refl).
  unfold coderByIndex. cbn [flags st]. rewrite Z.add_0_r in Hc. by rewrite Hc.
Qed.

Lemma upcoming_nil ai off : upcoming ai off [] [].
Proof. split; [done |]. by exists (drop off buf). Qed.

(** What [next] returns before [finish] for a value inside an object. *)
Definition early (dec : list (option value)) (v : value) : value :=
  match indexes_get table v with
  | Some p => if p <? Z.of_nat (length dec) then default Undefined (array_get dec p) else Num p
  | None => v
  end.

(** And after [finish]. *)
Definition late (dec : list (option value)) (v : value) : value :=
  match indexes_get table v with
  | Some p => default Undefined (array_get dec p)
  | None => v
  end.

Lemma read_ok {A} (f : list Z → nat → result (A * nat)) off ai oi dec cr a off' :
  f buf off = Ok (a, off') →
  read f (st off ai oi dec cr) = Ok (a, st off' ai oi dec cr).
Proof. intros H. unfold read. cbn [buffer offset st]. rewrite H. done. Qed.

(** The atoms that are no objects. *)
Lemma decode_atom_spec v off ai oi dec cr rest :
  atom_ok v → drop off buf = atom_bytes v ++ rest →
  decode_atom (atom_coder v) (st off ai oi dec cr)
  = Ok (v, st (off + length (atom_bytes v)) ai oi dec cr).
Proof.
  intros Hv Hd.
  destruct v as [| | b | n | bytes | s | a]; cbn [atom_coder atom_bytes atom_ok] in *.
  - cbn. by rewrite Nat.add_0_r.
  - done.
  - destruct b; cbn; by rewrite Nat.add_0_r.
  - unfold safe, MAX_SAFE_INTEGER in Hv.
    destruct (n <? 0) eqn:E; cbn [decode_atom].
    + apply Z.ltb_lt in E.
      erewrite state_bind_ok.
      2:{ apply read_ok. eapply readVarint_at; [exact Hd |]. unfold MAX_SAFE_INTEGER. lia. }
      unfold mret, state_ret. do 3 f_equal. lia.
    + apply Z.ltb_ge in E.
      erewrite state_bind_ok.
      2:{ apply read_ok. eapply readVarint_at; [exact Hd |]. unfold MAX_SAFE_INTEGER. lia. }
      done.
  - cbn [decode_atom].
    erewrite state_bind_ok by (apply read_ok; by eapply readFloat64_at). done.
  - cbn [decode_atom].
    erewrite state_bind_ok by (apply read_ok; by eapply readUTF8String_at). done.
  - done.
Qed.

Hypothesis table_small : Z.of_nat (length table) ≤ MAX_SAFE_INTEGER.

Local Abbreviation leaf_ok := (leaf_ok table).

Lemma leaf_atom v :
  leaf_ok v → indexes_get table v = None → atom_ok v.
Proof. intros [Hv | Hv] Hp; [by apply indexes_get_None in Hp | done]. Qed.

Lemma get_ok (d : Decoder) : get d = Ok (d, d).
Proof. done. Qed.

Lemma predecode_leaf fuel v off ai oi dec cr :
  leaf_ok v → upcoming ai off [leaf_coder table v] (leaf_bytes table v) →
  predecodeNext classes (S fuel) false (st off ai oi dec cr)
  = Ok (early dec v, st (off + length (leaf_bytes table v)) (ai + 1) oi dec cr).
Proof.
  intros Hv Hup. cbn [predecodeNext].
  erewrite state_bind_ok by apply get_ok.
  erewrite state_bind_ok.
  2:{ unfold lift. cbn [atomIndex st]. by erewrite upcoming_coder. }
  erewrite state_bind_ok by reflexivity.
  cbn [atomIndex objectIndex st with_indexes buffer Binarizer.objects root flags bodyOffset
       offset decoded created].
  fold (st off (ai + 1) oi dec cr).
  destruct Hup as [_ [rest Hd]].
  unfold leaf_coder, leaf_bytes, early in *.
  destruct (indexes_get table v) as [p |] eqn:Hp.
  - destruct (indexes_get_Some _ _ _ Hp) as [Hr _].
    assert (Hda : decode_atom POSITIVE_INT (st off (ai + 1) oi dec cr)
                  = Ok (Num p, st (off + length (varint p)) (ai + 1) oi dec cr)).
    { pose proof (decode_atom_spec (Num p) off (ai + 1) oi dec cr rest) as Hda.
      cbn [atom_coder atom_bytes atom_ok] in Hda.
      rewrite (proj2 (Z.ltb_ge p 0)) in Hda by lia.
      apply Hda; [unfold safe; lia | done]. }
    cbn [predecode_with]. change (decode_atom POINTER) with (decode_atom POSITIVE_INT).
    erewrite state_bind_ok by exact Hda.
    erewrite state_bind_ok by reflexivity.
    erewrite state_bind_ok by apply get_ok.
    cbn [decoded st]. unfold decoded_at. cbn [decoded st].
    by destruct (p <? Z.of_nat (length dec)).
  - pose proof (leaf_atom _ Hv Hp) as Ha.
    assert (Hpre : predecode_with classes (predecodeNext classes fuel false) (atom_coder v)
                   = decode_atom (atom_coder v)).
    { destruct v as [| | [] | n | | |]; try done. cbn. by destruct (n <? 0). }
    rewrite Hpre.
    erewrite state_bind_ok by (by eapply decode_atom_spec).
    erewrite state_bind_ok by reflexivity.
    erewrite state_bind_ok by apply get_ok.
    destruct v as [| | [] | n | | |]; try done. cbn. by destruct (n <? 0).
Qed.

Lemma run_predecode_leaves fuel vs off ai oi dec cr :
  Forall leaf_ok vs →
  upcoming ai off (leaf_coder table <$> vs) (leaves_bytes table vs) →
  run (length vs) (predecodeNext classes (S fuel) false) (st off ai oi dec cr)
  = Ok (early dec <$> vs,
        st (off + length (leaves_bytes table vs)) (ai + Z.of_nat (length vs)) oi dec cr).
Proof.
  revert off ai. induction vs as [| v vs IH]; intros off ai Hvs Hup.
  - cbn. by rewrite Nat.add_0_r, Z.add_0_r.
  - apply Forall_cons in Hvs as [Hv Hvs].
    unfold leaves_bytes in *. cbn [fmap list_fmap concat length run] in *.
    change (leaf_coder table v :: (leaf_coder table <$> vs))
      with ([leaf_coder table v] ++ (leaf_coder table <$> vs)) in Hup.
    apply upcoming_app in Hup as [Hup1 Hup2].
    erewrite state_bind_ok by (by apply predecode_leaf).
    erewrite state_bind_ok by (by apply IH).
    unfold mret, state_ret. rewrite length_app. do 3 f_equal; cbn [length]; lia.
Qed.

Lemma run_S {A} (m : State Decoder A) n d :
  run (S n) m d
  = match m d with
    | Ok (a, d1) =>
        match run n m d1 with
        | Ok (l, d2) => Ok (a :: l, d2)
        | Err e => Err e
        end
    | Err e => Err e
    end.
Proof.
  cbn [run]. unfold mbind, state_bind. destruct (m d) as [[a d1] |]; [| done].
  by destruct (run n m d1) as [[l d2] |].
Qed.

Lemma seq_ok {A B} (m1 : State Decoder A) (m2 : State Decoder B) d a d1 :
  m1 d = Ok (a, d1) → (m1 ;; m2) d = m2 d1.
Proof. intros H. by rewrite (state_bind_ok _ _ _ _ _ H). Qed.

(** Twice [next] for each pair. *)
Lemma run_twice {A} (m : State Decoder A) n d l d' :
  run (2 * n) m d = Ok (l, d') → ∃ l', run n (m ;; m) d = Ok (l', d').
Proof.
  revert d l. induction n as [| n IH]; intros d l H.
  - cbn in H. injection H as <- <-. by exists [].
  - replace (2 * S n)%nat with (S (S (2 * n))) in H by lia.
    rewrite run_S in H. rewrite run_S.
    destruct (m d) as [[a1 d1] |] eqn:E1; [| done].
    rewrite run_S in H.
    destruct (m d1) as [[a2 d2] |] eqn:E2; [| done].
    destruct (run (2 * n) m d2) as [[l2 d3] |] eqn:E3; [| done].
    injection H as <- <-.
    destruct (IH _ _ E3) as [l' Hl'].
    exists (a2 :: l').
    rewrite (seq_ok _ _ _ _ _ E1), E2, Hl'. done.
Qed.

Variable h : Heap.
Hypothesis plain : Forall (λ c, tagOfConstructor classes c = None)
                          ["Array"; "Object"; "Map"; "Set"].

Local Abbreviation entry_ok := (entry_ok classes h table).

(** The object that [predecode] makes. *)
Definition shell (o : object) : object :=
  match o with
  | Array items => Array (replicate (length items) Undefined)
  | Plain _ => Plain []
  | MapObject _ => MapObject []
  | SetObject _ => SetObject []
  | Instance c _ => Instance c []
  | _ => o
  end.

Lemma array_set_at_length {A} (l : list (option A)) (v : option A) :
  array_set l (Z.of_nat (length l)) v = l ++ [v].
Proof.
  unfold array_set. rewrite Nat2Z.id.
  rewrite (proj2 (Nat.ltb_ge _ _)) by lia. by rewrite Nat.sub_diag.
Qed.

Lemma create_ok o off ai oi dec cr :
  create o (st off ai oi dec cr) = Ok (Ref (length cr), st off ai oi dec (cr ++ [o])).
Proof. done. Qed.

Lemma run_read_sizes (ns : list Z) off ai oi dec cr rest :
  Forall (λ n, 0 ≤ n ≤ MAX_SAFE_INTEGER) ns →
  drop off buf = concat (varint <$> ns) ++ rest →
  run (length ns) (read readVarint) (st off ai oi dec cr)
  = Ok (ns, st (off + length (concat (varint <$> ns))) ai oi dec cr).
Proof.
  revert off. induction ns as [| n ns IH]; intros off Hns Hd.
  - cbn. by rewrite Nat.add_0_r.
  - apply Forall_cons in Hns as [Hn Hns].
    cbn [fmap list_fmap concat length] in *. rewrite <- app_assoc in Hd.
    rewrite run_S.
    erewrite read_ok by (by eapply readVarint_at).
    rewrite IH; [| done |].
    + rewrite length_app. do 3 f_equal. lia.
    + rewrite <- drop_drop, Hd. by rewrite drop_app_length.
Qed.

(** The values of the layers of an instance, one layer after the other. *)
Lemma for_each_layers fuel (layers : list (list string)) vs off ai oi dec cr :
  length vs = length (concat layers) → Forall leaf_ok vs →
  upcoming ai off (leaf_coder table <$> vs) (leaves_bytes table vs) →
  for_each (λ size, run (Z.to_nat size) (predecodeNext classes (S fuel) false) ;; mret tt)
           ((λ keys, Z.of_nat (length keys)) <$> layers) (st off ai oi dec cr)
  = Ok (tt, st (off + length (leaves_bytes table vs)) (ai + Z.of_nat (length vs)) oi dec cr).
Proof.
  revert vs off ai. induction layers as [| l layers IH]; intros vs off ai Hlen Hvs Hup.
  - destruct vs; [| done]. cbn. by rewrite Nat.add_0_r, Z.add_0_r.
  - cbn [concat] in Hlen. rewrite length_app in Hlen.
    pose proof (take_drop (length l) vs) as Hsplit.
    assert (Hl1 : length (take (length l) vs) = length l) by (rewrite length_take; lia).
    assert (Hl2 : length (drop (length l) vs) = length (concat layers))
      by (rewrite length_drop; lia).
    revert Hsplit Hl1 Hl2. generalize (take (length l) vs) (drop (length l) vs).
    intros vs1 vs2 <- Hl1 Hl2.
    apply Forall_app in Hvs as [Hvs1 Hvs2].
    unfold leaves_bytes in *. rewrite fmap_app, concat_app in Hup |- *.
    rewrite fmap_app in Hup.
    apply upcoming_app in Hup as [Hup1 Hup2].
    cbn [fmap list_fmap for_each]. rewrite Nat2Z.id.
    erewrite state_bind_ok.
    2:{ erewrite state_bind_ok; [reflexivity |].
        rewrite <- Hl1 at 1. by apply run_predecode_leaves. }
    rewrite length_fmap in Hup2.
    rewrite (IH vs2); [| done | done | done].
    rewrite !length_app. unfold leaves_bytes.
    by rewrite Nat.add_assoc, Nat2Z.inj_add, Z.add_assoc.
Qed.

Lemma predecodeNext_top fuel c off ai dec cr sv off' ai' cr' :
  coderByIndex (st off ai (Z.of_nat (length dec)) dec cr) ai = Ok c → c ≠ POINTER →
  predecode_with classes (predecodeNext classes (S fuel) false) c
    (st off (ai + 1) (Z.of_nat (length dec) + 1) dec cr)
  = Ok (sv, st off' ai' (Z.of_nat (length dec) + 1) dec cr') →
  predecodeNext classes (S (S fuel)) true (st off ai (Z.of_nat (length dec)) dec cr)
  = Ok (sv, st off' ai' (Z.of_nat (length dec) + 1) (dec ++ [Some sv]) cr').
Proof.
  intros Hc Hp Hpre. cbn [predecodeNext].
  erewrite state_bind_ok by apply get_ok.
  erewrite state_bind_ok by (unfold lift; cbn [atomIndex st]; by rewrite Hc).
  erewrite state_bind_ok by reflexivity.
  cbn [atomIndex objectIndex st with_indexes buffer Binarizer.objects root flags bodyOffset
       offset decoded created].
  fold (st off (ai + 1) (Z.of_nat (length dec) + 1) dec cr).
  fold (predecodeNext classes (S fuel) false).
  erewrite state_bind_ok by exact Hpre.
  erewrite state_bind_ok by reflexivity.
  erewrite state_bind_ok by apply get_ok.
  cbn [decoded st with_decoded buffer Binarizer.objects root flags bodyOffset offset
       atomIndex objectIndex created].
  rewrite array_set_at_length.
  destruct c; try done; by destruct sv.
Qed.

Lemma predecode_with_atom next' v :
  atom_ok v → predecode_with classes next' (atom_coder v) = decode_atom (atom_coder v).
Proof. destruct v as [| | [] | n | | |]; try done. cbn. by destruct (n <? 0). Qed.

Lemma atom_coder_pointer v : atom_ok v → atom_coder v ≠ POINTER.
Proof. destruct v as [| | [] | n | | |]; try done. cbn. by destruct (n <? 0). Qed.

(** What [next(true)] makes of an entry before [finish], and the heap
    of the objects made after it. *)
Definition made (cr : Heap) (v : value) : value :=
  match v with
  | Ref _ => Ref (length cr)
  | _ => v
  end.

Definition made_heap (cr : Heap) (v : value) : Heap :=
  match v with
  | Ref a => from_option (λ o, cr ++ [shell o]) cr (h !! a)
  | _ => cr
  end.

(** The tag of an instance is an entry that was read before. *)
Definition tag_known (dec : list (option value)) (v : value) : Prop :=
  ∀ a c props t, v = Ref a → h !! a = Some (Instance c props) →
    tagOfConstructor classes c = Some t → early dec (Str t) = Str t.

Lemma upcoming_sizes ai off c cs n bs :
  upcoming ai off (c :: cs) (concat (varint <$> [n]) ++ bs) →
  (∃ rest, drop off buf = varint n ++ rest) ∧
  upcoming (ai + 1) (off + length (varint n)) cs bs.
Proof.
  intros Hup. cbn [fmap list_fmap concat] in Hup. rewrite app_nil_r in Hup.
  change (c :: cs) with ([c] ++ cs) in Hup.
  apply upcoming_app in Hup as [[_ Hd] Hup]. done.
Qed.

Lemma flat_map_length2 {A B} (f g : A → B) (l : list A) :
  length (flat_map (λ x, [f x; g x]) l) = (2 * length l)%nat.
Proof. clear. induction l as [| x l IH]; cbn; [done | lia]. Qed.

Lemma registrationOf_constructor c r :
  registrationOf classes c = Some r → constructor r = c.
Proof.
  unfold registrationOf. intros H. apply List.find_some in H as [_ H].
  by apply String.eqb_eq in H.
Qed.

Lemma upcoming_instance ai off c0 c1 cs b1 b2 b3 :
  upcoming ai off (c0 :: c1 :: cs) (b1 ++ b2 ++ b3) →
  upcoming (ai + 1) off [c1] b1 ∧
  (∃ rest, drop (off + length b1) buf = b2 ++ rest) ∧
  upcoming (ai + 2) (off + length b1 + length b2) cs b3.
Proof.
  intros Hup.
  apply (upcoming_app ai off [c0] (c1 :: cs) [] (b1 ++ b2 ++ b3)) in Hup as [_ Hup].
  cbn [length] in Hup. rewrite Nat.add_0_r in Hup.
  apply (upcoming_app _ _ [c1] cs b1 (b2 ++ b3)) in Hup as [Hup1 Hup].
  apply (upcoming_app _ _ [] cs b2 b3) in Hup as [[_ Hd] Hup].
  cbn [length] in Hup.
  replace (ai + Z.of_nat 1 + Z.of_nat 1 + Z.of_nat 0) with (ai + 2) in Hup by lia.
  done.
Qed.

(** [next(true)] on an entry of the table, before [finish]. *)
Lemma predecode_entry fuel v off ai dec cr :
  entry_ok v →
  upcoming ai off (entry_coders classes table h v) (entry_bytes classes table h v) →
  tag_known dec v →
  predecodeNext classes (S (S fuel)) true (st off ai (Z.of_nat (length dec)) dec cr)
  = Ok (made cr v,
        st (off + length (entry_bytes classes table h v))
           (ai + Z.of_nat (length (entry_coders classes table h v)))
           (Z.of_nat (length dec) + 1) (dec ++ [Some (made cr v)]) (made_heap cr v)).
Proof.
  intros Hv Hup Htag.
  assert (Hatom : atom_ok v →
    upcoming ai off [atom_coder v] (atom_bytes v) →
    predecodeNext classes (S (S fuel)) true (st off ai (Z.of_nat (length dec)) dec cr)
    = Ok (v, st (off + length (atom_bytes v)) (ai + Z.of_nat 1)
                (Z.of_nat (length dec) + 1) (dec ++ [Some v]) cr)).
  { intros Ha Hu. apply (predecodeNext_top _ (atom_coder v)).
    - by eapply upcoming_coder.
    - by apply atom_coder_pointer.
    - rewrite predecode_with_atom by done.
      destruct Hu as [_ [rest Hd]]. by eapply decode_atom_spec. }
  destruct v as [| | b | n | bytes | s | a]; try (by apply Hatom).
  destruct Hv as (o & Ha & Ho & Hn & Hc).
  unfold entry_coders, entry_bytes, made, made_heap in *. rewrite Ha in *.
  cbn [from_option] in *. unfold object_coders, object_bytes in *.
  apply (predecodeNext_top _ (object_coder o)); [by eapply upcoming_coder | by destruct o |].
  destruct o as [items | props | entries | elements | c props | v | b]; try done;
    cbn [object_coder predecode_with nested sizes cells shell length] in *.
  - (* Array *)
    apply upcoming_sizes in Hup as [[rest Hd] Hup].
    erewrite state_bind_ok by (apply read_ok; eapply readVarint_at; [exact Hd | lia]).
    rewrite Nat2Z.id.
    erewrite state_bind_ok by (by apply run_predecode_leaves).
    rewrite create_ok. rewrite length_app, length_fmap. cbn [fmap list_fmap concat].
    rewrite app_nil_r. do 3 f_equal; lia.
  - (* Plain *)
    apply upcoming_sizes in Hup as [[rest Hd] Hup].
    erewrite state_bind_ok by (apply read_ok; eapply readVarint_at; [exact Hd | lia]).
    rewrite Nat2Z.id.
    pose proof (run_predecode_leaves fuel _ _ _ (Z.of_nat (length dec) + 1) dec cr Hn Hup)
      as Hrun.
    rewrite flat_map_length2 in Hrun.
    destruct (run_twice _ _ _ _ _ Hrun) as [l' Hl'].
    erewrite state_bind_ok by exact Hl'.
    rewrite create_ok. rewrite length_app, length_fmap, flat_map_length2.
    cbn [fmap list_fmap concat]. rewrite app_nil_r. do 3 f_equal; lia.
  - (* Map *)
    apply upcoming_sizes in Hup as [[rest Hd] Hup].
    erewrite state_bind_ok by (apply read_ok; eapply readVarint_at; [exact Hd | lia]).
    rewrite Nat2Z.id.
    pose proof (run_predecode_leaves fuel _ _ _ (Z.of_nat (length dec) + 1) dec cr Hn Hup)
      as Hrun.
    rewrite flat_map_length2 in Hrun.
    destruct (run_twice _ _ _ _ _ Hrun) as [l' Hl'].
    erewrite state_bind_ok by exact Hl'.
    rewrite create_ok. rewrite length_app, length_fmap, flat_map_length2.
    cbn [fmap list_fmap concat]. rewrite app_nil_r. do 3 f_equal; lia.
  - (* Set *)
    apply upcoming_sizes in Hup as [[rest Hd] Hup].
    erewrite state_bind_ok by (apply read_ok; eapply readVarint_at; [exact Hd | lia]).
    rewrite Nat2Z.id.
    erewrite state_bind_ok by (by apply run_predecode_leaves).
    rewrite create_ok. rewrite length_app, length_fmap. cbn [fmap list_fmap concat].
    rewrite app_nil_r. do 3 f_equal; lia.
  - (* Instance *)
    destruct Ho as (r & Hr & Hcoder & Hct & _ & Hkeys & Hnd & _).
    specialize (Htag a c props (tag r) eq_refl Ha).
    unfold tagOfConstructor in *. rewrite Hr in *.
    cbn [fmap option_fmap option_map from_option] in *.
    specialize (Htag eq_refl).
    apply Forall_cons in Hn as [Ht Hn].
    rewrite fmap_app in Hup. cbn [fmap list_fmap app] in Hup.
    unfold leaves_bytes in Hup at 1. cbn [fmap list_fmap concat] in Hup.
    rewrite app_nil_r in Hup.
    apply upcoming_instance in Hup as (Hup1 & [rest Hd] & Hup).
    replace (ai + 2) with (ai + 1 + 1) in Hup by lia.
    erewrite state_bind_ok by (by apply predecode_leaf).
    rewrite Htag, Hct, Hcoder.
    assert (Hsizes : Forall (λ n, 0 ≤ n ≤ MAX_SAFE_INTEGER)
                       ((λ keys : list string, Z.of_nat (length keys)) <$> binaryKeys r)).
    { assert (Hls : Forall (λ keys : list string,
                               Z.of_nat (length keys) ≤ MAX_SAFE_INTEGER) (binaryKeys r)).
      { apply layers_small. rewrite <- Hkeys, length_fmap. lia. }
      apply Forall_fmap. eapply Forall_impl; [exact Hls |].
      intros keys Hk. unfold compose. split; [apply Nat2Z.is_nonneg | exact Hk]. }
    erewrite state_bind_ok.
    2:{ rewrite <- (length_fmap (λ keys : list string, Z.of_nat (length keys))).
        by eapply run_read_sizes. }
    erewrite state_bind_ok.
    2:{ apply for_each_layers; [| done | done].
        by rewrite <- Hkeys, !length_fmap. }
    rewrite create_ok, (registrationOf_constructor _ _ Hr).
    unfold leaves_bytes. cbn [fmap list_fmap concat length].
    rewrite ?length_app, ?length_fmap, ?app_nil_r. cbn [length app].
    rewrite ?length_fmap. do 3 f_equal; lia.
Qed.

(** *** After [finish] *)

Lemma decode_leaf fuel v off ai oi dec cr :
  leaf_ok v → upcoming ai off [leaf_coder table v] (leaf_bytes table v) →
  decodeNext classes (S fuel) false (st off ai oi dec cr)
  = Ok (late dec v, st (off + length (leaf_bytes table v)) (ai + 1) oi dec cr).
Proof.
  intros Hv Hup. cbn [decodeNext].
  erewrite state_bind_ok by apply get_ok.
  erewrite state_bind_ok.
  2:{ unfold lift. cbn [atomIndex st]. by erewrite upcoming_coder. }
  erewrite state_bind_ok by reflexivity.
  cbn [atomIndex objectIndex st with_indexes buffer Binarizer.objects root flags bodyOffset
       offset decoded created].
  fold (st off (ai + 1) oi dec cr).
  destruct Hup as [_ [rest Hd]].
  unfold leaf_coder, leaf_bytes, late in *.
  destruct (indexes_get table v) as [p |] eqn:Hp.
  - destruct (indexes_get_Some _ _ _ Hp) as [Hr _].
    erewrite state_bind_ok by (apply read_ok; eapply readVarint_at; [exact Hd | lia]).
    erewrite state_bind_ok by apply get_ok.
    done.
  - pose proof (leaf_atom _ Hv Hp) as Ha.
    assert (Hdec : ∀ t,
      match atom_coder v with
      | POINTER =>
          p ← read readVarint; d' ← get; mret (decoded_at d' p)
      | _ => decode_with classes (decodeNext classes fuel false) (atom_coder v) t
      end = decode_atom (atom_coder v)).
    { intros t. destruct v as [| | [] | n | | |]; try done. cbn. by destruct (n <? 0). }
    rewrite Hdec. by eapply decode_atom_spec.
Qed.

Lemma update_ok a o o' f off ai oi dec cr :
  cr !! a = Some o → f o = Ok o' →
  update (Ref a) f (st off ai oi dec cr) = Ok (tt, st off ai oi dec (<[a := o']> cr)).
Proof.
  intros Ha Hf. unfold update, object_at. cbn [created st]. rewrite Ha. cbn.
  rewrite Hf. done.
Qed.

Lemma assoc_set_new {K V} `{EqDecision K} (m : list (K * V)) k v :
  k ∉ m.*1 → assoc_set m k v = m ++ [(k, v)].
Proof.
  induction m as [| [k' v'] m IH]; intros Hk; [done |].
  cbn in Hk. apply not_elem_of_cons in Hk as [Hne Hk].
  cbn. rewrite decide_False by done. by rewrite IH.
Qed.

Lemma set_item_next (items : list value) n v :
  set_item (items ++ replicate (S n) Undefined) (length items) v
  = (items ++ [v]) ++ replicate n Undefined.
Proof.
  unfold set_item. rewrite length_app, length_replicate.
  rewrite (proj2 (Nat.ltb_lt _ _)) by lia.
  rewrite insert_app_r_alt by lia. rewrite Nat.sub_diag. cbn.
  by rewrite <- app_assoc.
Qed.

(** The table of the decoded values [full] gives each value of the
    table under a renaming of the objects. *)
Variable ren : nat → nat.
Variable full : list (option value).
Hypothesis late_ren : ∀ v, leaf_ok v → late full v = rename ren v.
Hypothesis ren_inj : ∀ v w, leaf_ok v → leaf_ok w → rename ren v = rename ren w → v = w.

Lemma decode_items fuel a' todo done off ai oi cr :
  Forall leaf_ok todo →
  upcoming ai off (leaf_coder table <$> todo) (leaves_bytes table todo) →
  cr !! a' = Some (Array ((rename ren <$> done) ++ replicate (length todo) Undefined)) →
  for_each (λ i,
      v ← decodeNext classes (S fuel) false;
      update (Ref a') (λ o, match o with
                            | Array items => Ok (Array (set_item items i v))
                            | _ => Err ShapeError
                            end))
    (seq (length done) (length todo)) (st off ai oi full cr)
  = Ok (tt, st (off + length (leaves_bytes table todo)) (ai + Z.of_nat (length todo)) oi full
               (<[a' := Array (rename ren <$> (done ++ todo))]> cr)).
Proof.
  revert done off ai cr. induction todo as [| v todo IH]; intros done off ai cr Hvs Hup Ha.
  - cbn in *. rewrite app_nil_r in *. rewrite list_insert_id by done.
    by rewrite Nat.add_0_r, Z.add_0_r.
  - apply Forall_cons in Hvs as [Hv Hvs].
    unfold leaves_bytes in *. cbn [fmap list_fmap concat length seq for_each] in *.
    change (leaf_coder table v :: (leaf_coder table <$> todo))
      with ([leaf_coder table v] ++ (leaf_coder table <$> todo)) in Hup.
    apply upcoming_app in Hup as [Hup1 Hup2].
    erewrite state_bind_ok; last first.
    { erewrite state_bind_ok by (by apply decode_leaf).
      eapply update_ok; [exact Ha |]. cbn beta iota.
      rewrite <- (length_fmap (rename ren) done), set_item_next. reflexivity. }
    rewrite late_ren by done.
    replace (S (length done)) with (length (done ++ [v])) by (rewrite length_app; cbn; lia).
    rewrite (IH (done ++ [v])); [| done | done |].
    + rewrite list_insert_insert_eq, <- app_assoc, length_app. cbn [app length].
      do 3 f_equal; lia.
    + rewrite list_lookup_insert_eq by (by eapply lookup_lt_Some).
      by rewrite fmap_app.
Qed.

(** An object with properties, and its properties. *)
Definition with_props (o : object) (props : list (string * value)) : object :=
  match o with
  | Instance c _ => Instance c props
  | _ => Plain props
  end.

Definition has_props (o : object) : Prop :=
  match o with
  | Plain _ | Instance _ _ => True
  | _ => False
  end.

Lemma set_property_with o props k v :
  has_props o →
  set_property k v (with_props o props) = Ok (with_props o (assoc_set props k v)).
Proof. by destruct o. Qed.

Local Abbreviation renamed := (fmap (M := list) (prod_map id (rename ren))).

Lemma decode_keys fuel a' o todo done off ai oi cr :
  has_props o → NoDup (done ++ todo).*1 →
  Forall leaf_ok (flat_map (λ kv, [Str kv.1; kv.2]) todo) →
  upcoming ai off (leaf_coder table <$> flat_map (λ kv, [Str kv.1; kv.2]) todo)
           (leaves_bytes table (flat_map (λ kv, [Str kv.1; kv.2]) todo)) →
  cr !! a' = Some (with_props o (renamed done)) →
  ∃ l,
    run (length todo)
        (key ← decodeNext classes (S fuel) false;
         v ← decodeNext classes (S fuel) false;
         match key with
         | Str k => update (Ref a') (set_property k v)
         | _ => throw ShapeError
         end) (st off ai oi full cr)
    = Ok (l, st (off + length (leaves_bytes table (flat_map (λ kv, [Str kv.1; kv.2]) todo)))
                (ai + Z.of_nat (2 * length todo)) oi full
                (<[a' := with_props o (renamed (done ++ todo))]> cr)).
Proof.
  intros Ho.
  revert done off ai cr. induction todo as [| [k v] todo IH];
    intros done off ai cr Hnd Hvs Hup Ha.
  - exists []. cbn in *. rewrite app_nil_r in *. rewrite list_insert_id by done.
    by rewrite Nat.add_0_r, Z.add_0_r.
  - cbn [flat_map app fst snd] in *.
    apply Forall_cons in Hvs as [Hk Hvs]. apply Forall_cons in Hvs as [Hv Hvs].
    unfold leaves_bytes in *. cbn [fmap list_fmap concat length] in *.
    change (?c1 :: ?c2 :: ?cs) with ([c1] ++ [c2] ++ cs) in Hup.
    apply upcoming_app in Hup as [Hup1 Hup].
    apply upcoming_app in Hup as [Hup2 Hup].
    assert (Hstep :
      (key ← decodeNext classes (S fuel) false;
       v ← decodeNext classes (S fuel) false;
       match key with
       | Str k => update (Ref a') (set_property k v)
       | _ => throw ShapeError
       end) (st off ai oi full cr)
      = Ok (tt, st (off + length (leaf_bytes table (Str k)) + length (leaf_bytes table v))
                   (ai + 1 + 1) oi full
                   (<[a' := with_props o (renamed (done ++ [(k, v)]))]> cr))).
    { erewrite state_bind_ok by (by apply (decode_leaf _ (Str k))).
      erewrite state_bind_ok by (by apply (decode_leaf _ v)).
      rewrite !late_ren by done. cbn [rename].
      eapply update_ok; [exact Ha |].
      rewrite set_property_with by done. rewrite assoc_set_new; [by rewrite fmap_app |].
      rewrite <- list_fmap_compose.
      rewrite fmap_app in Hnd. apply NoDup_app in Hnd as (_ & Hnd & _).
      intros Hin. apply (Hnd k); [| apply list_elem_of_here].
      apply list_elem_of_fmap in Hin as [[k' v'] [-> Hin]].
      apply list_elem_of_fmap. by exists (k', v'). }
    rewrite run_S, Hstep.
    cbn [length] in Hup. change (ai + Z.of_nat 1 + Z.of_nat 1) with (ai + 1 + 1) in Hup.
    destruct (IH (done ++ [(k, v)])
                 (off + length (leaf_bytes table (Str k)) + length (leaf_bytes table v))%nat
                 (ai + 1 + 1)
                 (<[a' := with_props o (renamed (done ++ [(k, v)]))]> cr)) as [l Hl];
      [by rewrite <- app_assoc | exact Hvs | exact Hup | |].
    { rewrite list_lookup_insert_eq by (by eapply lookup_lt_Some). done. }
    cbn [length] in Hl. rewrite Hl. exists (tt :: l).
    rewrite list_insert_insert_eq, <- app_assoc, !length_app. cbn [app].
    do 3 f_equal; lia.
Qed.

Lemma decode_values fuel a' o todo done off ai oi cr :
  has_props o → NoDup (done ++ todo).*1 →
  Forall leaf_ok todo.*2 →
  upcoming ai off (leaf_coder table <$> todo.*2) (leaves_bytes table todo.*2) →
  cr !! a' = Some (with_props o (renamed done)) →
  for_each (λ key, v ← decodeNext classes (S fuel) false;
                   update (Ref a') (set_property key v)) todo.*1 (st off ai oi full cr)
  = Ok (tt, st (off + length (leaves_bytes table todo.*2))
               (ai + Z.of_nat (length todo)) oi full
               (<[a' := with_props o (renamed (done ++ todo))]> cr)).
Proof.
  intros Ho.
  revert done off ai cr. induction todo as [| [k v] todo IH];
    intros done off ai cr Hnd Hvs Hup Ha.
  - cbn in *. rewrite app_nil_r in *. rewrite list_insert_id by done.
    by rewrite Nat.add_0_r, Z.add_0_r.
  - cbn [fmap list_fmap fst snd] in *.
    apply Forall_cons in Hvs as [Hv Hvs].
    unfold leaves_bytes in *. cbn [fmap list_fmap concat length for_each] in *.
    change (?c1 :: ?cs) with ([c1] ++ cs) in Hup.
    apply upcoming_app in Hup as [Hup1 Hup].
    erewrite state_bind_ok; last first.
    { erewrite state_bind_ok by (by apply (decode_leaf _ v)).
      rewrite late_ren by done.
      eapply update_ok; [exact Ha |].
      rewrite set_property_with by done. rewrite assoc_set_new; [reflexivity |].
      rewrite <- list_fmap_compose.
      rewrite fmap_app in Hnd. apply NoDup_app in Hnd as (_ & Hnd & _).
      intros Hin. apply (Hnd k); [| apply list_elem_of_here].
      apply list_elem_of_fmap in Hin as [[k' v'] [-> Hin]].
      apply list_elem_of_fmap. by exists (k', v'). }
    cbn [length] in Hup. change (ai + Z.of_nat 1) with (ai + 1) in Hup.
    rewrite (IH (done ++ [(k, v)])); [| by rewrite <- app_assoc | done | done |].
    + rewrite list_insert_insert_eq, <- app_assoc, !length_app. cbn [app].
      do 3 f_equal; lia.
    + rewrite list_lookup_insert_eq by (by eapply lookup_lt_Some).
      by rewrite fmap_app.
Qed.

Lemma for_each_ext {S A} (f g : A → State S unit) l s :
  (∀ a s', f a s' = g a s') → for_each f l s = for_each g l s.
Proof.
  intros H. revert s. induction l as [| a l IH]; intros s; [done |].
  cbn [for_each]. unfold mbind, state_bind. rewrite H.
  destruct (g a s) as [[[] s'] |]; [apply IH | done].
Qed.

Lemma for_each_fmap {S A B} (f : B → State S unit) (g : A → B) l s :
  for_each f (g <$> l) s = for_each (λ a, f (g a)) l s.
Proof.
  revert s. induction l as [| a l IH]; intros s; [done |].
  cbn [for_each fmap list_fmap]. unfold mbind, state_bind.
  destruct (f (g a) s) as [[[] s'] |]; [apply IH | done].
Qed.

(** The keys of a layer by their places. *)
Lemma for_each_places {S} (f : string → State S unit) (pre l : list string) s :
  for_each (λ k, f (default "undefined" ((pre ++ l) !! k))) (seq (length pre) (length l)) s
  = for_each f l s.
Proof.
  revert pre s. induction l as [| key l IH]; intros pre s; [done |].
  cbn [length seq for_each].
  rewrite (lookup_app_r pre) by lia. rewrite Nat.sub_diag. cbn [lookup list_lookup default].
  unfold mbind, state_bind. cbn [from_option id].
  destruct (f key s) as [[[] s'] |]; [| done].
  specialize (IH (pre ++ [key]) s'). rewrite <- app_assoc, length_app in IH.
  cbn [app length] in IH. rewrite Nat.add_1_r in IH. exact IH.
Qed.

Lemma zip_sizes (layers : list (list string)) :
  zip layers ((λ keys : list string, Z.of_nat (length keys)) <$> layers)
  = (λ keys, (keys, Z.of_nat (length keys))) <$> layers.
Proof. induction layers as [| l layers IH]; [done |]. cbn. by rewrite IH. Qed.

Lemma decode_layers fuel a' (layers : list (list string)) s :
  for_each (λ ks : list string * Z,
      for_each (λ k,
          v ← decodeNext classes (S fuel) false;
          update (Ref a') (set_property (default "undefined" (ks.1 !! k)) v))
        (seq 0 (Z.to_nat ks.2)))
    (zip layers ((λ keys : list string, Z.of_nat (length keys)) <$> layers)) s
  = for_each (λ key, v ← decodeNext classes (S fuel) false;
                     update (Ref a') (set_property key v)) (concat layers) s.
Proof.
  rewrite zip_sizes, for_each_fmap, <- for_each_concat.
  apply for_each_ext. intros l s'. cbn [fst snd]. rewrite Nat2Z.id.
  apply (for_each_places
           (λ key, v ← decodeNext classes (S fuel) false;
                   update (Ref a') (set_property key v)) [] l).
Qed.

Lemma rename_elem (l : list value) v :
  Forall leaf_ok l → leaf_ok v → rename ren v ∈ rename ren <$> l → v ∈ l.
Proof.
  intros Hl Hv Hin. apply list_elem_of_fmap in Hin as [w [Heq Hw]].
  rewrite Forall_forall in Hl.
  by rewrite (ren_inj v w Hv (Hl w Hw) Heq).
Qed.

Lemma decode_map fuel a' todo done off ai oi cr :
  NoDup (done ++ todo).*1 → Forall leaf_ok (done ++ todo).*1 →
  Forall leaf_ok (flat_map (λ kv, [kv.1; kv.2]) todo) →
  upcoming ai off (leaf_coder table <$> flat_map (λ kv, [kv.1; kv.2]) todo)
           (leaves_bytes table (flat_map (λ kv, [kv.1; kv.2]) todo)) →
  cr !! a' = Some (MapObject (prod_map (rename ren) (rename ren) <$> done)) →
  ∃ l,
    run (length todo)
        (k ← decodeNext classes (S fuel) false;
         v ← decodeNext classes (S fuel) false;
         update (Ref a') (λ o, match o with
                               | MapObject entries => Ok (MapObject (assoc_set entries k v))
                               | _ => Err TypeError
                               end)) (st off ai oi full cr)
    = Ok (l, st (off + length (leaves_bytes table (flat_map (λ kv, [kv.1; kv.2]) todo)))
                (ai + Z.of_nat (2 * length todo)) oi full
                (<[a' := MapObject (prod_map (rename ren) (rename ren) <$> (done ++ todo))]> cr)).
Proof.
  revert done off ai cr. induction todo as [| [k v] todo IH];
    intros done off ai cr Hnd Hks Hvs Hup Ha.
  - exists []. cbn in *. rewrite app_nil_r in *. rewrite list_insert_id by done.
    by rewrite Nat.add_0_r, Z.add_0_r.
  - cbn [flat_map app fst snd] in *.
    apply Forall_cons in Hvs as [Hk Hvs]. apply Forall_cons in Hvs as [Hv Hvs].
    unfold leaves_bytes in *. cbn [fmap list_fmap concat length] in *.
    change (?c1 :: ?c2 :: ?cs) with ([c1] ++ [c2] ++ cs) in Hup.
    apply upcoming_app in Hup as [Hup1 Hup].
    apply upcoming_app in Hup as [Hup2 Hup].
    assert (Hstep :
      (k ← decodeNext classes (S fuel) false;
       v ← decodeNext classes (S fuel) false;
       update (Ref a') (λ o, match o with
                             | MapObject entries => Ok (MapObject (assoc_set entries k v))
                             | _ => Err TypeError
                             end)) (st off ai oi full cr)
      = Ok (tt, st (off + length (leaf_bytes table k) + length (leaf_bytes table v))
                   (ai + 1 + 1) oi full
                   (<[a' := MapObject (prod_map (rename ren) (rename ren)
                                         <$> (done ++ [(k, v)]))]> cr))).
    { erewrite state_bind_ok by (by apply (decode_leaf _ k)).
      erewrite state_bind_ok by (by apply (decode_leaf _ v)).
      rewrite !late_ren by done.
      eapply update_ok; [exact Ha |]. cbn beta iota.
      rewrite assoc_set_new; [by rewrite fmap_app |].
      rewrite <- list_fmap_compose.
      change (fst ∘ prod_map (rename ren) (rename ren)) with (rename ren ∘ fst (B := value)).
      rewrite list_fmap_compose.
      rewrite fmap_app in Hnd, Hks. apply NoDup_app in Hnd as (_ & Hnd & _).
      apply Forall_app in Hks as [Hks _].
      intros Hin. apply rename_elem in Hin; [| done | done].
      apply (Hnd k); [done | apply list_elem_of_here]. }
    rewrite run_S, Hstep.
    cbn [length] in Hup. change (ai + Z.of_nat 1 + Z.of_nat 1) with (ai + 1 + 1) in Hup.
    destruct (IH (done ++ [(k, v)])
                 (off + length (leaf_bytes table k) + length (leaf_bytes table v))%nat
                 (ai + 1 + 1)
                 (<[a' := MapObject (prod_map (rename ren) (rename ren)
                                       <$> (done ++ [(k, v)]))]> cr)) as [l Hl];
      [by rewrite <- app_assoc | by rewrite <- app_assoc | exact Hvs | exact Hup | |].
    { rewrite list_lookup_insert_eq by (by eapply lookup_lt_Some). done. }
    cbn [length] in Hl. rewrite Hl. exists (tt :: l).
    rewrite list_insert_insert_eq, <- app_assoc, !length_app. cbn [app].
    do 3 f_equal; lia.
Qed.

Lemma decode_set fuel a' todo done off ai oi cr :
  NoDup (done ++ todo) → Forall leaf_ok (done ++ todo) →
  upcoming ai off (leaf_coder table <$> todo) (leaves_bytes table todo) →
  cr !! a' = Some (SetObject (rename ren <$> done)) →
  ∃ l,
    run (length todo)
        (v ← decodeNext classes (S fuel) false;
         update (Ref a') (λ o, match o with
                               | SetObject elements => Ok (SetObject (set_add elements v))
                               | _ => Err TypeError
                               end)) (st off ai oi full cr)
    = Ok (l, st (off + length (leaves_bytes table todo))
                (ai + Z.of_nat (length todo)) oi full
                (<[a' := SetObject (rename ren <$> (done ++ todo))]> cr)).
Proof.
  revert done off ai cr. induction todo as [| v todo IH];
    intros done off ai cr Hnd Hvs Hup Ha.
  - exists []. cbn in *. rewrite app_nil_r in *. rewrite list_insert_id by done.
    by rewrite Nat.add_0_r, Z.add_0_r.
  - pose proof Hvs as Hall.
    apply Forall_app in Hvs as [Hdone Hvs]. apply Forall_cons in Hvs as [Hv Hvs].
    unfold leaves_bytes in *. cbn [fmap list_fmap concat length] in *.
    change (?c1 :: ?cs) with ([c1] ++ cs) in Hup.
    apply upcoming_app in Hup as [Hup1 Hup].
    assert (Hstep :
      (v ← decodeNext classes (S fuel) false;
       update (Ref a') (λ o, match o with
                             | SetObject elements => Ok (SetObject (set_add elements v))
                             | _ => Err TypeError
                             end)) (st off ai oi full cr)
      = Ok (tt, st (off + length (leaf_bytes table v)) (ai + 1) oi full
                   (<[a' := SetObject (rename ren <$> (done ++ [v]))]> cr))).
    { erewrite state_bind_ok by (by apply (decode_leaf _ v)).
      rewrite late_ren by done.
      eapply update_ok; [exact Ha |]. cbn beta iota.
      unfold set_add. rewrite decide_False; [by rewrite fmap_app |].
      intros Hin. apply rename_elem in Hin; [| done | done].
      apply NoDup_app in Hnd as (_ & Hnd & _).
      apply (Hnd v); [done | apply list_elem_of_here]. }
    rewrite run_S, Hstep.
    cbn [length] in Hup. change (ai + Z.of_nat 1) with (ai + 1) in Hup.
    destruct (IH (done ++ [v]) (off + length (leaf_bytes table v))%nat (ai + 1)
                 (<[a' := SetObject (rename ren <$> (done ++ [v]))]> cr)) as [l Hl];
      [by rewrite <- app_assoc | by rewrite <- app_assoc | exact Hup | |].
    { rewrite list_lookup_insert_eq by (by eapply lookup_lt_Some). done. }
    rewrite Hl. exists (tt :: l).
    rewrite list_insert_insert_eq, <- app_assoc, !length_app. cbn [app].
    do 3 f_equal; lia.
Qed.

Lemma decodeNext_top fuel c off ai oi cr r off' ai' cr' :
  coderByIndex (st off ai oi full cr) ai = Ok c → c ≠ POINTER →
  decode_with classes (decodeNext classes (S fuel) false) c
    (decoded_at (st off ai oi full cr) oi) (st off (ai + 1) (oi + 1) full cr)
  = Ok (r, st off' ai' (oi + 1) full cr') →
  decodeNext classes (S (S fuel)) true (st off ai oi full cr)
  = Ok (r, st off' ai' (oi + 1) full cr').
Proof.
  intros Hc Hp Hdec. cbn [decodeNext].
  erewrite state_bind_ok by apply get_ok.
  erewrite state_bind_ok by (unfold lift; cbn [atomIndex st]; by rewrite Hc).
  erewrite state_bind_ok by reflexivity.
  cbn [atomIndex objectIndex st with_indexes buffer Binarizer.objects root flags bodyOffset
       offset decoded created].
  fold (st off (ai + 1) (oi + 1) full cr).
  fold (st off ai oi full cr).
  fold (decodeNext classes (S fuel) false).
  by destruct c.
Qed.

Lemma decode_with_atom next' v t :
  atom_ok v → decode_with classes next' (atom_coder v) t = decode_atom (atom_coder v).
Proof. destruct v as [| | [] | n | | |]; try done. cbn. by destruct (n <? 0). Qed.

(** The heap after [next(true)] on an entry, after [finish]. *)
Definition filled (cr : Heap) (v : value) : Heap :=
  match v with
  | Ref a => from_option (λ o, <[ren a := rename_object ren o]> cr) cr (h !! a)
  | _ => cr
  end.

Lemma pairs_keys (entries : list (value * value)) :
  Forall leaf_ok (flat_map (λ kv, [kv.1; kv.2]) entries) → Forall leaf_ok entries.*1.
Proof.
  induction entries as [| [k v] entries IH]; intros H; [done |].
  cbn in H. apply Forall_cons in H as [Hk H]. apply Forall_cons in H as [_ H].
  cbn. apply Forall_cons. split; [done | by apply IH].
Qed.

Lemma seq_done {A} (m : State Decoder A) (r : value) d a d' :
  m d = Ok (a, d') → (m ;; mret r) d = Ok (r, d').
Proof. intros H. by rewrite (seq_ok _ _ _ _ _ H). Qed.

(** [next(true)] on an entry of the table, after [finish]. *)
Lemma decode_entry fuel v off ai oi cr :
  entry_ok v →
  upcoming ai off (entry_coders classes table h v) (entry_bytes classes table h v) →
  decoded_at (st off ai oi full cr) oi = rename ren v →
  (∀ a o, v = Ref a → h !! a = Some o → cr !! ren a = Some (shell o)) →
  ∃ r,
    decodeNext classes (S (S fuel)) true (st off ai oi full cr)
    = Ok (r, st (off + length (entry_bytes classes table h v))
                (ai + Z.of_nat (length (entry_coders classes table h v)))
                (oi + 1) full (filled cr v)).
Proof.
  intros Hv Hup Hpre Hshell.
  assert (Hatom : atom_ok v →
    upcoming ai off [atom_coder v] (atom_bytes v) →
    ∃ r, decodeNext classes (S (S fuel)) true (st off ai oi full cr)
         = Ok (r, st (off + length (atom_bytes v)) (ai + Z.of_nat 1) (oi + 1) full cr)).
  { intros Ha Hu. exists v. apply (decodeNext_top _ (atom_coder v)).
    - by eapply upcoming_coder.
    - by apply atom_coder_pointer.
    - rewrite decode_with_atom by done.
      destruct Hu as [_ [rest Hd]]. by eapply decode_atom_spec. }
  destruct v as [| | b | n | bytes | s | a]; try (by apply Hatom).
  destruct Hv as (o & Ha & Ho & Hn & Hc).
  specialize (Hshell a o eq_refl Ha).
  unfold entry_coders, entry_bytes, filled in *. rewrite Ha in *.
  cbn [from_option rename] in *. unfold object_coders, object_bytes in *.
  exists (Ref (ren a)).
  apply (decodeNext_top _ (object_coder o)); [by eapply upcoming_coder | by destruct o |].
  rewrite Hpre.
  destruct o as [items | props | entries | elements | c props | v | b]; try done;
    cbn [object_coder decode_with nested sizes cells shell length rename_object] in *.
  - (* Array *)
    apply upcoming_sizes in Hup as [[rest Hd] Hup].
    erewrite state_bind_ok by (apply read_ok; eapply readVarint_at; [exact Hd | lia]).
    rewrite Nat2Z.id.
    erewrite seq_done.
    2:{ apply (decode_items fuel (ren a) items []); [done | done | done]. }
    rewrite length_app, length_fmap. cbn [fmap list_fmap concat app].
    rewrite app_nil_r. do 3 f_equal; lia.
  - (* Plain *)
    destruct Ho as (Hnd & _ & _).
    apply upcoming_sizes in Hup as [[rest Hd] Hup].
    erewrite state_bind_ok by (apply read_ok; eapply readVarint_at; [exact Hd | lia]).
    rewrite Nat2Z.id.
    destruct (decode_keys fuel (ren a) (Plain []) props [] _ _ (oi + 1) cr
                I Hnd Hn Hup Hshell) as [l Hl].
    erewrite seq_done by exact Hl.
    rewrite length_app, length_fmap, flat_map_length2. cbn [fmap list_fmap concat app].
    rewrite app_nil_r. cbn [with_props]. do 3 f_equal; lia.
  - (* Map *)
    destruct Ho as (Hnd & _ & _).
    apply upcoming_sizes in Hup as [[rest Hd] Hup].
    erewrite state_bind_ok by (apply read_ok; eapply readVarint_at; [exact Hd | lia]).
    rewrite Nat2Z.id.
    destruct (decode_map fuel (ren a) entries [] _ _ (oi + 1) cr
                Hnd (pairs_keys _ Hn) Hn Hup Hshell) as [l Hl].
    erewrite seq_done by exact Hl.
    rewrite length_app, length_fmap, flat_map_length2. cbn [fmap list_fmap concat app].
    rewrite app_nil_r. do 3 f_equal; lia.
  - (* Set *)
    destruct Ho as (Hnd & _).
    apply upcoming_sizes in Hup as [[rest Hd] Hup].
    erewrite state_bind_ok by (apply read_ok; eapply readVarint_at; [exact Hd | lia]).
    rewrite Nat2Z.id.
    destruct (decode_set fuel (ren a) elements [] _ _ (oi + 1) cr
                Hnd Hn Hup Hshell) as [l Hl].
    erewrite seq_done by exact Hl.
    rewrite length_app, length_fmap. cbn [fmap list_fmap concat app].
    rewrite app_nil_r. do 3 f_equal; lia.
  - (* Instance *)
    destruct Ho as (r & Hr & Hcoder & Hct & _ & Hkeys & Hnd & _).
    unfold tagOfConstructor in *. rewrite Hr in *.
    cbn [fmap option_fmap option_map from_option] in *.
    apply Forall_cons in Hn as [Ht Hn].
    rewrite fmap_app in Hup. cbn [fmap list_fmap app] in Hup.
    unfold leaves_bytes in Hup at 1. cbn [fmap list_fmap concat] in Hup.
    rewrite app_nil_r in Hup.
    apply upcoming_instance in Hup as (Hup1 & [rest Hd] & Hup).
    replace (ai + 2) with (ai + 1 + 1) in Hup by lia.
    erewrite state_bind_ok by (by apply (decode_leaf _ (Str (tag r)))).
    rewrite late_ren by done. cbn [rename]. rewrite Hct, Hcoder.
    assert (Hsizes : Forall (λ n, 0 ≤ n ≤ MAX_SAFE_INTEGER)
                       ((λ keys : list string, Z.of_nat (length keys)) <$> binaryKeys r)).
    { assert (Hls : Forall (λ keys : list string,
                               Z.of_nat (length keys) ≤ MAX_SAFE_INTEGER) (binaryKeys r)).
      { apply layers_small. rewrite <- Hkeys, length_fmap. lia. }
      apply Forall_fmap. eapply Forall_impl; [exact Hls |].
      intros keys Hk. unfold compose. split; [apply Nat2Z.is_nonneg | exact Hk]. }
    erewrite state_bind_ok.
    2:{ rewrite <- (length_fmap (λ keys : list string, Z.of_nat (length keys))).
        by eapply run_read_sizes. }
    erewrite seq_done.
    2:{ rewrite decode_layers, <- Hkeys.
        apply (decode_values fuel (ren a) (Instance c []) props []); done. }
    unfold leaves_bytes. cbn [fmap list_fmap concat length with_props app].
    rewrite ?length_app, ?length_fmap, ?app_nil_r. cbn [length app].
    rewrite ?length_fmap. do 3 f_equal; lia.
Qed.

(** *** The whole table *)

Definition image (vs : list value) : list (option value) :=
  (λ v, Some (rename ren v)) <$> vs.

Definition shells (vs : list value) : Heap :=
  omap (λ v, match v with Ref a => shell <$> h !! a | _ => None end) vs.

Definition fills (vs : list value) : Heap :=
  omap (λ v, match v with Ref a => rename_object ren <$> h !! a | _ => None end) vs.

Hypothesis entries_ok : Forall entry_ok table.
Hypothesis full_image : full = image table.
Hypothesis ren_made : ∀ T1 a T2, table = T1 ++ Ref a :: T2 → ren a = length (shells T1).
Hypothesis tags_first : ∀ T1 a T2 c props t,
  table = T1 ++ Ref a :: T2 → h !! a = Some (Instance c props) →
  tagOfConstructor classes c = Some t →
  ∃ p, indexes_get table (Str t) = Some p ∧ p < Z.of_nat (length T1).

Lemma length_fills vs : length (fills vs) = length (shells vs).
Proof.
  induction vs as [| v vs IH]; [done |].
  unfold fills, shells in *. cbn [omap list_omap].
  destruct v as [| | | | | | a]; try done.
  destruct (h !! a); cbn; [by rewrite IH | done].
Qed.

Lemma image_lookup (i : nat) v :
  table !! i = Some v → default Undefined (array_get full (Z.of_nat i)) = rename ren v.
Proof.
  intros Hi. unfold array_get. rewrite (proj2 (Z.leb_le _ _)) by lia.
  rewrite Nat2Z.id, full_image. unfold image. rewrite list_lookup_fmap, Hi. done.
Qed.

Lemma made_entry T1 v T2 :
  table = T1 ++ v :: T2 → entry_ok v →
  made (shells T1) v = rename ren v ∧ made_heap (shells T1) v = shells (T1 ++ [v]).
Proof.
  intros HT Hv. unfold shells at 3. rewrite omap_app. fold (shells T1).
  destruct v as [| | b | n | bytes | s | a]; try (by rewrite app_nil_r).
  destruct Hv as (o & Ha & _). cbn [made made_heap rename omap list_omap].
  rewrite Ha. cbn. by rewrite (ren_made _ _ _ HT).
Qed.

Lemma predecode_table fuel T2 T1 off ai :
  table = T1 ++ T2 →
  upcoming ai off (concat (entry_coders classes table h <$> T2))
           (concat (entry_bytes classes table h <$> T2)) →
  ∃ l,
    run (length T2) (predecodeNext classes (S (S fuel)) true)
        (st off ai (Z.of_nat (length T1)) (image T1) (shells T1))
    = Ok (l, st (off + length (concat (entry_bytes classes table h <$> T2)))
                (ai + Z.of_nat (length (concat (entry_coders classes table h <$> T2))))
                (Z.of_nat (length table)) (image table) (shells table)).
Proof.
  revert T1 off ai. induction T2 as [| v T2 IH]; intros T1 off ai HT Hup.
  - exists []. rewrite app_nil_r in HT. subst T1. cbn.
    by rewrite Nat.add_0_r, Z.add_0_r.
  - assert (Hv : entry_ok v).
    { pose proof entries_ok as H. rewrite Forall_forall in H. apply H.
      rewrite HT. apply elem_of_app. right. apply list_elem_of_here. }
    cbn [fmap list_fmap concat] in Hup |- *.
    apply upcoming_app in Hup as [Hup1 Hup2].
    destruct (made_entry _ _ _ HT Hv) as [Hm Hh].
    assert (Htag : tag_known (image T1) v).
    { intros a c props t -> Ha Ht.
      destruct (tags_first _ _ _ _ _ _ HT Ha Ht) as (p & Hp & Hlt).
      unfold early. rewrite Hp. unfold image at 1. rewrite length_fmap.
      rewrite (proj2 (Z.ltb_lt _ _)) by done.
      destruct (indexes_get_Some _ _ _ Hp) as [Hr Hl].
      unfold array_get. rewrite (proj2 (Z.leb_le _ _)) by lia.
      unfold image. rewrite list_lookup_fmap.
      rewrite HT, lookup_app_l in Hl by lia. rewrite Hl. done. }
    pose proof (predecode_entry fuel v off ai (image T1) (shells T1) Hv Hup1 Htag) as Hstep.
    rewrite Hm, Hh in Hstep.
    unfold image in Hstep at 1 3. rewrite length_fmap in Hstep.
    assert (Him : image T1 ++ [Some (rename ren v)] = image (T1 ++ [v])).
    { unfold image. by rewrite fmap_app. }
    rewrite Him in Hstep.
    replace (Z.of_nat (length T1) + 1) with (Z.of_nat (length (T1 ++ [v]))) in Hstep
      by (rewrite length_app; cbn; lia).
    destruct (IH (T1 ++ [v]) _ _ ltac:(by rewrite <- app_assoc) Hup2) as [l Hl].
    exists (rename ren v :: l).
    cbn [length]. rewrite run_S, Hstep, Hl.
    rewrite !length_app. do 3 f_equal; lia.
Qed.

Lemma decode_table fuel T2 T1 off ai :
  table = T1 ++ T2 →
  upcoming ai off (concat (entry_coders classes table h <$> T2))
           (concat (entry_bytes classes table h <$> T2)) →
  ∃ l,
    run (length T2) (decodeNext classes (S (S fuel)) true)
        (st off ai (Z.of_nat (length T1)) full (fills T1 ++ shells T2))
    = Ok (l, st (off + length (concat (entry_bytes classes table h <$> T2)))
                (ai + Z.of_nat (length (concat (entry_coders classes table h <$> T2))))
                (Z.of_nat (length table)) full (fills table)).
Proof.
  revert T1 off ai. induction T2 as [| v T2 IH]; intros T1 off ai HT Hup.
  - exists []. rewrite app_nil_r in HT. subst T1. cbn.
    by rewrite Nat.add_0_r, Z.add_0_r, app_nil_r.
  - assert (Hv : entry_ok v).
    { pose proof entries_ok as H. rewrite Forall_forall in H. apply H.
      rewrite HT. apply elem_of_app. right. apply list_elem_of_here. }
    cbn [fmap list_fmap concat] in Hup |- *.
    apply upcoming_app in Hup as [Hup1 Hup2].
    assert (Hpre : decoded_at (st off ai (Z.of_nat (length T1)) full (fills T1 ++ shells (v :: T2)))
                              (Z.of_nat (length T1)) = rename ren v).
    { unfold decoded_at. cbn [decoded st]. apply image_lookup.
      rewrite HT, lookup_app_r by lia. by rewrite Nat.sub_diag. }
    assert (Hsh : ∀ a o, v = Ref a → h !! a = Some o →
              (fills T1 ++ shells (v :: T2)) !! ren a = Some (shell o)).
    { intros a o -> Ha. rewrite (ren_made _ _ _ HT), <- length_fills.
      rewrite lookup_app_r by lia. rewrite Nat.sub_diag.
      unfold shells. cbn [omap list_omap]. by rewrite Ha. }
    destruct (decode_entry fuel v off ai (Z.of_nat (length T1)) _ Hv Hup1 Hpre Hsh)
      as [r Hstep].
    assert (Hfill : filled (fills T1 ++ shells (v :: T2)) v = fills (T1 ++ [v]) ++ shells T2).
    { unfold fills at 2. rewrite omap_app. fold (fills T1).
      destruct v as [| | b | n | bytes | s | a]; try (by rewrite app_nil_r).
      destruct Hv as (o & Ha & _). cbn [filled omap list_omap]. rewrite Ha.
      cbn [from_option fmap option_fmap option_map].
      rewrite (ren_made _ _ _ HT), <- length_fills.
      unfold shells at 1. cbn [omap list_omap]. rewrite Ha. cbn.
      fold (shells T2).
      rewrite insert_app_r_alt by lia. rewrite Nat.sub_diag. cbn.
      by rewrite <- app_assoc. }
    rewrite Hfill in Hstep.
    replace (Z.of_nat (length T1) + 1) with (Z.of_nat (length (T1 ++ [v]))) in Hstep
      by (rewrite length_app; cbn; lia).
    destruct (IH (T1 ++ [v]) _ _ ltac:(by rewrite <- app_assoc) Hup2) as [l Hl].
    exists (r :: l).
    cbn [length]. rewrite run_S, Hstep, Hl.
    rewrite !length_app. do 3 f_equal; lia.
Qed.

End decoder_steps.

End serializer_decoder.

(** ** The serializer: the Indexer *)

Section serializer_indexer.
Import Binarizer.

Section assoc_facts.
Context {K V : Type} `{EqDecision K}.
Implicit Types (m : list (K * V)) (k : K) (v : V).

Lemma assoc_get_elem m k : is_Some (assoc_get m k) ↔ k ∈ m.*1.
Proof.
  induction m as [| [k' v'] m IH]; cbn.
  - split; [by intros [? ?] | intros Hin; by apply elem_of_nil in Hin].
  - destruct (decide (k' = k)) as [-> | Hne].
    + split; [intros _; apply list_elem_of_here | by eexists].
    + rewrite IH, elem_of_cons. split; [by right | by intros [? | ?]].
Qed.

Lemma assoc_get_None m k : assoc_get m k = None ↔ k ∉ m.*1.
Proof. rewrite <- assoc_get_elem, eq_None_not_Some. done. Qed.

Lemma assoc_set_keys m k v :
  (assoc_set m k v).*1 = if decide (k ∈ m.*1) then m.*1 else m.*1 ++ [k].
Proof.
  induction m as [| [k' v'] m IH]; cbn.
  - rewrite decide_False; [done | apply not_elem_of_nil].
  - destruct (decide (k' = k)) as [-> | Hne].
    + rewrite decide_True; [done | apply list_elem_of_here].
    + cbn. rewrite IH. destruct (decide (k ∈ m.*1)) as [Hin | Hin].
      * rewrite decide_True; [done | by apply list_elem_of_further].
      * rewrite decide_False; [done |]. rewrite elem_of_cons. by intros [? | ?].
Qed.

Lemma assoc_set_elem m k v k' : k' ∈ (assoc_set m k v).*1 ↔ k' = k ∨ k' ∈ m.*1.
Proof.
  rewrite assoc_set_keys. destruct (decide (k ∈ m.*1)).
  - split; [by right | by intros [-> | ?]].
  - rewrite elem_of_app, list_elem_of_singleton. tauto.
Qed.

Lemma assoc_set_NoDup m k v : NoDup m.*1 → NoDup (assoc_set m k v).*1.
Proof.
  intros Hnd. rewrite assoc_set_keys. destruct (decide (k ∈ m.*1)); [done |].
  apply NoDup_app. split; [done |]. split; [| apply NoDup_singleton].
  intros x Hx ->%list_elem_of_singleton. done.
Qed.

Lemma assoc_get_set_eq m k v : assoc_get (assoc_set m k v) k = Some v.
Proof.
  induction m as [| [k' v'] m IH]; cbn.
  - by rewrite decide_True.
  - destruct (decide (k' = k)) as [-> | Hne]; cbn.
    + by rewrite decide_True.
    + by rewrite decide_False.
Qed.

Lemma assoc_get_set_ne m k v k' :
  k ≠ k' → assoc_get (assoc_set m k v) k' = assoc_get m k'.
Proof.
  intros Hne. induction m as [| [k0 v0] m IH]; cbn.
  - by rewrite decide_False.
  - destruct (decide (k0 = k)) as [-> | Hne0]; cbn.
    + by rewrite !decide_False.
    + destruct (decide (k0 = k')); [done | apply IH].
Qed.

Lemma assoc_get_lookup m k v : assoc_get m k = Some v → (k, v) ∈ m.
Proof.
  induction m as [| [k' v'] m IH]; cbn; [done |].
  destruct (decide (k' = k)) as [-> | Hne].
  - intros [= ->]. apply list_elem_of_here.
  - intros H. apply list_elem_of_further. by apply IH.
Qed.

End assoc_facts.

(** [flatten]: the keys, sorted by their counts. *)
Lemma sort_insert_perm e l : sort_insert e l ≡ₚ e :: l.
Proof.
  induction l as [| e' l IH]; [done |]. cbn.
  destruct (e.2 <? e'.2); [| done]. rewrite IH. apply Permutation_swap.
Qed.

Lemma sort_counts_perm m : sort_counts m ≡ₚ m.
Proof.
  induction m as [| e m IH]; [done |].
  unfold sort_counts in *. cbn. by rewrite sort_insert_perm, IH.
Qed.

Lemma flatten_perm m : flatten m ≡ₚ m.*1.
Proof. unfold flatten. by rewrite sort_counts_perm. Qed.

Definition descending (l : list (value * Z)) : Prop :=
  ∀ i j e1 e2, (i < j)%nat → l !! i = Some e1 → l !! j = Some e2 → e2.2 ≤ e1.2.

Lemma descending_cons e l :
  descending (e :: l) ↔ (∀ e', e' ∈ l → e'.2 ≤ e.2) ∧ descending l.
Proof.
  split.
  - intros H. split.
    + intros e' [j Hj]%list_elem_of_lookup. by apply (H 0%nat (S j) e e'); [lia | |].
    + intros i j e1 e2 Hij H1 H2. by apply (H (S i) (S j) e1 e2); [lia | |].
  - intros [Hh Ht] i j e1 e2 Hij H1 H2.
    destruct j as [| j]; [lia |]. cbn in H2.
    destruct i as [| i].
    + injection H1 as <-. apply Hh. by eapply list_elem_of_lookup_2.
    + cbn in H1. by apply (Ht i j); [lia | |].
Qed.

Lemma sort_insert_descending e l : descending l → descending (sort_insert e l).
Proof.
  induction l as [| e' l IH]; intros Hl.
  - cbn. apply descending_cons. split; [by intros ? ?%elem_of_nil | done].
  - cbn. apply descending_cons in Hl as [Hh Ht].
    destruct (e.2 <? e'.2) eqn:E.
    + apply Z.ltb_lt in E. apply descending_cons. split; [| by apply IH].
      intros e0 He0. rewrite sort_insert_perm in He0.
      apply elem_of_cons in He0 as [-> | He0]; [lia | by apply Hh].
    + apply Z.ltb_ge in E. apply descending_cons. split.
      * intros e0 [-> | He0]%elem_of_cons; [done |]. specialize (Hh _ He0). lia.
      * apply descending_cons. done.
Qed.

Lemma sort_counts_descending m : descending (sort_counts m).
Proof.
  induction m as [| e m IH].
  - intros i j e1 e2 _ H. done.
  - unfold sort_counts in *. cbn. by apply sort_insert_descending.
Qed.

Section indexer_steps.
Variable classes : list Registered.
Variable h : Heap.
Hypothesis heap_ok : supported classes h.

Definition keys (ix : Indexer) : list value := (refcount ix).*1.

(** A value that the Indexer counts. *)
Definition counted (v : value) : Prop :=
  match v with
  | Ref _ => True
  | Str s => (2 < String.length s)%nat
  | _ => False
  end.

(** The Indexer with the objects [done] taken from the queue, after no
    more than [n] calls of [_add]. *)
Record indexing (ix : Indexer) (done : list nat) (n : Z) : Prop := {
  ixg_keys_nodup : NoDup (keys ix);
  ixg_nodup : NoDup (done ++ queue ix);
  ixg_refs : ∀ a, Ref a ∈ keys ix ↔ a ∈ done ++ queue ix;
  ixg_keys : ∀ k, k ∈ keys ix → value_ok h k;
  ixg_tags : ∀ a c props t,
    a ∈ done ++ queue ix → h !! a = Some (Instance c props) →
    tagOfConstructor classes c = Some t →
    ∃ m, count_get (refcount ix) (Str t) = Some m ∧ 1000000000 ≤ m;
  ixg_counts : ∀ a m, count_get (refcount ix) (Ref a) = Some m → m ≤ n;
  ixg_calls : 0 ≤ n;
}.

Lemma object_of_heap a o : h !! a = Some o → object_ok classes h o.
Proof.
  intros Ha. pose proof (objects_ok _ _ heap_ok) as H.
  rewrite Forall_forall in H. apply H. by eapply list_elem_of_lookup_2.
Qed.

Lemma tag_of_object o t :
  object_ok classes h o → tagOfConstructor classes (constructorOf o) = Some t →
  ∃ c props, o = Instance c props ∧ no_nul t.
Proof.
  intros Ho Ht.
  pose proof (plain_constructors _ _ heap_ok) as H.
  apply Forall_cons in H as [H1 H]. apply Forall_cons in H as [H2 H].
  apply Forall_cons in H as [H3 H]. apply Forall_cons in H as [H4 _].
  destruct o as [items | props | entries | elements | c props | v | b]; cbn in *;
    try congruence; try done.
  exists c, props. split; [done |].
  destruct Ho as (r & Hr & _ & _ & Hnn & _).
  unfold tagOfConstructor in Ht. rewrite Hr in Ht. by injection Ht as <-.
Qed.

Lemma inc_keys m k k' : k' ∈ (inc m k).*1 ↔ k' = k ∨ k' ∈ m.*1.
Proof. apply assoc_set_elem. Qed.

Lemma inc_get_ne m k k' : k ≠ k' → count_get (inc m k) k' = count_get m k'.
Proof. apply assoc_get_set_ne. Qed.

Lemma inc_get_eq m k : count_get (inc m k) k = Some (default 0 (count_get m k) + 1).
Proof. apply assoc_get_set_eq. Qed.

Lemma count_has_elem m k : count_has m k = true ↔ k ∈ m.*1.
Proof.
  unfold count_has, count_get. rewrite <- assoc_get_elem.
  destruct (assoc_get m k); split; (done || by intros [? ?] || by eexists).
Qed.

(** The counts after [inc]: the count of a tag stays a billion or more,
    and the count of an object grows by one at most. *)
Lemma inc_tag m k t n :
  count_get m (Str t) = Some n → 1000000000 ≤ n →
  ∃ n', count_get (inc m k) (Str t) = Some n' ∧ 1000000000 ≤ n'.
Proof.
  intros Hn Hle. destruct (decide (k = Str t)) as [-> | Hne].
  - rewrite inc_get_eq, Hn. cbn. eexists. split; [done | lia].
  - rewrite inc_get_ne by done. by exists n.
Qed.

Lemma inc_count m k a n n' :
  (∀ b m', count_get m (Ref b) = Some m' → m' ≤ n) → 0 ≤ n →
  count_get (inc m k) (Ref a) = Some n' → n' ≤ n + 1.
Proof.
  intros Hc Hn Hget. destruct (decide (k = Ref a)) as [-> | Hne].
  - rewrite inc_get_eq in Hget. injection Hget as <-.
    destruct (count_get m (Ref a)) as [m' |] eqn:E; cbn; [| lia].
    specialize (Hc _ _ E). lia.
  - rewrite inc_get_ne in Hget by done. specialize (Hc _ _ Hget). lia.
Qed.

(** [_add] on a value of the heap. *)
Lemma indexer_add_ok ix done n v :
  indexing ix done n → value_ok h v →
  ∃ ix', add classes h ix v = Ok ix' ∧ indexing ix' done (n + 1) ∧
         (∀ k, k ∈ keys ix → k ∈ keys ix') ∧ (counted v → v ∈ keys ix') ∧
         (length (queue ix') ≤ S (length (queue ix)))%nat.
Proof.
  intros Hix Hv. pose proof Hix as [Hkn Hnd Hrefs Hkeys Htags Hcounts Hn].
  assert (Hsame : ∀ rc', (∀ k, k ∈ rc'.*1 ↔ k ∈ keys ix) → NoDup rc'.*1 →
            (∀ t m, count_get (refcount ix) (Str t) = Some m → 1000000000 ≤ m →
               ∃ m', count_get rc' (Str t) = Some m' ∧ 1000000000 ≤ m') →
            (∀ a m, count_get rc' (Ref a) = Some m → m ≤ n + 1) →
            indexing (mkIndexer rc' (queue ix)) done (n + 1)).
  { intros rc' Hk Hnd' Ht Hc. split; unfold keys in *; cbn [queue refcount]; try done.
    - intros a. rewrite Hk. apply Hrefs.
    - intros k Hin. apply Hkeys. by apply Hk.
    - intros a c props t Ha Ho Htag.
      destruct (Htags _ _ _ _ Ha Ho Htag) as (m & Hm & Hle). by eapply Ht.
    - lia. }
  assert (Hstay : indexing ix done (n + 1)).
  { split; try done; [| lia]. intros a m Hm. specialize (Hcounts _ _ Hm). lia. }
  assert (Hprim : ¬ counted v →
            add classes h ix v = Ok ix →
            ∃ ix', add classes h ix v = Ok ix' ∧ indexing ix' done (n + 1) ∧
                   (∀ k, k ∈ keys ix → k ∈ keys ix') ∧ (counted v → v ∈ keys ix') ∧
                   (length (queue ix') ≤ S (length (queue ix)))%nat).
  { intros Hnc Hadd. exists ix. split; [done |]. split; [done |]. split; [done |].
    split; [by intros Hc | lia]. }
  destruct v as [| | b | z | bytes | s | a]; try done;
    try (apply Hprim; [by intros [] | done]).
  - (* a string *)
    destruct (2 <? String.length s)%nat eqn:E.
    + exists (mkIndexer (inc (refcount ix) (Str s)) (queue ix)).
      split; [cbn [add]; by rewrite E |]. apply Nat.ltb_lt in E.
      split; [| split; [| split; [| cbn; lia]]].
      * split; unfold keys in *; cbn [queue refcount]; try done.
        -- by apply assoc_set_NoDup.
        -- intros a. rewrite inc_keys. rewrite <- Hrefs. unfold keys.
           split; [by intros [? | ?] | by right].
        -- intros k [-> | Hin]%inc_keys; [done | by apply Hkeys].
        -- intros a c props t Ha Ho Htag.
           destruct (Htags _ _ _ _ Ha Ho Htag) as (m & Hm & Hle). by eapply inc_tag.
        -- intros a m Hm. by eapply inc_count.
        -- lia.
      * intros k Hk. unfold keys in *. cbn [refcount]. apply inc_keys. by right.
      * intros _. unfold keys. cbn [refcount]. apply inc_keys. by left.
    + apply Hprim; [| cbn [add]; by rewrite E].
      apply Nat.ltb_ge in E. cbn. lia.
  - (* an object *)
    cbn [add]. destruct (count_has (refcount ix) (Ref a)) eqn:E.
    + apply count_has_elem in E. eexists. split; [done |].
      split; [| split; [| split; [| cbn; lia]]].
      * split; unfold keys in *; cbn [queue refcount]; try done.
        -- by apply assoc_set_NoDup.
        -- intros b. rewrite inc_keys. rewrite <- Hrefs. unfold keys.
           split; [intros [[= ->] | ?]; done | by right].
        -- intros k [-> | Hin]%inc_keys; [done | by apply Hkeys].
        -- intros b c props t Hb Ho Htag.
           destruct (Htags _ _ _ _ Hb Ho Htag) as (m & Hm & Hle). by eapply inc_tag.
        -- intros b m Hm. by eapply inc_count.
        -- lia.
      * intros k Hk. unfold keys in *. cbn [refcount]. apply inc_keys. by right.
      * intros _. unfold keys. cbn [refcount]. apply inc_keys. by left.
    + assert (Hnew : Ref a ∉ keys ix).
      { intros Hin. apply count_has_elem in Hin. congruence. }
      destruct Hv as [o Ha]. unfold object_at. rewrite Ha. cbn [mbind result_bind].
      pose proof (object_of_heap _ _ Ha) as Ho.
      set (counts := match tagOfConstructor classes (constructorOf o) with
                     | Some t => count_set (refcount ix) (Str t) 1000000000
                     | None => refcount ix
                     end).
      assert (Hck : ∀ k, k ∈ counts.*1 ↔
                (k ∈ keys ix ∨
                 tagOfConstructor classes (constructorOf o) = Some
                   (match k with Str t => t | _ => EmptyString end) ∧
                 ∃ t, k = Str t)).
      { intros k. subst counts.
        destruct (tagOfConstructor classes (constructorOf o)) as [t |] eqn:Et.
        - unfold count_set. rewrite assoc_set_elem. unfold keys. split.
          + intros [-> | Hin]; [right; split; [done | by eexists] | by left].
          + intros [Hin | [Heq [t' ->]]]; [by right | left]. by injection Heq as ->.
        - unfold keys. split; [by left | by intros [? | [? _]]]. }
      assert (Hcn : NoDup counts.*1).
      { subst counts. destruct (tagOfConstructor classes (constructorOf o));
          [by apply assoc_set_NoDup | done]. }
      assert (Hcr : ∀ b, count_get counts (Ref b) = count_get (refcount ix) (Ref b)).
      { intros b. subst counts. destruct (tagOfConstructor classes (constructorOf o));
          [by apply assoc_get_set_ne | done]. }
      assert (Hct : ∀ t m, count_get (refcount ix) (Str t) = Some m → 1000000000 ≤ m →
                ∃ m', count_get counts (Str t) = Some m' ∧ 1000000000 ≤ m').
      { intros t m Hm Hle. subst counts.
        destruct (tagOfConstructor classes (constructorOf o)) as [t' |]; [| by exists m].
        destruct (decide (t' = t)) as [-> | Hne].
        - unfold count_get, count_set. rewrite assoc_get_set_eq. eexists. split; [done | lia].
        - unfold count_get, count_set. rewrite assoc_get_set_ne by congruence. by exists m. }
      eexists. split; [done |].
      split; [| split; [| split]].
      * split; unfold keys in *; cbn [queue refcount].
        -- by apply assoc_set_NoDup.
        -- apply NoDup_app in Hnd as (Hd & Hdq & Hq).
           apply NoDup_app. split; [done |]. split; [| apply NoDup_cons; split; [| done]].
           ++ intros x Hx [-> | Hin]%elem_of_cons; [| by eapply Hdq].
              apply Hnew, Hrefs, elem_of_app. by left.
           ++ intros Hin. apply Hnew, Hrefs, elem_of_app. by right.
        -- intros b. rewrite inc_keys, Hck, elem_of_app, elem_of_cons.
           rewrite Hrefs, elem_of_app. split.
           ++ intros [[= ->] | [Hin | [_ [t Heq]]]]; [tauto | tauto | done].
           ++ intros [Hin | [-> | Hin]]; [right; left; by left | by left | right; left; by right].
        -- intros k [-> | [Hin | [Ht [t ->]]]%Hck]%inc_keys.
           ++ by exists o.
           ++ by apply Hkeys.
           ++ cbn. by destruct (tag_of_object _ _ Ho Ht) as (c & props & _ & Hnn).
        -- intros b c props t Hb Hob Htag.
           assert (Hcase : b = a ∨ b ∈ done ++ queue ix).
           { apply elem_of_app in Hb as [Hb | [-> | Hb]%elem_of_cons];
               [right | by left | right]; apply elem_of_app; tauto. }
           assert (Hg : ∃ m, count_get counts (Str t) = Some m ∧ 1000000000 ≤ m).
           { destruct Hcase as [-> | Hb'].
             - rewrite Ha in Hob. injection Hob as ->. subst counts. cbn [constructorOf].
               rewrite Htag. unfold count_get, count_set. rewrite assoc_get_set_eq.
               eexists. split; [done | lia].
             - destruct (Htags _ _ _ _ Hb' Hob Htag) as (m & Hm & Hle). by eapply Hct. }
           destruct Hg as (m & Hm & Hle). by eapply inc_tag.
        -- intros b m Hm. eapply inc_count; [| done | exact Hm].
           intros b' m' Hm'. rewrite Hcr in Hm'. by eapply Hcounts.
        -- lia.
      * intros k Hk. unfold keys in *. cbn [refcount]. apply inc_keys. right. apply Hck. by left.
      * intros _. unfold keys. cbn [refcount]. apply inc_keys. by left.
      * cbn. lia.
Qed.

Lemma assoc_set_length {K V} `{EqDecision K} (m : list (K * V)) k v :
  (length (assoc_set m k v) ≤ S (length m))%nat.
Proof.
  induction m as [| [k' v'] m IH]; cbn; [lia |].
  destruct (decide (k' = k)); cbn; lia.
Qed.

Lemma add_size ix v ix' :
  add classes h ix v = Ok ix' → (length (keys ix') ≤ length (keys ix) + 2)%nat.
Proof.
  unfold keys. rewrite !length_fmap.
  destruct v as [| | b | z | bytes | s | a]; cbn [add]; try (intros [= <-]; lia); try done.
  - destruct (2 <? String.length s)%nat; intros [= <-]; cbn [refcount]; [| lia].
    pose proof (assoc_set_length (refcount ix) (Str s)
                  (default 0 (count_get (refcount ix) (Str s)) + 1)).
    unfold inc, count_set. lia.
  - destruct (count_has (refcount ix) (Ref a)).
    + intros [= <-]. cbn [refcount].
      pose proof (assoc_set_length (refcount ix) (Ref a)
                    (default 0 (count_get (refcount ix) (Ref a)) + 1)).
      unfold inc, count_set. lia.
    + destruct (object_at h a) as [o |]; [| done]. cbn [mbind result_bind].
      intros [= <-]. cbn [refcount].
      set (counts := match tagOfConstructor classes (constructorOf o) with
                     | Some t => count_set (refcount ix) (Str t) 1000000000
                     | None => refcount ix
                     end).
      assert (length counts ≤ S (length (refcount ix)))%nat.
      { subst counts. destruct (tagOfConstructor classes (constructorOf o)); [| lia].
        apply assoc_set_length. }
      pose proof (assoc_set_length counts (Ref a) (default 0 (count_get counts (Ref a)) + 1)).
      unfold inc, count_set. lia.
Qed.

(** [_add] on the values of a list. *)
Lemma adds_ok vs ix done n :
  indexing ix done n → Forall (value_ok h) vs →
  ∃ ix', foldM (add classes h) ix vs = Ok ix' ∧
         indexing ix' done (n + Z.of_nat (length vs)) ∧
         (∀ k, k ∈ keys ix → k ∈ keys ix') ∧
         (∀ v, v ∈ vs → counted v → v ∈ keys ix') ∧
         (length (keys ix') ≤ length (keys ix) + 2 * length vs)%nat.
Proof.
  revert ix n. induction vs as [| v vs IH]; intros ix n Hix Hvs.
  - exists ix. split; [done |]. split; [by rewrite Z.add_0_r |].
    split; [done |]. split; [by intros v Hv%elem_of_nil | cbn; lia].
  - apply Forall_cons in Hvs as [Hv Hvs].
    destruct (indexer_add_ok _ _ _ _ Hix Hv) as (ix1 & Hadd & Hix1 & Hmono1 & Hin1 & _).
    destruct (IH _ _ Hix1 Hvs) as (ix2 & Hfold & Hix2 & Hmono2 & Hin2 & Hlen2).
    pose proof (add_size _ _ _ Hadd) as Hlen1.
    exists ix2. cbn [foldM]. rewrite Hadd. cbn [mbind result_bind].
    split; [done |]. split.
    { replace (n + Z.of_nat (length (v :: vs))) with (n + 1 + Z.of_nat (length vs))
        by (cbn [length]; lia). done. }
    split; [by intros k Hk; apply Hmono2, Hmono1 |].
    split; [| cbn [length]; lia].
    intros w [-> | Hw]%elem_of_cons Hc; [by apply Hmono2, Hin1 | by apply Hin2].
Qed.

(** The values that [_index] takes from an object. *)
Lemma children_ok o :
  object_ok classes h o →
  ∃ vs, children classes o = Ok vs ∧ Forall (value_ok h) vs ∧
        (length vs ≤ cells o)%nat ∧
        ∀ v, v ∈ nested classes o →
             v ∈ vs ∨ ∃ c props t, o = Instance c props ∧
                                   tagOfConstructor classes c = Some t ∧ v = Str t.
Proof.
  intros Ho.
  pose proof (plain_constructors _ _ heap_ok) as H.
  apply Forall_cons in H as [H1 H]. apply Forall_cons in H as [H2 H].
  apply Forall_cons in H as [H3 H]. apply Forall_cons in H as [H4 _].
  destruct o as [items | props | entries | elements | c props | v | b]; try done.
  - exists items. cbn. split; [done |]. split; [done |]. split; [lia | by left].
  - destruct Ho as (_ & Hk & Hv).
    exists (flat_map (λ kv, [Str kv.1; kv.2]) props).
    cbn [children constructorOf ownProperties nested cells]. rewrite H2. cbn.
    split; [done |]. split; [| split; [| by left]].
    + clear -Hk Hv. induction props as [| [k v] props IH]; [done |].
      cbn in *. apply Forall_cons in Hk as [Hk Hks]. apply Forall_cons in Hv as [Hv Hvs].
      apply Forall_cons. split; [done |]. apply Forall_cons. split; [done | by apply IH].
    + rewrite flat_map_length2. lia.
  - destruct Ho as (_ & Hk & Hv).
    exists (flat_map (λ kv, [kv.2; kv.1]) entries).
    cbn [children nested cells].
    split; [done |]. split; [| split].
    + clear -Hk Hv. induction entries as [| [k v] entries IH]; [done |].
      cbn in *. apply Forall_cons in Hk as [Hk Hks]. apply Forall_cons in Hv as [Hv Hvs].
      apply Forall_cons. split; [done |]. apply Forall_cons. split; [done | by apply IH].
    + rewrite flat_map_length2. lia.
    + intros v Hv'. left. apply list_elem_of_In, in_flat_map.
      apply list_elem_of_In, in_flat_map in Hv' as (kv & Hkv & Hin).
      exists kv. split; [done |]. cbn in *. tauto.
  - destruct Ho as (_ & Hv). exists elements. cbn.
    split; [done |]. split; [done |]. split; [lia | by left].
  - destruct Ho as (r & Hr & _ & _ & _ & _ & _ & Hv).
    exists props.*2. cbn [children constructorOf ownProperties nested cells].
    unfold tagOfConstructor. rewrite Hr. cbn.
    split; [done |]. split; [done |]. split; [by rewrite length_fmap |].
    intros v [-> | Hin]%elem_of_cons; [right | by left].
    exists c, props, (tag r). split; [done |]. split; [by rewrite Hr | done].
Qed.

(** The cells of the objects [done]. *)
Definition cost (done : list nat) : nat :=
  sum_list ((λ a, from_option cells 0%nat (h !! a)) <$> done).

(** The values of the objects [done] that the Indexer counts are keys. *)
Definition closed (done : list nat) (ks : list value) : Prop :=
  ∀ a o vs v, a ∈ done → h !! a = Some o → children classes o = Ok vs →
              v ∈ vs → counted v → v ∈ ks.

Lemma bounded_nodup (l : list nat) n :
  NoDup l → (∀ a, a ∈ l → (a < n)%nat) → (length l ≤ n)%nat.
Proof.
  clear. intros Hnd Hb.
  assert (Hsub : l ⊆+ seq 0 n).
  { apply NoDup_submseteq; [done |]. intros a Ha. apply elem_of_seq. specialize (Hb a Ha). lia. }
  apply submseteq_length in Hsub. by rewrite length_seq in Hsub.
Qed.

Lemma sum_list_app (l k : list nat) : sum_list (l ++ k) = (sum_list l + sum_list k)%nat.
Proof. clear. induction l as [| x l IH]; cbn; [done | lia]. Qed.

Lemma sum_list_submseteq (f : nat → nat) (l k : list nat) :
  l ⊆+ k → (sum_list (f <$> l) ≤ sum_list (f <$> k))%nat.
Proof.
  clear. induction 1; cbn; lia.
Qed.

Lemma sum_cells_seq (g : Heap) :
  sum_list ((λ a, from_option cells 0%nat (g !! a)) <$> seq 0 (length g))
  = sum_list (cells <$> g).
Proof.
  clear. induction g as [| o g IH] using rev_ind; [done |].
  rewrite length_app. cbn [length]. rewrite Nat.add_1_r, seq_S, !fmap_app, !sum_list_app.
  cbn [fmap list_fmap sum_list Nat.add]. rewrite lookup_app_r by lia.
  rewrite Nat.sub_diag. cbn. rewrite <- IH. do 2 f_equal.
  apply list_fmap_ext. intros i a Ha. apply lookup_seq in Ha as [-> Hlt].
  by rewrite lookup_app_l by lia.
Qed.

Lemma cost_le done :
  NoDup done → (∀ a, a ∈ done → is_Some (h !! a)) →
  (cost done ≤ sum_list (cells <$> h))%nat.
Proof.
  intros Hnd Hd. unfold cost. rewrite <- sum_cells_seq.
  apply sum_list_submseteq, NoDup_submseteq; [done |].
  intros a Ha. apply elem_of_seq. apply Hd, lookup_lt_is_Some in Ha. lia.
Qed.

Lemma cost_snoc done a o :
  h !! a = Some o → cost (done ++ [a]) = (cost done + cells o)%nat.
Proof.
  intros Ha. unfold cost. rewrite fmap_app, sum_list_app. cbn. rewrite Ha. cbn. lia.
Qed.

(** The loop of [_index] ends with an empty queue. *)
Lemma index_loop_ok fuel ix done n :
  indexing ix done n → closed done (keys ix) →
  (length h ≤ length done + fuel)%nat →
  n ≤ 1 + Z.of_nat (cost done) →
  (length (keys ix) ≤ 2 + 2 * cost done)%nat →
  ∃ ix' done' n',
    index_loop classes fuel h ix = Ok ix' ∧ queue ix' = [] ∧
    indexing ix' done' n' ∧ closed done' (keys ix') ∧
    (∀ k, k ∈ keys ix → k ∈ keys ix') ∧
    n' ≤ 1 + Z.of_nat (cost done') ∧
    (length (keys ix') ≤ 2 + 2 * cost done')%nat.
Proof.
  revert ix done n. induction fuel as [| fuel IH]; intros ix done n Hix Hcl Hfuel Hn Hsz.
  - destruct (queue ix) as [| a rest] eqn:Hq.
    + exists ix, done, n. cbn. rewrite Hq. done.
    + exfalso. pose proof Hix as [_ Hnd Hrefs Hkeys _ _ _]. rewrite Hq in *.
      assert (Hb : (length (done ++ a :: rest) ≤ length h)%nat).
      { apply bounded_nodup; [done |]. intros b Hb.
        apply Hrefs, Hkeys in Hb. by apply lookup_lt_is_Some in Hb. }
      rewrite length_app in Hb. cbn in Hb. lia.
  - destruct (queue ix) as [| a rest] eqn:Hq.
    + exists ix, done, n. cbn. rewrite Hq. done.
    + pose proof Hix as [Hkn Hnd Hrefs Hkeys Htags Hcounts Hn0]. rewrite Hq in *.
      assert (Ha : is_Some (h !! a)).
      { apply (Hkeys (Ref a)), Hrefs, elem_of_app. right. apply list_elem_of_here. }
      destruct Ha as [o Ha].
      destruct (children_ok o (object_of_heap _ _ Ha)) as (vs & Hch & Hvs & Hlen & _).
      assert (Hix0 : indexing (mkIndexer (refcount ix) rest) (done ++ [a]) n).
      { split; unfold keys in *; cbn [refcount queue]; try done.
        - by rewrite <- app_assoc.
        - intros b. rewrite <- app_assoc. apply Hrefs.
        - intros b c props t Hb. rewrite <- app_assoc in Hb. by apply Htags. }
      destruct (adds_ok vs _ _ _ Hix0 Hvs) as (ix1 & Hfold & Hix1 & Hmono & Hin & Hlen1).
      destruct (IH ix1 (done ++ [a]) (n + Z.of_nat (length vs)))
        as (ix' & done' & n' & Hloop & Hq' & Hix' & Hcl' & Hmono' & Hn' & Hsz');
        [done | | | | |].
      * intros b ob vsb v [Hb | ->%list_elem_of_singleton]%elem_of_app Hob Hcb Hv Hc.
        -- apply Hmono. by eapply Hcl.
        -- rewrite Ha in Hob. injection Hob as <-. rewrite Hch in Hcb. injection Hcb as <-.
           by apply Hin.
      * rewrite length_app. cbn. lia.
      * rewrite (cost_snoc _ _ _ Ha). lia.
      * rewrite (cost_snoc _ _ _ Ha). unfold keys in *. cbn [refcount] in Hlen1. lia.
      * exists ix', done', n'. cbn [index_loop]. rewrite Hq.
        unfold object_at. rewrite Ha. cbn [mbind result_bind]. rewrite Hch.
        cbn [mbind result_bind]. rewrite Hfold. cbn [mbind result_bind].
        split; [done |]. split; [done |]. split; [done |]. split; [done |].
        split; [| done]. intros k Hk. apply Hmono', Hmono. done.
Qed.

(** [index]: the counts of the values that the root reaches. *)
Lemma index_ok x :
  value_ok h x →
  ∃ rc done,
    index classes h x = Ok rc ∧ NoDup rc.*1 ∧ x ∈ rc.*1 ∧
    (∀ k, k ∈ rc.*1 → value_ok h k) ∧ NoDup done ∧
    (∀ a, Ref a ∈ rc.*1 ↔ a ∈ done) ∧ closed done rc.*1 ∧
    (∀ a c props t, a ∈ done → h !! a = Some (Instance c props) →
       tagOfConstructor classes c = Some t →
       ∃ m, count_get rc (Str t) = Some m ∧ 1000000000 ≤ m) ∧
    (∀ a m, count_get rc (Ref a) = Some m → m ≤ 2 + Z.of_nat (cost done)) ∧
    (length rc.*1 ≤ 3 + 2 * cost done)%nat.
Proof.
  intros Hx.
  assert (Hix0 : indexing (mkIndexer [] []) [] 0).
  { split; unfold keys; cbn [refcount queue fmap list_fmap app]; try done;
      try apply NoDup_nil_2.
    - intros a. split; intros Hin; by apply elem_of_nil in Hin.
    - intros k Hk. by apply elem_of_nil in Hk.
    - intros a c props t Ha. by apply elem_of_nil in Ha. }
  destruct (indexer_add_ok _ _ _ _ Hix0 Hx) as (ix1 & Hadd & Hix1 & _ & Hin1 & _).
  pose proof (add_size _ _ _ Hadd) as Hsz1. unfold keys at 2 in Hsz1. cbn in Hsz1.
  destruct (index_loop_ok (length h) ix1 [] 1)
    as (ix' & dn & n' & Hloop & Hq & Hix' & Hcl & Hmono & Hn' & Hsz); [done | | | | |].
  { intros a o vs v Ha. by apply elem_of_nil in Ha. }
  { cbn. lia. }
  { cbn. lia. }
  { cbn. lia. }
  pose proof Hix' as [Hkn Hnd Hrefs Hkeys Htags Hcounts Hn0].
  rewrite Hq, app_nil_r in *.
  exists (inc (refcount ix') x), dn.
  unfold index. rewrite Hadd. cbn [mbind result_bind]. rewrite Hloop. cbn [mbind result_bind].
  split; [done |]. split; [by apply assoc_set_NoDup |].
  split; [apply inc_keys; by left |].
  split; [by intros k [-> | Hk]%inc_keys; [| apply Hkeys] |].
  split; [done |]. split; [| split; [| split; [| split]]].
  - intros a. rewrite inc_keys, <- Hrefs. split; [| by right].
    intros [<- | Hin]; [| done]. by apply Hmono, Hin1.
  - intros a o vs v Ha Ho Hch Hv Hc. apply inc_keys. right. by eapply Hcl.
  - intros a c props t Ha Ho Ht. destruct (Htags _ _ _ _ Ha Ho Ht) as (m & Hm & Hle).
    by eapply inc_tag.
  - intros a m Hm. pose proof (inc_count _ _ _ _ _ Hcounts Hn0 Hm). lia.
  - unfold keys in Hsz. rewrite length_fmap in *.
    pose proof (assoc_set_length (refcount ix') x
                  (default 0 (count_get (refcount ix') x) + 1)).
    unfold inc, count_set. lia.
Qed.

(** The objects of a table, in its order. *)
Definition refs (vs : list value) : list nat :=
  omap (λ v, match v with Ref a => Some a | _ => None end) vs.

Lemma refs_elem vs a : a ∈ refs vs ↔ Ref a ∈ vs.
Proof.
  clear. unfold refs. rewrite list_elem_of_omap. split.
  - intros (v & Hv & Heq). destruct v; try done. by injection Heq as ->.
  - intros Hin. by exists (Ref a).
Qed.

Lemma refs_NoDup vs : NoDup vs → NoDup (refs vs).
Proof.
  clear. induction 1 as [| v vs Hv Hnd IH]; [apply NoDup_nil_2 |].
  unfold refs in *. cbn. destruct v; try done.
  apply NoDup_cons. split; [| done]. by rewrite (refs_elem vs).
Qed.

Lemma coders_length table vs :
  (length (concat (entry_coders classes table h <$> vs))
   ≤ 2 * length vs + cost (refs vs))%nat.
Proof.
  induction vs as [| v vs IH]; [cbn; lia |].
  cbn [fmap list_fmap concat length]. rewrite length_app.
  assert (Hv : (length (entry_coders classes table h v)
                ≤ 2 + match v with
                      | Ref a => from_option cells 0%nat (h !! a)
                      | _ => 0%nat
                      end)%nat).
  { destruct v as [| | | | | | a]; try (cbn; lia).
    unfold entry_coders. destruct (h !! a) as [o |] eqn:Ha; [| cbn; lia].
    cbn [from_option]. unfold object_coders. cbn [length]. rewrite length_fmap.
    destruct o as [items | props | entries | elements | c props | v | b]; cbn [nested cells];
      rewrite ?flat_map_length2; try lia; try (cbn; lia).
    rewrite length_app, length_fmap.
    destruct (tagOfConstructor classes c); cbn; lia. }
  unfold cost, refs in *.
  destruct v as [| | | | | | a]; cbn -[entry_coders Nat.mul] in *; lia.
Qed.

(** The table of [encode]. *)
Lemma table_ok x :
  value_ok h x →
  ∃ rc,
    index classes h x = Ok rc ∧ NoDup (flatten rc) ∧ x ∈ flatten rc ∧
    Forall (entry_ok classes h (flatten rc)) (flatten rc) ∧
    (∀ T1 a T2 c props t,
       flatten rc = T1 ++ Ref a :: T2 → h !! a = Some (Instance c props) →
       tagOfConstructor classes c = Some t →
       ∃ p, indexes_get (flatten rc) (Str t) = Some p ∧ p < Z.of_nat (length T1)) ∧
    Z.of_nat (length (flatten rc)) < 2000000000 ∧
    Z.of_nat (length (concat (entry_coders classes (flatten rc) h <$> flatten rc)))
      < 5000000000.
Proof.
  intros Hx.
  destruct (index_ok x Hx)
    as (rc & dn & Hidx & Hnd & Hxin & Hkeys & Hdn & Hrefs & Hcl & Htags & Hcounts & Hsz).
  pose proof (small _ _ heap_ok) as Hsmall. unfold weight in Hsmall.
  assert (Hdh : ∀ a, a ∈ dn → is_Some (h !! a)).
  { intros a Ha. apply (Hkeys (Ref a)). by apply Hrefs. }
  pose proof (cost_le dn Hdn Hdh) as Hcost.
  assert (Hperm : ∀ v, v ∈ flatten rc ↔ v ∈ rc.*1).
  { intros v. by rewrite flatten_perm. }
  assert (Hlen : length (flatten rc) = length rc.*1).
  { by rewrite flatten_perm. }
  exists rc. split; [done |].
  split; [by rewrite flatten_perm |]. split; [by apply Hperm |].
  split; [| split; [| split]].
  - apply Forall_forall. intros v Hv%Hperm.
    pose proof (Hkeys v Hv) as Hok.
    destruct v as [| | b | z | bytes | s | a]; try done.
    destruct Hok as [o Ha]. pose proof (object_of_heap _ _ Ha) as Ho.
    exists o. split; [done |]. split; [done |]. split.
    + destruct (children_ok o Ho) as (vs & Hch & Hvs & _ & Hnested).
      apply Forall_forall. intros w Hw.
      destruct (Hnested w Hw) as [Hin | (c & props & t & -> & Ht & ->)].
      * rewrite Forall_forall in Hvs. specialize (Hvs w Hin).
        destruct w as [| | b | z | bytes | s | a']; try by right.
        left. apply Hperm. apply (Hcl a o vs (Ref a')); try done. by apply Hrefs.
      * left. apply Hperm.
        destruct (Htags a c props t) as (m & Hm & _); [by apply Hrefs | done | done |].
        apply assoc_get_elem. by eexists.
    + assert (cells o ≤ sum_list (cells <$> h))%nat.
      { clear -Ha. revert a Ha. induction h as [| o' g IH]; intros a Ha; [done |].
        destruct a as [| a]; cbn in *.
        - injection Ha as ->. lia.
        - specialize (IH _ Ha). lia. }
      unfold MAX_SAFE_INTEGER. lia.
  - intros T1 a T2 c props t HT Ha Ht.
    assert (Hain : a ∈ dn).
    { apply Hrefs, Hperm. rewrite HT. apply elem_of_app. right. apply list_elem_of_here. }
    destruct (Htags a c props t Hain Ha Ht) as (m & Hm & Hle).
    assert (Htin : Str t ∈ flatten rc).
    { apply Hperm, assoc_get_elem. by eexists. }
    destruct (indexes_get_elem _ _ Htin) as [p Hp].
    exists p. split; [done |].
    destruct (indexes_get_Some _ _ _ Hp) as [Hr Hl].
    destruct (decide (p < Z.of_nat (length T1))) as [| Hge]; [done |]. exfalso.
    assert (Hpa : flatten rc !! length T1 = Some (Ref a)).
    { rewrite HT, lookup_app_r by lia. by rewrite Nat.sub_diag. }
    assert (Hne : Z.to_nat p ≠ length T1) by (intros Heq; rewrite Heq in Hl; congruence).
    unfold flatten in Hl, Hpa. rewrite list_lookup_fmap in Hl, Hpa.
    destruct (sort_counts rc !! Z.to_nat p) as [[kt mt] |] eqn:E1; [| done].
    destruct (sort_counts rc !! length T1) as [[ka ma] |] eqn:E2; [| done].
    cbn in Hl, Hpa. injection Hl as ->. injection Hpa as ->.
    pose proof (sort_counts_descending rc (length T1) (Z.to_nat p) _ _ ltac:(lia) E2 E1) as Hd.
    cbn in Hd.
    assert (Hmt : count_get rc (Str t) = Some mt).
    { apply assoc_get_NoDup; [done |]. rewrite <- sort_counts_perm.
      by eapply list_elem_of_lookup_2. }
    assert (Hma : count_get rc (Ref a) = Some ma).
    { apply assoc_get_NoDup; [done |]. rewrite <- sort_counts_perm.
      by eapply list_elem_of_lookup_2. }
    rewrite Hm in Hmt. injection Hmt as <-.
    specialize (Hcounts _ _ Hma). lia.
  - rewrite Hlen. lia.
  - pose proof (coders_length (flatten rc) (flatten rc)) as Hc.
    assert (Hcr : (cost (refs (flatten rc)) ≤ sum_list (cells <$> h))%nat).
    { apply cost_le.
      - apply refs_NoDup. by rewrite flatten_perm.
      - intros a Ha%refs_elem%Hperm. by apply (Hkeys (Ref a)). }
    lia.
Qed.

End indexer_steps.

End serializer_indexer.

(** ** [encode] and then [decode] *)

Section serializer_round_trip.
Import Binarizer.

(** The place of the object [a] among the objects that [decode] creates
    for the table [vs]. *)
Fixpoint address (vs : list value) (a : nat) : nat :=
  match vs with
  | [] => 0%nat
  | Ref b :: vs' => if decide (a = b) then 0%nat else S (address vs' a)
  | _ :: vs' => address vs' a
  end.

Lemma address_inj vs a b :
  Ref a ∈ vs → Ref b ∈ vs → address vs a = address vs b → a = b.
Proof.
  induction vs as [| v vs IH]; intros Ha Hb Heq; [by apply elem_of_nil in Ha |].
  apply elem_of_cons in Ha, Hb.
  destruct v as [| | | | | | c];
    try (destruct Ha as [Ha | Ha]; [done |]; destruct Hb as [Hb | Hb]; [done |];
         by apply IH).
  cbn in Heq. destruct (decide (a = c)) as [-> | Hac], (decide (b = c)) as [-> | Hbc];
    try done.
  destruct Ha as [Ha | Ha]; [congruence |]. destruct Hb as [Hb | Hb]; [congruence |].
  apply IH; [done | done | lia].
Qed.

Lemma address_made h T1 a T2 :
  NoDup (T1 ++ Ref a :: T2) → (∀ b, Ref b ∈ T1 → is_Some (h !! b)) →
  address (T1 ++ Ref a :: T2) a = length (shells h T1).
Proof.
  induction T1 as [| v T1 IH]; intros Hnd Hh.
  - cbn. by rewrite decide_True.
  - cbn [app] in Hnd. apply NoDup_cons in Hnd as [Hv Hnd].
    assert (IH' := IH Hnd (λ b Hb, Hh b (list_elem_of_further _ _ _ Hb))).
    destruct v as [| | | | | | c]; try done.
    cbn [app address]. rewrite decide_False.
    + destruct (Hh c (list_elem_of_here _ _)) as [o Ho].
      unfold shells in *. cbn [omap list_omap]. rewrite Ho. cbn. by rewrite IH'.
    + intros ->. apply Hv, elem_of_app. right. apply list_elem_of_here.
Qed.

Lemma fills_lookup h ren T1 a T2 o :
  (∀ b, Ref b ∈ T1 → is_Some (h !! b)) → h !! a = Some o →
  fills h ren (T1 ++ Ref a :: T2) !! length (shells h T1) = Some (rename_object ren o).
Proof.
  intros Hh Ha. unfold fills. rewrite omap_app. fold (fills h ren T1).
  rewrite lookup_app_r; rewrite length_fills; [| lia].
  rewrite Nat.sub_diag. cbn [omap list_omap]. by rewrite Ha.
Qed.

Lemma inside_nested classes o b : Ref b ∈ inside o → Ref b ∈ nested classes o.
Proof.
  destruct o as [items | props | entries | elements | c props | v | w]; cbn; try done.
  - intros ((k & v) & Heq & Hin)%list_elem_of_fmap. cbn in Heq. subst v.
    apply list_elem_of_In, in_flat_map. exists (k, Ref b).
    split; [by apply list_elem_of_In |]. cbn. tauto.
  - intros [((k & v) & Heq & Hin)%list_elem_of_fmap | ((k & v) & Heq & Hin)%list_elem_of_fmap]%elem_of_app;
      cbn in Heq; subst; apply list_elem_of_In, in_flat_map.
    + exists (Ref b, v). split; [by apply list_elem_of_In |]. cbn. tauto.
    + exists (k, Ref b). split; [by apply list_elem_of_In |]. cbn. tauto.
  - intros Hin. apply elem_of_app. by right.
Qed.

(** The bytes of [encode]: the counts, the head and the body. *)
Lemma encode_bytes classes h x :
  supported classes h → value_ok h x →
  ∃ rc p,
    index classes h x = Ok rc ∧ indexes_get (flatten rc) x = Some p ∧
    encode classes h x
    = Ok ((varint (Z.of_nat (length (concat (entry_coders classes (flatten rc) h <$> flatten rc))))
           ++ varint (Z.of_nat (length (flatten rc))) ++ varint p)
          ++ packed (coder_id <$> concat (entry_coders classes (flatten rc) h <$> flatten rc))
          ++ concat (entry_bytes classes (flatten rc) h <$> flatten rc)).
Proof.
  intros Hh Hx.
  destruct (table_ok classes h Hh x Hx) as (rc & Hidx & Hnd & Hxin & Hok & _ & Hlen & Hcs).
  destruct (indexes_get_elem _ _ Hxin) as [p Hp].
  destruct (indexes_get_Some _ _ _ Hp) as [Hr _].
  exists rc, p. split; [done |]. split; [done |].
  unfold encode. rewrite Hidx. cbn [mbind result_bind].
  change (mkEncoder [] 0 0 0 []) with (encoder_at [] 0 []).
  rewrite (for_each_entry classes h (flatten rc)); [| unfold MAX_SAFE_INTEGER; lia
    | apply (plain_constructors _ _ Hh) | done].
  cbn [app mbind result_bind]. rewrite Z.add_0_l.
  apply finish_spec; [unfold MAX_SAFE_INTEGER; lia | unfold MAX_SAFE_INTEGER; lia | done
                     | unfold MAX_SAFE_INTEGER; lia].
Qed.

(** [new BinaryDecoder(buffer)] on such bytes. *)
Lemma new_decoder_spec cs oc p bs :
  Forall (λ c, c ≠ UNKNOWN) cs →
  Z.of_nat (length cs) ≤ MAX_SAFE_INTEGER → 0 ≤ oc ≤ MAX_SAFE_INTEGER →
  0 ≤ p ≤ MAX_SAFE_INTEGER →
  let meta := varint (Z.of_nat (length cs)) ++ varint oc ++ varint p in
  let buf := meta ++ packed (coder_id <$> cs) ++ bs in
  let bo := (length meta + length (packed (coder_id <$> cs)))%nat in
  new_decoder buf = Ok (st buf oc p (packed (coder_id <$> cs)) bo bo 0 0 [] []) ∧
  upcoming buf (packed (coder_id <$> cs)) 0 bo cs bs.
Proof.
  intros Hcs Hlen Hoc Hp meta buf bo.
  assert (Hids : Forall (λ x, x ≠ 0) (coder_id <$> cs)).
  { apply Forall_fmap. eapply Forall_impl; [exact Hcs |].
    intros c Hc. cbn. pose proof (coder_id_pos c Hc). lia. }
  pose proof (packed_length _ Hids) as Hpl. rewrite length_fmap in Hpl.
  split.
  - unfold new_decoder.
    rewrite (readVarint_at buf 0 (Z.of_nat (length cs))
               ((varint oc ++ varint p) ++ packed (coder_id <$> cs) ++ bs));
      [| by (unfold buf, meta; rewrite drop_0, <- !app_assoc) | lia].
    cbn [mbind result_bind Nat.add].
    rewrite (readVarint_at buf _ oc (varint p ++ packed (coder_id <$> cs) ++ bs));
      [| | lia].
    2:{ unfold buf, meta. rewrite <- !app_assoc. by rewrite drop_app_length. }
    cbn [mbind result_bind].
    rewrite (readVarint_at buf _ p (packed (coder_id <$> cs) ++ bs)); [| | lia].
    2:{ unfold buf, meta. rewrite <- !app_assoc, <- drop_drop.
        rewrite drop_app_length. by rewrite drop_app_length. }
    cbn [mbind result_bind].
    rewrite <- Hpl.
    assert (Hm : (length (varint (Z.of_nat (length cs))) + length (varint oc)
                  + length (varint p))%nat = length meta).
    { unfold meta. rewrite !length_app. lia. }
    rewrite Hm.
    assert (Hb : length buf = (bo + length bs)%nat).
    { unfold buf, bo. rewrite !length_app. lia. }
    rewrite (proj2 (Nat.ltb_ge _ _)) by (fold bo; lia).
    unfold st. do 2 f_equal.
    unfold buf. rewrite drop_app_length. by rewrite take_app_length.
  - split.
    + intros j c Hj. rewrite Z.add_0_l. by apply (packed_flag cs j c).
    + exists []. rewrite app_nil_r. unfold buf, bo.
      rewrite <- drop_drop. rewrite drop_app_length. by rewrite drop_app_length.
Qed.

(** What is reachable from a value of the table is in the table. *)
Lemma reachable_table classes h T x a :
  Forall (entry_ok classes h T) T → x ∈ T → reachable h x a → Ref a ∈ T.
Proof.
  intros Hok Hx. induction 1 as [a -> | a o b _ IH Ha Hb]; [done |].
  rewrite Forall_forall in Hok. destruct (Hok _ IH) as (o' & Ha' & _ & Hleaves & _).
  rewrite Ha in Ha'. injection Ha' as <-.
  rewrite Forall_forall in Hleaves.
  by destruct (Hleaves _ (inside_nested classes o b Hb)) as [Hin | Hatom].
Qed.

(** [decode] on the bytes of [encode], with the table of [encode]. *)
Lemma decode_encoded classes h x rc p :
  supported classes h → value_ok h x →
  index classes h x = Ok rc → indexes_get (flatten rc) x = Some p →
  decode classes
    ((varint (Z.of_nat (length (concat (entry_coders classes (flatten rc) h <$> flatten rc))))
      ++ varint (Z.of_nat (length (flatten rc))) ++ varint p)
     ++ packed (coder_id <$> concat (entry_coders classes (flatten rc) h <$> flatten rc))
     ++ concat (entry_bytes classes (flatten rc) h <$> flatten rc))
  = Ok (rename (address (flatten rc)) x,
        fills h (address (flatten rc)) (flatten rc)).
Proof.
  intros Hh Hx Hidx Hp.
  destruct (table_ok classes h Hh x Hx) as (rc' & Hidx' & Hnd & Hxin & Hok & Htags & Hlen & Hcs).
  rewrite Hidx in Hidx'. injection Hidx' as <-.
  set (T := flatten rc) in *.
  set (cs := concat (entry_coders classes T h <$> T)) in *.
  set (bs := concat (entry_bytes classes T h <$> T)).
  set (ren := address T).
  destruct (indexes_get_Some _ _ _ Hp) as [Hr Hl].
  assert (Hknown : Forall (λ c, c ≠ UNKNOWN) cs).
  { apply Forall_concat, Forall_fmap. eapply Forall_impl; [exact Hok |].
    intros v Hv. by apply entry_coders_known. }
  destruct (new_decoder_spec cs (Z.of_nat (length T)) p bs Hknown)
    as [Hnew Hup]; [unfold MAX_SAFE_INTEGER; lia .. |].
  set (meta := varint (Z.of_nat (length cs)) ++ varint (Z.of_nat (length T)) ++ varint p) in *.
  set (buf := meta ++ packed (coder_id <$> cs) ++ bs) in *.
  set (bo := (length meta + length (packed (coder_id <$> cs)))%nat) in *.
  assert (Hsmall : Z.of_nat (length T) ≤ MAX_SAFE_INTEGER) by (unfold MAX_SAFE_INTEGER; lia).
  assert (Hobj : ∀ b, Ref b ∈ T → is_Some (h !! b)).
  { intros b Hb. rewrite Forall_forall in Hok. destruct (Hok _ Hb) as (o & Ho & _). by exists o. }
  assert (Hmade : ∀ T1 a T2, T = T1 ++ Ref a :: T2 → ren a = length (shells h T1)).
  { intros T1 a T2 HT. unfold ren. rewrite HT. apply address_made.
    - by rewrite <- HT.
    - intros b Hb. apply Hobj. rewrite HT. apply elem_of_app. by left. }
  assert (Hlate : ∀ v, leaf_ok T v → late T (image ren T) v = rename ren v).
  { intros v Hv. unfold late. destruct (indexes_get T v) as [q |] eqn:Hq.
    - destruct (indexes_get_Some _ _ _ Hq) as [Hqr Hql].
      rewrite <- (Z2Nat.id q) by lia. by apply (image_lookup T ren).
    - destruct Hv as [Hv | Hv].
      + destruct (indexes_get_elem _ _ Hv) as [q Hq']. congruence.
      + by destruct v. }
  assert (Hinj : ∀ v w, leaf_ok T v → leaf_ok T w → rename ren v = rename ren w → v = w).
  { intros v w Hv Hw Heq.
    destruct v as [| | | | | | a], w as [| | | | | | a']; try done.
    destruct Hv as [Hv | Hv]; [| done]. destruct Hw as [Hw | Hw]; [| done].
    cbn in Heq. injection Heq as Heq. f_equal. by apply (address_inj T a a'). }
  assert (Hbuf : ∃ n, length buf = S n).
  { unfold buf, meta. rewrite !length_app.
    pose proof (length_varint_pos (Z.of_nat (length cs))).
    exists (Nat.pred (length (varint (Z.of_nat (length cs)))
                      + (length (varint (Z.of_nat (length T))) + length (varint p))
                      + (length (packed (coder_id <$> cs)) + length bs))). lia. }
  destruct Hbuf as [fuel Hfuel].
  destruct (predecode_table classes T buf (Z.of_nat (length T)) p (packed (coder_id <$> cs)) bo
              Hsmall h ren Hok Hmade Htags fuel T [] bo 0 eq_refl Hup) as [l1 Hpre].
  destruct (decode_table classes T buf (Z.of_nat (length T)) p (packed (coder_id <$> cs)) bo
              Hsmall h ren (image ren T) Hlate Hinj Hok eq_refl Hmade fuel T [] bo 0 eq_refl Hup)
    as [l2 Hdec].
  unfold decode. rewrite Hnew. cbn [mbind result_bind].
  rewrite Hfuel. cbn [objects st]. rewrite Nat2Z.id.
  change (st buf (Z.of_nat (length T)) p (packed (coder_id <$> cs)) bo bo 0
            (Z.of_nat (length [])) (image ren []) (shells h []))
    with (st buf (Z.of_nat (length T)) p (packed (coder_id <$> cs)) bo bo 0 0 [] []) in Hpre.
  unfold st at 1. unfold st in Hpre at 1. rewrite Hpre. cbn [mbind result_bind].
  unfold with_offset, with_indexes, st.
  cbn [objectIndex bodyOffset buffer objects root flags decoded created offset atomIndex].
  rewrite Nat2Z.id.
  change (st buf (Z.of_nat (length T)) p (packed (coder_id <$> cs)) bo bo 0
            (Z.of_nat (length [])) (image ren T) (fills h ren [] ++ shells h T))
    with (st buf (Z.of_nat (length T)) p (packed (coder_id <$> cs)) bo bo 0 0
            (image ren T) (shells h T)) in Hdec.
  unfold st in Hdec at 1. rewrite Hdec. cbn [mbind result_bind].
  unfold decoded_at, st. cbn [decoded root created]. f_equal. f_equal.
  rewrite <- (Z2Nat.id p) by lia. by apply (image_lookup T ren).
Qed.

End serializer_round_trip.

(** * The vector: more of its operations *)

Section vector_more.
Context {T : Type}.
Import Vector.
Implicit Types (v : Vector T) (x : option T).

(** A vector below its greatest size is [wf] after [append], with the
    element at the end. *)
Lemma append_at_length v x :
  set_within v (length v) x = append v x.
Proof.
  unfold append, set. by destruct (Z.gtb_spec (length v) (length v)); [lia |].
Qed.

(** The loop of [set] beyond the end: [n] times [undefined]. *)
Lemma fill_spec_vector (n : nat) : ∀ v,
  wf v → length v + Z.of_nat n ≤ 2 ^ 30 →
  ∃ v', foldM (λ vector i, set_within vector i None) v (seqZ (length v) (Z.of_nat n)) = Ok v' ∧
        wf v' ∧ to_list v' = to_list v ++ replicate n None ∧
        length v' = length v + Z.of_nat n.
Proof.
  induction n as [| n IH]; intros v Hwf Hlen.
  - exists v. cbn. rewrite app_nil_r, Z.add_0_r. done.
  - rewrite seqZ_cons by lia. cbn [foldM].
    rewrite append_at_length.
    destruct (append_spec v None Hwf ltac:(lia)) as (v1 & -> & Hwf1 & Hl1 & Hlen1).
    cbn [mbind result_bind].
    replace (Z.succ (length v)) with (length v1) by lia.
    replace (Z.pred (Z.of_nat (S n))) with (Z.of_nat n) by lia.
    destruct (IH v1 Hwf1 ltac:(lia)) as (v' & -> & Hwf' & Hl' & Hlen').
    exists v'. split; [done |]. split; [done |]. split.
    + rewrite Hl', Hl1, <- app_assoc. done.
    + lia.
Qed.

(** [set] beyond the end. *)
Lemma set_beyond_spec v i x :
  wf v → length v < i < 2 ^ 30 →
  ∃ v', set v i x = Ok v' ∧ wf v' ∧
        to_list v' = to_list v ++ replicate (Z.to_nat (i - length v)) None ++ [x] ∧
        length v' = i + 1.
Proof.
  intros Hwf Hi. pose proof (wf_length_bound v Hwf) as Hb.
  unfold set. destruct (Z.gtb_spec i (length v)); [| lia].
  destruct (fill_spec_vector (Z.to_nat (i - length v)) v Hwf ltac:(lia))
    as (v1 & Hfill & Hwf1 & Hl1 & Hlen1).
  rewrite Z2Nat.id in Hfill, Hlen1 by lia. rewrite Hfill. cbn [mbind result_bind].
  replace (set_within v1 i x) with (append v1 x)
    by (rewrite <- append_at_length; f_equal; lia).
  destruct (append_spec v1 x Hwf1 ltac:(lia)) as (v' & -> & Hwf' & Hl' & Hlen').
  exists v'. split; [done |]. split; [done |]. split.
  - by rewrite Hl', Hl1, <- app_assoc.
  - lia.
Qed.

End vector_more.

(** [append] returns a vector that is one element longer, with the new
    element at the end, where [last] reads it, and with the elements
    before at their places. *)
Theorem vector_append_get {T} (v : Vector.Vector T) (x : option T) :
  wf v → Vector.length v < 2 ^ 30 →
  ∃ v', Vector.append v x = Ok v' ∧ wf v' ∧
        Vector.length v' = Vector.length v + 1 ∧
        Vector.get v' (Vector.length v) = Ok x ∧ Vector.last v' = Ok x ∧
        ∀ i, 0 ≤ i < Vector.length v → Vector.get v' i = Vector.get v i.
Proof.
  intros Hwf Hlen. pose proof (wf_length_bound v Hwf) as Hb.
  pose proof (wf_length v Hwf) as Hn.
  destruct (append_spec v x Hwf Hlen) as (v' & Happ & Hwf' & Hl & Hlen').
  assert (Hend : Vector.get v' (Vector.length v) = Ok x).
  { rewrite get_spec by (done || lia). rewrite Hl, lookup_app_r by lia.
    by rewrite Hn, Nat.sub_diag. }
  exists v'. repeat split; try done.
  - unfold Vector.last. by replace (Vector.length v' - 1) with (Vector.length v) by lia.
  - intros i Hi. rewrite !get_spec by (done || lia).
    rewrite Hl, lookup_app_l by lia. done.
Qed.

Lemma vector40_wf : wf Samples.vector40.
Proof.
  exists 1%nat. cbn. split; [done |]. split; [lia |]. split; [lia |].
  eexists [_], [_], 8%nat. split; [reflexivity |].
  split; [by repeat constructor |]. split; [| split; [reflexivity | vm_compute; lia]].
  right. eexists. split; [reflexivity |]. split; [cbn; lia |]. vm_compute. lia.
Qed.

Lemma vector_append_get_witness :
  ∃ v', Vector.append Samples.vector40 (Some 7) = Ok v' ∧ wf v' ∧
        Vector.length v' = Vector.length Samples.vector40 + 1 ∧
        Vector.get v' (Vector.length Samples.vector40) = Ok (Some 7) ∧
        Vector.last v' = Ok (Some 7) ∧
        ∀ i, 0 ≤ i < Vector.length Samples.vector40 →
             Vector.get v' i = Vector.get Samples.vector40 i.
Proof.
  apply (vector_append_get Samples.vector40 (Some 7)).
  - apply vector40_wf.
  - cbn. lia.
Defined.

(** [set] below the length leaves the other elements as they are. *)
Theorem vector_set_other {T} (v : Vector.Vector T) (i j : Z) (x : option T) :
  wf v → 0 ≤ i < Vector.length v → j ≠ i →
  ∃ v', Vector.set v i x = Ok v' ∧ wf v' ∧ Vector.get v' j = Vector.get v j.
Proof.
  intros Hwf Hi Hj.
  destruct (set_spec v i x Hwf Hi) as (v' & Hset & Hwf' & Hl & Hlen).
  exists v'. split; [done |]. split; [done |].
  destruct (decide (0 ≤ j < Vector.length v)) as [Hin | Hout].
  - rewrite !get_spec by (done || lia). rewrite Hl.
    rewrite list_lookup_insert_ne by lia. done.
  - rewrite !get_outside by lia. done.
Qed.

Lemma vector_set_other_witness :
  ∃ v', Vector.set Samples.vector40 35 (Some 7) = Ok v' ∧ wf v' ∧
        Vector.get v' 3 = Vector.get Samples.vector40 3.
Proof.
  apply (vector_set_other Samples.vector40 35 3 (Some 7)).
  - apply vector40_wf.
  - cbn. lia.
  - lia.
Defined.

(** [set] beyond the end makes the vector as long as the index needs:
    the places between the old end and the index read as [undefined],
    the element is at the index, and the old elements stay. *)
Theorem vector_set_beyond {T} (v : Vector.Vector T) (i : Z) (x : option T) :
  wf v → Vector.length v < i < 2 ^ 30 →
  ∃ v', Vector.set v i x = Ok v' ∧ wf v' ∧ Vector.length v' = i + 1 ∧
        Vector.get v' i = Ok x ∧
        (∀ j, Vector.length v ≤ j < i → Vector.get v' j = Ok None) ∧
        (∀ j, 0 ≤ j < Vector.length v → Vector.get v' j = Vector.get v j).
Proof.
  intros Hwf Hi. pose proof (wf_length_bound v Hwf) as Hb.
  pose proof (wf_length v Hwf) as Hn.
  destruct (set_beyond_spec v i x Hwf Hi) as (v' & Hset & Hwf' & Hl & Hlen).
  exists v'. repeat split; try done.
  - rewrite get_spec by (done || lia). rewrite Hl.
    rewrite lookup_app_r by lia.
    rewrite lookup_app_r by (rewrite length_replicate; lia).
    rewrite length_replicate, Hn.
    by replace (Z.to_nat i - Z.to_nat (Vector.length v) - Z.to_nat (i - Vector.length v))%nat
      with 0%nat by lia.
  - intros j Hj. rewrite get_spec by (done || lia). rewrite Hl.
    rewrite lookup_app_r by lia.
    rewrite lookup_app_l by (rewrite length_replicate; lia).
    rewrite lookup_replicate_2 by lia. done.
  - intros j Hj. rewrite !get_spec by (done || lia). rewrite Hl.
    rewrite lookup_app_l by lia. done.
Qed.

Lemma vector_set_beyond_witness :
  ∃ v', Vector.set Samples.vector40 70 (Some 7) = Ok v' ∧ wf v' ∧
        Vector.length v' = 70 + 1 ∧ Vector.get v' 70 = Ok (Some 7) ∧
        (∀ j, Vector.length Samples.vector40 ≤ j < 70 → Vector.get v' j = Ok None) ∧
        (∀ j, 0 ≤ j < Vector.length Samples.vector40 →
              Vector.get v' j = Vector.get Samples.vector40 j).
Proof.
  apply (vector_set_beyond Samples.vector40 70 (Some 7)).
  - apply vector40_wf.
  - cbn. lia.
Defined.

(** The iterator yields as many elements as the vector is long, and the
    element number [i] is what [get(i)] returns. *)
Theorem vector_iterate_get {T} (v : Vector.Vector T) :
  wf v →
  ∃ l, Vector.iterate v = Ok l ∧ Z.of_nat (List.length l) = Vector.length v ∧
       ∀ (i : nat) x, l !! i = Some x → Vector.get v (Z.of_nat i) = Ok x.
Proof.
  intros Hwf. pose proof (wf_length_bound v Hwf) as Hb.
  pose proof (wf_length v Hwf) as Hn.
  exists (to_list v). split; [by apply iterate_spec |]. split; [lia |].
  intros i x Hi. pose proof (lookup_lt_Some _ _ _ Hi).
  rewrite get_spec by (done || lia). by rewrite Nat2Z.id, Hi.
Qed.

Lemma vector_iterate_get_witness :
  ∃ l, Vector.iterate Samples.vector40 = Ok l ∧
       Z.of_nat (List.length l) = Vector.length Samples.vector40 ∧
       ∀ (i : nat) x, l !! i = Some x → Vector.get Samples.vector40 (Z.of_nat i) = Ok x.
Proof. apply (vector_iterate_get Samples.vector40), vector40_wf. Defined.

Section vector_for_of.
Context {T : Type}.
Import Vector VectorOps.
Implicit Types (v : Vector T) (x : option T).

(** The body of a loop over the elements [l]. *)
Fixpoint run_body {A R} (body : A → option T → result (A + R)) (a : A)
    (l : list (option T)) : result (A + R) :=
  match l with
  | [] => Ok (inl a)
  | x :: l' =>
      r ← body a x;
      match r with
      | inl a' => run_body body a' l'
      | inr res => Ok (inr res)
      end
  end.

Lemma for_of_loop_spec {A R} (body : A → option T → result (A + R)) n :
  ∀ sh stack node i l a,
    iterate_loop n sh stack node i = Ok l →
    for_of_loop n sh stack node i body a = run_body body a l.
Proof.
  induction n as [| n IH]; intros sh stack node i l a Hl.
  - cbn in Hl. by injection Hl as <-.
  - cbn [iterate_loop for_of_loop] in Hl |- *.
    destruct (if (i >? 0) && (js_and i nodeBitmask =? nodeSize - 1)
              then _ else _) as [[stack1 node1] |]; [| done].
    cbn [mbind result_bind] in Hl |- *.
    destruct (descend _ stack1 node1) as [[stack2 node2] |]; [| done].
    cbn [mbind result_bind] in Hl |- *.
    destruct node2 as [[items | cs] |]; try done.
    destruct (iterate_loop n sh stack2 (Some (Leaf items)) (i + 1)) as [rest |] eqn:Hrest;
      [| done].
    cbn in Hl. injection Hl as <-. cbn [run_body].
    destruct (body a _) as [[a' | res] |]; cbn [mbind result_bind]; try done.
    by apply IH.
Qed.

Lemma for_of_spec {A R} (body : A → option T → result (A + R)) v a :
  wf v → for_of v body a = run_body body a (to_list v).
Proof.
  intros Hwf. unfold for_of. apply for_of_loop_spec.
  by apply (iterate_spec v).
Qed.

Lemma filter_body_spec (predicate : option T → bool) (l : list (option T)) : ∀ acc,
  wf acc → length acc + Z.of_nat (List.length l) ≤ 2 ^ 30 →
  ∃ acc', run_body (R := Empty_set)
            (λ acc element,
               if predicate element then acc' ← append acc element; Ok (inl acc')
               else Ok (inl acc)) acc l = Ok (inl acc') ∧
          wf acc' ∧ to_list acc' = to_list acc ++ List.filter predicate l.
Proof.
  induction l as [| x l IH]; intros acc Hwf Hlen.
  - exists acc. cbn. by rewrite app_nil_r.
  - cbn [run_body List.filter]. cbn [List.length] in Hlen.
    destruct (predicate x).
    + destruct (append_spec acc x Hwf ltac:(lia)) as (acc1 & -> & Hwf1 & Hl1 & Hlen1).
      cbn [mbind result_bind].
      destruct (IH acc1 Hwf1 ltac:(lia)) as (acc' & -> & Hwf' & Hl').
      exists acc'. split; [done |]. split; [done |].
      rewrite Hl', Hl1, <- app_assoc. done.
    + cbn [mbind result_bind]. apply IH; [done | lia].
Qed.

End vector_for_of.

(** [filter] returns a vector of the elements that pass the predicate,
    in the order of the iterator. *)
Theorem vector_filter_elements {T} (v : Vector.Vector T) (predicate : option T → bool) :
  wf v →
  ∃ l v', Vector.iterate v = Ok l ∧ VectorOps.filter v predicate = Ok v' ∧ wf v' ∧
          Vector.iterate v' = Ok (List.filter predicate l).
Proof.
  intros Hwf. pose proof (wf_length_bound v Hwf) as Hb.
  pose proof (wf_length v Hwf) as Hn.
  unfold VectorOps.filter. rewrite for_of_spec by done.
  destruct (filter_body_spec predicate (to_list v) Vector.empty wf_empty)
    as (v' & -> & Hwf' & Hl); [cbn; lia |].
  exists (to_list v), v'. split; [by apply iterate_spec |].
  split; [done |]. split; [done |].
  rewrite iterate_spec by done. by rewrite Hl.
Qed.

Lemma vector_filter_elements_witness :
  ∃ l v', Vector.iterate Samples.vector40 = Ok l ∧
          VectorOps.filter Samples.vector40 (λ x, bool_decide (x = Some 5)) = Ok v' ∧
          wf v' ∧
          Vector.iterate v' = Ok (List.filter (λ x, bool_decide (x = Some 5)) l).
Proof. apply (vector_filter_elements Samples.vector40), vector40_wf. Defined.

(** [find] returns the first element of the iterator that passes the
    predicate, and [undefined] when there is none. *)
Theorem vector_find_first {T} (v : Vector.Vector T) (predicate : option T → bool) :
  wf v →
  ∃ l, Vector.iterate v = Ok l ∧
       VectorOps.find v predicate = Ok (default None (List.find predicate l)).
Proof.
  intros Hwf. exists (to_list v). split; [by apply iterate_spec |].
  unfold VectorOps.find. rewrite for_of_spec by done.
  induction (to_list v) as [| x l IH]; [done |].
  cbn [run_body List.find mbind result_bind]. by destruct (predicate x).
Qed.

Lemma vector_find_first_witness :
  ∃ l, Vector.iterate Samples.vector40 = Ok l ∧
       VectorOps.find Samples.vector40 (λ x, bool_decide (x = Some 5))
       = Ok (default None (List.find (λ x, bool_decide (x = Some 5)) l)).
Proof. apply (vector_find_first Samples.vector40), vector40_wf. Defined.

Section vector_pop.
Context {T : Type}.
Import Vector VectorOps.
Implicit Types (v : Vector T) (x : option T).

Lemma length_digit v :
  wf v → js_and (length v) nodeBitmask = length v `mod` 32.
Proof.
  intros Hwf. pose proof (wf_length_bound v Hwf).
  rewrite js_and_mask, int32_small by lia. done.
Qed.

End vector_pop.

(** [pop] on a vector whose last leaf keeps an element (the length is
    not 1 modulo 32): the result is one element shorter and [get] reads
    the elements before the last one as before. *)
Theorem vector_pop_get {T} (v : Vector.Vector T) :
  wf v → 2 ≤ Vector.length v → Vector.length v `mod` 32 ≠ 1 →
  ∃ v', VectorOps.pop v = Ok v' ∧ Vector.length v' = Vector.length v - 1 ∧
        ∀ i, 0 ≤ i < Vector.length v - 1 → Vector.get v' i = Vector.get v i.
Proof.
  intros Hwf Hlen Hmod. unfold VectorOps.pop.
  destruct (Z.ltb_spec (Vector.length v) 2); [lia |].
  rewrite length_digit by done.
  destruct (Z.eqb_spec (Vector.length v `mod` 32) 1); [done |]. cbn [negb].
  destruct (set_spec v (Vector.length v - 1) None Hwf ltac:(lia))
    as (v1 & -> & Hwf1 & Hl & Hlen1).
  cbn [mbind result_bind]. eexists. split; [reflexivity |].
  cbn [Vector.length]. split; [lia |].
  intros i Hi.
  transitivity (Vector.get v1 i).
  - unfold Vector.get. cbn [Vector.length Vector.root Vector.shift].
    destruct (Z.leb_spec 0 i); [| lia].
    destruct (Z.ltb_spec i (Vector.length v1 - 1)); [| lia].
    destruct (Z.ltb_spec i (Vector.length v1)); [| lia]. done.
  - rewrite !get_spec by (done || lia). rewrite Hl.
    rewrite list_lookup_insert_ne by lia. done.
Qed.

Lemma vector_pop_get_witness :
  ∃ v', VectorOps.pop Samples.vector40 = Ok v' ∧
        Vector.length v' = Vector.length Samples.vector40 - 1 ∧
        ∀ i, 0 ≤ i < Vector.length Samples.vector40 - 1 →
             Vector.get v' i = Vector.get Samples.vector40 i.
Proof.
  apply (vector_pop_get Samples.vector40).
  - apply vector40_wf.
  - cbn. lia.
  - intros H. vm_compute in H. discriminate.
Defined.

Section vector_build.
Context {T : Type}.
Import Vector.
Implicit Types (v : Vector T) (x : option T).

Lemma append_all_spec (l : list (option T)) : ∀ v,
  wf v → length v + Z.of_nat (List.length l) ≤ 2 ^ 30 →
  ∃ v', foldM append v l = Ok v' ∧ wf v' ∧ to_list v' = to_list v ++ l ∧
        length v' = length v + Z.of_nat (List.length l).
Proof.
  induction l as [| x l IH]; intros v Hwf Hlen.
  - exists v. cbn. by rewrite app_nil_r, Z.add_0_r.
  - cbn [foldM]. cbn [List.length] in Hlen.
    destruct (append_spec v x Hwf ltac:(lia)) as (v1 & -> & Hwf1 & Hl1 & Hlen1).
    cbn [mbind result_bind].
    destruct (IH v1 Hwf1 ltac:(lia)) as (v' & -> & Hwf' & Hl' & Hlen').
    exists v'. split; [done |]. split; [done |]. split.
    + by rewrite Hl', Hl1, <- app_assoc.
    + cbn [List.length]. lia.
Qed.

End vector_build.

(** Appending the elements of a list to the empty vector, one after the
    other, gives a vector that is as long as the list and that iterates
    as the list. *)
Theorem vector_of_list {T} (l : list (option T)) :
  Z.of_nat (List.length l) ≤ 2 ^ 30 →
  ∃ v, foldM Vector.append Vector.empty l = Ok v ∧ wf v ∧
       Vector.length v = Z.of_nat (List.length l) ∧ Vector.iterate v = Ok l.
Proof.
  intros Hlen.
  destruct (append_all_spec l Vector.empty wf_empty) as (v & Hv & Hwf & Hl & Hn);
    [cbn; lia |].
  exists v. split; [done |]. split; [done |]. split; [by rewrite Hn |].
  rewrite iterate_spec by done. by rewrite Hl.
Qed.

Lemma vector_of_list_witness :
  ∃ v, foldM Vector.append Vector.empty [Some 1; None; Some 3] = Ok v ∧ wf v ∧
       Vector.length v = Z.of_nat (List.length [Some 1; None; Some 3]) ∧
       Vector.iterate v = Ok [Some 1; None; Some 3].
Proof. apply (vector_of_list [Some 1; None; Some 3]). cbn. lia. Defined.

Section vector_pop_shift.
Context {T : Type}.
Import Vector VectorOps.
Implicit Types (v : Vector T) (x : option T).

Lemma holds_succ_inner d n (node : VectorNode T) :
  holds (S d) n node → ∃ cs, node = Inner cs.
Proof. destruct node as [items | cs]; [done | by exists cs]. Qed.

Lemma cap_one : Z.of_nat (cap 1) = 1024.
Proof. reflexivity. Qed.

Lemma cap_two : Z.of_nat (cap 2) = 32768.
Proof. reflexivity. Qed.

Lemma digit_two (f r : Z) :
  0 ≤ f < 32 → 0 ≤ r < 1024 →
  js_and (js_shr (f * 1024 + r) 10) nodeBitmask = f.
Proof.
  intros Hf Hr. unfold js_shr. rewrite int32_small by lia.
  change (10 `mod` 32) with 10. rewrite Z.shiftr_div_pow2 by lia.
  change (2 ^ 10) with 1024.
  rewrite Z.div_add_l by lia. rewrite (Z.div_small r) by lia. rewrite Z.add_0_r.
  rewrite js_and_mask, int32_small by lia. apply Z.mod_small. lia.
Qed.

End vector_pop_shift.

(** [pop] on a vector of three levels ([shift] 10, 1025 to 32768
    elements) whose last leaf holds one element, and which is not left
    with two levels: the vector that [pop] returns has the [shift] that
    its loop has counted down to 5 over the trie of three levels, so
    that [get(0)] reads an array of the trie, not the element. *)
Theorem vector_pop_loses_shift {T} (v : Vector.Vector T) :
  wf v → Vector.shift v = 10 → 1 < Vector.length v →
  Vector.length v `mod` 32 = 1 → Vector.length v ≠ 1025 →
  ∃ v', VectorOps.pop v = Ok v' ∧ Vector.shift v' = 5 ∧
        Vector.length v' = Vector.length v - 1 ∧
        Vector.get v' 0 = Err ShapeError.
Proof.
  intros (d & Hs & Hd & H0 & Hh) Hshift Hlen Hmod Hne.
  assert (d = 2%nat) as -> by (unfold Vector.nodeBits in Hs; lia).
  assert (Hwf : wf v) by (by exists 2%nat).
  destruct (Vector.root v) as [items | children] eqn:Hroot; [done |].
  destruct Hh as (front & tail & r & -> & HF & Ht & Hn & Hcap).
  set (n := Vector.length v) in *.
  assert (HnZ : n = Z.of_nat (List.length front) * 1024 + Z.of_nat r).
  { rewrite <- cap_one. lia. }
  assert (HcapZ : n ≤ 32768) by (rewrite <- cap_two; lia).
  assert (HrZ : tail = [] ∧ r = 0%nat ∨
                ∃ p, tail = [p] ∧ holds 1 r p ∧ 0 < Z.of_nat r < 1024).
  { destruct Ht as [? | (p & ? & ? & ?)]; [by left |]. right. exists p.
    split; [done |]. split; [done |]. rewrite <- cap_one. lia. }
  clear Ht Hn Hcap.
  destruct HrZ as [[-> ->] | (p & -> & Hp & Hr)].
  { exfalso. rewrite HnZ in Hmod.
    replace (Z.of_nat (List.length front) * 1024 + Z.of_nat 0)
      with (Z.of_nat (List.length front) * 32 * 32) in Hmod by lia.
    rewrite Z.mod_mul in Hmod by lia. done. }
  destruct (holds_succ_inner 0 r p Hp) as [cs ->].
  assert (Hk : js_and (js_shr (n - 1) 10) Vector.nodeBitmask
               = Z.of_nat (List.length front)).
  { replace (n - 1) with (Z.of_nat (List.length front) * 1024 + (Z.of_nat r - 1)) by lia.
    apply digit_two; lia. }
  unfold VectorOps.pop. fold n.
  destruct (Z.ltb_spec n 2); [lia |].
  unfold n at 1. rewrite length_digit by done. fold n. rewrite Hmod. cbn [Z.eqb Pos.eqb negb].
  rewrite Hshift.
  change (js_shl Vector.nodeSize (10 - Vector.nodeBits)) with 1024.
  destruct (Z.eqb_spec (n - 1) 1024); [lia |].
  change (VectorOps.pop_rounds 10) with 1%nat. rewrite Hroot.
  cbn [VectorOps.pop_loop]. rewrite Hk.
  rewrite array_get_nat by lia. rewrite Nat2Z.id.
  rewrite list_lookup_fmap, lookup_app_r by lia. rewrite Nat.sub_diag.
  cbn [lookup list_lookup fmap option_fmap option_map mjoin option_join mbind result_bind].
  eexists. split; [reflexivity |].
  cbn [Vector.shift Vector.length]. split; [reflexivity |]. split; [done |].
  unfold Vector.get. cbn [Vector.length Vector.root Vector.shift].
  destruct (Z.leb_spec 0 0); [| lia]. destruct (Z.ltb_spec 0 (n - 1)); [| lia].
  cbn [andb negb].
  change (10 - Z.of_nat 1 * Vector.nodeBits) with 5.
  rewrite get_loop_inner. change (5 =? 0) with false. cbn iota.
  change (js_and (js_shr 0 5) Vector.nodeBitmask) with 0.
  assert (Hfirst : ∃ cs0, array_get
            (array_set (Some <$> front ++ [Vector.Inner cs])
               (Z.of_nat (List.length front))
               (Some (Vector.Inner
                  (array_set cs (js_and (js_shr (n - 1) (10 - Vector.nodeBits))
                                        Vector.nodeBitmask) None)))) 0
          = Some (Vector.Inner cs0)).
  { destruct front as [| f0 front'].
    - rewrite array_get_set_eq by done. by eexists.
    - apply Forall_cons in HF as [Hf0 _].
      destruct (holds_succ_inner 0 _ f0 Hf0) as [cs0 ->].
      exists cs0. unfold array_set. rewrite Nat2Z.id.
      rewrite length_fmap, length_app.
      destruct (Nat.ltb_spec (List.length (Vector.Inner cs0 :: front'))
                  (List.length (Vector.Inner cs0 :: front') + List.length [Vector.Inner cs]));
        [| cbn in *; lia].
      rewrite array_get_nat by lia.
      rewrite list_lookup_insert_ne by (cbn; lia). done. }
  destruct Hfirst as (cs0 & ->).
  rewrite get_loop_inner. done.
Qed.

Lemma vector1057_wf : wf Samples.vector1057.
Proof.
  destruct (append_all_spec (Some <$> seqZ 0 1057) Vector.empty wf_empty)
    as (v & Hv & Hwf & _); [by vm_compute |].
  vm_compute in Hv. injection Hv as <-. exact Hwf.
Qed.

Lemma vector_pop_loses_shift_witness :
  ∃ v', VectorOps.pop Samples.vector1057 = Ok v' ∧ Vector.shift v' = 5 ∧
        Vector.length v' = Vector.length Samples.vector1057 - 1 ∧
        Vector.get v' 0 = Err ShapeError.
Proof.
  apply (vector_pop_loses_shift Samples.vector1057).
  - apply vector1057_wf.
  - reflexivity.
  - reflexivity.
  - reflexivity.
  - discriminate.
Defined.

(** * The list and the chronology: more of their operations *)

Section list_facts.
Context {T : Type}.
Import ImmutableList.

Lemma iterate_prepend (l : List T) x : iterate (prepend l x) = x :: iterate l.
Proof. unfold iterate, prepend. cbn. by destruct (next l). Qed.

Lemma prepend_all_spec (xs : list T) : ∀ l,
  iterate (foldl prepend l xs) = rev xs ++ iterate l ∧
  length (foldl prepend l xs) = length l + Z.of_nat (List.length xs) ∧
  first (foldl prepend l xs) = from_option Some (first l) (last xs).
Proof.
  induction xs as [| x xs IH]; intros l.
  - cbn. split; [done |]. split; [lia | done].
  - cbn [foldl]. destruct (IH (prepend l x)) as (Hi & Hl & Hf).
    rewrite Hi, Hl, Hf, iterate_prepend. split; [| split].
    + cbn [rev]. by rewrite <- app_assoc.
    + cbn [prepend length List.length]. lia.
    + destruct xs as [| y xs']; [done |].
      change (last (x :: y :: xs')) with (last (y :: xs')).
      destruct (proj2 (last_is_Some (y :: xs')) ltac:(done)) as [z ->]. done.
Qed.

End list_facts.

(** A list that is built by prepending elements to the empty list
    iterates over them from the last one prepended to the first one;
    [length] counts them and [first] is the last one prepended. *)
Theorem list_prepend_iterate {T} (xs : list T) :
  ImmutableList.iterate (foldl ImmutableList.prepend ImmutableList.empty xs) = rev xs ∧
  ImmutableList.length (foldl ImmutableList.prepend ImmutableList.empty xs)
  = Z.of_nat (List.length xs) ∧
  ImmutableList.first (foldl ImmutableList.prepend ImmutableList.empty xs) = last xs.
Proof.
  destruct (prepend_all_spec xs ImmutableList.empty) as (Hi & Hl & Hf).
  rewrite Hi, Hl, Hf. cbn. rewrite app_nil_r. split; [done |]. split; [done |].
  by destruct (last xs).
Qed.

Section chron_more.
Context {T : Type}.
Import Chron.
Implicit Types (c : Chron T) (e p a : ChronEntry T) (es : list (ChronEntry T)).
Implicit Types (order l : list nat) (cursor : ChronCursor T).

Lemma recent_spec c es order :
  chron_wf c es order → recent c = Ok (list.last es).
Proof.
  intros H. unfold recent, Vector.last.
  rewrite (log_get_at _ _ _ _ H), (log_length _ _ _ H).
  destruct es as [| e es'] using rev_ind.
  - by destruct (cw_root _ _ _ H) as (r & Hr & _).
  - rewrite length_app. cbn [List.length].
    destruct (Z.leb_spec 0 (Z.of_nat (List.length es' + 1) - 1)); [| lia].
    replace (Z.to_nat (Z.of_nat (List.length es' + 1) - 1)) with (List.length es') by lia.
    rewrite lookup_app_r by lia. rewrite Nat.sub_diag. by rewrite last_snoc.
Qed.

Lemma walked_length es l :
  (∀ i, i ∈ l → is_Some (es !! i)) → List.length (walked es l) = List.length l.
Proof.
  induction l as [| i l IH]; intros Hl; [done |].
  rewrite walked_cons. destruct (Hl i (list_elem_of_here _ _)) as [e ->].
  cbn. rewrite IH; [done |]. intros j Hj. apply Hl. by apply list_elem_of_further.
Qed.

Lemma tail_cursor_spec c es order :
  chron_wf c es order →
  ∃ e l1, es !! Z.to_nat (last c) = Some e ∧ chron_tail c = Ok (entry_tail e) ∧
          prevTo c (entry_tail e) = Ok (Some e) ∧ in_log es e ∧
          order = l1 ++ [Z.to_nat (index e)].
Proof.
  intros H. destruct (last_link _ _ _ H) as (e & He & _).
  destruct (cw_last _ _ _ H) as [Hl0 Hlast].
  apply last_Some in Hlast as [l1 Hl1].
  pose proof (cw_index _ _ _ H _ _ He) as Hidx.
  exists e, l1. split; [done |]. split; [| split; [| split]].
  - unfold chron_tail. rewrite (log_get_at _ _ _ _ H).
    destruct (Z.leb_spec 0 (last c)); [| lia]. by rewrite He.
  - unfold prevTo, anchorOf. cbn [anchor entry_tail].
    rewrite (anchorOf_entry_self _ _ _ _ _ H He). done.
  - by apply (in_log_lookup c es order (Z.to_nat (last c))).
  - rewrite Hl1. do 2 f_equal. lia.
Qed.

End chron_more.



(** After an [insert] that finds its place, [recent] is the new entry:
    it is at the end of the log, with the atom and the key of the call,
    linked behind the entry that [prevTo] has returned. *)
Theorem chron_recent_is_inserted {T} (c : Chron.Chron T) (cursor : Chron.ChronCursor T)
    (x : T) (k : Z) (p : Chron.ChronEntry T) :
  chron_ok c → Vector.length (Chron.log c) < 2 ^ 30 →
  Chron.prevTo c cursor = Ok (Some p) →
  ∃ c', Chron.insert c cursor x k = Ok c' ∧
        Chron.recent c'
        = Ok (Some (Chron.mkEntry (Vector.length (Chron.log c)) k (Chron.Live x)
                      (Some (Chron.index p)) (Chron.latter p))).
Proof.
  intros (es & order & H) Hlen Hprev.
  destruct (prevTo_total c es order cursor H) as (r & Hp & Hin).
  rewrite Hprev in Hp. injection Hp as <-. specialize (Hin p eq_refl).
  pose proof Hin as [Hp0 Hlk].
  assert (Hio : Z.to_nat (Chron.index p) ∈ order).
  { rewrite (cw_perm _ _ _ H). apply elem_of_seq. apply lookup_lt_Some in Hlk. lia. }
  apply list_elem_of_split in Hio as (l1 & l2 & Horder).
  destruct (insert_after c es order cursor p x k l1 l2 H Hlen Hprev Hin Horder)
    as (c' & Hins & H').
  exists c'. split; [done |].
  rewrite (recent_spec _ _ _ H'). unfold inserted_entries. rewrite last_snoc.
  by rewrite (log_length _ _ _ H).
Qed.

Lemma chron_recent_is_inserted_witness :
  ∃ c', Chron.insert Samples.chron0 Samples.tail0 10 101 = Ok c' ∧
        Chron.recent c'
        = Ok (Some (Chron.mkEntry (Vector.length (Chron.log Samples.chron0)) 101
                      (Chron.Live 10) (Some (Chron.index (Chron.root (T := Z))))
                      (Chron.latter (Chron.root (T := Z))))).
Proof.
  apply (chron_recent_is_inserted Samples.chron0 Samples.tail0 10 101 Chron.root).
  - apply empty_ok. reflexivity.
  - cbn. lia.
  - reflexivity.
Defined.

(** The iterator of a chron yields every entry of the log but the root,
    each one once, as the log holds it. *)
Theorem chron_iterate_once {T} (c : Chron.Chron T) :
  chron_ok c →
  ∃ es, Chron.iterate c = Ok es ∧ NoDup (Chron.index <$> es) ∧
        Z.of_nat (List.length es) = Vector.length (Chron.log c) - 1 ∧
        ∀ e, e ∈ es → Chron.index e ≠ 0 ∧
                      Vector.get (Chron.log c) (Chron.index e) = Ok (Some e).
Proof.
  intros (es & order & H).
  exists (walked es (tl order)). split; [by apply iterate_spec_chron |].
  split; [by apply (walked_index_nodup c) |].
  destruct (order_split_root _ _ _ H) as [rest Hrest].
  pose proof (order_nodup _ _ _ H) as Hnd. rewrite Hrest in Hnd.
  apply NoDup_cons in Hnd as [H0 Hnd].
  split.
  - rewrite walked_length.
    + rewrite (log_length _ _ _ H).
      pose proof (Permutation_length (cw_perm _ _ _ H)) as Hlen.
      rewrite length_seq, Hrest in Hlen. rewrite Hrest. cbn in *. lia.
    + intros i Hi. apply (order_lookup c es order); [done |].
      rewrite Hrest in Hi |- *. by apply list_elem_of_further.
  - intros e He. rewrite Hrest in He. cbn [tl] in He.
    apply walked_elem in He as (i & Hi & Hlk).
    pose proof (cw_index _ _ _ H _ _ Hlk) as Hidx.
    split.
    + intros Hz. apply H0. by replace O with i by lia.
    + rewrite Hidx, (log_get_nat _ _ _ _ H). by rewrite Hlk.
Qed.

Lemma chron_iterate_once_witness :
  ∃ es, Chron.iterate Samples.chron2 = Ok es ∧ NoDup (Chron.index <$> es) ∧
        Z.of_nat (List.length es) = Vector.length (Chron.log Samples.chron2) - 1 ∧
        ∀ e, e ∈ es → Chron.index e ≠ 0 ∧
                      Vector.get (Chron.log Samples.chron2) (Chron.index e) = Ok (Some e).
Proof. apply (chron_iterate_once Samples.chron2), chron2_ok. Defined.

(** * The markup: more on [mark] *)

Section markup_more.
Context {M T : Type} `{EqDecision M}.
Import Markup.
Implicit Types (ms : list (ChronMarker M T)) (mk : ChronMarkup M T).
Implicit Types (d : M) (r : option (Chron.ChronRange T)).

Lemma find_mark_list_other ms d d' r :
  d' ≠ d →
  List.find (λ m, bool_decide (data m = d')) (mark_list ms d r)
  = List.find (λ m, bool_decide (data m = d')) ms.
Proof.
  intros Hne. induction ms as [| m ms IH]; cbn [mark_list List.find].
  - cbn. by rewrite bool_decide_eq_false_2 by (intros ->; done).
  - destruct (decide (data m = d)) as [Hd | Hd]; cbn [List.find].
    + rewrite (bool_decide_eq_false_2 (data m = d')) by (rewrite Hd; by intros ->).
      cbn [data]. by rewrite bool_decide_eq_false_2 by (by intros ->).
    + by rewrite IH.
Qed.

Lemma find_none_data ms d :
  d ∉ data <$> ms → List.find (λ m, bool_decide (data m = d)) ms = None.
Proof.
  induction ms as [| m ms IH]; intros Hd; [done |]. cbn [List.find].
  rewrite bool_decide_eq_false_2.
  - apply IH. intros Hin. apply Hd. by apply list_elem_of_further.
  - intros Heq. apply Hd. rewrite <- Heq. apply list_elem_of_here.
Qed.

(** The range of a marker in the compact copy. *)
Lemma compact_find ms d : ∀ acc,
  NoDup (data <$> ms) →
  List.find (λ m, bool_decide (data m = d))
    (fold_left (λ acc m, match range m with
                         | Some mr => mark_list acc (data m) (Some mr)
                         | None => acc
                         end) ms acc) ≫= range
  = match List.find (λ m, bool_decide (data m = d)) ms with
    | Some m => match range m with
                | Some mr => Some mr
                | None => List.find (λ m, bool_decide (data m = d)) acc ≫= range
                end
    | None => List.find (λ m, bool_decide (data m = d)) acc ≫= range
    end.
Proof.
  induction ms as [| m ms IH]; intros acc Hnd; [done |].
  cbn [fmap list_fmap] in Hnd. apply NoDup_cons in Hnd as [Hm Hnd].
  cbn [fold_left List.find]. rewrite IH by done.
  destruct (decide (data m = d)) as [Hd | Hd].
  - rewrite bool_decide_eq_true_2 by done.
    rewrite find_none_data by (by rewrite <- Hd).
    destruct (range m) as [mr |]; [| done].
    rewrite <- Hd, find_mark_list. done.
  - rewrite bool_decide_eq_false_2 by done.
    assert (Hacc : List.find (λ m0, bool_decide (data m0 = d))
                     (match range m with
                      | Some mr => mark_list acc (data m) (Some mr)
                      | None => acc
                      end)
                   = List.find (λ m0, bool_decide (data m0 = d)) acc).
    { destruct (range m); [| done]. apply find_mark_list_other. by intros ->. }
    by rewrite Hacc.
Qed.

Lemma marked_find_other ms d d' r :
  NoDup (data <$> ms) → d' ≠ d →
  List.find (λ m, bool_decide (data m = d')) (marked_list ms d r) ≫= range
  = List.find (λ m, bool_decide (data m = d')) ms ≫= range.
Proof.
  intros Hnd Hne. unfold marked_list. rewrite find_mark_list_other by done.
  destruct (garbage_count ms >? 16); [| done].
  unfold compact_list. rewrite compact_find by done.
  destruct (List.find _ ms) as [m |]; [| done]. cbn. by destruct (range m).
Qed.

Lemma garbage_count_cons m ms :
  garbage_count (m :: ms)
  = garbage_count ms + match range m with None => 1 | Some _ => 0 end.
Proof.
  unfold garbage_count. cbn [List.filter].
  destruct (range m); [rewrite bool_decide_eq_false_2 by done
                      | rewrite bool_decide_eq_true_2 by done]; cbn [List.length]; lia.
Qed.

Lemma garbage_count_nonneg ms : 0 ≤ garbage_count ms.
Proof. unfold garbage_count. lia. Qed.

Lemma mark_list_garbage_le ms d r :
  garbage_count (mark_list ms d r) ≤ garbage_count ms + 1.
Proof.
  induction ms as [| m ms IH]; cbn [mark_list].
  - rewrite garbage_count_cons. cbn. destruct r; unfold garbage_count; cbn; lia.
  - destruct (decide (data m = d)).
    + rewrite !garbage_count_cons. cbn [range]. destruct r, (range m); lia.
    + rewrite !garbage_count_cons. lia.
Qed.

Lemma compact_garbage ms : ∀ acc,
  garbage_count acc = 0 →
  garbage_count (fold_left (λ acc m, match range m with
                                     | Some mr => mark_list acc (data m) (Some mr)
                                     | None => acc
                                     end) ms acc) = 0.
Proof.
  induction ms as [| m ms IH]; intros acc Hacc; [done |].
  cbn [fold_left]. apply IH. destruct (range m); [| done].
  by apply mark_list_garbage.
Qed.

Lemma marked_garbage ms d r :
  garbage_count ms ≤ 17 → garbage_count (marked_list ms d r) ≤ 17.
Proof.
  intros Hg. unfold marked_list.
  destruct (Z.gtb_spec (garbage_count ms) 16).
  - pose proof (mark_list_garbage_le (compact_list ms) d r) as Hle.
    unfold compact_list in Hle at 2. rewrite compact_garbage in Hle by done. lia.
  - pose proof (mark_list_garbage_le ms d r). lia.
Qed.

Lemma built_garbage mk :
  built mk → ∃ ms, markup_wf mk ms ∧ garbage_count ms ≤ 17.
Proof.
  induction 1 as [| mk d r mk' Hb (ms & Hwf & Hg) Hlen Hmark].
  - exists []. split; [apply markup_wf_empty | done].
  - destruct (mark_fuel_enough 0 mk ms d r Hwf Hlen) as (mk'' & Hmark' & Hwf').
    unfold mark in Hmark. rewrite Hmark in Hmark'. injection Hmark' as <-.
    exists (marked_list ms d r). split; [done |]. by apply marked_garbage.
Qed.

End markup_more.

(** [mark] and [unmark] of one marker leave the range of every other
    marker as it is, also when [mark] builds the compact copy. *)
Theorem markup_mark_other {M T} `{EqDecision M} (mk : Markup.ChronMarkup M T)
    (d d' : M) (r : option (Chron.ChronRange T)) :
  built mk → Vector.length (Markup.markers mk) < 2 ^ 30 → d' ≠ d →
  ∃ mk', Markup.mark mk d r = Ok mk' ∧ Markup.rangeOf mk' d' = Markup.rangeOf mk d'.
Proof.
  intros Hb Hlen Hne. destruct (built_ok mk Hb) as (ms & Hwf).
  destruct (mark_fuel_enough 0 mk ms d r Hwf Hlen) as (mk' & Hmark & Hwf').
  exists mk'. split; [done |].
  rewrite (rangeOf_spec _ _ _ Hwf'), (rangeOf_spec _ _ _ Hwf). f_equal.
  apply marked_find_other; [apply (mw_nodup _ _ Hwf) | done].
Qed.

Lemma markup_mark_other_witness :
  ∃ mk', Markup.mark Samples.markup_before 1 None = Ok mk' ∧
         Markup.rangeOf mk' 2 = Markup.rangeOf Samples.markup_before 2.
Proof.
  apply (markup_mark_other Samples.markup_before 1 2 None).
  - apply markup_before_built.
  - cbn. lia.
  - lia.
Defined.

(** A markup that the code has built holds at most 17 markers without
    a range: [mark] builds the compact copy when it counts more than 16
    of them. *)
Theorem markup_garbage_bound {M T} `{EqDecision M} (mk : Markup.ChronMarkup M T) :
  built mk →
  ∃ cells g, Vector.iterate (Markup.markers mk) = Ok cells ∧
             Markup.count_garbage cells = Ok g ∧ g ≤ 17.
Proof.
  intros Hb. destruct (built_garbage mk Hb) as (ms & Hwf & Hg).
  exists (Some <$> ms), (garbage_count ms).
  split; [| split; [apply count_garbage_spec | done]].
  rewrite (iterate_spec _ (mw_vector _ _ Hwf)). by rewrite (mw_cells _ _ Hwf).
Qed.

Lemma markup_garbage_bound_witness :
  ∃ cells g, Vector.iterate (Markup.markers Samples.markup_before) = Ok cells ∧
             Markup.count_garbage cells = Ok g ∧ g ≤ 17.
Proof. apply (markup_garbage_bound Samples.markup_before), markup_before_built. Defined.

(** * Worlds: slots, bindings and the tree of worlds *)

Section world_more.
Import World.
Implicit Types (h : Heap) (x y : World) (m pm : Model) (v : value) (w p : nat) (id : string).

Lemma slot_get_set_eq (a : list value) (i : nat) v :
  slot_get (slot_set a i v) (Z.of_nat i) = v.
Proof.
  unfold slot_get, slot_set. destruct (Z.leb_spec 0 (Z.of_nat i)); [| lia].
  rewrite Nat2Z.id. destruct (Nat.ltb_spec i (List.length a)).
  - by rewrite list_lookup_insert_eq.
  - rewrite lookup_app_r by lia.
    rewrite lookup_app_r by (rewrite length_replicate; lia).
    by rewrite length_replicate, Nat.sub_diag.
Qed.

Lemma slot_get_set_Z (a : list value) (i : Z) v :
  0 ≤ i → slot_get (slot_set a (Z.to_nat i) v) i = v.
Proof.
  intros Hi. rewrite <- (slot_get_set_eq a (Z.to_nat i) v) at 2. by rewrite Z2Nat.id.
Qed.

Lemma slot_get_replicate (n : nat) (i : Z) :
  0 ≤ i < Z.of_nat n → slot_get (replicate n VNone) i = VNone.
Proof.
  intros Hi. unfold slot_get. destruct (Z.leb_spec 0 i); [| lia].
  by rewrite lookup_replicate_2 by lia.
Qed.

Lemma upcast_plain w v h : is_ref v = false → upcast w v h = (Ok v, h).
Proof. intros Hv. unfold upcast. by rewrite Hv. Qed.

Lemma downcast_plain v : is_ref v = false → downcast v = v.
Proof. intros Hv. unfold downcast. by rewrite Hv. Qed.

Lemma is_none_false v : v ≠ VNone → is_none v = false.
Proof. by destruct v. Qed.

End world_more.

(** A value that is no reference, written to a slot of a model in a
    world that is not locked, is what the slot reads afterwards, and the
    read changes nothing. *)
Theorem world_write_read (h : World.Heap) (w : nat) (x : World.World) (id : string)
    (m : World.Model) (i : Z) (v : World.value) :
  h !! w = Some x → World.locked x = false →
  World.map_get (World.models x) id = Some m →
  0 ≤ i < Z.of_nat (List.length (World.reads m)) →
  World.is_ref v = false → v ≠ World.VNone →
  ∃ h', World.writeSlot w id i v h = (Ok v, h') ∧
        World.readSlot w id i h' = (Ok v, h').
Proof.
  intros E Hl Em Hi Hv Hn.
  destruct (set_model_ok h w x id
              (World.mkModel (World.constructor m) (World.reads m)
                 (World.slot_set (World.writes m) (Z.to_nat i) (World.downcast v))) E)
    as (h' & Hset & E' & _).
  pose proof (with_model_get x id
                (World.mkModel (World.constructor m) (World.reads m)
                   (World.slot_set (World.writes m) (Z.to_nat i) (World.downcast v))))
    as Em1.
  exists h'. split.
  - unfold World.writeSlot.
    rewrite (eff_bind_ok _ _ _ _ _ (this_model_ok _ _ _ _ _ E Em)).
    destruct (Z.geb_spec i (Z.of_nat (List.length (World.reads m)))); [lia |].
    rewrite (eff_bind_ok _ _ _ _ _ (world_of_ok _ _ _ E)), Hl.
    destruct (Z.ltb_spec i 0); [lia |].
    rewrite (eff_bind_ok _ _ _ _ _ Hset). by apply upcast_plain.
  - unfold World.readSlot.
    rewrite (eff_bind_ok _ _ _ _ _ (this_model_ok _ _ _ _ _ E' Em1)).
    cbn [World.reads].
    destruct (Z.geb_spec i (Z.of_nat (List.length (World.reads m)))); [lia |].
    assert (Hown : World.getOwnSlot w id i h' = (Ok v, h')).
    { unfold World.getOwnSlot.
      rewrite (eff_bind_ok _ _ _ _ _ (this_model_ok _ _ _ _ _ E' Em1)).
      cbn [World.reads World.writes].
      destruct (Z.geb_spec i (Z.of_nat (List.length (World.reads m)))); [lia |].
      rewrite !slot_get_set_Z by lia.
      rewrite downcast_plain, is_none_false by done. cbn [negb].
      by apply upcast_plain. }
    rewrite (eff_bind_ok _ _ _ _ _ Hown). by rewrite is_none_false.
Qed.

Lemma world_write_read_witness :
  ∃ h', World.writeSlot 1 "m" 0 (World.VNumber 9) Samples.family_clean
        = (Ok (World.VNumber 9), h') ∧
        World.readSlot 1 "m" 0 h' = (Ok (World.VNumber 9), h').
Proof.
  eapply (world_write_read Samples.family_clean 1 _ "m" _ 0 (World.VNumber 9)).
  - reflexivity.
  - reflexivity.
  - reflexivity.
  - cbn. lia.
  - reflexivity.
  - discriminate.
Defined.

Section world_bind.
Import World.
Implicit Types (h : Heap) (x y : World) (m pm : Model) (v : value) (w p : nat) (id : string).

(** [_findNearest] finds the model of the parent when the world has
    none and no cache answers for it. *)
Lemma findNearest_parent h w x p y id pm :
  h !! w = Some x → parent x = Some p → h !! p = Some y →
  map_get (models x) id = None → locked x = false ∨ lookupCache x = None →
  map_get (models y) id = Some pm →
  findNearest w id h = (Ok (Some (VModel p id)), h).
Proof.
  intros E Ep Ey Hx Hc Em. unfold findNearest, get_heap. rewrite eff_bind_eq.
  cbn [findNearest_loop].
  rewrite (eff_bind_ok _ _ _ _ _ (world_of_ok _ _ _ E)), Hx, Ep.
  assert (Hnext : findNearest_loop (List.length h) (Some p) id h
                  = (Ok (Some (VModel p id)), h)).
  { pose proof (lookup_lt_Some _ _ _ E) as Hlt.
    destruct (List.length h) as [| k]; [lia |]. cbn [findNearest_loop].
    by rewrite (eff_bind_ok _ _ _ _ _ (world_of_ok _ _ _ Ey)), Em. }
  destruct Hc as [Hl | Hl]; rewrite Hl; [done |]. by destruct (locked x).
Qed.

End world_bind.

(** A model that is bound in a child world for the first time reads a
    number that the parent's model holds: the read returns the number,
    records it among the reads of the new model, writes nothing, and
    leaves the parent as it is. *)
Theorem world_bind_reads_parent (h : World.Heap) (w p : nat) (x y : World.World)
    (id : string) (pm : World.Model) (i n : Z) :
  h !! w = Some x → World.parent x = Some p → h !! p = Some y → p ≠ w →
  World.map_get (World.models x) id = None →
  World.locked x = false ∨ World.lookupCache x = None →
  World.map_get (World.models y) id = Some pm → model_ok y pm →
  0 ≤ i < Z.of_nat (World.slotCount (World.constructor pm)) →
  own_slot p pm i = World.VNumber n →
  ∃ h1 h2 x2 m2,
    World.bind w id h = (Ok (World.VModel w id), h1) ∧
    World.readSlot w id i h1 = (Ok (World.VNumber n), h2) ∧
    h2 !! w = Some x2 ∧ World.map_get (World.models x2) id = Some m2 ∧
    World.constructor m2 = World.constructor pm ∧
    World.slot_get (World.reads m2) i = World.VNumber n ∧
    World.slot_get (World.writes m2) i = World.VNone ∧
    h2 !! p = Some y.
Proof.
  intros E Ep Ey Hne Hx Hc Em Hok Hi Hv.
  set (c := World.constructor pm) in *.
  destruct (add_ok h w x id c E) as (h1 & Hadd & E1 & Hlen1 & Hother1).
  assert (Ey1 : h1 !! p = Some y) by (by rewrite Hother1).
  pose proof (with_model_get x id (World.new_model c)) as Em1.
  assert (Hbind : World.bind w id h = (Ok (World.VModel w id), h1)).
  { unfold World.bind, World.mustFindNearest.
    rewrite eff_bind_eq, (eff_bind_ok _ _ _ _ _ (findNearest_parent _ _ _ _ _ _ _ E Ep Ey Hx Hc Em)).
    unfold mret, World.eff_ret. cbn beta iota.
    destruct (Nat.eqb_spec p w); [done |].
    assert (Hcons : World.constructorOf (World.VModel p id) h = (Ok c, h)).
    { unfold World.constructorOf.
      by rewrite (eff_bind_ok _ _ _ _ _ (findOwn_ok _ _ _ id Ey)), Em. }
    by rewrite (eff_bind_ok _ _ _ _ _ Hcons). }
  assert (Hnew_r : World.reads (World.new_model c) = replicate (World.slotCount c) World.VNone)
    by done.
  assert (Hnew_w : World.writes (World.new_model c) = replicate (World.slotCount c) World.VNone)
    by done.
  assert (Hown : World.getOwnSlot w id i h1 = (Ok World.VNone, h1)).
  { unfold World.getOwnSlot.
    rewrite (eff_bind_ok _ _ _ _ _ (this_model_ok _ _ _ _ _ E1 Em1)).
    rewrite Hnew_r, Hnew_w, length_replicate.
    destruct (Z.geb_spec i (Z.of_nat (World.slotCount c))); [lia |].
    by rewrite !slot_get_replicate by lia. }
  assert (Hparent : World.getParentSlot w id i h1 = (Ok (World.VNumber n), h1)).
  { unfold World.getParentSlot.
    rewrite (eff_bind_ok _ _ _ _ _ (world_of_ok _ _ _ E1)).
    cbn [World.parent World.with_model]. rewrite Ep.
    unfold World.getSlot, World.get_heap. rewrite eff_bind_eq.
    cbn [World.getSlot_loop].
    assert (Hpown : World.world_getOwnSlot p id i h1 = (Ok (World.VNumber n), h1)).
    { unfold World.world_getOwnSlot.
      rewrite (eff_bind_ok _ _ _ _ _ (findOwn_ok _ _ _ id Ey1)), Em.
      by rewrite (getOwnSlot_ok _ _ _ _ _ _ Ey1 Em Hok), Hv. }
    by rewrite (eff_bind_ok _ _ _ _ _ Hpown). }
  destruct (set_model_ok h1 w _ id
              (World.mkModel c
                 (World.slot_set (replicate (World.slotCount c) World.VNone) (Z.to_nat i)
                    (World.VNumber n))
                 (replicate (World.slotCount c) World.VNone)) E1)
    as (h2 & Hset & E2 & Hlen2 & Hother2).
  exists h1, h2. eexists _, _. split; [exact Hbind |]. split; [| split; [exact E2 |]].
  - unfold World.readSlot.
    rewrite (eff_bind_ok _ _ _ _ _ (this_model_ok _ _ _ _ _ E1 Em1)).
    rewrite Hnew_r, length_replicate.
    destruct (Z.geb_spec i (Z.of_nat (World.slotCount c))); [lia |].
    rewrite (eff_bind_ok _ _ _ _ _ Hown). cbn [World.is_none negb].
    rewrite (eff_bind_ok _ _ _ _ _ Hparent).
    rewrite (eff_bind_ok _ _ _ _ _ (this_model_ok _ _ _ _ _ E1 Em1)).
    cbn [World.constructor World.reads World.writes World.new_model World.downcast
         World.is_ref].
    by rewrite (eff_bind_ok _ _ _ _ _ Hset).
  - split; [apply with_model_get |]. cbn [World.constructor World.reads World.writes].
    split; [done |]. split; [by apply slot_get_set_Z; lia |].
    split; [by apply slot_get_replicate |]. by rewrite Hother2.
Qed.

Lemma world_bind_reads_parent_witness :
  ∃ y pm,
    Samples.nursery !! 0%nat = Some y ∧
    World.map_get (World.models y) "m" = Some pm ∧
    ∃ h1 h2 x2 m2,
    World.bind 1 "m" Samples.nursery = (Ok (World.VModel 1 "m"), h1) ∧
    World.readSlot 1 "m" 0 h1 = (Ok (World.VNumber 1), h2) ∧
    h2 !! 1%nat = Some x2 ∧ World.map_get (World.models x2) "m" = Some m2 ∧
    World.constructor m2 = World.constructor pm ∧
    World.slot_get (World.reads m2) 0 = World.VNumber 1 ∧
    World.slot_get (World.writes m2) 0 = World.VNone ∧
    h2 !! 0%nat = Some y.
Proof.
  eexists _, _. split; [reflexivity |]. split; [reflexivity |].
  eapply (world_bind_reads_parent Samples.nursery 1 0 _ _ "m" _ 0 1).
  - reflexivity.
  - reflexivity.
  - reflexivity.
  - lia.
  - reflexivity.
  - by left.
  - reflexivity.
  - split; [reflexivity | reflexivity | |];
      repeat constructor; intros Hr; discriminate.
  - cbn. lia.
  - reflexivity.
Defined.

(** A world that is created under a parent and then detached leaves
    the parent as it was: the heap has one more world, which has no
    parent. *)
Theorem world_new_detach (h : World.Heap) (p : nat) (y : World.World) :
  h !! p = Some y → Forall (λ c, (c < List.length h)%nat) (World.children y) →
  ∃ h1, World.new_world (Some p) h = (Ok (List.length h), h1) ∧
        World.detach (List.length h) h1
        = (Ok tt, h ++ [World.mkWorld None [] [] false None]).
Proof.
  intros Ey Hch.
  pose proof (lookup_lt_Some _ _ _ Ey) as Hp.
  assert (Hfresh : List.length h ∉ World.children y).
  { intros Hin. rewrite Forall_forall in Hch. specialize (Hch _ Hin). lia. }
  eexists. split.
  - unfold World.new_world, World.get_heap, World.modify, World.update_world.
    cbn. reflexivity.
  - unfold World.detach.
    assert (Ew : alter (λ x, World.mkWorld (World.parent x) (World.models x)
                          (World.set_add (World.children x) (List.length h))
                          (World.locked x) (World.lookupCache x)) p
                   (h ++ [World.mkWorld (Some p) [] [] false None]) !! List.length h
                 = Some (World.mkWorld (Some p) [] [] false None)).
    { rewrite list_lookup_alter_ne by lia. rewrite lookup_app_r by lia.
      by rewrite Nat.sub_diag. }
    rewrite (eff_bind_ok _ _ _ _ _ (world_of_ok _ _ _ Ew)). cbn [World.parent].
    unfold World.update_world, World.modify. rewrite eff_bind_eq. cbn beta iota.
    f_equal. apply list_eq. intros k.
    destruct (decide (k = List.length h)) as [-> | Hk].
    { rewrite list_lookup_alter_eq, list_lookup_alter_ne by lia.
      rewrite Ew. rewrite lookup_app_r by lia. by rewrite Nat.sub_diag. }
    rewrite list_lookup_alter_ne by done.
    destruct (decide (k = p)) as [-> | Hkp].
    + rewrite list_lookup_alter_eq, list_lookup_alter_eq.
      rewrite !lookup_app_l by lia. rewrite Ey. cbn. f_equal.
      unfold World.set_add. rewrite bool_decide_eq_false_2 by done.
      rewrite List.filter_app. cbn. rewrite Nat.eqb_refl. cbn. rewrite app_nil_r.
      assert (Hf : List.filter (λ c, negb (c =? List.length h)%nat) (World.children y)
                   = World.children y).
      { apply forallb_filter_id. apply forallb_forall. intros c Hc.
        apply list_elem_of_In in Hc. rewrite Forall_forall in Hch.
        specialize (Hch _ Hc). destruct (Nat.eqb_spec c (List.length h)); [lia | done]. }
      rewrite Hf. by destruct y.
    + rewrite !list_lookup_alter_ne by done.
      destruct (decide (k < List.length h)%nat).
      * by rewrite !lookup_app_l by lia.
      * by rewrite !lookup_ge_None_2 by (rewrite length_app; cbn; lia).
Qed.

Lemma world_new_detach_witness :
  ∃ h1, World.new_world (Some 0%nat) Samples.nursery
        = (Ok (List.length Samples.nursery), h1) ∧
        World.detach (List.length Samples.nursery) h1
        = (Ok tt, Samples.nursery ++ [World.mkWorld None [] [] false None]).
Proof.
  eapply (world_new_detach Samples.nursery 0).
  - reflexivity.
  - repeat constructor.
Defined.

(** * The stream: subscriptions *)

Section subscriptions_facts.
Context {F T : Type}.
Import Subscriptions.
Implicit Types (s : Stream F T) (k : nat).

Lemma indexOf_absent (l : list (nat * F)) k : k ∉ l.*1 → indexOf l k = -1.
Proof.
  induction l as [| [k' f] l IH]; intros Hk; [done |].
  cbn [indexOf]. destruct (Nat.eqb_spec k' k) as [-> | Hne].
  - exfalso. apply Hk. apply list_elem_of_here.
  - rewrite IH; [done |]. intros Hin. apply Hk. by apply list_elem_of_further.
Qed.

Lemma indexOf_present (l : list (nat * F)) k :
  k ∈ l.*1 →
  ∃ l1 f l2, l = l1 ++ (k, f) :: l2 ∧ (k ∉ l1.*1) ∧ indexOf l k = Z.of_nat (length l1).
Proof.
  induction l as [| [k' f] l IH]; intros Hk; [by apply elem_of_nil in Hk |].
  cbn [indexOf]. destruct (Nat.eqb_spec k' k) as [-> | Hne].
  - exists [], f, l. split; [done |]. split; [apply not_elem_of_nil | done].
  - apply elem_of_cons in Hk as [Hk | Hk]; [done |].
    destruct (IH Hk) as (l1 & f' & l2 & -> & Hl1 & ->).
    exists ((k', f) :: l1), f', l2. split; [done |]. split.
    + cbn. intros [Heq | Hin]%elem_of_cons; [by apply Hne | by apply Hl1].
    + destruct (Z.ltb_spec (Z.of_nat (length l1)) 0); [lia |]. cbn [length]. lia.
Qed.

Lemma splice_one_at {A} (l1 : list A) x l2 :
  splice_one (l1 ++ x :: l2) (Z.of_nat (length l1)) = l1 ++ l2.
Proof.
  unfold splice_one. destruct (Z.ltb_spec (Z.of_nat (length l1)) 0); [lia |].
  rewrite length_app. cbn [length].
  rewrite Z.min_l by lia. rewrite Nat2Z.id.
  rewrite take_app_length. f_equal.
  replace (S (length l1)) with (length l1 + 1)%nat by lia.
  rewrite <- drop_drop. by rewrite drop_app_length.
Qed.

Lemma splice_one_last {A} (l : list A) : splice_one l (-1) = removelast l.
Proof.
  unfold splice_one. cbn [Z.ltb Z.compare].
  destruct l as [| x l] using rev_ind; [done |].
  rewrite length_app. cbn [length]. rewrite Z.max_l by lia.
  replace (Z.to_nat (Z.of_nat (length l + 1) + -1)) with (length l) by lia.
  rewrite take_app_length. rewrite drop_ge by (rewrite length_app; cbn; lia).
  rewrite app_nil_r. by rewrite removelast_last.
Qed.

End subscriptions_facts.

(** [unsubscribe] takes the wrapper of its subscription out of the
    subscribers and leaves the others in their order, so that a [push]
    afterwards calls the others only. *)
Theorem stream_unsubscribe_removes {F T} (s : Subscriptions.Stream F T) (k : nat)
    (next : option T) :
  NoDup (Subscriptions.subscribers s).*1 → k ∈ (Subscriptions.subscribers s).*1 →
  Subscriptions.subscribers (Subscriptions.unsubscribe s k)
  = List.filter (λ wf, negb (wf.1 =? k)%nat) (Subscriptions.subscribers s) ∧
  (Subscriptions.push (Subscriptions.unsubscribe s k) next).2
  = (λ wf, (wf.2, next)) <$>
      List.filter (λ wf, negb (wf.1 =? k)%nat) (Subscriptions.subscribers s).
Proof.
  intros Hnd Hk.
  assert (Hsub : Subscriptions.subscribers (Subscriptions.unsubscribe s k)
                 = List.filter (λ wf, negb (wf.1 =? k)%nat) (Subscriptions.subscribers s)).
  { destruct (indexOf_present _ _ Hk) as (l1 & f & l2 & Hl & Hl1 & Hidx).
    unfold Subscriptions.unsubscribe. cbn [Subscriptions.subscribers].
    rewrite Hidx, Hl, splice_one_at.
    rewrite Hl, fmap_app in Hnd. cbn [fmap list_fmap] in Hnd.
    apply NoDup_app in Hnd as (_ & Hdis & Hnd2).
    apply NoDup_cons in Hnd2 as [Hl2 _].
    rewrite List.filter_app. cbn [List.filter fst]. rewrite Nat.eqb_refl. cbn [negb].
    assert (Hkeep : ∀ l : list (nat * F), k ∉ l.*1 →
              List.filter (λ wf, negb (wf.1 =? k)%nat) l = l).
    { intros l Hl'. apply forallb_filter_id, forallb_forall. intros [k' f'] Hin.
      apply list_elem_of_In in Hin. cbn. destruct (Nat.eqb_spec k' k) as [-> |]; [| done].
      exfalso. apply Hl'. apply list_elem_of_fmap. by exists (k, f'). }
    by rewrite !Hkeep. }
  split; [done |]. unfold Subscriptions.push. cbn [snd]. by rewrite Hsub.
Qed.

Lemma stream_unsubscribe_removes_witness :
  let s := Subscriptions.mkStream (T := Z) [(0, "a"); (1, "b"); (2, "c")]%nat None 3 in
  Subscriptions.subscribers (Subscriptions.unsubscribe s 1)
  = List.filter (λ wf, negb (wf.1 =? 1)%nat) (Subscriptions.subscribers s) ∧
  (Subscriptions.push (Subscriptions.unsubscribe s 1) (Some 7)).2
  = (λ wf, (wf.2, Some 7)) <$>
      List.filter (λ wf, negb (wf.1 =? 1)%nat) (Subscriptions.subscribers s).
Proof.
  intros s. apply (stream_unsubscribe_removes s 1 (Some 7)).
  - cbn. by apply (bool_decide_unpack _).
  - cbn. by apply (bool_decide_unpack _).
Defined.

(** [unsubscribe] of a subscription that is not among the subscribers,
    as it is at a second call, takes the last subscriber out of the
    stream: [indexOf] returns -1, which [splice] counts from the end. *)
Theorem stream_unsubscribe_again {F T} (s : Subscriptions.Stream F T) (k : nat) :
  k ∉ (Subscriptions.subscribers s).*1 →
  Subscriptions.subscribers (Subscriptions.unsubscribe s k)
  = removelast (Subscriptions.subscribers s).
Proof.
  intros Hk. unfold Subscriptions.unsubscribe. cbn [Subscriptions.subscribers].
  by rewrite indexOf_absent, splice_one_last.
Qed.

Lemma stream_unsubscribe_again_witness :
  let s := Subscriptions.mkStream (T := Z) [(0, "a"); (1, "b"); (2, "c")]%nat None 3 in
  Subscriptions.subscribers
    (Subscriptions.unsubscribe (Subscriptions.unsubscribe s 1) 1)
  = removelast (Subscriptions.subscribers (Subscriptions.unsubscribe s 1)).
Proof.
  intros s. apply (stream_unsubscribe_again (Subscriptions.unsubscribe s 1) 1).
  cbn. by apply (bool_decide_unpack _).
Defined.

(** * Worlds: [unlock] *)

Section world_unlock.
Import World.
Implicit Types (h : Heap) (x y : World) (w p a c : nat).

(** A world after [unlock] has taken it from its queue. *)
Definition unlocked x : World :=
  mkWorld (parent x) (models x) (children x) false None.

(** A bound on the rounds of [unlock] that remain: a locked world is
    taken once, and puts its children into the queue. *)
Definition lock_weight h : nat :=
  sum_list ((λ x, if locked x then S (List.length (children x)) else 0%nat) <$> h).

(** The children of a world are younger worlds. *)
Definition children_younger h : Prop :=
  ∀ a xa c, h !! a = Some xa → c ∈ children xa → (a < c < List.length h)%nat.

Lemma elem_of_concat_list {A} (x : A) (ls : list (list A)) :
  x ∈ concat ls ↔ ∃ l, l ∈ ls ∧ x ∈ l.
Proof.
  rewrite list_elem_of_In, in_concat. split.
  - intros (l & H1 & H2). exists l. by rewrite !list_elem_of_In.
  - intros (l & H1 & H2). exists l. by rewrite <- !list_elem_of_In.
Qed.

Lemma elem_of_rev_list {A} (x : A) (l : list A) : x ∈ rev l ↔ x ∈ l.
Proof. rewrite !list_elem_of_In. symmetry. apply in_rev. Qed.

Lemma sum_list_split (l k : list nat) : sum_list (l ++ k) = (sum_list l + sum_list k)%nat.
Proof. induction l as [| n l IH]; cbn; [done | lia]. Qed.

Lemma lock_weight_unlocked h w x :
  h !! w = Some x → locked x = true →
  (lock_weight (alter unlocked w h) + S (List.length (children x)) = lock_weight h)%nat.
Proof.
  intros E Hl. pose proof (lookup_lt_Some _ _ _ E) as Hw.
  rewrite <- (take_drop_middle h w x E) at 2.
  rewrite <- (take_drop_middle h w x E) at 1.
  assert (Hlen : List.length (take w h) = w) by (rewrite length_take; lia).
  rewrite alter_app_r_alt by lia. rewrite Hlen, Nat.sub_diag. cbn [alter list_alter].
  unfold lock_weight. rewrite !fmap_app, !sum_list_split. cbn [fmap list_fmap sum_list].
  cbn [locked unlocked]. rewrite Hl.
  repeat match goal with |- context [sum_list ?l] => generalize (sum_list l); intro end.
  unfold id. lia.
Qed.

Lemma lock_weight_le h :
  (lock_weight h ≤ List.length h + List.length (concat (children <$> h)))%nat.
Proof.
  unfold lock_weight. induction h as [| x h IH]; [done |].
  cbn [fmap list_fmap sum_list concat List.length]. rewrite length_app.
  unfold id at 1. destruct (locked x); lia.
Qed.

Lemma lock_weight_bound h :
  children_younger h → NoDup (concat (children <$> h)) →
  (lock_weight h ≤ 2 * List.length h)%nat.
Proof.
  intros Hy Hnd. pose proof (lock_weight_le h) as Hle.
  assert (List.length (concat (children <$> h)) ≤ List.length h)%nat; [| lia].
  apply bounded_nodup; [done |]. intros c Hc.
  apply elem_of_concat_list in Hc as (cs & Hcs & Hc).
  apply list_elem_of_fmap in Hcs as (xa & -> & Hxa).
  apply list_elem_of_lookup in Hxa as [a Ha].
  by destruct (Hy a xa c Ha Hc).
Qed.

Lemma unlock_loop_spec fuel : ∀ queue h,
  children_younger h → Forall (λ q, (q < List.length h)%nat) queue →
  (List.length queue + lock_weight h ≤ fuel)%nat →
  ∃ h', unlock_loop fuel queue h = (Ok tt, h') ∧ List.length h' = List.length h ∧
        (∀ a x, h !! a = Some x → locked x = false → h' !! a = Some x) ∧
        (∀ a x, h !! a = Some x → h' !! a = Some x ∨ h' !! a = Some (unlocked x)) ∧
        (∀ a, (∀ q, q ∈ queue → (a < q)%nat) → h' !! a = h !! a) ∧
        (∀ q x, q ∈ queue → h !! q = Some x → locked x = true →
                h' !! q = Some (unlocked x)).
Proof.
  induction fuel as [| fuel IH]; intros queue h Hy Hq Hf.
  - destruct queue as [| w rest]; [| cbn in Hf; lia].
    exists h. cbn. repeat split; try done; [intros a x Ha; by left |].
    intros q x Hin. by apply elem_of_nil in Hin.
  - destruct queue as [| w rest].
    { exists h. cbn. repeat split; try done; [intros a x Ha; by left |].
      intros q x Hin. by apply elem_of_nil in Hin. }
    apply Forall_cons in Hq as [Hw Hrest]. cbn [List.length] in Hf.
    destruct (lookup_lt_is_Some_2 h w Hw) as [x E].
    cbn [unlock_loop]. rewrite (eff_bind_ok _ _ _ _ _ (world_of_ok _ _ _ E)).
    destruct (locked x) eqn:Hl; cbn [negb].
    + (* the world is locked *)
      change (λ y, mkWorld (parent y) (models y) (children y) false None) with unlocked.
      destruct (update_world_ok h w x unlocked E) as (h1 & Hu & E1 & Hlen1 & Hother1).
      rewrite (eff_bind_ok _ _ _ _ _ Hu).
      assert (Hh1 : h1 = alter unlocked w h).
      { unfold update_world, modify in Hu. by injection Hu as <-. }
      assert (Hy1 : children_younger h1).
      { intros a xa c Ha Hc. rewrite Hlen1.
        destruct (decide (a = w)) as [-> | Hne].
        - rewrite E1 in Ha. injection Ha as <-. by apply (Hy w x c).
        - rewrite Hother1 in Ha by done. by apply (Hy a xa c). }
      pose proof (lock_weight_unlocked h w x E Hl) as Hweight. rewrite <- Hh1 in Hweight.
      destruct (IH (rev (children x) ++ rest) h1 Hy1)
        as (h' & Hloop & Hlen' & Hkeep & Hall & Hlow & Hdone).
      { apply Forall_app. split; [| by rewrite Hlen1].
        apply Forall_forall. intros c Hc. apply (proj1 (elem_of_rev_list _ _)) in Hc. rewrite Hlen1.
        by destruct (Hy w x c E Hc). }
      { rewrite length_app, length_rev. lia. }
      exists h'. split; [done |]. split; [lia |]. split; [| split; [| split]].
      * intros a x0 Ha Hx0. apply Hkeep; [| done].
        rewrite Hother1; [done |]. intros ->. congruence.
      * intros a x0 Ha. destruct (decide (a = w)) as [-> | Hne].
        -- rewrite E in Ha. injection Ha as <-. right. by apply Hkeep.
        -- apply Hall. by rewrite Hother1.
      * intros a Ha. assert (a < w)%nat by (apply Ha, list_elem_of_here).
        rewrite Hlow; [apply Hother1; lia |].
        intros q [Hin | Hin]%elem_of_app; [apply (proj1 (elem_of_rev_list _ _)) in Hin |].
        -- destruct (Hy w x q E Hin). lia.
        -- apply Ha. by apply list_elem_of_further.
      * intros q x0 Hin Hx0 Hl0. destruct (decide (q = w)) as [-> | Hne].
        -- rewrite E in Hx0. injection Hx0 as <-. by apply Hkeep.
        -- apply elem_of_cons in Hin as [-> | Hin]; [done |].
           apply Hdone; [| by rewrite Hother1 | done].
           apply elem_of_app. by right.
    + (* the world is not locked *)
      destruct (IH rest h Hy Hrest ltac:(lia))
        as (h' & Hloop & Hlen' & Hkeep & Hall & Hlow & Hdone).
      exists h'. split; [done |]. split; [done |]. split; [done |]. split; [done |].
      split.
      * intros a Ha. apply Hlow. intros q Hq. apply Ha. by apply list_elem_of_further.
      * intros q x0 Hin Hx0 Hl0. apply elem_of_cons in Hin as [-> | Hin]; [congruence |].
        by apply Hdone.
Qed.

End world_unlock.

(** [unlock] of a locked world, in a tree of worlds: it returns, the
    world is unlocked and has lost its cache, and nothing but locks and
    caches has changed.  The worlds that are older than the world are
    as they were: the worlds above it, which [lock] has locked with it,
    stay locked. *)
Theorem world_unlock_downward (h : World.Heap) (w : nat) (x : World.World) :
  children_younger h → NoDup (concat (World.children <$> h)) →
  h !! w = Some x → World.locked x = true →
  ∃ h', World.unlock w h = (Ok tt, h') ∧ List.length h' = List.length h ∧
        h' !! w = Some (World.mkWorld (World.parent x) (World.models x)
                          (World.children x) false None) ∧
        (∀ a, (a < w)%nat → h' !! a = h !! a) ∧
        (∀ a xa, h !! a = Some xa →
           ∃ xa', h' !! a = Some xa' ∧ World.parent xa' = World.parent xa ∧
                  World.models xa' = World.models xa ∧
                  World.children xa' = World.children xa ∧
                  (World.locked xa' = true → World.locked xa = true)).
Proof.
  intros Hy Hnd E Hl. pose proof (lookup_lt_Some _ _ _ E) as Hw.
  pose proof (lock_weight_bound h Hy Hnd) as Hbound.
  destruct (unlock_loop_spec (S (2 * List.length h)) [w] h Hy)
    as (h' & Hloop & Hlen & Hkeep & Hall & Hlow & Hdone).
  { by apply Forall_singleton. }
  { cbn. lia. }
  exists h'. split; [| split; [done | split; [| split]]].
  - unfold World.unlock. rewrite (eff_bind_ok _ _ _ _ _ (world_of_ok _ _ _ E)), Hl.
    cbn [negb]. unfold World.get_heap. by rewrite eff_bind_eq.
  - apply (Hdone w x); [apply list_elem_of_here | done | done].
  - intros a Ha. apply Hlow. intros q Hq%list_elem_of_singleton. by subst.
  - intros a xa Ha. destruct (Hall a xa Ha) as [Hs | Hs]; eexists; (split; [exact Hs |]); done.
Qed.

Lemma family_locked_tree : children_younger Samples.family_locked.
Proof.
  intros a xa c Ha Hc.
  destruct a as [| [| [| a]]]; cbn in Ha; try discriminate; injection Ha as <-;
    cbn in Hc;
    repeat (apply elem_of_cons in Hc as [-> | Hc]; [cbn; lia |]);
    by apply elem_of_nil in Hc.
Qed.

Lemma world_unlock_downward_witness :
  ∃ x h', Samples.family_locked !! 1%nat = Some x ∧
        World.unlock 1 Samples.family_locked = (Ok tt, h') ∧
        List.length h' = List.length Samples.family_locked ∧
        h' !! 1%nat = Some (World.mkWorld (World.parent x) (World.models x)
                              (World.children x) false None) ∧
        (∀ a, (a < 1)%nat → h' !! a = Samples.family_locked !! a) ∧
        (∀ a xa, Samples.family_locked !! a = Some xa →
           ∃ xa', h' !! a = Some xa' ∧ World.parent xa' = World.parent xa ∧
                  World.models xa' = World.models xa ∧
                  World.children xa' = World.children xa ∧
                  (World.locked xa' = true → World.locked xa = true)).
Proof.
  eexists. 
  assert (E : Samples.family_locked !! 1%nat = Some _) by reflexivity.
  destruct (world_unlock_downward Samples.family_locked 1 _ family_locked_tree
              ltac:(by apply (bool_decide_unpack _)) E eq_refl) as (h' & H).
  exists h'. split; [exact E | exact H].
Defined.

(** * The serializer: the wrappers of numbers *)

Section serializer_wrappers.
Import Binarizer.
Variable classes : list Registered.
Variables (buf : list Z) (count rt : Z) (fl : list Z) (bo : nat).

Local Abbreviation state := (st buf count rt fl bo).
Local Abbreviation ahead := (upcoming buf fl).

(** A pointer inside an object, before [finish]: [next()] returns the
    entry of the table that it points at, when the entry is there. *)
Lemma predecode_pointer fuel p off ai oi dec cr :
  0 ≤ p ≤ MAX_SAFE_INTEGER → p < Z.of_nat (length dec) →
  ahead ai off [POINTER] (varint p) →
  predecodeNext classes (S fuel) false (state off ai oi dec cr)
  = Ok (default Undefined (array_get dec p),
        state (off + length (varint p)) (ai + 1) oi dec cr).
Proof.
  intros Hp Hlt Hup. cbn [predecodeNext].
  erewrite state_bind_ok by apply get_ok.
  erewrite state_bind_ok.
  2:{ unfold lift. cbn [atomIndex st]. by erewrite upcoming_coder. }
  erewrite state_bind_ok by reflexivity.
  cbn [atomIndex objectIndex st with_indexes buffer Binarizer.objects root flags
       bodyOffset offset decoded created].
  fold (state off (ai + 1) oi dec cr).
  destruct Hup as [_ [rest Hd]]. rewrite app_nil_r in Hd || idtac.
  cbn [predecode_with decode_atom].
  erewrite state_bind_ok.
  2:{ erewrite state_bind_ok by (apply read_ok, (readVarint_at _ _ p rest); [exact Hd | done]).
      reflexivity. }
  erewrite state_bind_ok by reflexivity.
  erewrite state_bind_ok by apply get_ok.
  cbn [decoded st]. unfold decoded_at. cbn [decoded st].
  by rewrite (proj2 (Z.ltb_lt _ _)) by done.
Qed.

(** And after [finish]. *)
Lemma decode_pointer fuel p off ai oi dec cr :
  0 ≤ p ≤ MAX_SAFE_INTEGER →
  ahead ai off [POINTER] (varint p) →
  decodeNext classes (S fuel) false (state off ai oi dec cr)
  = Ok (default Undefined (array_get dec p),
        state (off + length (varint p)) (ai + 1) oi dec cr).
Proof.
  intros Hp Hup. cbn [decodeNext].
  erewrite state_bind_ok by apply get_ok.
  erewrite state_bind_ok.
  2:{ unfold lift. cbn [atomIndex st]. by erewrite upcoming_coder. }
  erewrite state_bind_ok by reflexivity.
  cbn [atomIndex objectIndex st with_indexes buffer Binarizer.objects root flags
       bodyOffset offset decoded created].
  fold (state off (ai + 1) oi dec cr).
  destruct Hup as [_ [rest Hd]].
  erewrite state_bind_ok by (apply read_ok, (readVarint_at _ _ p rest); [exact Hd | done]).
  erewrite state_bind_ok by apply get_ok.
  done.
Qed.

Lemma predecode_plain_atom fuel v off ai oi dec cr :
  atom_ok v → ahead ai off [atom_coder v] (atom_bytes v) →
  predecodeNext classes (S fuel) false (state off ai oi dec cr)
  = Ok (v, state (off + length (atom_bytes v)) (ai + 1) oi dec cr).
Proof.
  intros Hv Hup.
  apply (predecode_leaf classes [] buf count rt fl bo ltac:(done) fuel v off ai oi dec cr);
    [by right | done].
Qed.

End serializer_wrappers.

(** A wrapper [new Number(n)] in the bytes is the atom of an object,
    the pointer to the tag ['@js.Number'] and the atom of the number.
    Before [finish], [next(true)] takes the three atoms and makes the
    wrapper; after [finish], it takes two atoms only, as the [decode] of
    the coder of [Number] does not read the number: from there on the
    second pass is one atom, and the bytes of the number, behind the
    first one. *)
Theorem decode_wrapper_leaves_atom (classes : list Binarizer.Registered)
    (buf : list Z) (count rt : Z) (fl : list Z) (bo : nat) (fuel : nat)
    (p n : Z) (off : nat) (ai oi : Z) (dec full : list (option Binarizer.value))
    (cr cr' : Binarizer.Heap) (r : Binarizer.Registered) :
  Binarizer.constructorOfTag classes "@js.Number" = Some r →
  Binarizer.binaryCoder r = Some Binarizer.NumberCoder →
  0 ≤ p ≤ Binarizer.MAX_SAFE_INTEGER → p < Z.of_nat (length dec) →
  array_get dec p = Some (Binarizer.Str "@js.Number") →
  array_get full p = Some (Binarizer.Str "@js.Number") →
  0 ≤ n ≤ Binarizer.MAX_SAFE_INTEGER →
  upcoming buf fl ai off [Binarizer.OBJECT; Binarizer.POINTER; Binarizer.POSITIVE_INT]
    (varint p ++ varint n) →
  Binarizer.predecodeNext classes (S (S fuel)) true
    (st buf count rt fl bo off ai (Z.of_nat (length dec)) dec cr)
  = Ok (Binarizer.Ref (length cr),
        st buf count rt fl bo (off + length (varint p) + length (varint n)) (ai + 3)
           (Z.of_nat (length dec) + 1) (dec ++ [Some (Binarizer.Ref (length cr))])
           (cr ++ [Binarizer.NumberObject (Binarizer.Num n)])) ∧
  Binarizer.decodeNext classes (S (S fuel)) true (st buf count rt fl bo off ai oi full cr')
  = Ok (default Binarizer.Undefined (array_get full oi),
        st buf count rt fl bo (off + length (varint p)) (ai + 2) (oi + 1) full cr').
Proof.
  intros Hr Hcoder Hp Hlt Hdec Hfull Hn Hup.
  apply (upcoming_app buf fl ai off [Binarizer.OBJECT]
           [Binarizer.POINTER; Binarizer.POSITIVE_INT] [] (varint p ++ varint n))
    in Hup as [Hup0 Hup].
  apply (upcoming_app buf fl _ _ [Binarizer.POINTER] [Binarizer.POSITIVE_INT]
           (varint p) (varint n)) in Hup as [Hup1 Hup2].
  cbn [length] in Hup1, Hup2. rewrite Nat.add_0_r in Hup1, Hup2.
  pose proof (upcoming_coder buf count rt fl bo ai off _ _ _ dec cr (Z.of_nat (length dec))
                Hup0) as Hc1.
  pose proof (upcoming_coder buf count rt fl bo ai off _ _ _ full cr' oi Hup0) as Hc2.
  split.
  - apply (predecodeNext_top classes [] buf count rt fl bo fuel Binarizer.OBJECT);
      [done | done |].
    cbn [Binarizer.predecode_with].
    erewrite state_bind_ok
      by (by apply (predecode_pointer classes buf count rt fl bo fuel p)).
    rewrite Hdec. cbn [default]. unfold id. cbv beta iota. rewrite Hr, Hcoder.
    assert (Hatom : upcoming buf fl (ai + 1 + 1) (off + length (varint p))
                      [atom_coder (Binarizer.Num n)] (atom_bytes (Binarizer.Num n))).
    { cbn [atom_coder atom_bytes]. rewrite (proj2 (Z.ltb_ge n 0)) by lia.
      by replace (ai + 1 + 1) with (ai + 1 + Z.of_nat 1) by lia. }
    erewrite state_bind_ok.
    2:{ apply (predecode_plain_atom classes buf count rt fl bo fuel (Binarizer.Num n));
          [cbn; unfold safe; lia | exact Hatom]. }
    cbn [atom_bytes]. rewrite (proj2 (Z.ltb_ge n 0)) by lia.
    rewrite create_ok. do 3 f_equal. lia.
  - apply (decodeNext_top classes buf count rt fl bo full fuel Binarizer.OBJECT);
      [done | done |].
    cbn [Binarizer.decode_with].
    erewrite state_bind_ok
      by (by apply (decode_pointer classes buf count rt fl bo fuel p)).
    rewrite Hfull. cbn [default]. unfold id. cbv beta iota. rewrite Hr, Hcoder.
    unfold Binarizer.decoded_at. cbn [Binarizer.decoded st].
    by replace (ai + 1 + 1) with (ai + 2) by lia.
Qed.

Lemma decode_wrapper_leaves_atom_witness :
  let buf := [9; 4; 1; 165; 17; 28; 162; 2; 64; 106; 115; 46; 78; 117; 109; 98; 101; 114;
              0; 2; 2; 3; 0; 5; 1; 7] in
  let fl := [165; 17; 28; 162; 2] in
  let dec := [Some (Binarizer.Str "@js.Number"); Some (Binarizer.Ref 0)] in
  let cr := [Binarizer.Array [Binarizer.Undefined; Binarizer.Undefined]] in
  Binarizer.predecodeNext [] 3 true (st buf 4 1 fl 8 22 4 (Z.of_nat (length dec)) dec cr)
  = Ok (Binarizer.Ref (length cr),
        st buf 4 1 fl 8 (22 + length (varint 0) + length (varint 5)) (4 + 3)
           (Z.of_nat (length dec) + 1) (dec ++ [Some (Binarizer.Ref (length cr))])
           (cr ++ [Binarizer.NumberObject (Binarizer.Num 5)])) ∧
  Binarizer.decodeNext [] 3 true (st buf 4 1 fl 8 22 4 2 dec cr)
  = Ok (default Binarizer.Undefined (array_get dec 2),
        st buf 4 1 fl 8 (22 + length (varint 0)) (4 + 2) (2 + 1) dec cr).
Proof.
  intros buf fl dec cr.
  eapply (decode_wrapper_leaves_atom [] buf 4 1 fl 8 1 0 5 22 4 2 dec dec cr cr).
  - reflexivity.
  - reflexivity.
  - unfold Binarizer.MAX_SAFE_INTEGER. lia.
  - cbn. lia.
  - reflexivity.
  - reflexivity.
  - unfold Binarizer.MAX_SAFE_INTEGER. lia.
  - split.
    + intros [| [| [| j]]] c Hc; cbn in Hc; try discriminate;
        injection Hc as <-; vm_compute; reflexivity.
    + exists [1; 7]. reflexivity.
Defined.

(** * The serializer: properties of the code *)

Section serializer_properties.
Import Binarizer.

Lemma digits_bound j k n :
  0 ≤ n < 128 ^ Z.of_nat (S j) → (j ≤ k)%nat → (length (digits k n) ≤ S j)%nat.
Proof.
  revert k n. induction j as [| j IH]; intros k n Hn Hk.
  - rewrite digits_small; [cbn; lia |]. change (128 ^ Z.of_nat 1) with 128 in Hn. lia.
  - destruct k as [| k]; [lia |]. cbn [digits].
    destruct (Z.ltb_spec n 128); [cbn; lia |]. cbn [length].
    apply le_n_S, IH; [| lia].
    rewrite (Nat2Z.inj_succ (S j)), Z.pow_succ_r in Hn by lia.
    split; [apply Z.div_pos; lia |]. apply Z.div_lt_upper_bound; lia.
Qed.

(** A number written by [pushVarint] takes one to eight bytes, and
    [readVarint] at its first byte returns the number and stops behind
    its last byte, whatever follows. *)
Theorem varint_write_read (w post : list Z) (n : Z) :
  0 ≤ n ≤ MAX_SAFE_INTEGER →
  ∃ bs, pushVarint w n = Ok (w ++ bs) ∧ (1 ≤ length bs ≤ 8)%nat ∧
        readVarint (w ++ bs ++ post) (length w) = Ok (n, (length w + length bs)%nat).
Proof.
  intros Hn. exists (varint n). split; [by apply pushVarint_spec |]. split.
  - split; [apply varint_length |]. apply (digits_bound 7); [| lia].
    unfold MAX_SAFE_INTEGER in Hn. change (128 ^ Z.of_nat 8) with 72057594037927936. lia.
  - by apply readVarint_spec.
Qed.

Lemma varint_write_read_witness :
  ∃ bs, pushVarint [7] 300 = Ok ([7] ++ bs) ∧ (1 ≤ length bs ≤ 8)%nat ∧
        readVarint ([7] ++ bs ++ [9]) (length [7]) = Ok (300, (length [7] + length bs)%nat).
Proof. apply (varint_write_read [7] [9] 300). unfold MAX_SAFE_INTEGER. lia. Defined.

Lemma readVarint_loop_open fuel buf off number (j : nat) :
  (∀ i b, buf !! (off + i)%nat = Some b → 128 ≤ b) → (8 - j < fuel)%nat →
  readVarint_loop fuel buf off number (7 * Z.of_nat j) = Err Malformed.
Proof.
  revert off number j. induction fuel as [| fuel IH]; intros off number j Hb Hf; [lia |].
  cbn [readVarint_loop]. destruct (Z.ltb_spec 49 (7 * Z.of_nat j)); [done |].
  unfold readUint8. destruct (buf !! off) as [b |] eqn:Hoff; [| done].
  cbn [mbind result_bind].
  rewrite (proj2 (Z.leb_le 128 b)) by (apply (Hb 0%nat); by rewrite Nat.add_0_r).
  replace (7 * Z.of_nat j + 7) with (7 * Z.of_nat (S j)) by lia.
  apply IH; [| lia]. intros i b' Hi. apply (Hb (S i)).
  by replace (off + S i)%nat with (S off + i)%nat by lia.
Qed.

(** [readVarint] throws when every byte from the offset to the end of
    the buffer has its high bit set: the number is cut off, or it goes
    on after eight bytes. *)
Theorem readVarint_unfinished (buf : list Z) (off : nat) :
  (∀ i b, buf !! (off + i)%nat = Some b → 128 ≤ b) →
  readVarint buf off = Err Malformed.
Proof.
  intros Hb. unfold readVarint.
  apply (readVarint_loop_open 9 buf off 0 0%nat); [done | lia].
Qed.

Lemma readVarint_unfinished_witness :
  readVarint [1; 200; 255] 1 = Err Malformed.
Proof.
  apply (readVarint_unfinished [1; 200; 255] 1).
  intros [| [| i]] b Hb; cbn in Hb; try done; injection Hb as <-; lia.
Defined.



Lemma utf8_app s1 s2 : utf8 (s1 +:+ s2) = utf8 s1 ++ utf8 s2.
Proof.
  induction s1 as [| c s1 IH]; [done |].
  change (String c s1 +:+ s2) with (String c (s1 +:+ s2)).
  by rewrite !utf8_cons, IH, app_assoc.
Qed.



(** [CountMap.flatten] returns the keys of the map, each one once,
    a key with a greater count before a key with a smaller one. *)
Theorem flatten_by_count (m : CountMap) :
  NoDup m.*1 →
  flatten m ≡ₚ m.*1 ∧
  ∀ (i j : nat) k1 k2 c1 c2,
    (i < j)%nat → flatten m !! i = Some k1 → flatten m !! j = Some k2 →
    count_get m k1 = Some c1 → count_get m k2 = Some c2 → c2 ≤ c1.
Proof.
  intros Hnd. split; [apply flatten_perm |].
  intros i j k1 k2 c1 c2 Hij H1 H2 Hc1 Hc2.
  unfold flatten in H1, H2. rewrite list_lookup_fmap in H1, H2.
  destruct (sort_counts m !! i) as [[k1' d1] |] eqn:E1; [| done].
  destruct (sort_counts m !! j) as [[k2' d2] |] eqn:E2; [| done].
  cbn in H1, H2. injection H1 as ->. injection H2 as ->.
  pose proof (sort_counts_descending m i j _ _ Hij E1 E2) as Hd. cbn in Hd.
  assert (Hg : ∀ k d n, sort_counts m !! n = Some (k, d) → count_get m k = Some d).
  { intros k d n Hn. apply assoc_get_NoDup; [done |]. rewrite <- sort_counts_perm.
    by eapply list_elem_of_lookup_2. }
  rewrite (Hg _ _ _ E1) in Hc1. rewrite (Hg _ _ _ E2) in Hc2. congruence.
Qed.

Lemma flatten_by_count_witness :
  flatten [(Num 1, 2); (Num 2, 5)] ≡ₚ [Num 1; Num 2] ∧
  ∀ (i j : nat) k1 k2 c1 c2,
    (i < j)%nat → flatten [(Num 1, 2); (Num 2, 5)] !! i = Some k1 →
    flatten [(Num 1, 2); (Num 2, 5)] !! j = Some k2 →
    count_get [(Num 1, 2); (Num 2, 5)] k1 = Some c1 →
    count_get [(Num 1, 2); (Num 2, 5)] k2 = Some c2 → c2 ≤ c1.
Proof.
  apply (flatten_by_count [(Num 1, 2); (Num 2, 5)]). cbn.
  apply NoDup_cons. split; [| apply NoDup_singleton].
  intros H. apply list_elem_of_singleton in H. discriminate.
Defined.


Lemma cyclic_supported : supported [Samples.point_class] Samples.cyclic.
Proof.
  split.
  - repeat constructor.
  - apply Forall_cons_2; [| apply Forall_cons_2; [| apply Forall_nil_2]].
    + cbn. repeat apply Forall_cons_2; try apply Forall_nil_2; by eexists.
    + exists Samples.point_class. cbn.
      split; [done |]. split; [done |]. split; [done |].
      split; [repeat split; discriminate |]. split; [done |]. split.
      * apply NoDup_cons. split; [| apply NoDup_singleton].
        intros H. apply list_elem_of_singleton in H. discriminate.
      * repeat apply Forall_cons_2; try apply Forall_nil_2; [| by eexists].
        cbn. unfold safe, MAX_SAFE_INTEGER. lia.
  - vm_compute. reflexivity.
Qed.




Lemma foldM_add_null classes h ix vs :
  Null ∈ vs → (∀ b, Ref b ∈ vs → is_Some (h !! b)) →
  foldM (add classes h) ix vs = Err TypeError.
Proof.
  revert ix. induction vs as [| v vs IH]; intros ix Hn Hr; [by apply elem_of_nil in Hn |].
  cbn [foldM].
  assert (Hrest : ∀ ix', Null ≠ v → foldM (add classes h) ix' vs = Err TypeError).
  { intros ix' Hv. apply IH.
    - apply elem_of_cons in Hn as [Hn | Hn]; done.
    - intros b Hb. apply Hr. by apply list_elem_of_further. }
  destruct v as [| | b | n | bytes | s | b]; try (cbn; by apply Hrest).
  - done.
  - cbn [add]. destruct (2 <? String.length s)%nat; cbn; by apply Hrest.
  - cbn [add]. destruct (count_has (refcount ix) (Ref b)); [cbn; by apply Hrest |].
    destruct (Hr b (list_elem_of_here _ _)) as [o Ho].
    unfold object_at. rewrite Ho. cbn. by apply Hrest.
Qed.

(** [encode] throws a TypeError for an array that holds [null]: the
    Indexer takes the prototype of each object that it meets, and [null]
    is an object without one. *)
Theorem encode_null_in_array classes h a items :
  h !! a = Some (Array items) → Null ∈ items →
  (∀ b, Ref b ∈ items → is_Some (h !! b)) →
  encode classes h (Ref a) = Err TypeError.
Proof.
  intros Ha Hn Hr. unfold encode, index.
  assert (Hadd : ∃ rc, add classes h (mkIndexer [] []) (Ref a) = Ok (mkIndexer rc [a])).
  { cbn. unfold object_at. rewrite Ha. cbn. by eexists. }
  destruct Hadd as [rc ->]. cbn [mbind result_bind].
  pose proof (lookup_lt_Some _ _ _ Ha) as Hlt.
  destruct (length h) as [| n] eqn:Hlen; [lia |].
  cbn [index_loop queue]. unfold object_at. rewrite Ha. cbn [mbind result_bind children].
  by rewrite foldM_add_null.
Qed.

Lemma encode_null_in_array_witness :
  encode [] Samples.holds_null (Ref 0) = Err TypeError.
Proof.
  apply (encode_null_in_array [] Samples.holds_null 0 [Null]).
  - reflexivity.
  - apply list_elem_of_here.
  - intros b Hb. apply list_elem_of_singleton in Hb. discriminate.
Defined.

End serializer_properties.

(** ** The serializer at sample values *)

(** C1, where the code leaves the specification: the coder registered
    for [Number] reads its value in [predecode] only, so that the second
    pass of [decode] is one atom behind after a wrapper.  The array
    [[new Number(5), [7]]] is encoded with the table
    ["@js.Number", the array, the wrapper, [7]], and decodes to an array
    whose inner array has lost its element.  And [encode] throws a
    TypeError on [[null]], as the Indexer asks for the prototype of
    [null]. *)
Lemma decode_after_wrapper_is_one_atom_behind :
  Binarizer.encode [] Samples.boxed_number (Binarizer.Ref 0)
    = Ok [9; 4; 1; 165; 17; 28; 162; 2;
          64; 106; 115; 46; 78; 117; 109; 98; 101; 114; 0;
          2; 2; 3; 0; 5; 1; 7] ∧
  Binarizer.decode []
      [9; 4; 1; 165; 17; 28; 162; 2;
       64; 106; 115; 46; 78; 117; 109; 98; 101; 114; 0;
       2; 2; 3; 0; 5; 1; 7]
    = Ok (Binarizer.Ref 0,
          [ Binarizer.Array [Binarizer.Ref 1; Binarizer.Ref 2];
            Binarizer.NumberObject (Binarizer.Num 5);
            Binarizer.Array [Binarizer.Undefined] ]) ∧
  Binarizer.encode [] Samples.holds_null (Binarizer.Ref 0) = Err TypeError.
Proof. split; [| split]; vm_compute; reflexivity. Qed.
